(** * Kernel generation for elementwise and reduction operations

    A shallow embedding of [pytensor/link/numba/dispatch/elemwise.py]: the
    scalar in-place update fragments, the single-axis and multi-axis
    reducers, the in-place elementwise wrapper, the [DimShuffle] kernel and
    the max-and-argmax kernel, together with the properties stated about
    them.

    Generated Python source is represented by its syntax tree (with a
    printer giving back the text of the source's templates) and run by an
    interpreter over arrays stored in row-major order. *)

From Stdlib Require Import String Ascii DecimalString DecimalNat.
From Stdlib Require Import Bool Arith ZArith QArith Qround Lia.
From Stdlib Require Import List Permutation Sorted.
Import ListNotations.

Set Implicit Arguments.

Local Open Scope nat_scope.
Local Open Scope list_scope.

(** ** Errors and fallible computations *)

(** The Python exceptions the modelled code can raise. [AxisError] is
    NumPy's subclass of [ValueError] raised by [normalize_axis_index]. *)
Inductive error : Type :=
| NotImplementedError
| AxisError
| ValueError
| IndexError
| TypeError
| OverflowError
| NameError
| KeyError.

Inductive result (A : Type) : Type :=
| Ok (a : A)
| Err (e : error).

Arguments Ok {A} a.
Arguments Err {A} e.

Definition bind {A B : Type} (r : result A) (f : A -> result B) : result B :=
  match r with
  | Ok a => f a
  | Err e => Err e
  end.

Notation "x <- c1 ;; c2" := (bind c1 (fun x => c2))
  (at level 61, c1 at next level, right associativity).

Definition of_option {A : Type} (e : error) (o : option A) : result A :=
  match o with
  | Some a => Ok a
  | None => Err e
  end.

Definition is_ok {A : Type} (r : result A) : bool :=
  match r with
  | Ok _ => true
  | Err _ => false
  end.

(** A [for] loop whose body may raise. *)
Fixpoint foldM {S B : Type} (body : S -> B -> result S) (l : list B) (s : S)
  : result S :=
  match l with
  | [] => Ok s
  | b :: l' => s' <- body s b ;; foldM body l' s'
  end.

Fixpoint mapM {B C : Type} (f : B -> result C) (l : list B) : result (list C) :=
  match l with
  | [] => Ok []
  | b :: l' => c <- f b ;; cs <- mapM f l' ;; Ok (c :: cs)
  end.

(** ** Arrays in row-major order *)

Record ndarray (A : Type) : Type := mk_ndarray {
  shape : list nat;
  data : list A
}.

Arguments mk_ndarray {A} shape data.

(** What a kernel receives or returns: a bare scalar or an array. *)
Inductive value (A : Type) : Type :=
| VScalar (a : A)
| VArray (arr : ndarray A).

Arguments VScalar {A} a.
Arguments VArray {A} arr.

(** [np.prod] of a shape. *)
Definition size_of (s : list nat) : nat := fold_right Nat.mul 1 s.

Definition well_formed {A : Type} (a : ndarray A) : Prop :=
  length (data a) = size_of (shape a).

Definition ndim_of {A : Type} (a : ndarray A) : nat := length (shape a).

Definition value_rank {A : Type} (v : value A) : nat :=
  match v with
  | VScalar _ => 0
  | VArray a => ndim_of a
  end.

Definition value_data {A : Type} (v : value A) : list A :=
  match v with
  | VScalar a => [a]
  | VArray a => data a
  end.

Definition value_wf {A : Type} (v : value A) : Prop :=
  match v with
  | VScalar _ => True
  | VArray a => well_formed a
  end.

(** Offset of a multi-index in the row-major storage of shape [s]. *)
Fixpoint ravel (s idx : list nat) : nat :=
  match s, idx with
  | _ :: s', i :: idx' => i * size_of s' + ravel s' idx'
  | _, _ => 0
  end.

Fixpoint in_boundsb (idx s : list nat) : bool :=
  match idx, s with
  | [], [] => true
  | i :: idx', d :: s' => (i <? d) && in_boundsb idx' s'
  | _, _ => false
  end.

(** [np.ndindex(s)]: every multi-index of shape [s], last axis fastest. *)
Fixpoint ndindex (s : list nat) : list (list nat) :=
  match s with
  | [] => [[]]
  | d :: s' => flat_map (fun i => map (cons i) (ndindex s')) (seq 0 d)
  end.

(** [a[idx]] with a full multi-index. *)
Definition getitem {A : Type} (a : ndarray A) (idx : list nat) : result A :=
  if in_boundsb idx (shape a)
  then of_option IndexError (nth_error (data a) (ravel (shape a) idx))
  else Err IndexError.

(** [a[k] = v] on the flat storage. *)
Fixpoint list_set {A : Type} (l : list A) (k : nat) (v : A) : result (list A) :=
  match l, k with
  | [], _ => Err IndexError
  | _ :: l', 0 => Ok (v :: l')
  | x :: l', S k' => l'' <- list_set l' k' v ;; Ok (x :: l'')
  end.

Definition setitem {A : Type} (a : ndarray A) (idx : list nat) (v : A)
  : result (ndarray A) :=
  if in_boundsb idx (shape a)
  then d <- list_set (data a) (ravel (shape a) idx) v ;;
       Ok (mk_ndarray (shape a) d)
  else Err IndexError.

(** [np.full(s, v)]. *)
Definition np_full {A : Type} (s : list nat) (v : A) : ndarray A :=
  mk_ndarray s (repeat v (size_of s)).

(** [np.asarray]: a scalar becomes a zero-dimensional array of one element. *)
Definition np_asarray {A : Type} (v : value A) : ndarray A :=
  match v with
  | VScalar a => mk_ndarray [] [a]
  | VArray arr => arr
  end.

(** [arr.item()]: the single element of a one-element array. *)
Definition item {A : Type} (a : ndarray A) : result A :=
  match data a with
  | [v] => Ok v
  | _ => Err ValueError
  end.

(** [np.reshape] of a contiguous array: the storage is kept. *)
Definition np_reshape {A : Type} (a : ndarray A) (s : list nat)
  : result (ndarray A) :=
  if size_of s =? length (data a)
  then Ok (mk_ndarray s (data a))
  else Err ValueError.

Fixpoint index_of (x : nat) (l : list nat) : option nat :=
  match l with
  | [] => None
  | y :: l' => if x =? y then Some 0
               else match index_of x l' with
                    | Some k => Some (S k)
                    | None => None
                    end
  end.

Definition memb (x : nat) (l : list nat) : bool :=
  existsb (Nat.eqb x) l.

(** [axes] names each of [0 .. n-1] exactly once. *)
Definition is_permutation (axes : list nat) (n : nat) : bool :=
  (length axes =? n) && forallb (fun k => memb k axes) (seq 0 n).

(** The index into the source array read at index [j] of the transposed
    array: entry [axes[k]] of the result is [j[k]]. *)
Definition transpose_source (axes j : list nat) : list nat :=
  map (fun ax => match index_of ax axes with
                 | Some k => nth k j 0
                 | None => 0
                 end) (seq 0 (length axes)).

(** [np.ascontiguousarray(np.transpose(a, axes))]: the transposed array
    laid out afresh in row-major order. *)
Definition np_transpose {A : Type} (a : ndarray A) (axes : list nat)
  : result (ndarray A) :=
  if is_permutation axes (ndim_of a)
  then
    let s := map (fun ax => nth ax (shape a) 0) axes in
    d <- mapM (fun j => getitem a (transpose_source axes j)) (ndindex s) ;;
    Ok (mk_ndarray s d)
  else Err ValueError.

(** ** Scalar operators and their in-place update fragments *)

(** The scalar [Op] classes [scalar_in_place_fn] dispatches on. [OtherOp]
    stands for every class with no registered implementation. *)
Inductive ScalarOp : Type :=
| Add | Sub | Mean | Mul | MulWithoutZeros
| AND | OR | XOR | TrueDiv | IntDiv
| ScalarMaximum | ScalarMinimum
| OtherOp (name : string).

Inductive binop : Type :=
| BAdd | BSub | BMul | BTrueDiv | BFloorDiv | BAnd | BOr | BXor.

Inductive cmpop : Type := CLt | CGt | CEq.

(** Expressions of the generated update statements. [ECell res idx] is the
    text [res[idx]], [EText arr] the operand text spliced in as it is,
    [ELoopI] the name [i] of the enclosing loop's counter. *)
Inductive expr : Type :=
| ECell (res idx : string)
| EText (arr : string)
| ELoopI
| ENum (n : Z)
| EParen (e : expr)
| EBin (o : binop) (a b : expr)
| EIfElse (a : expr) (o : cmpop) (c1 c2 : expr) (b : expr).

Inductive stmt : Type :=
| SAug (o : binop) (res idx : string) (e : expr)
| SAssign (res idx : string) (e : expr)
| SIf (o : cmpop) (c1 c2 : expr) (body : stmt).

(** [scalar_in_place_fn]: single dispatch on the operator's class; the
    base implementation raises [NotImplementedError]. *)
Definition scalar_in_place_fn (op : ScalarOp) (idx res arr : string)
  : result stmt :=
  match op with
  | Add => Ok (SAug BAdd res idx (EText arr))
  | Sub => Ok (SAug BSub res idx (EText arr))
  | Mean =>
      Ok (SAug BAdd res idx
            (EBin BTrueDiv
               (EParen (EBin BSub (EText arr) (ECell res idx)))
               (EParen (EBin BAdd ELoopI (ENum 1)))))
  | Mul => Ok (SAug BMul res idx (EText arr))
  | MulWithoutZeros =>
      Ok (SAssign res idx
            (EIfElse (EText arr) CEq (ECell res idx) (ENum 0)
               (EParen (EIfElse (ECell res idx) CEq (EText arr) (ENum 0)
                          (EBin BMul (ECell res idx) (EText arr))))))
  | AND => Ok (SAug BAnd res idx (EText arr))
  | OR => Ok (SAug BOr res idx (EText arr))
  | XOR => Ok (SAug BXor res idx (EText arr))
  | TrueDiv => Ok (SAug BTrueDiv res idx (EText arr))
  | IntDiv => Ok (SAug BFloorDiv res idx (EText arr))
  | ScalarMaximum =>
      Ok (SIf CLt (ECell res idx) (EText arr) (SAssign res idx (EText arr)))
  | ScalarMinimum =>
      Ok (SIf CGt (ECell res idx) (EText arr) (SAssign res idx (EText arr)))
  | OtherOp _ => Err NotImplementedError
  end.

(** *** The text of a fragment *)

Definition newline : string := String (ascii_of_nat 10) EmptyString.

Definition string_of_nat (n : nat) : string :=
  NilEmpty.string_of_uint (Nat.to_uint n).

Definition string_of_Z (z : Z) : string :=
  NilEmpty.string_of_int (Z.to_int z).

Definition binop_text (o : binop) : string :=
  match o with
  | BAdd => "+" | BSub => "-" | BMul => "*" | BTrueDiv => "/"
  | BFloorDiv => "//" | BAnd => "&" | BOr => "|" | BXor => "^"
  end.

Definition cmpop_text (o : cmpop) : string :=
  match o with
  | CLt => "<" | CGt => ">" | CEq => "=="
  end.

Fixpoint render_expr (e : expr) : string :=
  match e with
  | ECell res idx => res ++ "[" ++ idx ++ "]"
  | EText arr => arr
  | ELoopI => "i"
  | ENum n => string_of_Z n
  | EParen e' => "(" ++ render_expr e' ++ ")"
  | EBin o a b => render_expr a ++ " " ++ binop_text o ++ " " ++ render_expr b
  | EIfElse a o c1 c2 b =>
      render_expr a ++ " if " ++ render_expr c1 ++ " " ++ cmpop_text o ++ " "
        ++ render_expr c2 ++ " else " ++ render_expr b
  end.

Fixpoint render_stmt (s : stmt) : string :=
  match s with
  | SAug o res idx e =>
      res ++ "[" ++ idx ++ "] " ++ binop_text o ++ "= " ++ render_expr e
  | SAssign res idx e => res ++ "[" ++ idx ++ "] = " ++ render_expr e
  | SIf o c1 c2 body =>
      newline ++ "if " ++ render_expr c1 ++ " " ++ cmpop_text o ++ " "
        ++ render_expr c2 ++ ":" ++ newline ++ "    " ++ render_stmt body
        ++ newline
  end.

(** *** Numbers *)

(** Python and NumPy numbers without rounding or overflow: the rationals
    with the two infinities and NaN. *)
Inductive xnum : Type :=
| Num (q : Q)
| PInf
| NInf
| NaN.

(** The literal standing for the identity in a generated reducer: [str] of
    the identity, with ["inf"] and ["-inf"] replaced by [np.inf] and
    [-np.inf]. *)
Inductive id_literal : Type :=
| LNpInf
| LNegNpInf
| LText (v : xnum).

(** The element type of the arrays a kernel runs on: what the generated
    statements need from a dtype. *)
Class Scalar (A : Type) : Type := {
  s_binop : binop -> A -> A -> A;
  s_cmp : cmpop -> A -> A -> bool;
  s_isnan : A -> bool;
  (** a Python integer entering an operation with an element *)
  s_of_Z : Z -> A;
  (** [numba_basic.to_scalar(literal)] stored by [np.full] *)
  s_of_literal : id_literal -> A
}.

(** *** Running a fragment *)

(** Sub-expressions made of Python integers only are computed on integers. *)
Fixpoint eval_int (i : nat) (e : expr) : option Z :=
  match e with
  | ELoopI => Some (Z.of_nat i)
  | ENum n => Some n
  | EParen e' => eval_int i e'
  | EBin BAdd a b =>
      match eval_int i a, eval_int i b with
      | Some x, Some y => Some (x + y)%Z
      | _, _ => None
      end
  | _ => None
  end.

Section Fragments.
Context {A : Type} `{Scalar A}.

(** [acc] is the value of [res[idx]], [x] the operand's and [i] the loop
    counter's. *)
Fixpoint eval_expr (acc x : A) (i : nat) (e : expr) : A :=
  match eval_int i e with
  | Some z => s_of_Z z
  | None =>
      match e with
      | ECell _ _ => acc
      | EText _ => x
      | ELoopI => s_of_Z (Z.of_nat i)
      | ENum n => s_of_Z n
      | EParen e' => eval_expr acc x i e'
      | EBin o a b => s_binop o (eval_expr acc x i a) (eval_expr acc x i b)
      | EIfElse a o c1 c2 b =>
          if s_cmp o (eval_expr acc x i c1) (eval_expr acc x i c2)
          then eval_expr acc x i a
          else eval_expr acc x i b
      end
  end.

(** The value of [res[idx]] after the statement. *)
Fixpoint exec_stmt (acc x : A) (i : nat) (s : stmt) : A :=
  match s with
  | SAug o _ _ e => s_binop o acc (eval_expr acc x i e)
  | SAssign _ _ e => eval_expr acc x i e
  | SIf o c1 c2 body =>
      if s_cmp o (eval_expr acc x i c1) (eval_expr acc x i c2)
      then exec_stmt acc x i body
      else acc
  end.
End Fragments.

(** *** Arithmetic of [xnum] *)

Definition xsgn (x : xnum) : Z :=
  match x with
  | Num q => Z.sgn (Qnum q)
  | PInf => 1
  | NInf => (-1)
  | NaN => 0
  end.

Definition inf_of_sign (s : Z) : xnum :=
  match s with
  | Z0 => NaN
  | Zpos _ => PInf
  | Zneg _ => NInf
  end.

Definition xneg (x : xnum) : xnum :=
  match x with
  | Num q => Num (- q)
  | PInf => NInf
  | NInf => PInf
  | NaN => NaN
  end.

Definition xadd (x y : xnum) : xnum :=
  match x, y with
  | NaN, _ | _, NaN => NaN
  | Num a, Num b => Num (a + b)
  | PInf, NInf | NInf, PInf => NaN
  | PInf, _ | _, PInf => PInf
  | NInf, _ | _, NInf => NInf
  end.

Definition xsub (x y : xnum) : xnum := xadd x (xneg y).

Definition xmul (x y : xnum) : xnum :=
  match x, y with
  | NaN, _ | _, NaN => NaN
  | Num a, Num b => Num (a * b)
  | _, _ => inf_of_sign (xsgn x * xsgn y)
  end.

(** Division as NumPy performs it on inexact operands: a zero divisor
    gives an infinity or NaN. *)
Definition xdiv (x y : xnum) : xnum :=
  match x, y with
  | NaN, _ | _, NaN => NaN
  | Num a, Num b =>
      if Qeq_bool b 0 then inf_of_sign (xsgn x) else Num (a / b)
  | Num _, _ => Num 0
  | _, Num b => inf_of_sign (xsgn x * (if (Qnum b <? 0)%Z then -1 else 1))
  | _, _ => NaN
  end.

Definition xfloordiv (x y : xnum) : xnum :=
  match x, y with
  | Num a, Num b =>
      if Qeq_bool b 0 then inf_of_sign (xsgn x)
      else Num (inject_Z (Qfloor (a / b)))
  | Num a, (PInf | NInf) =>
      if (xsgn x * xsgn y <? 0)%Z then Num (inject_Z (-1)) else Num 0
  | _, _ => NaN
  end.

Definition is_integral (q : Q) : bool := Qeq_bool q (inject_Z (Qfloor q)).

(** Bitwise operators act on integers. *)
Definition xbitwise (f : Z -> Z -> Z) (x y : xnum) : xnum :=
  match x, y with
  | Num a, Num b =>
      if is_integral a && is_integral b
      then Num (inject_Z (f (Qfloor a) (Qfloor b)))
      else NaN
  | _, _ => NaN
  end.

Definition xltb (x y : xnum) : bool :=
  match x, y with
  | NaN, _ | _, NaN => false
  | Num a, Num b => negb (Qle_bool b a)
  | NInf, NInf => false
  | NInf, _ => true
  | _, PInf => match x with PInf => false | _ => true end
  | _, _ => false
  end.

Definition xeqb (x y : xnum) : bool :=
  match x, y with
  | Num a, Num b => Qeq_bool a b
  | PInf, PInf => true
  | NInf, NInf => true
  | _, _ => false
  end.

Definition xnum_binop (o : binop) : xnum -> xnum -> xnum :=
  match o with
  | BAdd => xadd
  | BSub => xsub
  | BMul => xmul
  | BTrueDiv => xdiv
  | BFloorDiv => xfloordiv
  | BAnd => xbitwise Z.land
  | BOr => xbitwise Z.lor
  | BXor => xbitwise Z.lxor
  end.

Definition xnum_cmp (o : cmpop) (x y : xnum) : bool :=
  match o with
  | CLt => xltb x y
  | CGt => xltb y x
  | CEq => xeqb x y
  end.

Definition xnum_of_literal (l : id_literal) : xnum :=
  match l with
  | LNpInf => PInf
  | LNegNpInf => NInf
  | LText v => v
  end.

#[export] Instance xnum_Scalar : Scalar xnum := {
  s_binop := xnum_binop;
  s_cmp := xnum_cmp;
  s_isnan := fun x => match x with NaN => true | _ => false end;
  s_of_Z := fun z => Num (inject_Z z);
  s_of_literal := xnum_of_literal
}.

(** Numerical equality of two numbers (NaN equals nothing). *)
Definition xnum_eq (x y : xnum) : Prop :=
  match x, y with
  | Num a, Num b => a == b
  | PInf, PInf => True
  | NInf, NInf => True
  | _, _ => False
  end.

(** ** NumPy's axis normalisation *)

(** [numpy.core.numeric.normalize_axis_index]: an axis in [[-ndim, ndim)]
    becomes its non-negative equivalent, any other raises [AxisError]. *)
Definition normalize_axis_index (axis : Z) (ndim : nat) : result nat :=
  if ((- Z.of_nat ndim <=? axis) && (axis <? Z.of_nat ndim))%Z
  then Ok (Z.to_nat (if (axis <? 0)%Z then axis + Z.of_nat ndim else axis))
  else Err AxisError.

Fixpoint has_dup (l : list nat) : bool :=
  match l with
  | [] => false
  | x :: l' => memb x l' || has_dup l'
  end.

(** [numpy.core.numeric.normalize_axis_tuple] on a sequence of axes: each
    one is normalised, and a repeated axis raises [ValueError]
    (["repeated axis"]). *)
Definition normalize_axis_tuple (axes : list Z) (ndim : nat)
  : result (list nat) :=
  l <- mapM (fun ax => normalize_axis_index ax ndim) axes ;;
  if has_dup l then Err ValueError else Ok l.

(** [sorted] on a list of integers. *)
Fixpoint insert_sorted (x : nat) (l : list nat) : list nat :=
  match l with
  | [] => [x]
  | y :: l' => if x <=? y then x :: l else y :: insert_sorted x l'
  end.

Definition sorted (l : list nat) : list nat :=
  fold_right insert_sorted [] l.

(** ** The single-axis reducer *)

(** NumPy dtypes. *)
Inductive np_dtype : Type :=
| bool_
| int8 | int16 | int32 | int64
| uint8 | uint16 | uint32 | uint64
| float16 | float32 | float64
| complex64 | complex128.

Definition identity_literal (identity : xnum) : id_literal :=
  match identity with
  | PInf => LNpInf
  | NInf => LNegNpInf
  | v => LText v
  end.

(** One index of the generated subscripts: the loop counter [i] or
    [idx_arr[count]]. *)
Inductive index_term : Type :=
| ILoop
| IArr (count : nat).

Definition render_index_term (t : index_term) : string :=
  match t with
  | ILoop => "i"
  | IArr count => "idx_arr[" ++ string_of_nat count ++ "]"
  end.

(** [", ".join]. *)
Fixpoint join_comma (l : list string) : string :=
  match l with
  | [] => EmptyString
  | [s] => s
  | s :: l' => s ++ ", " ++ join_comma l'
  end.

(** The loop of [create_axis_reducer] that builds the subscripts of [res]
    and of [x]: the state is [(res_indices, arr_indices, count)]. *)
Definition index_lists_step (axis : nat)
    (st : list index_term * list index_term * nat) (i : nat)
  : list index_term * list index_term * nat :=
  let '(res_indices, arr_indices, count) := st in
  if i =? axis
  then (res_indices, arr_indices ++ [ILoop], count)
  else (res_indices ++ [IArr count], arr_indices ++ [IArr count], S count).

Definition index_lists (axis ndim : nat)
  : list index_term * list index_term * nat :=
  fold_left (index_lists_step axis) (seq 0 ndim) ([], [], 0).

(** The source of a generated [careduce_axis]: the template for more than
    one dimension, with its subscripts, or the one-dimensional template. *)
Inductive reducer_src : Type :=
| ReduceND (axis ndim : nat) (identity : id_literal) (out_dtype : np_dtype)
           (res_indices arr_indices : list index_term)
           (inplace_update_statement : stmt) (keepdims : bool)
| Reduce1D (axis : nat) (identity : id_literal) (out_dtype : np_dtype)
           (inplace_update_statement : stmt) (keepdims : bool).

Definition create_axis_reducer (scalar_op : ScalarOp) (identity : xnum)
    (axis : Z) (ndim : nat) (dtype : np_dtype) (keepdims : bool)
  : result reducer_src :=
  axis <- normalize_axis_index axis ndim ;;
  let identity := identity_literal identity in
  if 1 <? ndim then
    let '(res_indices, arr_indices, _) := index_lists axis ndim in
    inplace_update_statement <-
      scalar_in_place_fn scalar_op
        (join_comma (map render_index_term res_indices)) "res"
        ("x[" ++ join_comma (map render_index_term arr_indices) ++ "]") ;;
    Ok (ReduceND axis ndim identity dtype res_indices arr_indices
          inplace_update_statement keepdims)
  else
    inplace_update_statement <- scalar_in_place_fn scalar_op "0" "res" "x[i]" ;;
    Ok (Reduce1D axis identity dtype inplace_update_statement keepdims).

(** *** Running a generated reducer *)

(** The value of a subscript list given [idx_arr] and [i]. *)
Definition eval_indices (ts : list index_term) (idx_arr : list nat) (i : nat)
  : result (list nat) :=
  mapM (fun t => match t with
                 | ILoop => Ok i
                 | IArr count => of_option IndexError (nth_error idx_arr count)
                 end) ts.

(** [res_shape_tuple_ctor]: the tuple of
    [shape[i] if i < axis else shape[i + 1]] for [i] below [ndim - 1]. *)
Definition res_shape_tuple_ctor (axis ndim : nat) (x_shape : list nat)
  : result (list nat) :=
  mapM (fun i => of_option IndexError
                   (nth_error x_shape (if i <? axis then i else i + 1)))
       (seq 0 (ndim - 1)).

(** [np.expand_dims(res, axis)]. *)
Definition np_expand_dims {A : Type} (a : ndarray A) (axis : nat) : ndarray A :=
  mk_ndarray (firstn axis (shape a) ++ 1 :: skipn axis (shape a)) (data a).

Section RunReducer.
Context {A : Type} `{Scalar A}.

(** One execution of the update statement on [res[res_idx]] and
    [x[arr_idx]]. *)
Definition update_cell (update : stmt) (x res : ndarray A)
    (res_idx arr_idx : list nat) (i : nat) : result (ndarray A) :=
  acc <- getitem res res_idx ;;
  operand <- getitem x arr_idx ;;
  setitem res res_idx (exec_stmt acc operand i update).

(** The run of a generated reducer. The elements are taken as the element
    type [A] has them and the reducer's [out_dtype] takes no part: over
    [xnum] the run is in exact arithmetic, that of an inexact accumulator
    up to rounding; the wrap-around of an integer accumulator is outside
    it. *)
Definition run_reducer (r : reducer_src) (v : value A) : result (value A) :=
  match v with
  | VScalar _ => Err TypeError
  | VArray x =>
      match r with
      | ReduceND axis ndim ident _ res_indices arr_indices update keepdims =>
          let x_shape := shape x in
          res_shape <- res_shape_tuple_ctor axis ndim x_shape ;;
          let res := np_full res_shape (s_of_literal ident) in
          axis_shape <- of_option IndexError (nth_error x_shape axis) ;;
          res <- foldM (fun res idx_arr =>
                   foldM (fun res i =>
                            res_idx <- eval_indices res_indices idx_arr i ;;
                            arr_idx <- eval_indices arr_indices idx_arr i ;;
                            update_cell update x res res_idx arr_idx i)
                         (seq 0 axis_shape) res)
                 (ndindex res_shape) res ;;
          Ok (VArray (if keepdims then np_expand_dims res axis else res))
      | Reduce1D axis ident _ update keepdims =>
          let res := np_full [1] (s_of_literal ident) in
          axis_shape <- of_option IndexError (nth_error (shape x) axis) ;;
          res <- foldM (fun res i => update_cell update x res [0] [i] i)
                       (seq 0 axis_shape) res ;;
          if keepdims then Ok (VArray res)
          else a <- item res ;; Ok (VScalar a)
      end
  end.
End RunReducer.

(** ** The multi-axis reducer *)

(** One generated line [target = fn(arg)]. *)
Record call_line : Type := mk_call_line {
  cl_target : string;
  cl_fn : string;
  cl_arg : string
}.

(** The source of a generated [careduce_<op>] with the environment it is
    compiled in: its parameter, its lines, the name it returns, and the
    compiled single-axis reducers by name. *)
Record careduce_src : Type := mk_careduce_src {
  cs_input_name : string;
  cs_lines : list call_line;
  cs_return : string;
  cs_global_env : list (string * reducer_src)
}.

(** What [create_multiaxis_reducer] returns: the single-axis reducer itself
    when there is one axis, a generated function otherwise. *)
Inductive careduce_fn : Type :=
| SingleAxis (r : reducer_src)
| MultiAxis (c : careduce_src).

(** The state of the loop of [create_multiaxis_reducer]. *)
Record loop_state : Type := mk_loop_state {
  ls_global_env : list (string * reducer_src);
  ls_ndim : nat;
  ls_var_name : string;
  ls_lines : list call_line
}.

Definition enumerate {B : Type} (l : list B) : list (nat * B) :=
  combine (seq 0 (length l)) l.

(** The names given to the i-th reducer and to its result. *)
Definition careducer_axes_fn_name (i : nat) : string :=
  "careduce_axes_fn_" ++ string_of_nat i.

Definition axis_res_name (i : nat) : string :=
  "axis_" ++ string_of_nat i ++ "_res".

Definition multiaxis_step (scalar_op : ScalarOp) (identity : xnum)
    (dtype : np_dtype) (st : loop_state) (ia : nat * nat) : result loop_state :=
  let '(i, axis) := ia in
  reducer_fn <- create_axis_reducer scalar_op identity (Z.of_nat axis)
                  (ls_ndim st) dtype false ;;
  let last_var_name := ls_var_name st in
  let var_name := axis_res_name i in
  Ok (mk_loop_state
        ((careducer_axes_fn_name i, reducer_fn) :: ls_global_env st)
        (ls_ndim st - 1)
        var_name
        (ls_lines st
           ++ [mk_call_line var_name (careducer_axes_fn_name i) last_var_name])).

(** The generated function is kept as its lines and environment; its
    name [careduce_{scalar_op}] and the compilation of its text are not
    part of the embedding, which describes the builds whose text Python
    accepts (the operator's name and [input_name] are identifiers). *)
Definition create_multiaxis_reducer (scalar_op : ScalarOp) (identity : xnum)
    (axes : list Z) (ndim : nat) (dtype : np_dtype) (input_name : string)
  : result careduce_fn :=
  match axes with
  | [axis] =>
      r <- create_axis_reducer scalar_op identity axis ndim dtype false ;;
      Ok (SingleAxis r)
  | _ =>
      axes <- normalize_axis_tuple axes ndim ;;
      let to_reduce := rev (sorted axes) in
      st <- foldM (multiaxis_step scalar_op identity dtype)
                  (enumerate to_reduce)
                  (mk_loop_state [] ndim input_name []) ;;
      Ok (MultiAxis (mk_careduce_src input_name (ls_lines st)
                       (ls_var_name st) (ls_global_env st)))
  end.

(** A dictionary or a frame of local variables: the latest binding of a
    name comes first. *)
Fixpoint lookup {V : Type} (k : string) (env : list (string * V)) : option V :=
  match env with
  | [] => None
  | (k', v) :: env' => if String.eqb k k' then Some v else lookup k env'
  end.

Section RunCAReduce.
Context {A : Type} `{Scalar A}.

Definition run_call_line (global_env : list (string * reducer_src))
    (locals : list (string * value A)) (line : call_line)
  : result (list (string * value A)) :=
  fn <- of_option NameError (lookup (cl_fn line) global_env) ;;
  arg <- of_option NameError (lookup (cl_arg line) locals) ;;
  r <- run_reducer fn arg ;;
  Ok ((cl_target line, r) :: locals).

Definition run_careduce (k : careduce_fn) (x : value A) : result (value A) :=
  match k with
  | SingleAxis r => run_reducer r x
  | MultiAxis c =>
      locals <- foldM (run_call_line (cs_global_env c)) (cs_lines c)
                      [(cs_input_name c, x)] ;;
      of_option NameError (lookup (cs_return c) locals)
  end.
End RunCAReduce.

(** ** Building the kernel of a [CAReduce] node *)

(** The type of a graph variable: dtype, number of dimensions and the
    statically known lengths. *)
Record TensorType : Type := mk_TensorType {
  t_dtype : np_dtype;
  t_ndim : nat;
  t_shape : list (option nat)
}.

Record Apply : Type := mk_Apply {
  inputs : list TensorType;
  outputs : list TensorType
}.

(** [np.dtype(...).kind]. *)
Definition dtype_kind (d : np_dtype) : ascii :=
  match d with
  | bool_ => "b"
  | int8 | int16 | int32 | int64 => "i"
  | uint8 | uint16 | uint32 | uint64 => "u"
  | float16 | float32 | float64 => "f"
  | complex64 | complex128 => "c"
  end%char.

Definition dtype_bits (d : np_dtype) : Z :=
  match d with
  | bool_ | int8 | uint8 => 8
  | int16 | uint16 | float16 => 16
  | int32 | uint32 | float32 => 32
  | int64 | uint64 | float64 | complex64 => 64
  | complex128 => 128
  end.

(** [np.iinfo(d).max] and [np.iinfo(d).min] of an integer dtype. *)
Definition iinfo_max (d : np_dtype) : Z :=
  if Ascii.eqb (dtype_kind d) "u" then 2 ^ dtype_bits d - 1
  else 2 ^ (dtype_bits d - 1) - 1.

Definition iinfo_min (d : np_dtype) : Z :=
  if Ascii.eqb (dtype_kind d) "u" then 0
  else - 2 ^ (dtype_bits d - 1).

Definition np_isfinite (x : xnum) : bool :=
  match x with
  | Num _ => true
  | _ => false
  end.

Definition np_isposinf (x : xnum) : bool :=
  match x with
  | PInf => true
  | _ => false
  end.

(** [np.array(v, dtype=d)] of a number: an inexact dtype keeps it; an
    integer dtype truncates a finite value and wraps it into the dtype's
    range, an infinity raises [OverflowError] and NaN [ValueError]; the
    boolean dtype keeps whether it is non-zero. *)
Definition np_array_scalar (v : xnum) (d : np_dtype) : result xnum :=
  let kind := dtype_kind d in
  if Ascii.eqb kind "i" || Ascii.eqb kind "u" then
    match v with
    | Num q =>
        let z := (Qnum q ÷ Zpos (Qden q))%Z in
        let w := (2 ^ dtype_bits d)%Z in
        Ok (Num (inject_Z (((z - iinfo_min d) mod w) + iinfo_min d)))
    | NaN => Err ValueError
    | _ => Err OverflowError
    end
  else if Ascii.eqb kind "b" then
    match v with
    | Num q => Ok (Num (if Qeq_bool q 0 then 0 else 1))
    | _ => Ok (Num 1)
    end
  else Ok v.

(** A [CAReduce] operator: its axes, its scalar operator with that
    operator's identity, and its accumulator dtype when it has one. *)
Record CAReduce : Type := mk_CAReduce {
  axis : option (list Z);
  scalar_op : ScalarOp;
  scalar_op_identity : xnum;
  acc_dtype : option np_dtype
}.

(** The identity after the saturation step of [numba_funcify_CAReduce]. *)
Definition saturate_identity (np_acc_dtype : np_dtype) (identity : xnum) : xnum :=
  if Ascii.eqb (dtype_kind np_acc_dtype) "i" && negb (np_isfinite identity)
  then
    if np_isposinf identity
    then Num (inject_Z (iinfo_max np_acc_dtype))
    else Num (inject_Z (iinfo_min np_acc_dtype))
  else identity.

Definition numba_funcify_CAReduce (op : CAReduce) (node : Apply)
    (input_name : string) : result careduce_fn :=
  axes <- match axis op with
          | None =>
              in0 <- of_option IndexError (nth_error (inputs node) 0) ;;
              Ok (map Z.of_nat (seq 0 (t_ndim in0)))
          | Some axes => Ok axes
          end ;;
  acc_dtype <- match acc_dtype op with
               | Some d => Ok d
               | None =>
                   out0 <- of_option IndexError (nth_error (outputs node) 0) ;;
                   Ok (t_dtype out0)
               end ;;
  let identity := saturate_identity acc_dtype (scalar_op_identity op) in
  identity <- np_array_scalar identity acc_dtype ;;
  in0 <- of_option IndexError (nth_error (inputs node) 0) ;;
  out0 <- of_option IndexError (nth_error (outputs node) 0) ;;
  create_multiaxis_reducer (scalar_op op) identity axes (t_ndim in0)
    (t_dtype out0) input_name.

(** ** The vectorized elementwise builder *)

(** A scalar function handed to [numba.vectorize]: the names of its
    parameters and what it computes from their values. *)
Record scalar_fn (A : Type) : Type := mk_scalar_fn {
  sf_params : list string;
  sf_call : list A -> A
}.

(** A graph node's [Elemwise] operator: the compiled scalar function of its
    scalar operator and its in-place pattern, a dictionary from output
    positions to input positions. *)
Record Elemwise (A : Type) : Type := mk_Elemwise {
  scalar_op_fn : scalar_fn A;
  inplace_pattern : list (nat * nat)
}.

Definition create_vectorize_func {A : Type} (scalar_op_fn : scalar_fn A)
    (node : Apply) : result (scalar_fn A) :=
  if 1 <? length (outputs node)
  then Err NotImplementedError
  else Ok scalar_op_fn.

(** What [numba_funcify_Elemwise] returns: the vectorized function, or one
    of the two generated wrappers around it. The wrapper's parameters carry
    unique names, so [input_idx] tells which of them is passed again as the
    output operand. *)
Inductive elemwise_kernel (A : Type) : Type :=
| Vectorized (elemwise_fn : scalar_fn A)
| InplaceArray (elemwise_fn : scalar_fn A) (input_idx : nat)
| InplaceScalar (elemwise_fn : scalar_fn A) (input_idx : nat).

Fixpoint lookup_nat {V : Type} (k : nat) (d : list (nat * V)) : option V :=
  match d with
  | [] => None
  | (k', v) :: d' => if k =? k' then Some v else lookup_nat k d'
  end.

Definition numba_funcify_Elemwise {A : Type} (op : Elemwise A) (node : Apply)
  : result (elemwise_kernel A) :=
  elemwise_fn <- create_vectorize_func (scalar_op_fn op) node ;;
  match inplace_pattern op with
  | [] => Ok (Vectorized elemwise_fn)
  | _ =>
      input_idx <- of_option KeyError (lookup_nat 0 (inplace_pattern op)) ;;
      _ <- of_option IndexError (nth_error (sf_params elemwise_fn) input_idx) ;;
      inp <- of_option IndexError (nth_error (inputs node) input_idx) ;;
      if 0 <? t_ndim inp
      then Ok (InplaceArray elemwise_fn input_idx)
      else Ok (InplaceScalar elemwise_fn input_idx)
  end.

(** *** Broadcasting *)

Definition broadcast_dim (a b : nat) : result nat :=
  if a =? b then Ok a
  else if a =? 1 then Ok b
  else if b =? 1 then Ok a
  else Err ValueError.

(** Two shapes read from their last axis. *)
Fixpoint broadcast_rev (r1 r2 : list nat) : result (list nat) :=
  match r1, r2 with
  | [], r => Ok r
  | r, [] => Ok r
  | a :: r1', b :: r2' =>
      d <- broadcast_dim a b ;;
      r <- broadcast_rev r1' r2' ;;
      Ok (d :: r)
  end.

Definition broadcast_shapes2 (s1 s2 : list nat) : result (list nat) :=
  r <- broadcast_rev (rev s1) (rev s2) ;; Ok (rev r).

Definition broadcast_shapes (l : list (list nat)) : result (list nat) :=
  foldM broadcast_shapes2 l [].

(** The index read in an operand of shape [s] for the index [idx] of the
    broadcast result. *)
Definition broadcast_index (s idx : list nat) : list nat :=
  map (fun '(d, i) => if d =? 1 then 0 else i)
      (combine s (skipn (length idx - length s) idx)).

Section RunElemwise.
Context {A : Type}.

Definition run_ufunc (f : scalar_fn A) (ins : list (ndarray A))
    (s : list nat) : result (list A) :=
  mapM (fun idx =>
          args <- mapM (fun a => getitem a (broadcast_index (shape a) idx))
                       ins ;;
          Ok (sf_call f args))
       (ndindex s).

(** A call of the vectorized function: with as many arguments as the
    scalar function has parameters it allocates its result, with one more
    it stores the result in the last one and returns it. *)
Definition call_elemwise (f : scalar_fn A) (args : list (value A))
  : result (value A) :=
  let nin := length (sf_params f) in
  if length args =? nin then
    let ins := map np_asarray args in
    s <- broadcast_shapes (map (@shape A) ins) ;;
    d <- run_ufunc f ins s ;;
    match s with
    | [] => v <- item (mk_ndarray s d) ;; Ok (VScalar v)
    | _ => Ok (VArray (mk_ndarray s d))
    end
  else if length args =? nin + 1 then
    let ins := map np_asarray (firstn nin args) in
    match nth_error args nin with
    | Some (VArray out) =>
        s <- broadcast_shapes (map (@shape A) ins ++ [shape out]) ;;
        if list_eq_dec Nat.eq_dec s (shape out)
        then d <- run_ufunc f ins s ;; Ok (VArray (mk_ndarray s d))
        else Err ValueError
    | _ => Err TypeError
    end
  else Err TypeError.

Definition run_elemwise (k : elemwise_kernel A) (args : list (value A))
  : result (value A) :=
  match k with
  | Vectorized f => call_elemwise f args
  | InplaceArray f input_idx =>
      if length args =? length (sf_params f) then
        updated <- of_option IndexError (nth_error args input_idx) ;;
        call_elemwise f (args ++ [updated])
      else Err TypeError
  | InplaceScalar f input_idx =>
      if length args =? length (sf_params f) then
        updated <- of_option IndexError (nth_error args input_idx) ;;
        let updated_scalar := np_asarray updated in
        r <- call_elemwise f (args ++ [VArray updated_scalar]) ;;
        match r with
        | VArray a => v <- item a ;; Ok (VScalar v)
        | VScalar v => Ok (VScalar v)
        end
      else Err TypeError
  end.
End RunElemwise.

(** ** The [DimShuffle] kernel *)

(** The attributes of a [DimShuffle] operator the kernel is built from. *)
Record DimShuffle : Type := mk_DimShuffle {
  shuffle : list nat;
  transposition : list nat;
  augment : list nat;
  inplace : bool
}.

Inductive transpose_fn : Type :=
| TransposeIdentity
| TransposeAxes (transposition : list nat).

Inductive find_shape_fn : Type :=
| FindShapeStatic (static_shape : list nat)
| FindShapeWalk (shape_template : list nat) (ndim_new_shape : nat)
                (augment : list nat)
| FindShapeTemplate (shape_template : list nat).

Inductive dimshuffle_fn : Type :=
| DimshuffleReshape (transpose : transpose_fn) (find_shape : find_shape_fn)
                    (shuffle : list nat) (inplace : bool)
| DimshuffleItem.

Fixpoint all_known (l : list (option nat)) : option (list nat) :=
  match l with
  | [] => Some []
  | Some n :: l' =>
      match all_known l' with
      | Some r => Some (n :: r)
      | None => None
      end
  | None :: _ => None
  end.

Definition numba_funcify_DimShuffle (op : DimShuffle) (node : Apply)
  : result dimshuffle_fn :=
  let ndim_new_shape := length (shuffle op) + length (augment op) in
  let no_transpose :=
    forallb (fun '(i, j) => i =? j) (enumerate (transposition op)) in
  let transpose :=
    if no_transpose then TransposeIdentity
    else TransposeAxes (transposition op) in
  let shape_template := repeat 1 ndim_new_shape in
  find_shape <-
    (if 0 <? length (shuffle op) then
       out0 <- of_option IndexError (nth_error (outputs node) 0) ;;
       match all_known (t_shape out0) with
       | Some static_shape => Ok (FindShapeStatic static_shape)
       | None => Ok (FindShapeWalk shape_template ndim_new_shape (augment op))
       end
     else Ok (FindShapeTemplate shape_template)) ;;
  if 0 <? ndim_new_shape
  then Ok (DimshuffleReshape transpose find_shape (shuffle op) (inplace op))
  else Ok DimshuffleItem.

Definition run_find_shape (f : find_shape_fn) (array_shape : list nat)
  : result (list nat) :=
  match f with
  | FindShapeStatic static_shape => Ok static_shape
  | FindShapeWalk shape_template ndim_new_shape augment =>
      st <- foldM (fun (st : list nat * nat) i =>
                     let '(new_shape, j) := st in
                     if negb (memb i augment) then
                       len <- of_option IndexError (nth_error array_shape j) ;;
                       new_shape <- list_set new_shape i len ;;
                       Ok (new_shape, j + 1)
                     else Ok (new_shape, j))
                  (seq 0 ndim_new_shape) (shape_template, 0) ;;
      Ok (fst st)
  | FindShapeTemplate shape_template => Ok shape_template
  end.

Section RunDimShuffle.
Context {A : Type}.

Definition run_transpose (t : transpose_fn) (x : ndarray A)
  : result (ndarray A) :=
  match t with
  | TransposeIdentity => Ok x
  | TransposeAxes transposition => np_transpose x transposition
  end.

(** The kernel applied to [x]. With [inplace] false the result is a
    copy; the value returned is the same. *)
Definition run_dimshuffle (k : dimshuffle_fn) (x : value A)
  : result (value A) :=
  let x := np_asarray x in
  match k with
  | DimshuffleReshape transpose find_shape shuffle _ =>
      x <- run_transpose transpose x ;;
      let shuffle_shape := firstn (length shuffle) (shape x) in
      new_shape <- run_find_shape find_shape shuffle_shape ;;
      res_reshape <- np_reshape x new_shape ;;
      Ok (VArray res_reshape)
  | DimshuffleItem => v <- item x ;; Ok (VScalar v)
  end.
End RunDimShuffle.

(** ** The max-and-argmax kernel *)

(** [create_axis_apply_fn]: the kernel applies [fn] along [axis], moved to
    the last position by [reaxis_first]. *)
Record axis_apply_fn : Type := mk_axis_apply_fn {
  reaxis_first : list nat
}.

Definition create_axis_apply_fn (axis : Z) (ndim : nat) : result axis_apply_fn :=
  axis <- normalize_axis_index axis ndim ;;
  Ok (mk_axis_apply_fn
        (filter (fun i => negb (i =? axis)) (seq 0 ndim) ++ [axis])).

(** The [MaxAndArgmax] operator: the axes it reduces. *)
Record MaxAndArgmax : Type := mk_MaxAndArgmax {
  ma_axis : list Z
}.

Inductive maxandargmax_fn : Type :=
| MaxAndArgmaxScalar
| MaxAndArgmaxAxes (reduce_max : careduce_fn) (argmax_axis : axis_apply_fn)
                   (reaxis_order : list Z) (n_keep_axes : nat).

Definition numba_funcify_MaxAndArgmax (op : MaxAndArgmax) (node : Apply)
  : result maxandargmax_fn :=
  x_at <- of_option IndexError (nth_error (inputs node) 0) ;;
  let x_dtype := t_dtype x_at in
  let x_ndim := t_ndim x_at in
  if x_ndim =? 0 then Ok MaxAndArgmaxScalar
  else
    let axes := ma_axis op in
    let keep_axes :=
      filter (fun i => negb (existsb (Z.eqb (Z.of_nat i)) axes)) (seq 0 x_ndim) in
    reduce_max_py_fn <- create_multiaxis_reducer ScalarMaximum NInf axes x_ndim
                          x_dtype "input" ;;
    out0 <- of_option IndexError (nth_error (outputs node) 0) ;;
    let reduce_max := reduce_max_py_fn in
    let reduced_x_ndim := x_ndim - length axes + 1 in
    argmax_axis <- create_axis_apply_fn (Z.of_nat reduced_x_ndim - 1)
                     reduced_x_ndim ;;
    let reaxis_order := (map Z.of_nat keep_axes ++ axes)%list in
    Ok (MaxAndArgmaxAxes reduce_max argmax_axis reaxis_order (length keep_axes)).

Section RunMaxAndArgmax.
Context {A : Type} `{Scalar A}.

(** The scan of [np.argmax] as Numba compiles it: the first NaN wins,
    otherwise the first greatest element. *)
Fixpoint argmax_loop (l : list A) (max_value : A) (max_idx idx : nat) : nat :=
  match l with
  | [] => max_idx
  | v :: l' =>
      if s_isnan v then idx
      else if s_cmp CGt v max_value
           then argmax_loop l' v idx (S idx)
           else argmax_loop l' max_value max_idx (S idx)
  end.

Definition np_argmax (row : list A) : result nat :=
  match row with
  | [] => Err ValueError
  | max_value :: _ =>
      if s_isnan max_value then Ok 0
      else Ok (argmax_loop row max_value 0 0)
  end.

(** [x[m]] for an index [m] short of the last axis: a row. *)
Definition getrow (x : ndarray A) (m : list nat) : result (list A) :=
  mapM (fun j => getitem x (m ++ [j])) (seq 0 (last (shape x) 0)).

Definition run_axis_apply (k : axis_apply_fn) (x : ndarray A)
  : result (ndarray nat) :=
  x_reaxis <- np_transpose x (reaxis_first k) ;;
  let res := np_full (removelast (shape x_reaxis)) 0 in
  foldM (fun res m =>
           row <- getrow x_reaxis m ;;
           v <- np_argmax row ;;
           setitem res m v)
        (ndindex (shape res)) res.

Definition run_maxandargmax (k : maxandargmax_fn) (x : value A)
  : result (value A * value nat) :=
  match k with
  | MaxAndArgmaxScalar => Ok (x, VScalar 0)
  | MaxAndArgmaxAxes reduce_max argmax_axis reaxis_order n_keep_axes =>
      max_res <- run_careduce reduce_max x ;;
      match x with
      | VScalar _ => Err TypeError
      | VArray x =>
          order <- mapM (fun ax => normalize_axis_index ax (ndim_of x))
                        reaxis_order ;;
          transposed_x <- np_transpose x order ;;
          let kept_shape := firstn n_keep_axes (shape transposed_x) in
          let reduced_shape := skipn n_keep_axes (shape transposed_x) in
          let reduced_size := fold_left Nat.mul reduced_shape 1 in
          let new_shape := kept_shape ++ [reduced_size] in
          reshaped_x <- np_reshape transposed_x new_shape ;;
          max_idx_res <- run_axis_apply argmax_axis reshaped_x ;;
          Ok (max_res, VArray max_idx_res)
      end
  end.
End RunMaxAndArgmax.

(** ** Reading a generated kernel *)

Definition is_registered (op : ScalarOp) : bool :=
  match op with
  | OtherOp _ => false
  | _ => true
  end.

Definition reducer_identity (r : reducer_src) : id_literal :=
  match r with
  | ReduceND _ _ ident _ _ _ _ _ => ident
  | Reduce1D _ ident _ _ _ => ident
  end.

Definition reducer_axis (r : reducer_src) : nat :=
  match r with
  | ReduceND axis _ _ _ _ _ _ _ => axis
  | Reduce1D axis _ _ _ _ => axis
  end.

Definition reducer_keepdims (r : reducer_src) : bool :=
  match r with
  | ReduceND _ _ _ _ _ _ _ keepdims => keepdims
  | Reduce1D _ _ _ _ keepdims => keepdims
  end.

(** The reducers a kernel calls, in the order it calls them. *)
Definition careduce_stages (k : careduce_fn) : list reducer_src :=
  match k with
  | SingleAxis r => [r]
  | MultiAxis c =>
      flat_map (fun line =>
                  match lookup (cl_fn line) (cs_global_env c) with
                  | Some r => [r]
                  | None => []
                  end)
               (cs_lines c)
  end.

(** The value a literal identity denotes. *)
Definition literal_value (l : id_literal) : xnum := xnum_of_literal l.

(** Whether a number is zero, as [== 0] decides it. *)
Definition is_zero (x : xnum) : bool := xeqb x (Num 0).

(** The sum of a list of rationals. *)
Definition Qsum (l : list Q) : Q := fold_right Qplus 0%Q l.

(** Every reducer compiled into a kernel. *)
Definition careduce_reducers (k : careduce_fn) : list reducer_src :=
  match k with
  | SingleAxis r => [r]
  | MultiAxis c => map snd (cs_global_env c)
  end.

(** The accumulator dtype [numba_funcify_CAReduce] settles on. *)
Definition node_acc_dtype (op : CAReduce) (node : Apply) : option np_dtype :=
  match acc_dtype op with
  | Some d => Some d
  | None => option_map t_dtype (nth_error (outputs node) 0)
  end.

(** The integer dtypes, signed and unsigned. *)
Definition is_integer_dtype (d : np_dtype) : bool :=
  Ascii.eqb (dtype_kind d) "i" || Ascii.eqb (dtype_kind d) "u".

(** The subscript of [x] at position [k] when [axis] is reduced. *)
Definition arr_index_term (axis k : nat) : index_term :=
  if k <? axis then IArr k
  else if k =? axis then ILoop
  else IArr (k - 1).

(** A shape without its entry at [axis]. *)
Definition remove_axis (axis : nat) (s : list nat) : list nat :=
  map (fun i => nth (if i <? axis then i else i + 1) s 0)
      (seq 0 (length s - 1)).

(** Reducers applied one after the other, each to the result of the one
    before. *)
Definition run_stages {A : Type} `{Scalar A} (stages : list reducer_src)
    (x : value A) : result (value A) :=
  foldM (fun v r => run_reducer r v) stages x.

(** *** The shape of a generated multi-axis reducer

    What the loop of [create_multiaxis_reducer] produces for [n] further
    axes when it is at index [i] with [v] the current variable name: the
    lines, the name returned, and the environment for reducers [rs]. *)
Fixpoint lines_from (i : nat) (v : string) (n : nat) : list call_line :=
  match n with
  | 0 => []
  | S n' =>
      mk_call_line (axis_res_name i) (careducer_axes_fn_name i) v
        :: lines_from (S i) (axis_res_name i) n'
  end.

Fixpoint last_name (i : nat) (v : string) (n : nat) : string :=
  match n with
  | 0 => v
  | S n' => last_name (S i) (axis_res_name i) n'
  end.

Fixpoint env_from (i : nat) (rs : list reducer_src)
    (env : list (string * reducer_src)) : list (string * reducer_src) :=
  match rs with
  | [] => env
  | r :: rs' => env_from (S i) rs' ((careducer_axes_fn_name i, r) :: env)
  end.

(** [rs] are the single-axis reducers, without [keepdims], for the axes
    [axes] taken in order on an input of [ndim] dimensions, each built for
    one dimension less than the one before. *)
Fixpoint stages_for (scalar_op : ScalarOp) (identity : xnum) (dtype : np_dtype)
    (ndim : nat) (axes : list nat) (rs : list reducer_src) : Prop :=
  match axes, rs with
  | [], [] => True
  | a :: axes', r :: rs' =>
      create_axis_reducer scalar_op identity (Z.of_nat a) ndim dtype false = Ok r
      /\ stages_for scalar_op identity dtype (ndim - 1) axes' rs'
  | _, _ => False
  end.

(** *** The shape and the inverse of a [DimShuffle] *)

(** The input axes the operator drops: what follows [shuffle] in
    [transposition]. *)
Definition dropped (op : DimShuffle) : list nat :=
  skipn (length (shuffle op)) (transposition op).

(** [m] output lengths from position [i] on: 1 at the positions of [aug],
    the lengths [ss] in order at the others. *)
Fixpoint expand (m i : nat) (aug ss : list nat) : list nat :=
  match m with
  | 0 => []
  | S m' =>
      if memb i aug then 1 :: expand m' (S i) aug ss
      else match ss with
           | d :: ss' => d :: expand m' (S i) aug ss'
           | [] => []
           end
  end.

(** The entries of [l], read from position [i] on, that are not at a
    position of [aug]. *)
Fixpoint contract (i : nat) (aug l : list nat) : list nat :=
  match l with
  | [] => []
  | d :: l' =>
      if memb i aug then contract (S i) aug l'
      else d :: contract (S i) aug l'
  end.

(** The shape of the operator's result on an input of shape [s]. *)
Definition dimshuffle_shape (op : DimShuffle) (s : list nat) : list nat :=
  expand (length (shuffle op) + length (augment op)) 0 (augment op)
         (map (fun a => nth a s 0) (shuffle op)).

Fixpoint ascending (l : list nat) : bool :=
  match l with
  | [] => true
  | x :: l' =>
      match l' with
      | [] => true
      | y :: _ => (x <? y) && ascending l'
      end
  end.

Definition list_eqb (l1 l2 : list nat) : bool :=
  if list_eq_dec Nat.eq_dec l1 l2 then true else false.

(** The attributes are those of a [DimShuffle] on inputs of [n]
    dimensions: [transposition] starts with [shuffle] and names every input
    axis once, and [augment] lists output positions in ascending order. *)
Definition wf_dimshuffle (op : DimShuffle) (n : nat) : bool :=
  list_eqb (firstn (length (shuffle op)) (transposition op)) (shuffle op)
  && is_permutation (transposition op) n
  && ascending (augment op)
  && forallb (fun i => i <? length (shuffle op) + length (augment op))
             (augment op).

(** The operator that undoes [op]: it drops the axes [op] inserted, puts
    the axes [op] kept back in their input order, and inserts the axes
    [op] dropped. *)
Definition inverse_dimshuffle (op : DimShuffle) : DimShuffle :=
  let n := length (transposition op) in
  let m := length (shuffle op) + length (augment op) in
  let kept := contract 0 (dropped op) (seq 0 n) in
  let positions := contract 0 (augment op) (seq 0 m) in
  let shuffle' :=
    map (fun a => match index_of a (shuffle op) with
                  | Some r => nth r positions 0
                  | None => 0
                  end) kept in
  mk_DimShuffle shuffle' (shuffle' ++ augment op) (sorted (dropped op))
                (inplace op).

(** The statically known output shape of [node], when all of it is known,
    is [s]. *)
Definition static_shape_agrees (node : Apply) (s : list nat) : Prop :=
  forall out0 st,
    nth_error (outputs node) 0 = Some out0 ->
    all_known (t_shape out0) = Some st ->
    st = s.

(** The element of [a] at a multi-index, when there is one. *)
Definition cell {A : Type} (a : ndarray A) (idx : list nat) : option A :=
  nth_error (data a) (ravel (shape a) idx).

(** The lengths other than 1 of a shape, each with the index along it. *)
Definition compress (s idx : list nat) : list (nat * nat) :=
  filter (fun p => negb (fst p =? 1)) (combine s idx).

(** The index of the input read at index [j] of a [DimShuffle]'s result. *)
Definition origin (op : DimShuffle) (j : list nat) : list nat :=
  transpose_source (transposition op)
    (contract 0 (augment op) j ++ repeat 0 (length (dropped op))).
(** ** Reading the result of a reduction *)

(** The index of the input a reducer reads for the index [idx] of its
    result and the counter [i]: [i] put in at position [axis]. *)
Definition insert_axis (axis i : nat) (idx : list nat) : list nat :=
  firstn axis idx ++ i :: skipn axis idx.

(** The elements of [x] along [axis] at the index [idx] of the other
    axes, in order. *)
Definition axis_slice {A : Type} (x : ndarray A) (axis : nat) (idx : list nat)
  : result (list A) :=
  mapM (fun i => getitem x (insert_axis axis i idx))
       (seq 0 (nth axis (shape x) 0)).

(** An update statement run on the operands [xs] one after the other, the
    loop counter starting at [i]. *)
Fixpoint fold_update {A : Type} `{Scalar A} (update : stmt) (acc : A) (i : nat)
    (xs : list A) : A :=
  match xs with
  | [] => acc
  | v :: xs' => fold_update update (exec_stmt acc v i update) (S i) xs'
  end.

(** The product of the entries of a list that are not zero. *)
Definition Qprod_nonzero (l : list Q) : Q :=
  fold_right (fun q p => if Qeq_bool q 0 then p else (q * p)%Q) 1%Q l.


(** ** The softmax kernels *)

(** The [Softmax], [SoftmaxGrad] and [LogSoftmax] operators: the axis they
    normalise along, or [None] for all axes at once. *)
Record Softmax : Type := mk_Softmax {
  sm_axis : option Z
}.

Record SoftmaxGrad : Type := mk_SoftmaxGrad {
  smg_axis : option Z
}.

Record LogSoftmax : Type := mk_LogSoftmax {
  lsm_axis : option Z
}.

(** A reduction called by a softmax kernel: a generated single-axis
    reducer, or [np.max] or [np.sum] of the whole array. *)
Inductive reduce_fn : Type :=
| Reducer (reducer : reducer_src)
| NpMax
| NpSum.

Record softmax_fn : Type := mk_softmax_fn {
  sm_reduce_max : reduce_fn;
  sm_reduce_sum : reduce_fn
}.

Record softmax_grad_fn : Type := mk_softmax_grad_fn {
  smg_reduce_sum : reduce_fn
}.

Record log_softmax_fn : Type := mk_log_softmax_fn {
  lsm_reduce_max : reduce_fn;
  lsm_reduce_sum : reduce_fn
}.

Definition numba_funcify_Softmax (op : Softmax) (node : Apply)
  : result softmax_fn :=
  x_at <- of_option IndexError (nth_error (inputs node) 0) ;;
  let x_dtype := t_dtype x_at in
  match sm_axis op with
  | Some axis =>
      axis <- normalize_axis_index axis (t_ndim x_at) ;;
      reduce_max_py <- create_axis_reducer ScalarMaximum NInf (Z.of_nat axis)
                         (t_ndim x_at) x_dtype true ;;
      reduce_sum_py <- create_axis_reducer Add (Num 0) (Z.of_nat axis)
                         (t_ndim x_at) x_dtype true ;;
      Ok (mk_softmax_fn (Reducer reduce_max_py) (Reducer reduce_sum_py))
  | None => Ok (mk_softmax_fn NpMax NpSum)
  end.

Definition numba_funcify_SoftmaxGrad (op : SoftmaxGrad) (node : Apply)
  : result softmax_grad_fn :=
  sm_at <- of_option IndexError (nth_error (inputs node) 1) ;;
  let sm_dtype := t_dtype sm_at in
  match smg_axis op with
  | Some axis =>
      axis <- normalize_axis_index axis (t_ndim sm_at) ;;
      reduce_sum_py <- create_axis_reducer Add (Num 0) (Z.of_nat axis)
                         (t_ndim sm_at) sm_dtype true ;;
      Ok (mk_softmax_grad_fn (Reducer reduce_sum_py))
  | None => Ok (mk_softmax_grad_fn NpSum)
  end.

Definition numba_funcify_LogSoftmax (op : LogSoftmax) (node : Apply)
  : result log_softmax_fn :=
  x_at <- of_option IndexError (nth_error (inputs node) 0) ;;
  let x_dtype := t_dtype x_at in
  match lsm_axis op with
  | Some axis =>
      axis <- normalize_axis_index axis (t_ndim x_at) ;;
      reduce_max_py <- create_axis_reducer ScalarMaximum NInf (Z.of_nat axis)
                         (t_ndim x_at) x_dtype true ;;
      reduce_sum_py <- create_axis_reducer Add (Num 0) (Z.of_nat axis)
                         (t_ndim x_at) x_dtype true ;;
      Ok (mk_log_softmax_fn (Reducer reduce_max_py) (Reducer reduce_sum_py))
  | None => Ok (mk_log_softmax_fn NpMax NpSum)
  end.

(** *** Running a softmax kernel *)

Section RunSoftmax.
Context {A : Type} `{Scalar A}.

(** [np.exp] and [np.log] on one element. *)
Variables np_exp np_log : A -> A.

(** An arithmetic operator between two arrays, with broadcasting. *)
Definition np_binary (o : binop) (a b : ndarray A) : result (ndarray A) :=
  s <- broadcast_shapes2 (shape a) (shape b) ;;
  d <- mapM (fun idx =>
               u <- getitem a (broadcast_index (shape a) idx) ;;
               v <- getitem b (broadcast_index (shape b) idx) ;;
               Ok (s_binop o u v))
            (ndindex s) ;;
  Ok (mk_ndarray s d).

(** A function applied to every element. *)
Definition np_unary (f : A -> A) (a : ndarray A) : ndarray A :=
  mk_ndarray (shape a) (map f (data a)).

(** The scan of [np.max] as Numba compiles it: a NaN is returned as soon
    as it is met, otherwise the greatest element. *)
Fixpoint max_loop (l : list A) (max_value : A) : A :=
  match l with
  | [] => max_value
  | v :: l' =>
      if s_isnan v then v
      else if s_cmp CGt v max_value then max_loop l' v
           else max_loop l' max_value
  end.

Definition np_max (a : ndarray A) : result A :=
  match data a with
  | [] => Err ValueError
  | max_value :: rest =>
      if s_isnan max_value then Ok max_value
      else Ok (max_loop rest max_value)
  end.

(** [np.sum]: the elements added one after the other to zero. *)
Definition np_sum (a : ndarray A) : A :=
  fold_left (s_binop BAdd) (data a) (s_of_Z 0).

Definition run_reduce (r : reduce_fn) (x : ndarray A) : result (ndarray A) :=
  match r with
  | Reducer reducer => v <- run_reducer reducer (VArray x) ;; Ok (np_asarray v)
  | NpMax => v <- np_max x ;; Ok (np_asarray (VScalar v))
  | NpSum => Ok (np_asarray (VScalar (np_sum x)))
  end.

(** [softmax_py_fn]. *)
Definition run_softmax (k : softmax_fn) (x : ndarray A) : result (ndarray A) :=
  z <- run_reduce (sm_reduce_max k) x ;;
  d <- np_binary BSub x z ;;
  let e_x := np_unary np_exp d in
  w <- run_reduce (sm_reduce_sum k) e_x ;;
  sm <- np_binary BTrueDiv e_x w ;;
  Ok sm.

(** [softmax_grad_py_fn]. *)
Definition run_softmax_grad (k : softmax_grad_fn) (dy sm : ndarray A)
  : result (ndarray A) :=
  dy_times_sm <- np_binary BMul dy sm ;;
  sum_dy_times_sm <- run_reduce (smg_reduce_sum k) dy_times_sm ;;
  t <- np_binary BMul sum_dy_times_sm sm ;;
  dx <- np_binary BSub dy_times_sm t ;;
  Ok dx.

(** [log_softmax_py_fn]. *)
Definition run_log_softmax (k : log_softmax_fn) (x : ndarray A)
  : result (ndarray A) :=
  z <- run_reduce (lsm_reduce_max k) x ;;
  xdev <- np_binary BSub x z ;;
  w <- run_reduce (lsm_reduce_sum k) (np_unary np_exp xdev) ;;
  lsm <- np_binary BSub xdev (np_unary np_log w) ;;
  Ok lsm.
End RunSoftmax.

(** The index without its component at [axis]. *)
Definition drop_axis (axis : nat) (idx : list nat) : list nat :=
  firstn axis idx ++ skipn (S axis) idx.

(** *** A softmax kernel on one line *)

Section Lines.
Context {A : Type} `{Scalar A}.
Variables np_exp np_log : A -> A.

(** The maximum of a line as the reducer for [ScalarMaximum] leaves it,
    starting from [-np.inf]. *)
Definition line_max (xs : list A) : A :=
  fold_left (fun acc v => if s_cmp CLt acc v then v else acc) xs
            (s_of_literal LNegNpInf).

(** The sum of a line as the reducer for [Add] leaves it, starting from
    [0.0]. *)
Definition line_sum (xs : list A) : A :=
  fold_left (s_binop BAdd) xs (s_of_literal (LText (Num 0))).

Definition softmax_line (x : list A) : list A :=
  let z := line_max x in
  let e_x := map (fun v => np_exp (s_binop BSub v z)) x in
  let w := line_sum e_x in
  map (fun e => s_binop BTrueDiv e w) e_x.

Definition softmax_grad_line (dy sm : list A) : list A :=
  let dy_times_sm :=
    map (fun p => s_binop BMul (fst p) (snd p)) (combine dy sm) in
  let sum_dy_times_sm := line_sum dy_times_sm in
  map (fun p => s_binop BSub (fst p) (s_binop BMul sum_dy_times_sm (snd p)))
      (combine dy_times_sm sm).

Definition log_softmax_line (x : list A) : list A :=
  let z := line_max x in
  let xdev := map (fun v => s_binop BSub v z) x in
  let w := line_sum (map np_exp xdev) in
  map (fun v => s_binop BSub v (np_log w)) xdev.
End Lines.

(** * Properties *)

Unset Implicit Arguments.

(** ** Fallible computations *)

Lemma bind_ok {A B : Type} (r : result A) (f : A -> result B) (b : B) :
  bind r f = Ok b -> exists a, r = Ok a /\ f a = Ok b.
Proof.
  destruct r as [a|e]; simpl; intros Hb.
  - exists a. split; [reflexivity | exact Hb].
  - discriminate Hb.
Qed.

Lemma bind_avoids {A B : Type} (r : result A) (f : A -> result B) (e : error) :
  r <> Err e -> (forall a, f a <> Err e) -> bind r f <> Err e.
Proof.
  intros Hr Hf. destruct r as [a|e']; simpl.
  - apply Hf.
  - intros E. apply Hr. inversion E. reflexivity.
Qed.

Lemma of_option_avoids {A : Type} (e e' : error) (o : option A) :
  e <> e' -> of_option e o <> Err e'.
Proof.
  intros Hne. destruct o; simpl; congruence.
Qed.

Lemma foldM_avoids {S B : Type} (body : S -> B -> result S) (e : error) :
  (forall s b, body s b <> Err e) ->
  forall l s, foldM body l s <> Err e.
Proof.
  intros Hbody l. induction l as [|b l IH]; intros s; simpl.
  - discriminate.
  - apply bind_avoids; [apply Hbody | exact IH].
Qed.

Lemma mapM_avoids {B C : Type} (f : B -> result C) (e : error) :
  (forall b, f b <> Err e) ->
  forall l, mapM f l <> Err e.
Proof.
  intros Hf l. induction l as [|b l IH]; simpl.
  - discriminate.
  - apply bind_avoids; [apply Hf|]. intros c.
    apply bind_avoids; [exact IH|]. intros cs. discriminate.
Qed.

Lemma foldM_app {S B : Type} (body : S -> B -> result S) (l1 l2 : list B) (s : S) :
  foldM body (l1 ++ l2) s = (s' <- foldM body l1 s ;; foldM body l2 s').
Proof.
  revert s. induction l1 as [|b l1 IH]; intros s; simpl.
  - reflexivity.
  - destruct (body s b) as [s'|e]; simpl; [apply IH | reflexivity].
Qed.

(** A loop whose body keeps an invariant and cannot fail under it ends
    normally with the invariant. *)
Lemma foldM_invariant {S B : Type} (body : S -> B -> result S)
    (I : S -> Prop) (P : B -> Prop) :
  (forall s b, I s -> P b -> exists s', body s b = Ok s' /\ I s') ->
  forall l s, I s -> Forall P l -> exists s', foldM body l s = Ok s' /\ I s'.
Proof.
  intros Hbody l. induction l as [|b l IH]; intros s Hs Hl; simpl.
  - exists s. split; [reflexivity | exact Hs].
  - inversion Hl as [|? ? Hb Hl']; subst.
    destruct (Hbody s b Hs Hb) as [s1 [E1 I1]]. rewrite E1. simpl.
    apply IH; assumption.
Qed.

Lemma mapM_total {B C : Type} (f : B -> result C) (g : B -> C) (l : list B) :
  (forall b, In b l -> f b = Ok (g b)) -> mapM f l = Ok (map g l).
Proof.
  induction l as [|b l IH]; intros Hf; simpl.
  - reflexivity.
  - rewrite (Hf b (or_introl eq_refl)). simpl.
    rewrite IH; [reflexivity|]. intros b' Hb'. apply Hf. right. exact Hb'.
Qed.

Lemma mapM_length {B C : Type} (f : B -> result C) (l : list B) (r : list C) :
  mapM f l = Ok r -> length r = length l.
Proof.
  revert r. induction l as [|b l IH]; intros r; simpl.
  - intros E. inversion E. reflexivity.
  - intros E. apply bind_ok in E. destruct E as [c [_ E]].
    apply bind_ok in E. destruct E as [cs [Ecs E]]. inversion E; subst.
    simpl. f_equal. apply IH. exact Ecs.
Qed.

(** ** The text of the fragments

    Each registered fragment prints as the text of its template in the
    source, here at the arguments of the one-dimensional reducer. *)

Lemma fragments_text :
  map (fun op => match scalar_in_place_fn op "0" "res" "x[i]" with
                 | Ok s => render_stmt s
                 | Err _ => EmptyString
                 end)
      [Add; Sub; Mean; Mul; MulWithoutZeros; AND; OR; XOR; TrueDiv; IntDiv;
       ScalarMaximum; ScalarMinimum]
  = [ "res[0] += x[i]"; "res[0] -= x[i]";
      "res[0] += (x[i] - res[0]) / (i + 1)";
      "res[0] *= x[i]";
      "res[0] = x[i] if res[0] == 0 else (res[0] if x[i] == 0 else res[0] * x[i])";
      "res[0] &= x[i]"; "res[0] |= x[i]"; "res[0] ^= x[i]";
      "res[0] /= x[i]"; "res[0] //= x[i]";
      newline ++ "if res[0] < x[i]:" ++ newline ++ "    res[0] = x[i]" ++ newline;
      newline ++ "if res[0] > x[i]:" ++ newline ++ "    res[0] = x[i]" ++ newline
    ]%string.
Proof. reflexivity. Qed.

(** ** Unregistered operators (C8) *)

Lemma getitem_avoids {A : Type} (a : ndarray A) (idx : list nat) :
  getitem a idx <> Err NotImplementedError.
Proof.
  unfold getitem. destruct (in_boundsb idx (shape a)).
  - apply of_option_avoids. discriminate.
  - discriminate.
Qed.

Lemma list_set_avoids {A : Type} (l : list A) (k : nat) (v : A) :
  list_set l k v <> Err NotImplementedError.
Proof.
  revert k. induction l as [|x l IH]; intros k; simpl.
  - discriminate.
  - destruct k as [|k]; [discriminate|].
    apply bind_avoids; [apply IH | discriminate].
Qed.

Lemma setitem_avoids {A : Type} (a : ndarray A) (idx : list nat) (v : A) :
  setitem a idx v <> Err NotImplementedError.
Proof.
  unfold setitem. destruct (in_boundsb idx (shape a)).
  - apply bind_avoids; [apply list_set_avoids | discriminate].
  - discriminate.
Qed.

Lemma eval_indices_avoids (ts : list index_term) (idx_arr : list nat) (i : nat) :
  eval_indices ts idx_arr i <> Err NotImplementedError.
Proof.
  unfold eval_indices. apply mapM_avoids. intros [|count].
  - discriminate.
  - apply of_option_avoids. discriminate.
Qed.

Lemma update_cell_avoids {A : Type} `{Scalar A} (update : stmt)
    (x res : ndarray A) (res_idx arr_idx : list nat) (i : nat) :
  update_cell update x res res_idx arr_idx i <> Err NotImplementedError.
Proof.
  unfold update_cell.
  apply bind_avoids; [apply getitem_avoids|]. intros acc.
  apply bind_avoids; [apply getitem_avoids|]. intros operand.
  apply setitem_avoids.
Qed.

Lemma run_reducer_avoids {A : Type} `{Scalar A} (r : reducer_src) (v : value A) :
  run_reducer r v <> Err NotImplementedError.
Proof.
  destruct v as [a|x]; simpl; [discriminate|].
  destruct r as [ax nd ident dt ri ai upd kd | ax ident dt upd kd].
  - apply bind_avoids.
    { unfold res_shape_tuple_ctor. apply mapM_avoids. intros i.
      apply of_option_avoids. discriminate. }
    intros res_shape.
    apply bind_avoids; [apply of_option_avoids; discriminate|].
    intros axis_shape.
    apply bind_avoids; [|discriminate].
    apply foldM_avoids. intros res idx_arr.
    apply foldM_avoids. intros res' i.
    apply bind_avoids; [apply eval_indices_avoids|]. intros res_idx.
    apply bind_avoids; [apply eval_indices_avoids|]. intros arr_idx.
    apply update_cell_avoids.
  - apply bind_avoids; [apply of_option_avoids; discriminate|].
    intros axis_shape.
    apply bind_avoids.
    { apply foldM_avoids. intros res i. apply update_cell_avoids. }
    intros res. destruct kd; [discriminate|].
    apply bind_avoids; [|discriminate].
    unfold item. destruct (data res) as [|a [|b l]]; discriminate.
Qed.

(** C8. For an operator with no registered fragment the emitter raises
    [NotImplementedError] (the spec's UnsupportedOperator) and returns no
    fragment; the reducer builder that calls it then returns no kernel
    either, whatever its other arguments, so the failure happens while
    building; and no reducer that was built raises this error when run. *)
Theorem unregistered_operator_fails_at_build (op : ScalarOp)
    (Hop : is_registered op = false) :
  (forall idx res arr,
      scalar_in_place_fn op idx res arr = Err NotImplementedError)
  /\ (forall identity axis ndim dtype keepdims,
         is_ok (create_axis_reducer op identity axis ndim dtype keepdims) = false)
  /\ (forall identity axis ndim dtype keepdims,
         is_ok (normalize_axis_index axis ndim) = true ->
         create_axis_reducer op identity axis ndim dtype keepdims
         = Err NotImplementedError)
  /\ (forall (A : Type) (S : Scalar A) (r : reducer_src) (v : value A),
         run_reducer r v <> Err NotImplementedError).
Proof.
  destruct op; try discriminate Hop.
  split; [reflexivity|]. split; [|split].
  - intros identity axis ndim dtype keepdims. unfold create_axis_reducer.
    destruct (normalize_axis_index axis ndim) as [ax|e]; simpl; [|reflexivity].
    destruct (1 <? ndim); [|reflexivity].
    destruct (index_lists ax ndim) as [[ri ai] c]. reflexivity.
  - intros identity axis ndim dtype keepdims Hax. unfold create_axis_reducer.
    destruct (normalize_axis_index axis ndim) as [ax|e]; simpl;
      [|discriminate Hax].
    destruct (1 <? ndim); [|reflexivity].
    destruct (index_lists ax ndim) as [[ri ai] c]. reflexivity.
  - intros A S r v. apply run_reducer_avoids.
Qed.

Lemma unregistered_operator_fails_at_build_witness :
  is_registered (OtherOp "Composite") = false
  /\ scalar_in_place_fn (OtherOp "Composite") "0" "res" "x[i]"
     = Err NotImplementedError.
Proof.
  split; [reflexivity|].
  apply (unregistered_operator_fails_at_build (OtherOp "Composite") eq_refl).
Defined.

(** ** Multiplication without zero propagation (C2) *)

Lemma is_zero_num (x : xnum) :
  is_zero x = true -> exists q, x = Num q /\ q == 0.
Proof.
  unfold is_zero. destruct x as [q| | |]; simpl; try discriminate.
  intros E. exists q. split; [reflexivity|]. apply Qeq_bool_iff. exact E.
Qed.

(** C2. The fragment emitted for [MulWithoutZeros] leaves in the
    accumulator: the operand when only the accumulator is zero, the
    accumulator when only the operand is zero, a value equal to the
    accumulator when both are zero, and the product otherwise; for every
    accumulator, operand and counter. *)
Theorem mul_without_zeros_update (idx res arr : string) (acc x : xnum) (i : nat) :
  exists frag,
    scalar_in_place_fn MulWithoutZeros idx res arr = Ok frag
    /\ match is_zero acc, is_zero x with
       | true, false => exec_stmt acc x i frag = x
       | false, true => exec_stmt acc x i frag = acc
       | true, true => xnum_eq (exec_stmt acc x i frag) acc
       | false, false => exec_stmt acc x i frag = xmul acc x
       end.
Proof.
  eexists. split; [reflexivity|].
  cbn -[xeqb xmul].
  change (xeqb acc (Num (inject_Z 0))) with (is_zero acc).
  change (xeqb x (Num (inject_Z 0))) with (is_zero x).
  destruct (is_zero acc) eqn:Ea; destruct (is_zero x) eqn:Ex; try reflexivity.
  destruct (is_zero_num _ Ea) as [a [-> Ha]].
  destruct (is_zero_num _ Ex) as [b [-> Hb]].
  change (b == a)%Q. rewrite Ha, Hb. reflexivity.
Qed.

(** ** Multi-output elementwise nodes (C9) *)

(** C9. On the node of an [Elemwise] operator, which declares at least
    one output: when it declares more than one the builder raises
    [NotImplementedError] (the spec's UnsupportedArity), and with it the
    whole [Elemwise] build; the builder returns a kernel for
    single-output nodes only, and for each of them. *)
Theorem vectorize_rejects_multi_output {A : Type} (op : Elemwise A)
    (node : Apply)
    (Hout : outputs node <> []) :
  (1 < length (outputs node) ->
     create_vectorize_func (scalar_op_fn op) node = Err NotImplementedError
     /\ numba_funcify_Elemwise op node = Err NotImplementedError)
  /\ (length (outputs node) = 1 ->
        create_vectorize_func (scalar_op_fn op) node = Ok (scalar_op_fn op))
  /\ (forall k,
        create_vectorize_func (scalar_op_fn op) node = Ok k ->
        length (outputs node) = 1)
  /\ (is_ok (create_vectorize_func (scalar_op_fn op) node) = true
      <-> length (outputs node) = 1).
Proof.
  assert (Hpos : 0 < length (outputs node)).
  { destruct (outputs node); [congruence|simpl; lia]. }
  unfold numba_funcify_Elemwise, create_vectorize_func.
  destruct (1 <? length (outputs node)) eqn:E.
  - apply Nat.ltb_lt in E. simpl. split; [|split; [|split; [|split]]].
    + intros _. split; reflexivity.
    + intros Hle. lia.
    + intros k Hk. discriminate Hk.
    + intros Hok. discriminate Hok.
    + intros Hle. lia.
  - apply Nat.ltb_ge in E. simpl. split; [|split; [|split; [|split]]].
    + intros Hlt. lia.
    + intros _. reflexivity.
    + intros k _. lia.
    + intros _. lia.
    + intros _. reflexivity.
Qed.

Lemma vectorize_rejects_multi_output_witness :
  let f := mk_scalar_fn ["x"%string; "y"%string]
             (fun l => match l with
                       | [a; b] => xadd a b
                       | _ => NaN
                       end) in
  let t := mk_TensorType float64 1 [None] in
  outputs (mk_Apply [t; t] [t; t]) <> []
  /\ create_vectorize_func f (mk_Apply [t; t] [t; t]) = Err NotImplementedError
  /\ outputs (mk_Apply [t; t] [t]) <> []
  /\ create_vectorize_func f (mk_Apply [t; t] [t]) = Ok f.
Proof.
  intros f t.
  assert (H2 : outputs (mk_Apply [t; t] [t; t]) <> []) by discriminate.
  assert (H1 : outputs (mk_Apply [t; t] [t]) <> []) by discriminate.
  split; [exact H2|]. split.
  - apply (vectorize_rejects_multi_output (mk_Elemwise f [])
             (mk_Apply [t; t] [t; t]) H2).
    simpl. lia.
  - split; [exact H1|].
    apply (vectorize_rejects_multi_output (mk_Elemwise f [])
             (mk_Apply [t; t] [t]) H1).
    reflexivity.
Defined.

(** ** Max and argmax on an example (C6) *)

(** C6. On [[3,1,2],[0,5,4]] the kernel built for axis 1 returns the maxima
    [3,5] with the indices [0,1], and the kernel built for both axes
    returns the maximum 5 with the row-major index 4. *)
Theorem maxandargmax_example :
  let n := fun z : Z => Num (inject_Z z) in
  let x := VArray (mk_ndarray [2; 3] [n 3; n 1; n 2; n 0; n 5; n 4]%Z) in
  let node := mk_Apply [mk_TensorType float64 2 [None; None]]
                       [mk_TensorType float64 1 [None];
                        mk_TensorType int64 1 [None]] in
  (k <- numba_funcify_MaxAndArgmax (mk_MaxAndArgmax [1%Z]) node ;;
   run_maxandargmax k x)
  = Ok (VArray (mk_ndarray [2] [n 3; n 5]%Z), VArray (mk_ndarray [2] [0; 1]))
  /\ (k <- numba_funcify_MaxAndArgmax (mk_MaxAndArgmax [0%Z; 1%Z]) node ;;
      run_maxandargmax k x)
     = Ok (VScalar (n 5%Z), VArray (mk_ndarray [] [4])).
Proof.
  split; vm_compute; reflexivity.
Qed.

(** ** In-place update of a scalar target (C5) *)

Lemma rank0_asarray {A : Type} (v : value A) :
  value_rank v = 0 -> value_wf v ->
  exists a, np_asarray v = mk_ndarray [] [a] /\ value_data v = [a].
Proof.
  destruct v as [a|[s d]]; simpl.
  - intros _ _. exists a. split; reflexivity.
  - unfold ndim_of, well_formed. simpl. intros Hs Hd.
    destruct s as [|n s]; [|discriminate Hs]. simpl in Hd.
    destruct d as [|a [|b d]]; try discriminate Hd.
    exists a. split; reflexivity.
Qed.

Lemma rank0_arrays {A : Type} (args : list (value A)) :
  Forall (fun v => value_rank v = 0 /\ value_wf v) args ->
  map np_asarray args
  = map (fun a => mk_ndarray [] [a]) (flat_map value_data args).
Proof.
  induction 1 as [|v args [Hr Hw] _ IH]; simpl.
  - reflexivity.
  - destruct (rank0_asarray v Hr Hw) as [a [Ea Ed]].
    rewrite Ea, Ed, IH. reflexivity.
Qed.

Lemma broadcast_shapes_scalars (l : list (list nat)) :
  Forall (fun s => s = []) l -> broadcast_shapes l = Ok [].
Proof.
  unfold broadcast_shapes. induction 1 as [|s l Hs _ IH]; simpl.
  - reflexivity.
  - subst s. exact IH.
Qed.

Lemma run_ufunc_scalars {A : Type} (f : scalar_fn A) (xs : list A) :
  run_ufunc f (map (fun a => mk_ndarray [] [a]) xs) [] = Ok [sf_call f xs].
Proof.
  unfold run_ufunc. simpl.
  rewrite (mapM_total _ (fun a : ndarray A => hd (sf_call f xs) (data a))).
  - simpl. rewrite map_map. simpl. rewrite map_id. reflexivity.
  - intros a Ha. apply in_map_iff in Ha. destruct Ha as [x [<- _]]. reflexivity.
Qed.

Lemma shapes_of_scalars {A : Type} (xs : list A) :
  Forall (fun s => s = [])
         (map (@shape A) (map (fun a => mk_ndarray [] [a]) xs)).
Proof.
  induction xs as [|x xs IH]; simpl; constructor; [reflexivity | exact IH].
Qed.

(** C5. For an [Elemwise] node whose in-place pattern sends output 0 to a
    rank-0 input, the builder returns the scalar wrapper; on rank-0
    arguments the wrapper turns the target into an array of one element,
    has the vectorized function store its result there, and returns that
    element as a scalar, the same number the vectorized function returns
    out of place on the same arguments. *)
Theorem inplace_scalar_target {A : Type} (op : Elemwise A) (node : Apply)
    (input_idx : nat) (inp : TensorType) (args : list (value A))
    (Hout : length (outputs node) = 1)
    (Hpat : lookup_nat 0 (inplace_pattern op) = Some input_idx)
    (Hinp : nth_error (inputs node) input_idx = Some inp)
    (Hndim : t_ndim inp = 0)
    (Hlen : length args = length (sf_params (scalar_op_fn op)))
    (Hidx : input_idx < length args)
    (Hargs : Forall (fun v => value_rank v = 0 /\ value_wf v) args) :
  let f := scalar_op_fn op in
  let v := sf_call f (flat_map value_data args) in
  numba_funcify_Elemwise op node = Ok (InplaceScalar f input_idx)
  /\ (exists target,
         nth_error args input_idx = Some target
         /\ length (data (np_asarray target)) = 1
         /\ call_elemwise f (args ++ [VArray (np_asarray target)])
            = Ok (VArray (mk_ndarray [] [v])))
  /\ run_elemwise (InplaceScalar f input_idx) args = Ok (VScalar v)
  /\ value_rank (VScalar v) = 0
  /\ call_elemwise f args = Ok (VScalar v).
Proof.
  intros f v.
  assert (Hcall : call_elemwise f args = Ok (VScalar v)).
  { unfold call_elemwise. fold f in Hlen. rewrite Hlen, Nat.eqb_refl.
    rewrite (rank0_arrays args Hargs).
    rewrite (broadcast_shapes_scalars _ (shapes_of_scalars _)). simpl.
    rewrite run_ufunc_scalars. reflexivity. }
  destruct (nth_error args input_idx) as [target|] eqn:Et;
    [|apply nth_error_None in Et; lia].
  assert (Htarget : value_rank target = 0 /\ value_wf target).
  { rewrite Forall_forall in Hargs. apply Hargs.
    apply nth_error_In with (n := input_idx). exact Et. }
  destruct (rank0_asarray target (proj1 Htarget) (proj2 Htarget))
    as [a [Ea _]].
  assert (Hinto : call_elemwise f (args ++ [VArray (np_asarray target)])
                  = Ok (VArray (mk_ndarray [] [v]))).
  { unfold call_elemwise. fold f in Hlen. rewrite <- Hlen.
    rewrite length_app. simpl length.
    replace (length args + 1 =? length args) with false
      by (symmetry; apply Nat.eqb_neq; lia).
    rewrite Nat.eqb_refl.
    rewrite firstn_app, firstn_all, Nat.sub_diag.
    simpl firstn. rewrite app_nil_r.
    rewrite nth_error_app2, Nat.sub_diag by lia. simpl.
    rewrite (rank0_arrays args Hargs). rewrite Ea. simpl shape.
    rewrite broadcast_shapes_scalars.
    2:{ apply Forall_app. split; [apply shapes_of_scalars|].
        constructor; [reflexivity | constructor]. }
    simpl. rewrite run_ufunc_scalars. reflexivity. }
  split; [|split; [|split; [|split]]].
  - unfold numba_funcify_Elemwise, create_vectorize_func.
    rewrite Hout. simpl.
    destruct (inplace_pattern op) as [|p l] eqn:Ep; [discriminate Hpat|].
    rewrite Hpat. simpl.
    destruct (nth_error (sf_params (scalar_op_fn op)) input_idx) eqn:En.
    2:{ apply nth_error_None in En. lia. }
    simpl. rewrite Hinp. simpl. rewrite Hndim. reflexivity.
  - exists target. split; [reflexivity|]. split; [|exact Hinto].
    rewrite Ea. reflexivity.
  - unfold run_elemwise. fold f in Hlen. rewrite Hlen, Nat.eqb_refl.
    rewrite Et. simpl. rewrite Hinto. reflexivity.
  - reflexivity.
  - exact Hcall.
Qed.

Lemma inplace_scalar_target_witness :
  let op := mk_Elemwise
              (mk_scalar_fn ["x"; "y"]%string
                 (fun l => xadd (nth 0 l NaN) (nth 1 l NaN)))
              [(0, 1)] in
  let node := mk_Apply [mk_TensorType float64 0 []; mk_TensorType float64 0 []]
                       [mk_TensorType float64 0 []] in
  let args := [VScalar (Num 2); VArray (mk_ndarray [] [Num 3])] in
  numba_funcify_Elemwise op node = Ok (InplaceScalar (scalar_op_fn op) 1)
  /\ run_elemwise (InplaceScalar (scalar_op_fn op) 1) args
     = Ok (VScalar (Num (2 + 3))).
Proof.
  intros op node args.
  assert (Hout : length (outputs node) = 1) by reflexivity.
  assert (Hpat : lookup_nat 0 (inplace_pattern op) = Some 1) by reflexivity.
  assert (Hinp : nth_error (inputs node) 1 = Some (mk_TensorType float64 0 []))
    by reflexivity.
  assert (Hndim : t_ndim (mk_TensorType float64 0 []) = 0) by reflexivity.
  assert (Hlen : length args = length (sf_params (scalar_op_fn op)))
    by reflexivity.
  assert (Hidx : 1 < length args) by (simpl; lia).
  assert (Hargs : Forall (fun v : value xnum => value_rank v = 0 /\ value_wf v)
                         args).
  { repeat constructor. }
  pose proof (inplace_scalar_target op node 1 _ args Hout Hpat Hinp Hndim Hlen
                Hidx Hargs)
    as T.
  split; [exact (proj1 T) | exact (proj1 (proj2 (proj2 T)))].
Defined.

(** ** The running mean (C4) *)

Lemma Qsum_app (l : list Q) (x : Q) : (Qsum (l ++ [x]) == Qsum l + x)%Q.
Proof.
  induction l as [|y l IH]; simpl.
  - ring.
  - rewrite IH. ring.
Qed.

Lemma firstn_snoc {B : Type} (l : list B) (k : nat) (x : B) :
  nth_error l k = Some x -> firstn (S k) l = firstn k l ++ [x].
Proof.
  revert k. induction l as [|y l IH]; intros k E.
  - destruct k; discriminate E.
  - destruct k as [|k]; simpl in *.
    + inversion E. reflexivity.
    + f_equal. apply IH. exact E.
Qed.

Lemma count_nonzero (k : nat) : Qeq_bool (inject_Z (Z.of_nat k + 1)) 0 = false.
Proof.
  destruct (Qeq_bool (inject_Z (Z.of_nat k + 1)) 0) eqn:E; [|reflexivity].
  apply Qeq_bool_iff in E. unfold Qeq in E. simpl in E. lia.
Qed.

Lemma mean_step (a x : Q) (k : nat) (frag : stmt) (idx res arr : string) :
  scalar_in_place_fn Mean idx res arr = Ok frag ->
  exec_stmt (Num a) (Num x) k frag
  = Num (a + (x + - a) / inject_Z (Z.of_nat k + 1)).
Proof.
  intros E. inversion E; subst. cbn -[Qeq_bool inject_Z Z.add Z.of_nat].
  rewrite count_nonzero. reflexivity.
Qed.

Lemma mean_loop (frag : stmt) (idx res arr : string) (xs : list Q) (a0 : Q) :
  scalar_in_place_fn Mean idx res arr = Ok frag ->
  forall k, k <= length xs ->
  exists a,
    foldM (fun r i =>
             update_cell frag (mk_ndarray [length xs] (map Num xs)) r [0] [i] i)
          (seq 0 k) (mk_ndarray [1] [Num a0])
    = Ok (mk_ndarray [1] [Num a])
    /\ (a * inject_Z (Z.of_nat k) == Qsum (firstn k xs))%Q.
Proof.
  intros Hfrag k. induction k as [|k IH]; intros Hk.
  - exists a0. split; [reflexivity|]. simpl. ring.
  - destruct IH as [a [Hloop Hinv]]; [lia|].
    destruct (nth_error xs k) as [x|] eqn:Ex;
      [|apply nth_error_None in Ex; lia].
    exists (a + (x + - a) / inject_Z (Z.of_nat k + 1))%Q. split.
    + rewrite seq_S, foldM_app, Hloop. simpl.
      unfold update_cell, getitem. simpl.
      replace (k <? length xs) with true by (symmetry; apply Nat.ltb_lt; lia).
      simpl. rewrite Nat.mul_1_r, Nat.add_0_r.
      rewrite nth_error_map, Ex. simpl.
      rewrite (mean_step a x k frag idx res arr Hfrag). reflexivity.
    + rewrite (firstn_snoc xs k x Ex), Qsum_app, <- Hinv.
      rewrite Nat2Z.inj_succ. unfold Z.succ.
      rewrite inject_Z_plus.
      assert (Hd : ~ (inject_Z (Z.of_nat k) + inject_Z 1 == 0)%Q).
      { rewrite <- inject_Z_plus. intros E.
        pose proof (count_nonzero k) as Hc.
        apply Qeq_bool_iff in E. rewrite E in Hc. discriminate Hc. }
      field. exact Hd.
Qed.

(** C4. The fragment emitted for [Mean] adds to the accumulator the
    operand's distance from it divided by the counter plus one, the counter
    being the index [i] of the reduction loop; and the one-dimensional
    reducer built from it, started from any finite identity and run on [n]
    values with [n >= 1], the counter running from 0, returns their
    arithmetic mean. *)
Theorem running_mean (identity : Q) (dtype : np_dtype) (xs : list Q)
    (Hn : 1 <= length xs) :
  (forall idx res arr (acc x : xnum) (i : nat),
      exists frag,
        scalar_in_place_fn Mean idx res arr = Ok frag
        /\ exec_stmt acc x i frag
           = xadd acc (xdiv (xsub x acc) (Num (inject_Z (Z.of_nat i + 1)))))
  /\ exists r m,
       create_axis_reducer Mean (Num identity) 0 1 dtype false = Ok r
       /\ run_reducer r (VArray (mk_ndarray [length xs] (map Num xs)))
          = Ok (VScalar (Num m))
       /\ (m == Qsum xs / inject_Z (Z.of_nat (length xs)))%Q.
Proof.
  split.
  - intros idx res arr acc x i. eexists. split; reflexivity.
  - destruct (mean_loop _ "0" "res" "x[i]" xs identity eq_refl (length xs)
                (le_n (length xs))) as [m [Hloop Hinv]].
    eexists. exists m. split; [reflexivity|]. split.
    + simpl. unfold np_full. simpl. rewrite Hloop. reflexivity.
    + rewrite firstn_all in Hinv. rewrite <- Hinv.
      field. intros E. unfold Qeq in E. simpl in E. lia.
Qed.

Lemma running_mean_witness :
  1 <= length [1; 2; 6]%Q
  /\ exists m,
       (r <- create_axis_reducer Mean (Num 7) 0 1 float64 false ;;
        run_reducer r (VArray (mk_ndarray [3] (map Num [1; 2; 6]%Q))))
       = Ok (VScalar (Num m))
       /\ (m == 3)%Q.
Proof.
  split; [simpl; lia|].
  destruct (running_mean 7 float64 [1; 2; 6]%Q) as [_ [r [m [Hr [Hrun Hm]]]]];
    [simpl; lia|].
  exists m. split.
  - rewrite Hr. exact Hrun.
  - rewrite Hm. reflexivity.
Defined.

(** ** The identity embedded in a reduction kernel (C3) *)

Lemma foldM_preserves {S B : Type} (body : S -> B -> result S) (I : S -> Prop) :
  (forall s b s', I s -> body s b = Ok s' -> I s') ->
  forall l s s', I s -> foldM body l s = Ok s' -> I s'.
Proof.
  intros Hbody l. induction l as [|b l IH]; intros s s' Hs E; simpl in E.
  - inversion E; subst. exact Hs.
  - apply bind_ok in E. destruct E as [s1 [E1 E2]].
    apply (IH s1 s'); [|exact E2]. apply (Hbody s b s1 Hs E1).
Qed.

Lemma create_axis_reducer_identity (sop : ScalarOp) (identity : xnum)
    (ax : Z) (ndim : nat) (dtype : np_dtype) (keepdims : bool) (r : reducer_src) :
  create_axis_reducer sop identity ax ndim dtype keepdims = Ok r ->
  reducer_identity r = identity_literal identity
  /\ reducer_keepdims r = keepdims.
Proof.
  unfold create_axis_reducer. intros E.
  apply bind_ok in E. destruct E as [a [_ E]].
  destruct (1 <? ndim).
  - destruct (index_lists a ndim) as [[ri ai] c].
    apply bind_ok in E. destruct E as [upd [_ E]].
    inversion E; subst. split; reflexivity.
  - apply bind_ok in E. destruct E as [upd [_ E]].
    inversion E; subst. split; reflexivity.
Qed.

Lemma multiaxis_loop_identity (sop : ScalarOp) (identity : xnum)
    (dtype : np_dtype) (l : list (nat * nat)) (st st' : loop_state) :
  Forall (fun r => reducer_identity r = identity_literal identity
                   /\ reducer_keepdims r = false)
         (map snd (ls_global_env st)) ->
  foldM (multiaxis_step sop identity dtype) l st = Ok st' ->
  Forall (fun r => reducer_identity r = identity_literal identity
                   /\ reducer_keepdims r = false)
         (map snd (ls_global_env st')).
Proof.
  apply foldM_preserves with
    (I := fun s => Forall (fun r => reducer_identity r = identity_literal identity
                                    /\ reducer_keepdims r = false)
                          (map snd (ls_global_env s))).
  intros s [i a] s' Hs E. unfold multiaxis_step in E.
  apply bind_ok in E. destruct E as [r [Er E]]. inversion E; subst. simpl.
  constructor; [|exact Hs].
  apply (create_axis_reducer_identity _ _ _ _ _ _ _ Er).
Qed.

Lemma create_multiaxis_reducer_identity (sop : ScalarOp) (identity : xnum)
    (axes : list Z) (ndim : nat) (dtype : np_dtype) (name : string)
    (k : careduce_fn) :
  create_multiaxis_reducer sop identity axes ndim dtype name = Ok k ->
  Forall (fun r => reducer_identity r = identity_literal identity
                   /\ reducer_keepdims r = false)
         (careduce_reducers k).
Proof.
  intros E.
  assert (Hgen : forall l,
             (axes' <- normalize_axis_tuple l ndim ;;
              st <- foldM (multiaxis_step sop identity dtype)
                          (enumerate (rev (sorted axes')))
                          (mk_loop_state [] ndim name []) ;;
              Ok (MultiAxis (mk_careduce_src name (ls_lines st)
                               (ls_var_name st) (ls_global_env st)))) = Ok k ->
             Forall (fun r => reducer_identity r = identity_literal identity
                              /\ reducer_keepdims r = false)
                    (careduce_reducers k)).
  { intros l El. apply bind_ok in El. destruct El as [axes' [_ El]].
    apply bind_ok in El. destruct El as [st [Est El]].
    inversion El; subst. simpl.
    refine (multiaxis_loop_identity _ _ _ _ _ _ _ Est). simpl. constructor. }
  destruct axes as [|a [|b l]]; simpl in E.
  - apply (Hgen [] E).
  - apply bind_ok in E. destruct E as [r [Er E]]. inversion E; subst. simpl.
    constructor; [|constructor].
    apply (create_axis_reducer_identity _ _ _ _ _ _ _ Er).
  - apply (Hgen (a :: b :: l) E).
Qed.

Lemma signed_saturation (d : np_dtype) :
  dtype_kind d = "i"%char ->
  np_array_scalar (Num (inject_Z (iinfo_max d))) d
  = Ok (Num (inject_Z (iinfo_max d)))
  /\ np_array_scalar (Num (inject_Z (iinfo_min d))) d
     = Ok (Num (inject_Z (iinfo_min d))).
Proof.
  destruct d; simpl; intros E; try discriminate E; split; vm_compute; reflexivity.
Qed.

(** C3. The code at the failing input. For a minimum over [uint8], whose
    identity is [+inf], the saturation step leaves the identity infinite
    (its guard is the kind ["i"] alone), the conversion to the dtype raises
    [OverflowError] and no kernel is built, where the claim has the
    identity 255; on the signed sibling [int8] the same reduction is built
    and every reducer embeds the identity 127. *)
Theorem unsigned_identity_overflows :
  let op := mk_CAReduce None ScalarMinimum PInf None in
  let node := mk_Apply [mk_TensorType uint8 1 [None]]
                       [mk_TensorType uint8 0 []] in
  let node_signed := mk_Apply [mk_TensorType int8 1 [None]]
                              [mk_TensorType int8 0 []] in
  node_acc_dtype op node = Some uint8
  /\ is_integer_dtype uint8 = true
  /\ np_isfinite (scalar_op_identity op) = false
  /\ saturate_identity uint8 (scalar_op_identity op) = PInf
  /\ saturate_identity uint8 (scalar_op_identity op)
     <> Num (inject_Z (iinfo_max uint8))
  /\ numba_funcify_CAReduce op node "x" = Err OverflowError
  /\ saturate_identity int8 (scalar_op_identity op)
     = Num (inject_Z (iinfo_max int8))
  /\ exists k,
       numba_funcify_CAReduce op node_signed "x" = Ok k
       /\ Forall (fun r => reducer_identity r = LText (Num (inject_Z 127)))
                 (careduce_reducers k).
Proof.
  simpl. repeat split; try reflexivity; try discriminate.
  eexists. split; [reflexivity|]. repeat constructor.
Qed.

(** The paths of the saturation step that do what is intended. In every
    reduction kernel that is built: when the accumulator dtype is a signed
    integer dtype (kind ["i"]) and the operator's identity is [+inf], every
    reducer of the kernel embeds the dtype's greatest value, and when it is
    [-inf], its least value; the guard lets every dtype of another kind
    through; and when the dtype is a floating-point one the reducers embed
    the identity as given, [np.inf] and [-np.inf] standing for the two
    infinities. *)
Lemma identity_saturation (op : CAReduce) (node : Apply) (input_name : string)
    (k : careduce_fn) (d : np_dtype)
    (Hacc : node_acc_dtype op node = Some d)
    (Hbuild : numba_funcify_CAReduce op node input_name = Ok k) :
  (dtype_kind d = "i"%char -> scalar_op_identity op = PInf ->
   Forall (fun r => reducer_identity r = LText (Num (inject_Z (iinfo_max d))))
          (careduce_reducers k))
  /\ (dtype_kind d = "i"%char -> scalar_op_identity op = NInf ->
      Forall (fun r => reducer_identity r = LText (Num (inject_Z (iinfo_min d))))
             (careduce_reducers k))
  /\ (dtype_kind d <> "i"%char ->
      saturate_identity d (scalar_op_identity op) = scalar_op_identity op)
  /\ (dtype_kind d = "f"%char ->
      Forall (fun r => reducer_identity r
                       = identity_literal (scalar_op_identity op)
                       /\ literal_value (reducer_identity r)
                          = scalar_op_identity op)
             (careduce_reducers k)).
Proof.
  unfold numba_funcify_CAReduce in Hbuild.
  apply bind_ok in Hbuild. destruct Hbuild as [axes [_ Hbuild]].
  apply bind_ok in Hbuild. destruct Hbuild as [d' [Hd' Hbuild]].
  assert (d' = d) as ->.
  { unfold node_acc_dtype in Hacc. destruct (acc_dtype op) as [d0|].
    - inversion Hd'. inversion Hacc. congruence.
    - destruct (nth_error (outputs node) 0) as [out0|]; simpl in *;
        [|discriminate Hacc].
      inversion Hd'. inversion Hacc. congruence. }
  clear Hd'.
  apply bind_ok in Hbuild. destruct Hbuild as [identity [Hid Hbuild]].
  apply bind_ok in Hbuild. destruct Hbuild as [in0 [_ Hbuild]].
  apply bind_ok in Hbuild. destruct Hbuild as [out0 [_ Hbuild]].
  apply create_multiaxis_reducer_identity in Hbuild.
  split; [|split; [|split]].
  - intros Hk Hinf. destruct (signed_saturation d Hk) as [Hmax _].
    unfold saturate_identity in Hid. rewrite Hk, Hinf in Hid. simpl in Hid.
    rewrite Hmax in Hid. inversion Hid; subst.
    eapply Forall_impl; [|exact Hbuild]. intros r [Hr _]. exact Hr.
  - intros Hk Hinf. destruct (signed_saturation d Hk) as [_ Hmin].
    unfold saturate_identity in Hid. rewrite Hk, Hinf in Hid. simpl in Hid.
    rewrite Hmin in Hid. inversion Hid; subst.
    eapply Forall_impl; [|exact Hbuild]. intros r [Hr _]. exact Hr.
  - intros Hk. unfold saturate_identity.
    destruct (Ascii.eqb (dtype_kind d) "i") eqn:E; [|reflexivity].
    apply Ascii.eqb_eq in E. contradiction.
  - intros Hk. unfold saturate_identity, np_array_scalar in Hid.
    rewrite Hk in Hid. simpl in Hid. inversion Hid; subst.
    eapply Forall_impl; [|exact Hbuild]. intros r [Hr _].
    split; [exact Hr|]. rewrite Hr.
    destruct (scalar_op_identity op); reflexivity.
Qed.

Lemma identity_saturation_witness :
  let op := mk_CAReduce (Some [0%Z]) ScalarMaximum NInf None in
  let node := mk_Apply [mk_TensorType int8 1 [None]]
                       [mk_TensorType int8 0 []] in
  let k := SingleAxis
             (Reduce1D 0 (LText (Num (inject_Z (-128)))) int8
                (SIf CLt (ECell "res" "0") (EText "x[i]")
                   (SAssign "res" "0" (EText "x[i]"))) false) in
  node_acc_dtype op node = Some int8
  /\ numba_funcify_CAReduce op node "x" = Ok k
  /\ Forall (fun r => reducer_identity r = LText (Num (inject_Z (iinfo_min int8))))
            (careduce_reducers k).
Proof.
  intros op node k.
  assert (Hacc : node_acc_dtype op node = Some int8) by reflexivity.
  assert (Hbuild : numba_funcify_CAReduce op node "x" = Ok k) by reflexivity.
  split; [exact Hacc|]. split; [exact Hbuild|].
  exact (proj1 (proj2 (identity_saturation op node "x"%string k int8 Hacc Hbuild))
               eq_refl eq_refl).
Defined.

(** ** Indexing row-major arrays *)

Lemma in_boundsb_length (idx s : list nat) :
  in_boundsb idx s = true -> length idx = length s.
Proof.
  revert s. induction idx as [|i idx IH]; intros [|d s]; simpl;
    try discriminate; [reflexivity|].
  intros E. apply andb_prop in E. destruct E as [_ E].
  f_equal. apply IH. exact E.
Qed.

Lemma in_boundsb_nth (idx s : list nat) :
  in_boundsb idx s = true ->
  forall k, k < length s -> nth k idx 0 < nth k s 0.
Proof.
  revert s. induction idx as [|i idx IH]; intros [|d s]; simpl;
    try discriminate; intros E k Hk; [lia|].
  apply andb_prop in E. destruct E as [Ei E].
  destruct k as [|k].
  - apply Nat.ltb_lt. exact Ei.
  - apply IH; [exact E | lia].
Qed.

Lemma in_boundsb_intro (idx s : list nat) :
  length idx = length s ->
  (forall k, k < length s -> nth k idx 0 < nth k s 0) ->
  in_boundsb idx s = true.
Proof.
  revert s. induction idx as [|i idx IH]; intros [|d s]; simpl;
    try discriminate; [reflexivity|].
  intros Hlen Hnth. apply andb_true_intro. split.
  - apply Nat.ltb_lt. apply (Hnth 0). lia.
  - apply IH; [lia|]. intros k Hk. apply (Hnth (S k)). lia.
Qed.

Lemma ravel_bound (s idx : list nat) :
  in_boundsb idx s = true -> ravel s idx < size_of s.
Proof.
  revert idx. induction s as [|d s IH]; intros [|i idx]; simpl;
    try discriminate; [lia|].
  intros E. apply andb_prop in E. destruct E as [Ei E].
  apply Nat.ltb_lt in Ei. specialize (IH idx E).
  fold (size_of s). nia.
Qed.

Lemma ndindex_in_bounds (s idx : list nat) :
  In idx (ndindex s) -> in_boundsb idx s = true.
Proof.
  revert idx. induction s as [|d s IH]; intros idx Hin; simpl in Hin.
  - destruct Hin as [<-|[]]. reflexivity.
  - apply in_flat_map in Hin. destruct Hin as [i [Hi Hin]].
    apply in_map_iff in Hin. destruct Hin as [idx' [<- Hin']].
    apply in_seq in Hi. simpl. apply andb_true_intro. split.
    + apply Nat.ltb_lt. lia.
    + apply IH. exact Hin'.
Qed.

Lemma ndindex_length (s : list nat) : length (ndindex s) = size_of s.
Proof.
  induction s as [|d s IH]; simpl; [reflexivity|].
  fold (size_of s). generalize 0 as k.
  induction d as [|d IHd]; intros k; simpl; [reflexivity|].
  rewrite length_app, length_map, IH, IHd. reflexivity.
Qed.

Lemma list_set_ok {A : Type} (l : list A) (k : nat) (v : A) :
  k < length l ->
  exists l', list_set l k v = Ok l' /\ length l' = length l.
Proof.
  revert k. induction l as [|x l IH]; intros k Hk; simpl in *; [lia|].
  destruct k as [|k].
  - exists (v :: l). split; reflexivity.
  - destruct (IH k) as [l' [E Hl']]; [lia|].
    exists (x :: l'). rewrite E. simpl. split; [reflexivity | congruence].
Qed.

Lemma getitem_ok {A : Type} (a : ndarray A) (idx : list nat) :
  length (data a) = size_of (shape a) ->
  in_boundsb idx (shape a) = true ->
  exists v, getitem a idx = Ok v.
Proof.
  intros Hwf Hb. unfold getitem. rewrite Hb.
  pose proof (ravel_bound _ _ Hb) as Hr.
  destruct (nth_error (data a) (ravel (shape a) idx)) as [v|] eqn:E.
  - exists v. reflexivity.
  - apply nth_error_None in E. lia.
Qed.

Lemma setitem_ok {A : Type} (a : ndarray A) (idx : list nat) (v : A) :
  length (data a) = size_of (shape a) ->
  in_boundsb idx (shape a) = true ->
  exists a', setitem a idx v = Ok a'
             /\ shape a' = shape a
             /\ length (data a') = length (data a).
Proof.
  intros Hwf Hb. unfold setitem. rewrite Hb.
  pose proof (ravel_bound _ _ Hb) as Hr.
  destruct (list_set_ok (data a) (ravel (shape a) idx) v) as [d [E Hd]]; [lia|].
  rewrite E. simpl. eexists. repeat split. exact Hd.
Qed.

(** One update of a cell keeps the shape of [res] and cannot fail when both
    indices are in bounds. *)
Lemma update_cell_ok {A : Type} `{Scalar A} (update : stmt) (x res : ndarray A)
    (res_idx arr_idx : list nat) (i : nat) :
  length (data x) = size_of (shape x) ->
  length (data res) = size_of (shape res) ->
  in_boundsb res_idx (shape res) = true ->
  in_boundsb arr_idx (shape x) = true ->
  exists res', update_cell update x res res_idx arr_idx i = Ok res'
               /\ shape res' = shape res
               /\ length (data res') = size_of (shape res').
Proof.
  intros Hx Hres Hri Hai. unfold update_cell.
  destruct (getitem_ok res res_idx Hres Hri) as [acc ->].
  destruct (getitem_ok x arr_idx Hx Hai) as [operand ->]. simpl.
  destruct (setitem_ok res res_idx (exec_stmt acc operand i update) Hres Hri)
    as [res' [E [Hs Hd]]].
  exists res'. split; [exact E|]. split; [exact Hs|]. congruence.
Qed.

Lemma map_nth_seq {B : Type} (l : list B) (d : B) :
  map (fun k => nth k l d) (seq 0 (length l)) = l.
Proof.
  induction l as [|x l IH]; simpl; [reflexivity|].
  f_equal. rewrite <- seq_shift, map_map. exact IH.
Qed.

Lemma nth_map_seq {B : Type} (f : nat -> B) (n k : nat) (d : B) :
  k < n -> nth k (map f (seq 0 n)) d = f k.
Proof.
  intros Hk. rewrite (nth_indep _ d (f 0)) by (rewrite length_map, length_seq; lia).
  rewrite (map_nth f (seq 0 n) 0 k). rewrite seq_nth by lia. reflexivity.
Qed.

(** ** What a single-axis reducer is built from *)

Lemma registered_fragment (sop : ScalarOp) (idx res arr : string) :
  is_registered sop = true ->
  exists frag, scalar_in_place_fn sop idx res arr = Ok frag.
Proof.
  destruct sop; simpl; intros E; try discriminate E; eexists; reflexivity.
Qed.

Lemma normalize_axis_index_nat (a ndim : nat) :
  a < ndim -> normalize_axis_index (Z.of_nat a) ndim = Ok a.
Proof.
  intros Ha. unfold normalize_axis_index.
  replace ((- Z.of_nat ndim <=? Z.of_nat a) && (Z.of_nat a <? Z.of_nat ndim))%Z
    with true by (symmetry; apply andb_true_intro; split;
                  [apply Z.leb_le | apply Z.ltb_lt]; lia).
  replace (Z.of_nat a <? 0)%Z with false by (symmetry; apply Z.ltb_ge; lia).
  rewrite Nat2Z.id. reflexivity.
Qed.

Lemma normalize_axis_index_bound (ax : Z) (ndim a : nat) :
  normalize_axis_index ax ndim = Ok a -> a < ndim.
Proof.
  unfold normalize_axis_index.
  destruct ((- Z.of_nat ndim <=? ax) && (ax <? Z.of_nat ndim))%Z eqn:E;
    [|discriminate].
  apply andb_prop in E. destruct E as [E1 E2].
  apply Z.leb_le in E1. apply Z.ltb_lt in E2.
  intros Ea. inversion Ea; subst. destruct (ax <? 0)%Z eqn:E0.
  - apply Z.ltb_lt in E0. lia.
  - apply Z.ltb_ge in E0. lia.
Qed.

Lemma index_lists_prefix (axis m : nat) :
  fold_left (index_lists_step axis) (seq 0 m) ([], [], 0)
  = (map IArr (seq 0 (if m <=? axis then m else m - 1)),
     map (arr_index_term axis) (seq 0 m),
     if m <=? axis then m else m - 1).
Proof.
  induction m as [|m IH]; [reflexivity|].
  rewrite seq_S, fold_left_app, IH, map_app.
  change (0 + m) with m.
  change (map (arr_index_term axis) [m]) with [arr_index_term axis m].
  change (fold_left (index_lists_step axis) [m] ?st)
    with (index_lists_step axis st m).
  unfold index_lists_step.
  assert (Hterm : arr_index_term axis m
                  = if m =? axis then ILoop
                    else IArr (if m <=? axis then m else m - 1)).
  { unfold arr_index_term.
    destruct (Nat.lt_trichotomy m axis) as [Hlt|[Heq|Hgt]].
    - replace (m <? axis) with true by (symmetry; apply Nat.ltb_lt; lia).
      replace (m =? axis) with false by (symmetry; apply Nat.eqb_neq; lia).
      replace (m <=? axis) with true by (symmetry; apply Nat.leb_le; lia).
      reflexivity.
    - replace (m <? axis) with false by (symmetry; apply Nat.ltb_ge; lia).
      replace (m =? axis) with true by (symmetry; apply Nat.eqb_eq; lia).
      reflexivity.
    - replace (m <? axis) with false by (symmetry; apply Nat.ltb_ge; lia).
      replace (m =? axis) with false by (symmetry; apply Nat.eqb_neq; lia).
      replace (m <=? axis) with false by (symmetry; apply Nat.leb_gt; lia).
      reflexivity. }
  rewrite Hterm. clear Hterm.
  destruct (Nat.lt_trichotomy m axis) as [Hlt|[Heq|Hgt]].
  - replace (m =? axis) with false by (symmetry; apply Nat.eqb_neq; lia).
    replace (m <=? axis) with true by (symmetry; apply Nat.leb_le; lia).
    replace (S m <=? axis) with true by (symmetry; apply Nat.leb_le; lia).
    rewrite seq_S, map_app. reflexivity.
  - replace (m =? axis) with true by (symmetry; apply Nat.eqb_eq; lia).
    replace (m <=? axis) with true by (symmetry; apply Nat.leb_le; lia).
    replace (S m <=? axis) with false by (symmetry; apply Nat.leb_gt; lia).
    replace (S m - 1) with m by lia. reflexivity.
  - replace (m =? axis) with false by (symmetry; apply Nat.eqb_neq; lia).
    replace (m <=? axis) with false by (symmetry; apply Nat.leb_gt; lia).
    replace (S m <=? axis) with false by (symmetry; apply Nat.leb_gt; lia).
    replace (S m - 1) with (S (m - 1)) by lia.
    rewrite seq_S, map_app. reflexivity.
Qed.

Lemma index_lists_spec (axis ndim : nat) :
  axis < ndim ->
  index_lists axis ndim
  = (map IArr (seq 0 (ndim - 1)),
     map (arr_index_term axis) (seq 0 ndim),
     ndim - 1).
Proof.
  intros Ha. unfold index_lists. rewrite index_lists_prefix.
  replace (ndim <=? axis) with false by (symmetry; apply Nat.leb_gt; lia).
  reflexivity.
Qed.

(** The reducer built for a registered operator and a valid axis. *)
Lemma create_axis_reducer_ok (sop : ScalarOp) (identity : xnum) (ax : Z)
    (ndim a : nat) (dtype : np_dtype) (keepdims : bool) :
  is_registered sop = true ->
  normalize_axis_index ax ndim = Ok a ->
  exists upd,
    create_axis_reducer sop identity ax ndim dtype keepdims
    = Ok (if 1 <? ndim
          then ReduceND a ndim (identity_literal identity) dtype
                 (map IArr (seq 0 (ndim - 1)))
                 (map (arr_index_term a) (seq 0 ndim)) upd keepdims
          else Reduce1D a (identity_literal identity) dtype upd keepdims).
Proof.
  intros Hreg Hax. unfold create_axis_reducer. rewrite Hax. cbn [bind].
  pose proof (normalize_axis_index_bound _ _ _ Hax) as Ha.
  destruct (1 <? ndim).
  - rewrite (index_lists_spec a ndim Ha).
    match goal with
    | |- context [scalar_in_place_fn sop ?i ?r ?x] =>
        destruct (registered_fragment sop i r x Hreg) as [upd ->]
    end.
    exists upd. reflexivity.
  - destruct (registered_fragment sop "0" "res" "x[i]" Hreg) as [upd ->].
    exists upd. reflexivity.
Qed.

(** ** Running a single-axis reducer *)

Lemma mapM_map {B C D : Type} (f : C -> result D) (g : B -> C) (l : list B) :
  mapM f (map g l) = mapM (fun b => f (g b)) l.
Proof.
  induction l as [|b l IH]; simpl; [reflexivity|]. rewrite IH. reflexivity.
Qed.

Lemma res_shape_ok (axis : nat) (s : list nat) :
  axis < length s ->
  res_shape_tuple_ctor axis (length s) s = Ok (remove_axis axis s).
Proof.
  intros Ha. unfold res_shape_tuple_ctor, remove_axis.
  apply mapM_total. intros i Hi. apply in_seq in Hi.
  rewrite (nth_error_nth' s 0); [reflexivity|].
  destruct (i <? axis); lia.
Qed.

Lemma remove_axis_length (axis : nat) (s : list nat) :
  length (remove_axis axis s) = length s - 1.
Proof.
  unfold remove_axis. rewrite length_map, length_seq. reflexivity.
Qed.

Lemma eval_res_indices (idx_arr : list nat) (i : nat) :
  eval_indices (map IArr (seq 0 (length idx_arr))) idx_arr i = Ok idx_arr.
Proof.
  unfold eval_indices. rewrite mapM_map.
  rewrite (mapM_total _ (fun k => nth k idx_arr 0)).
  - rewrite map_nth_seq. reflexivity.
  - intros k Hk. apply in_seq in Hk.
    rewrite (nth_error_nth' idx_arr 0) by lia. reflexivity.
Qed.

Lemma eval_arr_indices (axis ndim : nat) (idx_arr : list nat) (i : nat) :
  axis < ndim -> length idx_arr = ndim - 1 ->
  eval_indices (map (arr_index_term axis) (seq 0 ndim)) idx_arr i
  = Ok (map (fun k => if k <? axis then nth k idx_arr 0
                      else if k =? axis then i
                      else nth (k - 1) idx_arr 0)
            (seq 0 ndim)).
Proof.
  intros Ha Hlen. unfold eval_indices. rewrite mapM_map.
  apply mapM_total. intros k Hk. apply in_seq in Hk.
  unfold arr_index_term.
  destruct (k <? axis) eqn:E1.
  - apply Nat.ltb_lt in E1.
    rewrite (nth_error_nth' idx_arr 0) by lia. reflexivity.
  - destruct (k =? axis) eqn:E2; [reflexivity|].
    apply Nat.ltb_ge in E1. apply Nat.eqb_neq in E2.
    rewrite (nth_error_nth' idx_arr 0) by lia. reflexivity.
Qed.

Lemma arr_index_in_bounds (axis : nat) (s idx_arr : list nat) (i : nat) :
  axis < length s ->
  in_boundsb idx_arr (remove_axis axis s) = true ->
  i < nth axis s 0 ->
  in_boundsb (map (fun k => if k <? axis then nth k idx_arr 0
                            else if k =? axis then i
                            else nth (k - 1) idx_arr 0)
                  (seq 0 (length s))) s = true.
Proof.
  intros Ha Hb Hi.
  pose proof (in_boundsb_nth _ _ Hb) as Hnth.
  rewrite remove_axis_length in Hnth.
  apply in_boundsb_intro.
  - rewrite length_map, length_seq. reflexivity.
  - intros k Hk. rewrite (nth_map_seq _ (length s) k 0 Hk).
    destruct (k <? axis) eqn:E1.
    + apply Nat.ltb_lt in E1. specialize (Hnth k ltac:(lia)).
      unfold remove_axis in Hnth.
      rewrite (nth_map_seq _ (length s - 1) k 0) in Hnth by lia.
      replace (k <? axis) with true in Hnth by (symmetry; apply Nat.ltb_lt; lia).
      exact Hnth.
    + apply Nat.ltb_ge in E1. destruct (k =? axis) eqn:E2.
      * apply Nat.eqb_eq in E2. subst k. exact Hi.
      * apply Nat.eqb_neq in E2. specialize (Hnth (k - 1) ltac:(lia)).
        unfold remove_axis in Hnth.
        rewrite (nth_map_seq _ (length s - 1) (k - 1) 0) in Hnth by lia.
        replace (k - 1 <? axis) with false in Hnth
          by (symmetry; apply Nat.ltb_ge; lia).
        replace (k - 1 + 1) with k in Hnth by lia. exact Hnth.
Qed.

Lemma create_axis_reducer_inv (sop : ScalarOp) (identity : xnum) (ax : Z)
    (ndim : nat) (dtype : np_dtype) (keepdims : bool) (r : reducer_src) :
  create_axis_reducer sop identity ax ndim dtype keepdims = Ok r ->
  exists a upd,
    normalize_axis_index ax ndim = Ok a
    /\ r = if 1 <? ndim
           then ReduceND a ndim (identity_literal identity) dtype
                  (map IArr (seq 0 (ndim - 1)))
                  (map (arr_index_term a) (seq 0 ndim)) upd keepdims
           else Reduce1D a (identity_literal identity) dtype upd keepdims.
Proof.
  unfold create_axis_reducer. intros E.
  apply bind_ok in E. destruct E as [a [Ha E]].
  pose proof (normalize_axis_index_bound _ _ _ Ha) as Hlt.
  exists a. destruct (1 <? ndim).
  - rewrite (index_lists_spec a ndim Hlt) in E.
    apply bind_ok in E. destruct E as [upd [_ E]].
    exists upd. split; [exact Ha|]. inversion E. reflexivity.
  - apply bind_ok in E. destruct E as [upd [_ E]].
    exists upd. split; [exact Ha|]. inversion E. reflexivity.
Qed.

Section ReducerRuns.
Context {A : Type} `{Scalar A}.

(** The reducer for several dimensions, run on a well-formed array of the
    rank it was built for, returns a well-formed array whose shape is the
    input's without the reduced axis. *)
Lemma run_reduceND_ok (axis : nat) (x : ndarray A) (ident : id_literal)
    (dt : np_dtype) (upd : stmt) :
  well_formed x -> axis < length (shape x) ->
  exists res,
    run_reducer
      (ReduceND axis (length (shape x)) ident dt
         (map IArr (seq 0 (length (shape x) - 1)))
         (map (arr_index_term axis) (seq 0 (length (shape x)))) upd false)
      (VArray x)
    = Ok (VArray res)
    /\ shape res = remove_axis axis (shape x)
    /\ well_formed res.
Proof.
  intros Hwf Ha. unfold run_reducer.
  rewrite (res_shape_ok axis (shape x) Ha). cbn [bind].
  rewrite (nth_error_nth' (shape x) 0 Ha). cbn [of_option bind].
  set (rs := remove_axis axis (shape x)).
  set (n := nth axis (shape x) 0).
  destruct (foldM_invariant
              (fun res idx_arr =>
                 foldM (fun res i =>
                          res_idx <- eval_indices
                                       (map IArr (seq 0 (length (shape x) - 1)))
                                       idx_arr i ;;
                          arr_idx <- eval_indices
                                       (map (arr_index_term axis)
                                            (seq 0 (length (shape x))))
                                       idx_arr i ;;
                          update_cell upd x res res_idx arr_idx i)
                       (seq 0 n) res)
              (fun res : ndarray A =>
                 shape res = rs /\ length (data res) = size_of rs)
              (fun idx_arr => In idx_arr (ndindex rs)))
    with (l := ndindex rs) (s := np_full rs (s_of_literal ident))
    as [res [Eres [Hs Hd]]].
  - intros res idx_arr [Hs Hd] Hin.
    pose proof (ndindex_in_bounds _ _ Hin) as Hb.
    pose proof (in_boundsb_length _ _ Hb) as Hlen.
    unfold rs in Hlen. rewrite remove_axis_length in Hlen.
    apply (foldM_invariant _ _ (fun i => i < n)).
    + intros res' i [Hs' Hd'] Hi.
      rewrite <- Hlen, eval_res_indices. cbn [bind].
      rewrite (eval_arr_indices axis (length (shape x)) idx_arr i Ha Hlen).
      cbn [bind].
      destruct (update_cell_ok upd x res' idx_arr
                  (map (fun k => if k <? axis then nth k idx_arr 0
                                 else if k =? axis then i
                                 else nth (k - 1) idx_arr 0)
                       (seq 0 (length (shape x)))) i)
        as [res'' [E [Hs'' Hd'']]].
      * exact Hwf.
      * rewrite Hs'. exact Hd'.
      * rewrite Hs'. exact Hb.
      * apply arr_index_in_bounds; [exact Ha | exact Hb | exact Hi].
      * exists res''. split; [exact E|]. split; [congruence|].
        rewrite Hd''. congruence.
    + split; assumption.
    + apply Forall_forall. intros i Hi. apply in_seq in Hi. lia.
  - split; [reflexivity|]. simpl. apply repeat_length.
  - apply Forall_forall. intros idx_arr Hin. exact Hin.
  - rewrite Eres. cbn [bind]. exists res. split; [reflexivity|].
    split; [exact Hs|]. unfold well_formed. rewrite Hs. exact Hd.
Qed.

(** The one-dimensional reducer, run on a well-formed vector, returns a
    scalar. *)
Lemma run_reduce1D_ok (x : ndarray A) (ident : id_literal) (dt : np_dtype)
    (upd : stmt) :
  well_formed x -> length (shape x) = 1 ->
  exists v, run_reducer (Reduce1D 0 ident dt upd false) (VArray x)
            = Ok (VScalar v).
Proof.
  intros Hwf Hrank. unfold run_reducer.
  destruct (shape x) as [|n [|m s]] eqn:Es; try discriminate Hrank.
  cbn [nth_error of_option bind].
  destruct (foldM_invariant
              (fun res i => update_cell upd x res [0] [i] i)
              (fun res : ndarray A => shape res = [1] /\ length (data res) = 1)
              (fun i => i < n))
    with (l := seq 0 n) (s := np_full [1] (s_of_literal ident))
    as [res [Eres [Hs Hd]]].
  - intros res i [Hs Hd] Hi.
    destruct (update_cell_ok upd x res [0] [i] i) as [res' [E [Hs' Hd']]].
    + exact Hwf.
    + rewrite Hs. exact Hd.
    + rewrite Hs. reflexivity.
    + rewrite Es. simpl. apply andb_true_intro. split; [|reflexivity].
      apply Nat.ltb_lt. exact Hi.
    + exists res'. split; [exact E|]. split; [congruence|].
      rewrite Hd', Hs', Hs. reflexivity.
  - split; reflexivity.
  - apply Forall_forall. intros i Hi. apply in_seq in Hi. lia.
  - rewrite Eres. cbn [bind]. unfold item.
    destruct (data res) as [|v [|w d]]; try discriminate Hd.
    exists v. reflexivity.
Qed.

(** A reducer that was built without [keepdims], run on a well-formed
    array of the rank it was built for, returns a well-formed value of one
    rank less: an array when a dimension is left, a scalar otherwise. *)
Lemma built_reducer_runs (sop : ScalarOp) (identity : xnum) (ax : Z)
    (ndim : nat) (dtype : np_dtype) (r : reducer_src) (x : ndarray A) :
  create_axis_reducer sop identity ax ndim dtype false = Ok r ->
  well_formed x -> ndim_of x = ndim ->
  exists y, run_reducer r (VArray x) = Ok y
            /\ value_wf y
            /\ value_rank y = ndim - 1
            /\ (1 < ndim -> exists a, y = VArray a).
Proof.
  intros Hr Hwf Hrank. unfold ndim_of in Hrank.
  destruct (create_axis_reducer_inv _ _ _ _ _ _ _ Hr) as [a [upd [Ha ->]]].
  pose proof (normalize_axis_index_bound _ _ _ Ha) as Hlt.
  destruct (1 <? ndim) eqn:E.
  - apply Nat.ltb_lt in E. subst ndim.
    destruct (run_reduceND_ok a x (identity_literal identity) dtype upd Hwf Hlt)
      as [res [Erun [Hs Hres]]].
    exists (VArray res). split; [exact Erun|]. split; [exact Hres|].
    split.
    + simpl. unfold ndim_of. rewrite Hs. apply remove_axis_length.
    + intros _. exists res. reflexivity.
  - apply Nat.ltb_ge in E. assert (Hone : length (shape x) = 1) by lia.
    assert (a = 0) by lia. subst a.
    destruct (run_reduce1D_ok x (identity_literal identity) dtype upd Hwf Hone)
      as [v Erun].
    exists (VScalar v). split; [exact Erun|]. split; [exact I|].
    split; [simpl; lia|]. intros Hlt'. lia.
Qed.
End ReducerRuns.

(** ** Sorting the axes *)

Lemma memb_In (x : nat) (l : list nat) : memb x l = true <-> In x l.
Proof.
  unfold memb. rewrite existsb_exists. split.
  - intros [y [Hy E]]. apply Nat.eqb_eq in E. subst y. exact Hy.
  - intros Hx. exists x. split; [exact Hx | apply Nat.eqb_refl].
Qed.

Lemma has_dup_NoDup (l : list nat) : has_dup l = false <-> NoDup l.
Proof.
  induction l as [|x l IH]; simpl.
  - split; [constructor | reflexivity].
  - rewrite orb_false_iff, IH. split.
    + intros [Hm Hl]. constructor; [|exact Hl].
      intros Hin. apply memb_In in Hin. congruence.
    + intros Hnd. inversion Hnd as [|? ? Hx Hl]; subst. split; [|exact Hl].
      destruct (memb x l) eqn:E; [|reflexivity].
      apply memb_In in E. contradiction.
Qed.

Lemma insert_sorted_perm (x : nat) (l : list nat) :
  Permutation (insert_sorted x l) (x :: l).
Proof.
  induction l as [|y l IH]; simpl; [reflexivity|].
  destruct (x <=? y); [reflexivity|].
  rewrite IH. apply perm_swap.
Qed.

Lemma sorted_perm (l : list nat) : Permutation (sorted l) l.
Proof.
  induction l as [|x l IH]; simpl; [reflexivity|].
  rewrite insert_sorted_perm. constructor. exact IH.
Qed.

Lemma insert_sorted_lt (x : nat) (l : list nat) :
  StronglySorted lt l -> ~ In x l ->
  StronglySorted lt (insert_sorted x l).
Proof.
  induction l as [|y l IH]; simpl; intros Hs Hx.
  - constructor; constructor.
  - inversion Hs as [|? ? Hl Hy]; subst.
    destruct (x <=? y) eqn:E.
    + apply Nat.leb_le in E. assert (x <> y) by (intros ->; apply Hx; left; reflexivity).
      assert (x < y) by lia.
      constructor; [exact Hs|]. constructor; [assumption|].
      eapply Forall_impl; [|exact Hy]. intros z Hz. lia.
    + apply Nat.leb_gt in E. constructor.
      * apply IH; [exact Hl|]. intros Hin. apply Hx. right. exact Hin.
      * apply Forall_forall. intros z Hz.
        apply (Permutation_in _ (insert_sorted_perm x l)) in Hz.
        destruct Hz as [<-|Hz]; [exact E|].
        rewrite Forall_forall in Hy. apply Hy. exact Hz.
Qed.

Lemma sorted_lt (l : list nat) :
  NoDup l -> StronglySorted lt (sorted l).
Proof.
  induction 1 as [|x l Hx _ IH]; simpl; [constructor|].
  apply insert_sorted_lt; [exact IH|].
  intros Hin. apply Hx. apply (Permutation_in _ (sorted_perm l)). exact Hin.
Qed.

Lemma strongly_sorted_snoc {B : Type} (R : B -> B -> Prop) (l : list B) (x : B) :
  StronglySorted R l -> Forall (fun y => R y x) l ->
  StronglySorted R (l ++ [x]).
Proof.
  induction 1 as [|y l Hl IH Hy]; simpl; intros Hx.
  - constructor; constructor.
  - inversion Hx as [|? ? Hyx Hlx]; subst. constructor.
    + apply IH. exact Hlx.
    + apply Forall_app. split; [exact Hy|]. constructor; [exact Hyx | constructor].
Qed.

Lemma strongly_sorted_rev (l : list nat) :
  StronglySorted lt l ->
  StronglySorted (fun a b => b < a) (rev l).
Proof.
  induction 1 as [|x l Hl IH Hx]; simpl; [constructor|].
  apply strongly_sorted_snoc; [exact IH|].
  apply Forall_forall. intros y Hy. apply in_rev in Hy.
  rewrite Forall_forall in Hx. apply Hx. exact Hy.
Qed.

(** In a strictly descending list of numbers below [n], the entry at
    position [i] is below [n - i]. *)
Lemma descending_bound (d : list nat) :
  StronglySorted (fun a b => b < a) d ->
  forall n, Forall (fun a => a < n) d ->
  forall i a, nth_error d i = Some a -> a + i < n.
Proof.
  induction 1 as [|x d Hd IH Hx]; intros n Hn i a E.
  - destruct i; discriminate E.
  - inversion Hn as [|? ? Hxn Hdn]; subst. destruct i as [|i]; simpl in E.
    + inversion E; subst. lia.
    + specialize (IH x Hx i a E). lia.
Qed.

(** ** The generated names *)

Lemma string_of_nat_inj (a b : nat) :
  string_of_nat a = string_of_nat b -> a = b.
Proof.
  unfold string_of_nat. intros E.
  apply (f_equal NilEmpty.uint_of_string) in E.
  rewrite !NilEmpty.usu in E. inversion E as [E'].
  apply (f_equal Nat.of_uint) in E'.
  rewrite !DecimalNat.Unsigned.of_to in E'. exact E'.
Qed.

Lemma append_inj_prefix (p s1 s2 : string) :
  (p ++ s1 = p ++ s2)%string -> s1 = s2.
Proof.
  induction p as [|c p IH]; simpl; intros E; [exact E|].
  inversion E. apply IH. assumption.
Qed.

Lemma fn_name_eqb (i j : nat) :
  String.eqb (careducer_axes_fn_name i) (careducer_axes_fn_name j) = (i =? j).
Proof.
  destruct (i =? j) eqn:E.
  - apply Nat.eqb_eq in E. subst j. apply String.eqb_refl.
  - apply Nat.eqb_neq in E. apply String.eqb_neq. intros Heq. apply E.
    unfold careducer_axes_fn_name in Heq.
    apply append_inj_prefix in Heq. apply string_of_nat_inj. exact Heq.
Qed.

Lemma lookup_env_from (rs : list reducer_src) :
  forall (i : nat) (env : list (string * reducer_src)) (j : nat),
    lookup (careducer_axes_fn_name j) (env_from i rs env)
    = if (i <=? j) && (j <? i + length rs)
      then nth_error rs (j - i)
      else lookup (careducer_axes_fn_name j) env.
Proof.
  induction rs as [|r rs IH]; intros i env j; simpl.
  - replace ((i <=? j) && (j <? i + 0)) with false; [reflexivity|].
    symmetry. apply andb_false_iff.
    destruct (i <=? j) eqn:E; [right | left; reflexivity].
    apply Nat.leb_le in E. apply Nat.ltb_ge. lia.
  - rewrite IH. cbn [lookup]. rewrite fn_name_eqb.
    destruct (Nat.lt_trichotomy j i) as [Hlt|[Heq|Hgt]].
    + replace (S i <=? j) with false by (symmetry; apply Nat.leb_gt; lia).
      replace (i <=? j) with false by (symmetry; apply Nat.leb_gt; lia).
      replace (j =? i) with false by (symmetry; apply Nat.eqb_neq; lia).
      reflexivity.
    + subst j.
      replace (S i <=? i) with false by (symmetry; apply Nat.leb_gt; lia).
      rewrite Nat.eqb_refl, Nat.leb_refl, Nat.sub_diag.
      replace (i <? i + S (length rs)) with true
        by (symmetry; apply Nat.ltb_lt; lia).
      reflexivity.
    + replace (S i <=? j) with true by (symmetry; apply Nat.leb_le; lia).
      replace (i <=? j) with true by (symmetry; apply Nat.leb_le; lia).
      replace (j <? i + S (length rs)) with (j <? S i + length rs)
        by (f_equal; lia).
      replace (j - i) with (S (j - S i)) by lia.
      destruct (j <? S i + length rs); [reflexivity|].
      replace (j =? i) with false by (symmetry; apply Nat.eqb_neq; lia).
      reflexivity.
Qed.

Lemma lookup_stage (rs : list reducer_src) (j : nat) (r : reducer_src) :
  nth_error rs j = Some r ->
  lookup (careducer_axes_fn_name j) (env_from 0 rs []) = Some r.
Proof.
  intros E. rewrite lookup_env_from. simpl.
  assert (j < length rs) by (apply nth_error_Some; congruence).
  replace (j <? length rs) with true by (symmetry; apply Nat.ltb_lt; lia).
  rewrite Nat.sub_0_r. exact E.
Qed.

(** ** The loop of the multi-axis builder *)

Lemma multiaxis_loop_ok (sop : ScalarOp) (identity : xnum) (dtype : np_dtype)
    (Hreg : is_registered sop = true) (d : list nat) :
  forall (i0 : nat) (st : loop_state),
    (forall j a, nth_error d j = Some a -> a + j < ls_ndim st) ->
    exists st',
      foldM (multiaxis_step sop identity dtype)
            (combine (seq i0 (length d)) d) st = Ok st'.
Proof.
  induction d as [|a d IH]; intros i0 st Hvalid.
  - exists st. reflexivity.
  - assert (Ha : a < ls_ndim st).
    { specialize (Hvalid 0 a eq_refl). lia. }
    destruct (create_axis_reducer_ok sop identity (Z.of_nat a) (ls_ndim st) a
                dtype false Hreg (normalize_axis_index_nat a _ Ha)) as [upd Er].
    simpl. unfold multiaxis_step at 1. rewrite Er. cbn [bind].
    apply IH. intros j a' E. simpl. specialize (Hvalid (S j) a' E). lia.
Qed.

Lemma multiaxis_loop_inv (sop : ScalarOp) (identity : xnum) (dtype : np_dtype)
    (d : list nat) :
  forall (i0 : nat) (st st' : loop_state),
    foldM (multiaxis_step sop identity dtype)
          (combine (seq i0 (length d)) d) st = Ok st' ->
    exists rs,
      stages_for sop identity dtype (ls_ndim st) d rs
      /\ ls_global_env st' = env_from i0 rs (ls_global_env st)
      /\ ls_ndim st' = ls_ndim st - length d
      /\ ls_var_name st' = last_name i0 (ls_var_name st) (length d)
      /\ ls_lines st'
         = ls_lines st ++ lines_from i0 (ls_var_name st) (length d).
Proof.
  induction d as [|a d IH]; intros i0 st st' E; simpl in E.
  - inversion E; subst. exists []. simpl. rewrite app_nil_r, Nat.sub_0_r.
    repeat split; reflexivity.
  - apply bind_ok in E. destruct E as [st1 [E1 E]].
    unfold multiaxis_step in E1.
    apply bind_ok in E1. destruct E1 as [r [Er E1]].
    inversion E1; subst st1. clear E1.
    destruct (IH (S i0) _ st' E) as [rs [Hst [He [Hn [Hv Hl]]]]].
    simpl in Hst, He, Hn, Hv, Hl.
    exists (r :: rs). simpl. split; [split; [exact Er | exact Hst]|].
    split; [exact He|]. split; [rewrite Hn; lia|].
    split; [exact Hv|]. rewrite Hl, <- app_assoc. reflexivity.
Qed.

Lemma normalize_axis_index_of_nat (a ndim a' : nat) :
  normalize_axis_index (Z.of_nat a) ndim = Ok a' -> a' = a.
Proof.
  unfold normalize_axis_index.
  destruct ((- Z.of_nat ndim <=? Z.of_nat a) && (Z.of_nat a <? Z.of_nat ndim))%Z;
    [|discriminate].
  replace (Z.of_nat a <? 0)%Z with false by (symmetry; apply Z.ltb_ge; lia).
  rewrite Nat2Z.id. intros E. inversion E. reflexivity.
Qed.

Lemma stages_for_axes (sop : ScalarOp) (identity : xnum) (dtype : np_dtype)
    (d : list nat) :
  forall ndim rs,
    stages_for sop identity dtype ndim d rs -> map reducer_axis rs = d.
Proof.
  induction d as [|a d IH]; intros ndim [|r rs]; simpl; intros Hs;
    try contradiction; [reflexivity|].
  destruct Hs as [Er Hs].
  destruct (create_axis_reducer_inv _ _ _ _ _ _ _ Er) as [a' [upd [Ha ->]]].
  apply normalize_axis_index_of_nat in Ha. subst a'.
  f_equal; [destruct (1 <? ndim); reflexivity|].
  apply (IH (ndim - 1)). exact Hs.
Qed.

Lemma stages_for_length (sop : ScalarOp) (identity : xnum) (dtype : np_dtype)
    (d : list nat) :
  forall ndim rs, stages_for sop identity dtype ndim d rs -> length rs = length d.
Proof.
  induction d as [|a d IH]; intros ndim [|r rs]; simpl; intros Hs;
    try contradiction; [reflexivity|].
  f_equal. apply (IH (ndim - 1)). apply Hs.
Qed.

Lemma stages_for_keepdims (sop : ScalarOp) (identity : xnum) (dtype : np_dtype)
    (d : list nat) :
  forall ndim rs,
    stages_for sop identity dtype ndim d rs ->
    Forall (fun r => reducer_keepdims r = false) rs.
Proof.
  induction d as [|a d IH]; intros ndim [|r rs]; simpl; intros Hs;
    try contradiction; constructor.
  - apply (create_axis_reducer_identity _ _ _ _ _ _ _ (proj1 Hs)).
  - apply (IH (ndim - 1)). apply Hs.
Qed.

(** ** Running the generated lines *)

Lemma stages_of_lines (env : list (string * reducer_src)) (rs : list reducer_src) :
  forall (i : nat) (v : string),
    (forall j r, nth_error rs j = Some r ->
                 lookup (careducer_axes_fn_name (i + j)) env = Some r) ->
    flat_map (fun line => match lookup (cl_fn line) env with
                          | Some r => [r]
                          | None => []
                          end)
             (lines_from i v (length rs))
    = rs.
Proof.
  induction rs as [|r rs IH]; intros i v Henv; simpl; [reflexivity|].
  rewrite <- (Nat.add_0_r i) at 1. rewrite (Henv 0 r eq_refl). simpl.
  f_equal. apply IH. intros j r' E.
  replace (S i + j) with (i + S j) by lia. apply Henv. exact E.
Qed.

Section RunLines.
Context {A : Type} `{Scalar A}.

Lemma run_lines (env : list (string * reducer_src)) (rs : list reducer_src) :
  forall (i : nat) (v : string) (x : value A) (locals : list (string * value A)),
    (forall j r, nth_error rs j = Some r ->
                 lookup (careducer_axes_fn_name (i + j)) env = Some r) ->
    (locals' <- foldM (run_call_line env) (lines_from i v (length rs))
                      ((v, x) :: locals) ;;
     of_option NameError (lookup (last_name i v (length rs)) locals'))
    = run_stages rs x.
Proof.
  induction rs as [|r rs IH]; intros i v x locals Henv; simpl.
  - rewrite String.eqb_refl. reflexivity.
  - unfold run_call_line at 1. cbn [cl_fn cl_arg cl_target].
    rewrite <- (Nat.add_0_r i) at 1. rewrite (Henv 0 r eq_refl).
    cbn [of_option bind lookup]. rewrite String.eqb_refl. cbn [of_option bind].
    unfold run_stages. simpl foldM.
    destruct (run_reducer r x) as [y|e]; [|reflexivity]. cbn [bind].
    apply IH. intros j r' E.
    replace (S i + j) with (i + S j) by lia. apply Henv. exact E.
Qed.
End RunLines.

(** ** Ranks along the stages *)

Lemma run_stages_rank {A : Type} `{Scalar A} (sop : ScalarOp) (identity : xnum)
    (dtype : np_dtype) (d : list nat) :
  forall (ndim : nat) (rs : list reducer_src) (x : ndarray A),
    stages_for sop identity dtype ndim d rs ->
    well_formed x -> ndim_of x = ndim ->
    exists y, run_stages rs (VArray x) = Ok y
              /\ value_wf y
              /\ value_rank y = ndim - length d.
Proof.
  induction d as [|a d IH]; intros ndim [|r rs] x Hs Hwf Hrank; simpl in Hs;
    try contradiction.
  - exists (VArray x). split; [reflexivity|]. split; [exact Hwf|].
    simpl. lia.
  - destruct Hs as [Er Hs].
    destruct (built_reducer_runs sop identity (Z.of_nat a) ndim dtype r x
                Er Hwf Hrank) as [y1 [Erun [Hwf1 [Hrank1 Harr]]]].
    unfold run_stages. cbn [foldM]. rewrite Erun. cbn [bind].
    destruct d as [|a' d'].
    + destruct rs as [|r' rs']; [|contradiction].
      exists y1. split; [reflexivity|]. split; [exact Hwf1|].
      simpl. exact Hrank1.
    + destruct rs as [|r' rs']; [contradiction|].
      pose proof Hs as Hs'. simpl in Hs'. destruct Hs' as [Er' _].
      destruct (create_axis_reducer_inv _ _ _ _ _ _ _ Er') as [a2 [upd [Ha2 _]]].
      apply normalize_axis_index_bound in Ha2.
      destruct Harr as [x1 ->]; [lia|].
      destruct (IH (ndim - 1) (r' :: rs') x1 Hs Hwf1 Hrank1)
        as [y [Ey [Hwfy Hranky]]].
      exists y. split; [exact Ey|]. split; [exact Hwfy|].
      rewrite Hranky. simpl length. lia.
Qed.

Lemma mapM_Forall2 {B C : Type} (f : B -> result C) (l : list B) (r : list C) :
  mapM f l = Ok r -> Forall2 (fun b c => f b = Ok c) l r.
Proof.
  revert r. induction l as [|b l IH]; intros r E; simpl in E.
  - inversion E. constructor.
  - apply bind_ok in E. destruct E as [c [Ec E]].
    apply bind_ok in E. destruct E as [cs [Ecs E]]. inversion E; subst.
    constructor; [exact Ec | apply IH; exact Ecs].
Qed.

Lemma normalize_axis_tuple_inv (axes : list Z) (ndim : nat) (naxes : list nat) :
  normalize_axis_tuple axes ndim = Ok naxes ->
  Forall2 (fun ax a => normalize_axis_index ax ndim = Ok a) axes naxes
  /\ NoDup naxes
  /\ Forall (fun a => a < ndim) naxes
  /\ length naxes = length axes.
Proof.
  unfold normalize_axis_tuple. intros E.
  apply bind_ok in E. destruct E as [l [El E]].
  destruct (has_dup l) eqn:Hd; [discriminate E|]. inversion E; subst l.
  pose proof (mapM_Forall2 _ _ _ El) as HF.
  split; [exact HF|]. split; [apply has_dup_NoDup; exact Hd|].
  split; [|apply (mapM_length _ _ _ El)].
  clear -HF. induction HF as [|ax a axes naxes Ha _ IH]; constructor.
  - apply (normalize_axis_index_bound _ _ _ Ha).
  - exact IH.
Qed.

(** ** What the multi-axis builder returns *)

(** With two or more axes, or none, the builder succeeds for a registered
    operator as soon as the axes normalise. *)
Lemma multiaxis_builds (sop : ScalarOp) (identity : xnum) (axes : list Z)
    (rank : nat) (dtype : np_dtype) (input_name : string) (naxes : list nat) :
  is_registered sop = true ->
  length axes <> 1 ->
  normalize_axis_tuple axes rank = Ok naxes ->
  exists c, create_multiaxis_reducer sop identity axes rank dtype input_name
            = Ok (MultiAxis c).
Proof.
  intros Hreg Hlen Hnorm.
  destruct (normalize_axis_tuple_inv _ _ _ Hnorm) as [_ [Hnd [Hlt _]]].
  assert (Hvalid : forall j a,
             nth_error (rev (sorted naxes)) j = Some a -> a + j < rank).
  { apply descending_bound.
    - apply strongly_sorted_rev. apply sorted_lt. exact Hnd.
    - apply (Permutation_Forall
               (Permutation_trans (Permutation_sym (sorted_perm naxes))
                                  (Permutation_rev (sorted naxes)))).
      exact Hlt. }
  destruct (multiaxis_loop_ok sop identity dtype Hreg (rev (sorted naxes)) 0
              (mk_loop_state [] rank input_name []) Hvalid) as [st Hloop].
  exists (mk_careduce_src input_name (ls_lines st) (ls_var_name st)
                          (ls_global_env st)).
  unfold create_multiaxis_reducer.
  destruct axes as [|a [|b l]]; simpl in Hlen; try lia;
    rewrite Hnorm; cbn [bind]; unfold enumerate; rewrite Hloop; reflexivity.
Qed.

(** With two or more axes, or none, a kernel that was built consists of
    the single-axis reducers of the normalised axes in descending order,
    run one after the other. *)
Lemma multiaxis_built (sop : ScalarOp) (identity : xnum) (axes : list Z)
    (rank : nat) (dtype : np_dtype) (input_name : string) (naxes : list nat)
    (k : careduce_fn) :
  length axes <> 1 ->
  normalize_axis_tuple axes rank = Ok naxes ->
  create_multiaxis_reducer sop identity axes rank dtype input_name = Ok k ->
  exists rs,
    careduce_stages k = rs
    /\ map reducer_axis rs = rev (sorted naxes)
    /\ stages_for sop identity dtype rank (rev (sorted naxes)) rs
    /\ Forall (fun r => reducer_keepdims r = false) rs
    /\ (forall (A : Type) (S : Scalar A) (x : value A),
           run_careduce k x = run_stages rs x)
    /\ (forall (A : Type) (S : Scalar A) (x : ndarray A),
           well_formed x -> ndim_of x = rank ->
           exists y, run_careduce k (VArray x) = Ok y
                     /\ value_wf y
                     /\ value_rank y = rank - length axes).
Proof.
  intros Hlen Hnorm Hbuild.
  destruct (normalize_axis_tuple_inv _ _ _ Hnorm) as [_ [_ [_ Hl]]].
  assert (Hloop : exists st,
             foldM (multiaxis_step sop identity dtype)
                   (combine (seq 0 (length (rev (sorted naxes))))
                            (rev (sorted naxes)))
                   (mk_loop_state [] rank input_name []) = Ok st
             /\ k = MultiAxis (mk_careduce_src input_name (ls_lines st)
                                 (ls_var_name st) (ls_global_env st))).
  { unfold create_multiaxis_reducer in Hbuild.
    destruct axes as [|a [|b l]]; simpl in Hlen; try lia;
      rewrite Hnorm in Hbuild; cbn [bind] in Hbuild;
      apply bind_ok in Hbuild; destruct Hbuild as [st [Est E]];
      inversion E; exists st; (split; [exact Est | reflexivity]). }
  destruct Hloop as [st [Hloop ->]].
  destruct (multiaxis_loop_inv sop identity dtype _ 0 _ st Hloop)
    as [rs [Hst [He [Hn [Hv Hlines]]]]].
  simpl in Hst, He, Hn, Hv, Hlines.
  pose proof (stages_for_length _ _ _ _ _ _ Hst) as Hrs.
  exists rs.
  assert (Hrun : forall (A : Type) (S : Scalar A) (x : value A),
             run_careduce (MultiAxis (mk_careduce_src input_name (ls_lines st)
                                        (ls_var_name st) (ls_global_env st))) x
             = run_stages rs x).
  { intros A S x. unfold run_careduce.
    cbn [cs_global_env cs_lines cs_input_name cs_return].
    rewrite Hlines, Hv, He, <- Hrs.
    apply (run_lines (env_from 0 rs []) rs 0 input_name x []).
    intros j r E. apply lookup_stage. exact E. }
  split.
  { unfold careduce_stages. cbn [cs_global_env cs_lines].
    rewrite Hlines, He, <- Hrs. apply stages_of_lines.
    intros j r E. apply lookup_stage. exact E. }
  split; [apply (stages_for_axes _ _ _ _ _ _ Hst)|].
  split; [exact Hst|].
  split; [apply (stages_for_keepdims _ _ _ _ _ _ Hst)|].
  split; [exact Hrun|].
  intros A S x Hwf Hrank. rewrite Hrun.
  destruct (run_stages_rank sop identity dtype _ rank rs x Hst Hwf Hrank)
    as [y [Ey [Hwy Hry]]].
  exists y. split; [exact Ey|]. split; [exact Hwy|].
  rewrite Hry. f_equal.
  rewrite length_rev, (Permutation_length (sorted_perm naxes)). exact Hl.
Qed.

(** ** The multi-axis reducer (C1) *)

(** C1, as stated, fails: the axes 1 and -1 of a rank-2 input are both in
    range and normalise to the same axis, and the builder does not drop
    the repeat; it raises [ValueError] and returns no kernel. *)
Lemma multiaxis_repeated_axis_counterexample :
  mapM (fun ax => normalize_axis_index ax 2) [1; -1]%Z = Ok [1; 1]
  /\ create_multiaxis_reducer Add (Num 0) [1; -1]%Z 2 float64 "x"
     = Err ValueError.
Proof.
  split; reflexivity.
Qed.

(** C1, amended. For every scalar operator, identity and rank, and two or
    more axes that lie in [[-rank, rank)] and normalise to pairwise
    different axes: the builder returns a kernel whenever the operator has
    a registered fragment, and every kernel it returns has as its stages
    the single-axis reducers, without [keepdims], of the normalised axes in
    strictly descending order, the i-th built for [rank - i] dimensions;
    running it is running the stages one after the other, each on the
    result of the one before; and on a well-formed input of that rank it
    returns a value of rank [rank - len(axes)]. (Axes that normalise to the
    same axis are not deduplicated: the builder raises [ValueError].) *)
Theorem multiaxis_reducer_plan (sop : ScalarOp) (identity : xnum)
    (axes : list Z) (rank : nat) (dtype : np_dtype) (input_name : string)
    (naxes : list nat)
    (Hlen : 2 <= length axes)
    (Hnorm : normalize_axis_tuple axes rank = Ok naxes) :
  let to_reduce := rev (sorted naxes) in
  Forall2 (fun ax a => normalize_axis_index ax rank = Ok a) axes naxes
  /\ NoDup naxes
  /\ Permutation to_reduce naxes
  /\ StronglySorted (fun a b => b < a) to_reduce
  /\ (is_registered sop = true ->
      exists c, create_multiaxis_reducer sop identity axes rank dtype input_name
                = Ok (MultiAxis c))
  /\ forall k,
       create_multiaxis_reducer sop identity axes rank dtype input_name = Ok k ->
       exists rs,
         careduce_stages k = rs
         /\ map reducer_axis rs = to_reduce
         /\ stages_for sop identity dtype rank to_reduce rs
         /\ Forall (fun r => reducer_keepdims r = false) rs
         /\ (forall (A : Type) (S : Scalar A) (x : value A),
                run_careduce k x = run_stages rs x)
         /\ (forall (A : Type) (S : Scalar A) (x : ndarray A),
                well_formed x -> ndim_of x = rank ->
                exists y, run_careduce k (VArray x) = Ok y
                          /\ value_wf y
                          /\ value_rank y = rank - length axes).
Proof.
  intros to_reduce.
  destruct (normalize_axis_tuple_inv _ _ _ Hnorm) as [HF [Hnd [Hlt Hl]]].
  assert (Hne : length axes <> 1) by lia.
  split; [exact HF|]. split; [exact Hnd|].
  split.
  { unfold to_reduce. rewrite <- Permutation_rev. apply sorted_perm. }
  split.
  { apply strongly_sorted_rev. apply sorted_lt. exact Hnd. }
  split.
  - intros Hreg.
    apply (multiaxis_builds sop identity axes rank dtype input_name naxes
             Hreg Hne Hnorm).
  - intros k Hbuild.
    apply (multiaxis_built sop identity axes rank dtype input_name naxes k
             Hne Hnorm Hbuild).
Qed.

Lemma multiaxis_reducer_plan_witness :
  2 <= length [0; -1]%Z
  /\ normalize_axis_tuple [0; -1]%Z 3 = Ok [0; 2]
  /\ exists c,
       create_multiaxis_reducer Add (Num 0) [0; -1]%Z 3 float64 "x"
       = Ok (MultiAxis c)
       /\ map reducer_axis (careduce_stages (MultiAxis c)) = [2; 0].
Proof.
  split; [simpl; lia|]. split; [reflexivity|].
  destruct (multiaxis_reducer_plan Add (Num 0) [0; -1]%Z 3 float64 "x" [0; 2]
              ltac:(simpl; lia) eq_refl)
    as [_ [_ [_ [_ [Hbuilds Hbuilt]]]]].
  destruct (Hbuilds eq_refl) as [c Hb].
  destruct (Hbuilt (MultiAxis c) Hb) as [rs [Hs [Ha _]]].
  exists c. split; [exact Hb|]. rewrite Hs. exact Ha.
Defined.

(** ** Reduction over every axis (C10) *)

Lemma sorted_seq (n a : nat) : sorted (seq a n) = seq a n.
Proof.
  revert a. induction n as [|n IH]; intros a; [reflexivity|].
  simpl. change (fold_right insert_sorted [] (seq (S a) n))
    with (sorted (seq (S a) n)).
  rewrite IH. destruct n as [|n]; [reflexivity|]. simpl.
  replace (a <=? S a) with true by (symmetry; apply Nat.leb_le; lia).
  reflexivity.
Qed.

Lemma normalize_axis_tuple_range (n : nat) :
  normalize_axis_tuple (map Z.of_nat (seq 0 n)) n = Ok (seq 0 n).
Proof.
  unfold normalize_axis_tuple. rewrite mapM_map.
  rewrite (mapM_total _ (fun k => k)).
  - rewrite map_id. cbn [bind].
    replace (has_dup (seq 0 n)) with false; [reflexivity|].
    symmetry. apply has_dup_NoDup. apply seq_NoDup.
  - intros k Hk. apply in_seq in Hk. apply normalize_axis_index_nat. lia.
Qed.

(** C10. When the node's axis specification is [None], the kernel that is
    built reduces the axes of its input from the last to the first, all of
    them, and on every well-formed input of the node's rank it returns a
    value of rank 0. *)
Theorem careduce_axis_none_reduces_all (op : CAReduce) (node : Apply)
    (input_name : string) (in0 : TensorType) (k : careduce_fn)
    (Hax : axis op = None)
    (Hin : nth_error (inputs node) 0 = Some in0)
    (Hbuild : numba_funcify_CAReduce op node input_name = Ok k) :
  map reducer_axis (careduce_stages k) = rev (seq 0 (t_ndim in0))
  /\ forall (A : Type) (S : Scalar A) (x : value A),
       value_wf x -> value_rank x = t_ndim in0 ->
       exists y, run_careduce k x = Ok y /\ value_rank y = 0.
Proof.
  unfold numba_funcify_CAReduce in Hbuild. rewrite Hax, Hin in Hbuild.
  cbn [of_option bind] in Hbuild.
  apply bind_ok in Hbuild. destruct Hbuild as [d [_ Hbuild]].
  apply bind_ok in Hbuild. destruct Hbuild as [identity [_ Hbuild]].
  apply bind_ok in Hbuild. destruct Hbuild as [out0 [_ Hbuild]].
  set (n := t_ndim in0) in *.
  destruct (Nat.eq_dec n 1) as [Hone|Hne].
  - rewrite Hone in *. simpl in Hbuild.
    apply bind_ok in Hbuild. destruct Hbuild as [r [Er Hbuild]].
    inversion Hbuild; subst k. clear Hbuild.
    split.
    + destruct (create_axis_reducer_inv _ _ _ _ _ _ _ Er) as [a [upd [Ha ->]]].
      apply (normalize_axis_index_of_nat 0 1 a) in Ha. subst a. reflexivity.
    + intros A S [v|x] Hwf Hrank; simpl in Hrank; [discriminate Hrank|].
      destruct (built_reducer_runs _ _ _ _ _ r x Er Hwf Hrank)
        as [y [Ey [_ [Hry _]]]].
      exists y. split; [exact Ey | exact Hry].
  - assert (Hlen : length (map Z.of_nat (seq 0 n)) <> 1).
    { rewrite length_map, length_seq. exact Hne. }
    destruct (multiaxis_built _ _ _ _ _ _ _ k Hlen
                (normalize_axis_tuple_range n) Hbuild)
      as [rs [Hstages [Haxes [Hst [_ [Hrun Hrank]]]]]].
    rewrite sorted_seq in Haxes, Hst.
    split; [rewrite Hstages; exact Haxes|].
    intros A S [v|x] Hwf Hr; simpl in Hr.
    + assert (Hrs : rs = []).
      { pose proof (stages_for_length _ _ _ _ _ _ Hst) as Hl.
        rewrite length_rev, length_seq, <- Hr in Hl.
        destruct rs; [reflexivity | discriminate Hl]. }
      exists (VScalar v). rewrite Hrun, Hrs. split; reflexivity.
    + destruct (Hrank A S x Hwf Hr) as [y [Ey [_ Hry]]].
      exists y. split; [exact Ey|].
      rewrite Hry, length_map, length_seq. lia.
Qed.

Lemma careduce_axis_none_reduces_all_witness :
  let op := mk_CAReduce None Add (Num 0) None in
  let node := mk_Apply [mk_TensorType float64 2 [None; None]]
                       [mk_TensorType float64 0 []] in
  let x := VArray (mk_ndarray [2; 2] [Num 1; Num 2; Num 3; Num 4]) in
  exists k,
    numba_funcify_CAReduce op node "x" = Ok k
    /\ exists y, run_careduce k x = Ok y /\ value_rank y = 0.
Proof.
  intros op node x.
  destruct (numba_funcify_CAReduce op node "x") as [k|e] eqn:Hb.
  - exists k. split; [reflexivity|].
    apply (proj2 (careduce_axis_none_reduces_all op node "x"
                    (mk_TensorType float64 2 [None; None]) k
                    eq_refl eq_refl Hb)
                 xnum xnum_Scalar x); reflexivity.
  - vm_compute in Hb. discriminate Hb.
Defined.

(** ** Offsets and multi-indices *)

Lemma nth_error_blocks {B : Type} (f : nat -> list B) (L : nat) :
  (forall j, length (f j) = L) ->
  forall d a i r, i < d -> r < L ->
    nth_error (flat_map f (seq a d)) (i * L + r) = nth_error (f (a + i)) r.
Proof.
  intros Hlen d. induction d as [|d IH]; intros a i r Hi Hr; [lia|].
  simpl. destruct i as [|i].
  - simpl. rewrite nth_error_app1 by (rewrite Hlen; exact Hr).
    rewrite Nat.add_0_r. reflexivity.
  - rewrite nth_error_app2 by (rewrite Hlen; simpl; lia).
    rewrite Hlen. replace (S i * L + r - L) with (i * L + r) by (simpl; lia).
    rewrite IH by lia. f_equal. f_equal. lia.
Qed.

(** The multi-index stored at the offset of an index in bounds is that
    index. *)
Lemma ndindex_ravel (s idx : list nat) :
  in_boundsb idx s = true -> nth_error (ndindex s) (ravel s idx) = Some idx.
Proof.
  revert idx. induction s as [|d s IH]; intros [|i idx]; simpl;
    try discriminate; [reflexivity|].
  intros E. apply andb_prop in E. destruct E as [Ei E].
  apply Nat.ltb_lt in Ei. fold (size_of s).
  rewrite (nth_error_blocks (fun i => map (cons i) (ndindex s)) (size_of s)).
  - simpl. rewrite nth_error_map, (IH idx E). reflexivity.
  - intros j. rewrite length_map. apply ndindex_length.
  - exact Ei.
  - apply ravel_bound. exact E.
Qed.

(** Every offset below the size is the offset of an index in bounds. *)
Lemma ravel_ndindex (s : list nat) (k : nat) :
  k < size_of s ->
  exists idx, in_boundsb idx s = true /\ ravel s idx = k.
Proof.
  revert k. induction s as [|d s IH]; intros k Hk; simpl in Hk.
  - exists []. split; [reflexivity|]. simpl. lia.
  - fold (size_of s) in Hk.
    assert (HL : size_of s <> 0) by (intros E; rewrite E in Hk; lia).
    destruct (IH (k mod size_of s)) as [idx [Hb Hr]].
    { apply Nat.mod_upper_bound. exact HL. }
    exists (k / size_of s :: idx). split.
    + simpl. rewrite Hb, andb_true_r. apply Nat.ltb_lt.
      apply Nat.Div0.div_lt_upper_bound. lia.
    + simpl. fold (size_of s). rewrite Hr.
      pose proof (Nat.div_mod_eq k (size_of s)). lia.
Qed.

Lemma nth_error_extensional {B : Type} (l1 l2 : list B) :
  (forall k, nth_error l1 k = nth_error l2 k) -> l1 = l2.
Proof.
  revert l2. induction l1 as [|x l1 IH]; intros [|y l2] Hk.
  - reflexivity.
  - specialize (Hk 0). discriminate Hk.
  - specialize (Hk 0). discriminate Hk.
  - pose proof (Hk 0) as H0. simpl in H0. inversion H0; subst. f_equal.
    apply IH. intros k. apply (Hk (S k)).
Qed.

(** Two well-formed arrays of one shape that agree at every index in
    bounds are the same array. *)
Lemma array_extensional {A : Type} (a b : ndarray A) :
  well_formed a -> well_formed b -> shape a = shape b ->
  (forall idx, in_boundsb idx (shape a) = true -> cell a idx = cell b idx) ->
  a = b.
Proof.
  destruct a as [sa da], b as [sb db]. unfold well_formed, cell. simpl.
  intros Ha Hb Hs Hc. subst sb. f_equal.
  apply nth_error_extensional. intros k.
  destruct (Nat.lt_ge_cases k (size_of sa)) as [Hlt|Hge].
  - destruct (ravel_ndindex sa k Hlt) as [idx [Hin Hr]].
    rewrite <- Hr. apply Hc. exact Hin.
  - transitivity (@None A).
    + apply nth_error_None. lia.
    + symmetry. apply nth_error_None. lia.
Qed.

Lemma mapM_nth_error {B C : Type} (f : B -> result C) (l : list B) (r : list C) :
  mapM f l = Ok r ->
  forall k b, nth_error l k = Some b ->
  exists c, f b = Ok c /\ nth_error r k = Some c.
Proof.
  revert r. induction l as [|b0 l IH]; intros r E k b Hk.
  - destruct k; discriminate Hk.
  - simpl in E. apply bind_ok in E. destruct E as [c0 [Ec0 E]].
    apply bind_ok in E. destruct E as [cs [Ecs E]]. inversion E; subst.
    destruct k as [|k]; simpl in Hk.
    + inversion Hk; subst. exists c0. split; [exact Ec0 | reflexivity].
    + apply (IH cs Ecs k b Hk).
Qed.

Lemma getitem_cell {A : Type} (a : ndarray A) (idx : list nat) (v : A) :
  getitem a idx = Ok v -> cell a idx = Some v.
Proof.
  unfold getitem, cell. destruct (in_boundsb idx (shape a)); [|discriminate].
  destruct (nth_error (data a) (ravel (shape a) idx)); simpl; intros E;
    inversion E. reflexivity.
Qed.

(** ** Transposition *)

Lemma index_of_In (x : nat) (l : list nat) :
  In x l ->
  exists k, index_of x l = Some k /\ k < length l /\ nth k l 0 = x.
Proof.
  induction l as [|y l IH]; simpl; intros Hin; [contradiction|].
  destruct (x =? y) eqn:E.
  - apply Nat.eqb_eq in E. subst y. exists 0. repeat split. lia.
  - apply Nat.eqb_neq in E. destruct Hin as [->|Hin]; [congruence|].
    destruct (IH Hin) as [k [-> [Hk Hn]]].
    exists (S k). repeat split; [lia | exact Hn].
Qed.

Lemma index_of_nth (l : list nat) (k : nat) :
  NoDup l -> k < length l -> index_of (nth k l 0) l = Some k.
Proof.
  revert k. induction l as [|y l IH]; intros k Hnd Hk; simpl in *; [lia|].
  inversion Hnd as [|? ? Hy Hl]; subst. destruct k as [|k].
  - rewrite Nat.eqb_refl. reflexivity.
  - destruct (nth k l 0 =? y) eqn:E.
    + apply Nat.eqb_eq in E. subst y. exfalso. apply Hy. apply nth_In. lia.
    + rewrite IH by (assumption || lia). reflexivity.
Qed.

Lemma is_permutation_spec (t : list nat) (n : nat) :
  is_permutation t n = true ->
  length t = n /\ NoDup t /\ (forall a, In a t <-> a < n).
Proof.
  unfold is_permutation. intros E. apply andb_prop in E. destruct E as [El Ef].
  apply Nat.eqb_eq in El. rewrite forallb_forall in Ef.
  assert (Hincl : incl (seq 0 n) t).
  { intros a Ha. apply memb_In. apply Ef. exact Ha. }
  assert (Hperm : Permutation (seq 0 n) t).
  { apply NoDup_Permutation_bis; [apply seq_NoDup | | exact Hincl].
    rewrite length_seq. lia. }
  split; [exact El|]. split.
  - apply (Permutation_NoDup Hperm). apply seq_NoDup.
  - intros a. split.
    + intros Ha. apply (Permutation_in _ (Permutation_sym Hperm)) in Ha.
      apply in_seq in Ha. lia.
    + intros Ha. apply Hincl. apply in_seq. lia.
Qed.

Lemma transpose_source_nth (t j : list nat) (ax k : nat) :
  index_of ax t = Some k -> ax < length t ->
  nth ax (transpose_source t j) 0 = nth k j 0.
Proof.
  intros Hk Hax. unfold transpose_source.
  rewrite (nth_map_seq _ (length t) ax 0 Hax). rewrite Hk. reflexivity.
Qed.

Lemma nth_map_in (f : nat -> nat) (l : list nat) (k : nat) :
  k < length l -> nth k (map f l) 0 = f (nth k l 0).
Proof.
  intros Hk. rewrite (nth_indep _ 0 (f 0)) by (rewrite length_map; exact Hk).
  apply map_nth.
Qed.

Lemma transpose_source_in_bounds (t s j : list nat) :
  is_permutation t (length s) = true ->
  in_boundsb j (map (fun ax => nth ax s 0) t) = true ->
  in_boundsb (transpose_source t j) s = true.
Proof.
  intros Hp Hb. destruct (is_permutation_spec _ _ Hp) as [Hl [Hnd Hin]].
  pose proof (in_boundsb_nth _ _ Hb) as Hnth. rewrite length_map in Hnth.
  apply in_boundsb_intro.
  - unfold transpose_source. rewrite length_map, length_seq. exact Hl.
  - intros ax Hax.
    destruct (index_of_In ax t (proj2 (Hin ax) Hax)) as [k [Ek [Hk Hn]]].
    rewrite (transpose_source_nth t j ax k Ek) by lia.
    specialize (Hnth k Hk).
    rewrite (nth_map_in (fun ax => nth ax s 0) t k Hk), Hn in Hnth.
    exact Hnth.
Qed.

Lemma mapM_ok {B C : Type} (f : B -> result C) (l : list B) :
  (forall b, In b l -> exists c, f b = Ok c) -> exists r, mapM f l = Ok r.
Proof.
  induction l as [|b l IH]; intros Hall; simpl.
  - exists []. reflexivity.
  - destruct (Hall b (or_introl eq_refl)) as [c ->].
    destruct IH as [r ->]; [intros b' Hb'; apply Hall; right; exact Hb'|].
    exists (c :: r). reflexivity.
Qed.

(** The transposed array has the permuted shape, and its element at an
    index is the input's at the index carried back. *)
Lemma np_transpose_spec {A : Type} (x : ndarray A) (t : list nat) :
  well_formed x -> is_permutation t (ndim_of x) = true ->
  exists xT,
    np_transpose x t = Ok xT
    /\ well_formed xT
    /\ shape xT = map (fun ax => nth ax (shape x) 0) t
    /\ forall j, in_boundsb j (shape xT) = true ->
                 cell xT j = cell x (transpose_source t j).
Proof.
  intros Hwf Hp. unfold np_transpose. rewrite Hp.
  set (sT := map (fun ax => nth ax (shape x) 0) t).
  destruct (mapM_ok (fun j => getitem x (transpose_source t j)) (ndindex sT))
    as [d Ed].
  { intros j Hj. apply getitem_ok; [exact Hwf|].
    apply transpose_source_in_bounds; [exact Hp|].
    apply ndindex_in_bounds. exact Hj. }
  rewrite Ed. cbn [bind].
  exists (mk_ndarray sT d). split; [reflexivity|]. split.
  { unfold well_formed. simpl. rewrite (mapM_length _ _ _ Ed).
    apply ndindex_length. }
  split; [reflexivity|]. intros j Hj. simpl in Hj.
  destruct (mapM_nth_error _ _ _ Ed (ravel sT j) j (ndindex_ravel sT j Hj))
    as [c [Ec Hc]].
  unfold cell at 1. simpl. rewrite Hc. symmetry.
  apply getitem_cell. exact Ec.
Qed.

(** ** Axes of length 1 *)

(** The offset of an index and the size of a shape do not depend on the
    axes of length 1. *)
Lemma ravel_compress (s idx : list nat) :
  in_boundsb idx s = true ->
  ravel s idx = ravel (map fst (compress s idx)) (map snd (compress s idx))
  /\ size_of s = size_of (map fst (compress s idx)).
Proof.
  revert idx. induction s as [|d s IH]; intros [|i idx]; simpl;
    try discriminate; [split; reflexivity|].
  intros E. apply andb_prop in E. destruct E as [Ei E].
  apply Nat.ltb_lt in Ei. destruct (IH idx E) as [Hr Hs].
  unfold compress. simpl. fold (compress s idx). fold (size_of s).
  destruct (d =? 1) eqn:Ed; simpl.
  - apply Nat.eqb_eq in Ed. subst d. assert (i = 0) by lia. subst i.
    split; [simpl; exact Hr | lia].
  - fold (size_of (map fst (compress s idx))). rewrite <- Hs, <- Hr.
    split; reflexivity.
Qed.

Lemma unit_equivalent_ravel (s idx s' idx' : list nat) :
  in_boundsb idx s = true -> in_boundsb idx' s' = true ->
  compress s idx = compress s' idx' ->
  ravel s idx = ravel s' idx'.
Proof.
  intros Hb Hb' Hc.
  rewrite (proj1 (ravel_compress s idx Hb)),
          (proj1 (ravel_compress s' idx' Hb')), Hc.
  reflexivity.
Qed.

Lemma compress_app_ones (s idx : list nat) (n : nat) :
  length idx = length s ->
  compress (s ++ repeat 1 n) (idx ++ repeat 0 n) = compress s idx.
Proof.
  revert idx. induction s as [|d s IH]; intros [|i idx] Hlen;
    try discriminate Hlen.
  - simpl. unfold compress. induction n as [|n IHn]; simpl;
      [reflexivity | exact IHn].
  - unfold compress. simpl.
    fold (compress (s ++ repeat 1 n) (idx ++ repeat 0 n)).
    fold (compress s idx).
    rewrite IH by (simpl in Hlen; lia). reflexivity.
Qed.

Lemma in_boundsb_app (i1 i2 s1 s2 : list nat) :
  in_boundsb i1 s1 = true -> in_boundsb i2 s2 = true ->
  in_boundsb (i1 ++ i2) (s1 ++ s2) = true.
Proof.
  revert s1. induction i1 as [|i i1 IH]; intros [|d s1]; simpl;
    try discriminate; intros H1 H2; [exact H2|].
  apply andb_prop in H1. destruct H1 as [Hi H1].
  rewrite Hi. simpl. apply IH; assumption.
Qed.

Lemma in_boundsb_zeros (n : nat) : in_boundsb (repeat 0 n) (repeat 1 n) = true.
Proof.
  induction n as [|n IH]; simpl; [reflexivity | exact IH].
Qed.

Lemma size_of_app (s1 s2 : list nat) : size_of (s1 ++ s2) = size_of s1 * size_of s2.
Proof.
  induction s1 as [|d s1 IH]; simpl.
  - lia.
  - fold (size_of (s1 ++ s2)). fold (size_of s1). rewrite IH. lia.
Qed.

Lemma size_of_ones (n : nat) : size_of (repeat 1 n) = 1.
Proof.
  induction n as [|n IH]; simpl; [reflexivity|].
  fold (size_of (repeat 1 n)). rewrite IH. reflexivity.
Qed.

(** ** Inserting and removing axes *)

Lemma contract_seq_In (D : list nat) (n i a : nat) :
  In a (contract i D (seq i n)) <-> (i <= a < i + n /\ memb a D = false).
Proof.
  revert i. induction n as [|n IH]; intros i; simpl.
  - split; [contradiction | lia].
  - destruct (memb i D) eqn:Ei.
    + rewrite IH. split.
      * intros [Hr Hm]. split; [lia | exact Hm].
      * intros [Hr Hm]. split; [|exact Hm].
        assert (a <> i) by (intros ->; congruence). lia.
    + simpl. rewrite IH. split.
      * intros [<-|[Hr Hm]]; split; try lia; assumption.
      * intros [Hr Hm]. destruct (Nat.eq_dec i a) as [->|Hne];
          [left; reflexivity | right; split; [lia | exact Hm]].
Qed.

Lemma contract_seq_filter (D : list nat) (n i : nat) :
  contract i D (seq i n) = filter (fun a => negb (memb a D)) (seq i n).
Proof.
  revert i. induction n as [|n IH]; intros i; simpl; [reflexivity|].
  destruct (memb i D); simpl; rewrite IH; reflexivity.
Qed.

Lemma filter_split_length {B : Type} (f : B -> bool) (l : list B) :
  length (filter f l) + length (filter (fun x => negb (f x)) l) = length l.
Proof.
  induction l as [|x l IH]; simpl; [reflexivity|].
  destruct (f x); simpl; lia.
Qed.

Lemma contract_count (D : list nat) (n : nat) :
  NoDup D -> (forall a, In a D -> a < n) ->
  length (contract 0 D (seq 0 n)) + length D = n.
Proof.
  intros Hnd Hlt. rewrite contract_seq_filter.
  assert (Hperm : Permutation (filter (fun a => memb a D) (seq 0 n)) D).
  { apply NoDup_Permutation; [apply NoDup_filter, seq_NoDup | exact Hnd|].
    intros a. rewrite filter_In, in_seq, memb_In. split.
    - intros [_ Ha]. exact Ha.
    - intros Ha. split; [|exact Ha]. specialize (Hlt a Ha). lia. }
  rewrite <- (Permutation_length Hperm).
  pose proof (filter_split_length (fun a => memb a D) (seq 0 n)) as Hsplit.
  rewrite length_seq in Hsplit. lia.
Qed.

Lemma contract_map (D l : list nat) (i : nat) :
  contract i D l
  = map (fun a => nth (a - i) l 0) (contract i D (seq i (length l))).
Proof.
  revert i. induction l as [|d l IH]; intros i; simpl; [reflexivity|].
  assert (Hshift : map (fun a => nth (a - S i) l 0)
                       (contract (S i) D (seq (S i) (length l)))
                   = map (fun a => nth (a - i) (d :: l) 0)
                         (contract (S i) D (seq (S i) (length l)))).
  { apply map_ext_in. intros a Ha. apply contract_seq_In in Ha.
    replace (a - i) with (S (a - S i)) by lia. reflexivity. }
  destruct (memb i D); simpl.
  - rewrite IH. exact Hshift.
  - rewrite Nat.sub_diag. f_equal. rewrite IH. exact Hshift.
Qed.

Lemma contract_length (D l : list nat) (i : nat) :
  length (contract i D l) = length (contract i D (seq i (length l))).
Proof.
  rewrite (contract_map D l i). apply length_map.
Qed.

Lemma expand_length (m : nat) (aug : list nat) :
  forall i ss,
    length (contract i aug (seq i m)) = length ss ->
    length (expand m i aug ss) = m.
Proof.
  induction m as [|m IH]; intros i ss Hfit; simpl in *; [reflexivity|].
  destruct (memb i aug).
  - simpl. f_equal. apply IH. exact Hfit.
  - destruct ss as [|d ss]; [discriminate Hfit|].
    simpl. f_equal. apply IH. simpl in Hfit. lia.
Qed.

Lemma compress_expand (m : nat) (aug : list nat) :
  forall i ss J,
    in_boundsb J (expand m i aug ss) = true ->
    compress (expand m i aug ss) J = compress ss (contract i aug J).
Proof.
  induction m as [|m IH]; intros i ss J Hb; simpl in *.
  - destruct J; [|discriminate Hb]. simpl. unfold compress.
    destruct ss; reflexivity.
  - destruct (memb i aug) eqn:Ei.
    + destruct J as [|j J]; [discriminate Hb|]. simpl in Hb.
      apply andb_prop in Hb. destruct Hb as [_ Hb].
      simpl. rewrite Ei. unfold compress at 1. simpl.
      apply (IH (S i) ss J Hb).
    + destruct ss as [|d ss].
      * destruct J; [|discriminate Hb]. reflexivity.
      * destruct J as [|j J]; [discriminate Hb|]. simpl in Hb.
        apply andb_prop in Hb. destruct Hb as [_ Hb].
        simpl. rewrite Ei. unfold compress. simpl.
        fold (compress (expand m (S i) aug ss) J).
        fold (compress ss (contract (S i) aug J)).
        rewrite (IH (S i) ss J Hb). reflexivity.
Qed.

Lemma contract_in_bounds (m : nat) (aug : list nat) :
  forall i ss J,
    length (contract i aug (seq i m)) = length ss ->
    in_boundsb J (expand m i aug ss) = true ->
    in_boundsb (contract i aug J) ss = true.
Proof.
  induction m as [|m IH]; intros i ss J Hfit Hb; simpl in *.
  - destruct J; [|discriminate Hb]. destruct ss; [reflexivity | discriminate Hfit].
  - destruct (memb i aug) eqn:Ei.
    + destruct J as [|j J]; [discriminate Hb|]. simpl in Hb.
      apply andb_prop in Hb. destruct Hb as [_ Hb].
      simpl. rewrite Ei. apply (IH (S i) ss J Hfit Hb).
    + destruct ss as [|d ss]; [discriminate Hfit|].
      destruct J as [|j J]; [discriminate Hb|]. simpl in Hb.
      apply andb_prop in Hb. destruct Hb as [Hj Hb].
      simpl. rewrite Ei. simpl. rewrite Hj. simpl.
      apply (IH (S i) ss J); [simpl in Hfit; lia | exact Hb].
Qed.

Lemma contract_expand (m : nat) (aug : list nat) :
  forall i ss,
    length (contract i aug (seq i m)) = length ss ->
    contract i aug (expand m i aug ss) = ss.
Proof.
  induction m as [|m IH]; intros i ss Hfit; simpl in *.
  - destruct ss; [reflexivity | discriminate Hfit].
  - destruct (memb i aug) eqn:Ei.
    + simpl. rewrite Ei. apply IH. exact Hfit.
    + destruct ss as [|d ss]; [discriminate Hfit|].
      simpl. rewrite Ei. f_equal. apply IH. simpl in Hfit. lia.
Qed.

Lemma expand_at_augment (m : nat) (aug : list nat) :
  forall i ss k,
    length (contract i aug (seq i m)) = length ss ->
    k < m -> memb (i + k) aug = true ->
    nth k (expand m i aug ss) 0 = 1.
Proof.
  induction m as [|m IH]; intros i ss k Hfit Hk Hm; [lia|]. simpl in *.
  destruct (memb i aug) eqn:Ei.
  - destruct k as [|k]; [reflexivity|]. simpl.
    apply IH; [exact Hfit | lia|]. replace (S i + k) with (i + S k) by lia.
    exact Hm.
  - destruct ss as [|d ss]; [discriminate Hfit|].
    destruct k as [|k].
    + rewrite Nat.add_0_r in Hm. congruence.
    + simpl. apply IH; [simpl in Hfit; lia | lia|].
      replace (S i + k) with (i + S k) by lia. exact Hm.
Qed.

Lemma expand_contract (D s : list nat) :
  forall i,
    (forall k, k < length s -> memb (i + k) D = true -> nth k s 0 = 1) ->
    expand (length s) i D (contract i D s) = s.
Proof.
  induction s as [|d s IH]; intros i Hone; simpl; [reflexivity|].
  assert (Htail : forall k, k < length s -> memb (S i + k) D = true ->
                            nth k s 0 = 1).
  { intros k Hk Hm. apply (Hone (S k)); [simpl; lia|].
    replace (i + S k) with (S i + k) by lia. exact Hm. }
  destruct (memb i D) eqn:Ei.
  - rewrite (IH (S i) Htail). f_equal. symmetry. apply (Hone 0); [simpl; lia|].
    rewrite Nat.add_0_r. exact Ei.
  - rewrite (IH (S i) Htail). reflexivity.
Qed.

Lemma size_expand (m : nat) (aug : list nat) :
  forall i ss,
    length (contract i aug (seq i m)) = length ss ->
    size_of (expand m i aug ss) = size_of ss.
Proof.
  induction m as [|m IH]; intros i ss Hfit; simpl in *.
  - destruct ss; [reflexivity | discriminate Hfit].
  - destruct (memb i aug).
    + simpl. fold (size_of (expand m (S i) aug ss)). rewrite IH by exact Hfit.
      lia.
    + destruct ss as [|d ss]; [discriminate Hfit|]. simpl.
      fold (size_of (expand m (S i) aug ss)). fold (size_of ss).
      rewrite IH by (simpl in Hfit; lia). reflexivity.
Qed.

Lemma expand_no_shuffle (m : nat) (aug : list nat) :
  forall i,
    length (contract i aug (seq i m)) = 0 ->
    expand m i aug [] = repeat 1 m.
Proof.
  induction m as [|m IH]; intros i Hfit; simpl in *; [reflexivity|].
  destruct (memb i aug); [|discriminate Hfit].
  f_equal. apply IH. exact Hfit.
Qed.

(** ** The shape computed by the kernel *)

Lemma list_set_app {B : Type} (pre rest : list B) (d0 d : B) :
  list_set (pre ++ d0 :: rest) (length pre) d = Ok (pre ++ d :: rest).
Proof.
  induction pre as [|p pre IH]; simpl; [reflexivity|].
  rewrite IH. reflexivity.
Qed.

Lemma skipn_cons_nth_error {B : Type} (l : list B) (j : nat) (d : B) (r : list B) :
  skipn j l = d :: r -> nth_error l j = Some d /\ skipn (S j) l = r.
Proof.
  revert l. induction j as [|j IH]; intros [|x l] E; simpl in E;
    try discriminate E.
  - inversion E. split; reflexivity.
  - apply IH. exact E.
Qed.

(** The walk of [find_shape] over the output positions from [i] on. *)
Lemma find_shape_walk (aug array_shape : list nat) (m : nat) :
  forall (i : nat) (pre ss : list nat) (j : nat),
    length pre = i ->
    skipn j array_shape = ss ->
    length (contract i aug (seq i m)) = length ss ->
    foldM (fun (st : list nat * nat) i =>
             let '(new_shape, j) := st in
             if negb (memb i aug) then
               len <- of_option IndexError (nth_error array_shape j) ;;
               new_shape <- list_set new_shape i len ;;
               Ok (new_shape, j + 1)
             else Ok (new_shape, j))
          (seq i m) (pre ++ repeat 1 m, j)
    = Ok (pre ++ expand m i aug ss, j + length ss).
Proof.
  induction m as [|m IH]; intros i pre ss j Hpre Hskip Hfit; simpl in *.
  - destruct ss; [|discriminate Hfit]. simpl. rewrite Nat.add_0_r. reflexivity.
  - destruct (memb i aug) eqn:Ei; simpl.
    + replace (pre ++ 1 :: repeat 1 m) with ((pre ++ [1]) ++ repeat 1 m)
        by (rewrite <- app_assoc; reflexivity).
      rewrite (IH (S i) (pre ++ [1]) ss j); try assumption.
      * rewrite <- app_assoc. reflexivity.
      * rewrite length_app. simpl. lia.
    + destruct ss as [|d ss]; [discriminate Hfit|].
      destruct (skipn_cons_nth_error _ _ _ _ Hskip) as [Hnth Hskip'].
      rewrite Hnth. simpl. rewrite <- Hpre at 1. rewrite list_set_app. simpl.
      replace (pre ++ d :: repeat 1 m) with ((pre ++ [d]) ++ repeat 1 m)
        by (rewrite <- app_assoc; reflexivity).
      rewrite (IH (S i) (pre ++ [d]) ss (j + 1)).
      * rewrite <- app_assoc. simpl. do 2 f_equal. lia.
      * rewrite length_app. simpl. lia.
      * rewrite Nat.add_1_r. exact Hskip'.
      * simpl in Hfit. lia.
Qed.

Lemma run_find_shape_walk (aug ss : list nat) (m : nat) :
  length (contract 0 aug (seq 0 m)) = length ss ->
  run_find_shape (FindShapeWalk (repeat 1 m) m aug) ss = Ok (expand m 0 aug ss).
Proof.
  intros Hfit. unfold run_find_shape.
  pose proof (find_shape_walk aug ss m 0 [] ss 0 eq_refl eq_refl Hfit) as Hw.
  cbn [app] in Hw. rewrite Hw. reflexivity.
Qed.

(** ** What a well-formed [DimShuffle] consists of *)

Lemma ascending_sorted (l : list nat) :
  ascending l = true -> StronglySorted lt l.
Proof.
  induction l as [|x l IH]; intros E; [constructor|].
  simpl in E. destruct l as [|y l]; [constructor; constructor|].
  apply andb_prop in E. destruct E as [Hxy E]. apply Nat.ltb_lt in Hxy.
  specialize (IH E). constructor; [exact IH|].
  inversion IH as [|? ? _ Hy]; subst. constructor; [exact Hxy|].
  eapply Forall_impl; [|exact Hy]. intros z Hz. lia.
Qed.

Lemma sorted_lt_NoDup (l : list nat) : StronglySorted lt l -> NoDup l.
Proof.
  induction 1 as [|x l _ IH Hx]; constructor; [|exact IH].
  intros Hin. rewrite Forall_forall in Hx. specialize (Hx x Hin). lia.
Qed.

Lemma wf_dimshuffle_spec (op : DimShuffle) (n : nat) :
  wf_dimshuffle op n = true ->
  transposition op = shuffle op ++ dropped op
  /\ is_permutation (transposition op) n = true
  /\ NoDup (augment op)
  /\ (forall b, In b (augment op) ->
                b < length (shuffle op) + length (augment op))
  /\ length (contract 0 (augment op)
               (seq 0 (length (shuffle op) + length (augment op))))
     = length (shuffle op).
Proof.
  unfold wf_dimshuffle. intros E.
  apply andb_prop in E. destruct E as [E E4].
  apply andb_prop in E. destruct E as [E E3].
  apply andb_prop in E. destruct E as [E1 E2].
  unfold list_eqb in E1.
  destruct (list_eq_dec Nat.eq_dec
              (firstn (length (shuffle op)) (transposition op)) (shuffle op))
    as [Hfirst|]; [|discriminate E1].
  assert (Hnd : NoDup (augment op)).
  { apply sorted_lt_NoDup. apply ascending_sorted. exact E3. }
  assert (Hlt : forall b, In b (augment op) ->
                          b < length (shuffle op) + length (augment op)).
  { intros b Hb. rewrite forallb_forall in E4. apply Nat.ltb_lt.
    apply E4. exact Hb. }
  split.
  { unfold dropped. rewrite <- Hfirst at 1. symmetry. apply firstn_skipn. }
  split; [exact E2|]. split; [exact Hnd|]. split; [exact Hlt|].
  pose proof (contract_count (augment op) _ Hnd Hlt). lia.
Qed.

Lemma map_ones (f : nat -> nat) (l : list nat) :
  (forall a, In a l -> f a = 1) -> map f l = repeat 1 (length l).
Proof.
  induction l as [|a l IH]; intros Hone; simpl; [reflexivity|].
  rewrite (Hone a (or_introl eq_refl)). f_equal. apply IH.
  intros b Hb. apply Hone. right. exact Hb.
Qed.

Lemma dropped_ones (op : DimShuffle) (s : list nat) :
  forallb (fun a => nth a s 0 =? 1) (dropped op) = true ->
  forall a, In a (dropped op) -> nth a s 0 = 1.
Proof.
  intros E a Ha. rewrite forallb_forall in E. apply Nat.eqb_eq. apply E.
  exact Ha.
Qed.

(** The shape after the transposition: the kept lengths, then ones. *)
Lemma transposed_shape (op : DimShuffle) (s : list nat) :
  transposition op = shuffle op ++ dropped op ->
  forallb (fun a => nth a s 0 =? 1) (dropped op) = true ->
  map (fun ax => nth ax s 0) (transposition op)
  = map (fun ax => nth ax s 0) (shuffle op) ++ repeat 1 (length (dropped op)).
Proof.
  intros Ht Hd. rewrite Ht, map_app. f_equal.
  apply map_ones. apply dropped_ones. exact Hd.
Qed.

(** ** The transposition step of the kernel *)

Lemma enumerate_identity (t : list nat) :
  forallb (fun '(i, j) => i =? j) (enumerate t) = true ->
  t = seq 0 (length t).
Proof.
  unfold enumerate. generalize 0 as a.
  induction t as [|x t IH]; intros a E; simpl in *; [reflexivity|].
  apply andb_prop in E. destruct E as [Ex E].
  apply Nat.eqb_eq in Ex. subst x. f_equal. apply IH. exact E.
Qed.

Lemma index_of_seq (n ax : nat) : ax < n -> index_of ax (seq 0 n) = Some ax.
Proof.
  intros Hax.
  pose proof (index_of_nth (seq 0 n) ax (seq_NoDup n 0)) as Hi.
  rewrite length_seq in Hi. specialize (Hi Hax).
  rewrite seq_nth in Hi by exact Hax. exact Hi.
Qed.

Lemma transpose_source_identity (j : list nat) :
  transpose_source (seq 0 (length j)) j = j.
Proof.
  unfold transpose_source. rewrite length_seq.
  transitivity (map (fun k => nth k j 0) (seq 0 (length j)));
    [|apply map_nth_seq].
  apply map_ext_in. intros ax Hax. apply in_seq in Hax.
  rewrite index_of_seq by lia. reflexivity.
Qed.

Lemma run_transpose_spec {A : Type} (x : ndarray A) (t : list nat) :
  well_formed x -> is_permutation t (ndim_of x) = true ->
  exists xT,
    run_transpose
      (if forallb (fun '(i, j) => i =? j) (enumerate t)
       then TransposeIdentity else TransposeAxes t) x = Ok xT
    /\ well_formed xT
    /\ shape xT = map (fun ax => nth ax (shape x) 0) t
    /\ forall j, in_boundsb j (shape xT) = true ->
                 cell xT j = cell x (transpose_source t j).
Proof.
  intros Hwf Hp.
  destruct (forallb (fun '(i, j) => i =? j) (enumerate t)) eqn:E.
  - apply enumerate_identity in E.
    destruct (is_permutation_spec _ _ Hp) as [Hl _]. unfold ndim_of in Hl.
    rewrite Hl in E. exists x. split; [reflexivity|]. split; [exact Hwf|].
    split.
    + rewrite E. symmetry. apply map_nth_seq.
    + intros j Hj. apply in_boundsb_length in Hj.
      rewrite E, <- Hj, transpose_source_identity. reflexivity.
  - apply np_transpose_spec; assumption.
Qed.

(** ** What the [DimShuffle] kernel computes *)

Lemma origin_in_bounds (op : DimShuffle) (s j : list nat) :
  wf_dimshuffle op (length s) = true ->
  forallb (fun a => nth a s 0 =? 1) (dropped op) = true ->
  in_boundsb j (dimshuffle_shape op s) = true ->
  in_boundsb (contract 0 (augment op) j ++ repeat 0 (length (dropped op)))
             (map (fun ax => nth ax s 0) (transposition op)) = true
  /\ in_boundsb (origin op j) s = true.
Proof.
  intros Hwf Hdrop Hj.
  destruct (wf_dimshuffle_spec op _ Hwf) as [Ht [Hp [Hnd [Hlt Hfit]]]].
  assert (Hin : in_boundsb
                  (contract 0 (augment op) j ++ repeat 0 (length (dropped op)))
                  (map (fun ax => nth ax s 0) (transposition op)) = true).
  { rewrite (transposed_shape op s Ht Hdrop).
    apply in_boundsb_app; [|apply in_boundsb_zeros].
    apply (contract_in_bounds (length (shuffle op) + length (augment op))
             (augment op) 0 _ j); [|exact Hj].
    rewrite length_map. exact Hfit. }
  split; [exact Hin|].
  unfold origin. apply transpose_source_in_bounds; assumption.
Qed.

Lemma all_ones_size (s : list nat) :
  (forall a, a < length s -> nth a s 0 = 1) -> size_of s = 1.
Proof.
  induction s as [|d s IH]; intros Hone; simpl; [reflexivity|].
  fold (size_of s). rewrite IH.
  - pose proof (Hone 0 ltac:(simpl; lia)) as Hd. simpl in Hd. lia.
  - intros a Ha. apply (Hone (S a)). simpl. lia.
Qed.

(** The kernel built for a well-formed operator, run on a well-formed
    input whose dropped axes have length 1, returns a well-formed array
    (a scalar when no axis is left) of the operator's output shape, whose
    element at an index is the input's element at the index's origin. *)
Lemma dimshuffle_spec {A : Type} (op : DimShuffle) (node : Apply)
    (k : dimshuffle_fn) (x : ndarray A) :
  well_formed x ->
  wf_dimshuffle op (ndim_of x) = true ->
  forallb (fun a => nth a (shape x) 0 =? 1) (dropped op) = true ->
  numba_funcify_DimShuffle op node = Ok k ->
  static_shape_agrees node (dimshuffle_shape op (shape x)) ->
  exists yv,
    run_dimshuffle k (VArray x) = Ok yv
    /\ well_formed (np_asarray yv)
    /\ shape (np_asarray yv) = dimshuffle_shape op (shape x)
    /\ forall j, in_boundsb j (dimshuffle_shape op (shape x)) = true ->
                 cell (np_asarray yv) j = cell x (origin op j).
Proof.
  intros Hx Hwf Hdrop Hk Hstatic. unfold ndim_of in Hwf.
  destruct (wf_dimshuffle_spec op _ Hwf) as [Ht [Hp [Hnd [Hlt Hfit]]]].
  set (s := shape x) in *.
  set (ss := map (fun a => nth a s 0) (shuffle op)).
  assert (Hss : length ss = length (shuffle op)) by apply length_map.
  pose proof (transposed_shape op s Ht Hdrop) as HsT. fold ss in HsT.
  assert (Hfit' : length (contract 0 (augment op)
                            (seq 0 (length (shuffle op) + length (augment op))))
                  = length ss) by (rewrite Hss; exact Hfit).
  unfold numba_funcify_DimShuffle in Hk.
  apply bind_ok in Hk. destruct Hk as [fs [Hfs Hk]].
  assert (Hshape : run_find_shape fs ss = Ok (dimshuffle_shape op s)).
  { destruct (0 <? length (shuffle op)) eqn:Esh.
    - apply bind_ok in Hfs. destruct Hfs as [out0 [Hout Hfs]].
      destruct (nth_error (outputs node) 0) as [o|] eqn:Eo;
        [|discriminate Hout].
      inversion Hout; subst o.
      destruct (all_known (t_shape out0)) as [st|] eqn:Eknown;
        inversion Hfs; subst fs.
      + simpl. f_equal. apply (Hstatic out0 st Eo Eknown).
      + apply run_find_shape_walk. exact Hfit'.
    - inversion Hfs; subst fs. simpl. f_equal.
      apply Nat.ltb_ge in Esh. unfold dimshuffle_shape. fold ss.
      assert (ss = []) as -> by (destruct ss; [reflexivity | simpl in Hss; lia]).
      symmetry. apply expand_no_shuffle. rewrite Hfit. lia. }
  assert (Hsize : size_of (dimshuffle_shape op s) = size_of ss).
  { apply size_expand. exact Hfit'. }
  destruct (0 <? length (shuffle op) + length (augment op)) eqn:Em;
    inversion Hk; subst k; clear Hk.
  - destruct (run_transpose_spec x (transposition op) Hx Hp)
      as [xT [HrunT [HwfT [HshapeT HcellT]]]].
    fold s in HshapeT. rewrite HsT in HshapeT.
    assert (HlenT : length (data xT) = size_of ss).
    { rewrite HwfT, HshapeT, size_of_app, size_of_ones. lia. }
    unfold run_dimshuffle. cbn [np_asarray]. rewrite HrunT. cbn [bind].
    rewrite HshapeT, <- Hss, firstn_app, firstn_all, Nat.sub_diag.
    cbn [firstn]. rewrite app_nil_r, Hshape. cbn [bind].
    unfold np_reshape. rewrite Hsize, HlenT, Nat.eqb_refl.
    exists (VArray (mk_ndarray (dimshuffle_shape op s) (data xT))).
    split; [reflexivity|]. split.
    { unfold well_formed. simpl. rewrite Hsize. exact HlenT. }
    split; [reflexivity|].
    intros j Hj.
    destruct (origin_in_bounds op s j Hwf Hdrop Hj) as [Hin _].
    rewrite HsT in Hin.
    unfold cell at 1. cbn [np_asarray data shape].
    rewrite (unit_equivalent_ravel (dimshuffle_shape op s) j
               (ss ++ repeat 1 (length (dropped op)))
               (contract 0 (augment op) j ++ repeat 0 (length (dropped op)))
               Hj Hin).
    + rewrite <- HshapeT. fold (cell xT (contract 0 (augment op) j
                                          ++ repeat 0 (length (dropped op)))).
      rewrite HcellT by (rewrite HshapeT; exact Hin). reflexivity.
    + unfold dimshuffle_shape. fold ss.
      rewrite (compress_expand _ _ 0 ss j Hj).
      symmetry. apply compress_app_ones.
      apply in_boundsb_length.
      apply (contract_in_bounds _ _ 0 ss j Hfit' Hj).
  - apply Nat.ltb_ge in Em.
    assert (Hsh : shuffle op = []) by (destruct (shuffle op); [reflexivity | simpl in Em; lia]).
    assert (Haug : augment op = []) by (destruct (augment op); [reflexivity | simpl in Em; lia]).
    assert (Hone : forall a, a < length s -> nth a s 0 = 1).
    { intros a Ha. apply (dropped_ones op s Hdrop).
      destruct (is_permutation_spec _ _ Hp) as [_ [_ Hin]].
      apply Hin in Ha. rewrite Ht, Hsh in Ha. exact Ha. }
    assert (Hdata : length (data x) = 1).
    { rewrite Hx. fold s. apply all_ones_size. exact Hone. }
    destruct (data x) as [|v [|w d]] eqn:Ed; try discriminate Hdata.
    unfold run_dimshuffle. cbn [np_asarray]. unfold item. rewrite Ed.
    cbn [bind].
    assert (Hds : dimshuffle_shape op s = []).
    { unfold dimshuffle_shape. rewrite Hsh, Haug. reflexivity. }
    exists (VScalar v). split; [reflexivity|]. split; [reflexivity|].
    split; [symmetry; exact Hds|].
    intros j Hj.
    destruct (origin_in_bounds op s j Hwf Hdrop Hj) as [_ Hin].
    pose proof (ravel_bound s (origin op j) Hin) as Hr.
    rewrite (all_ones_size s Hone) in Hr.
    rewrite Hds in Hj. destruct j; [|discriminate Hj].
    unfold cell. cbn [np_asarray data shape ravel]. fold s. rewrite Ed.
    replace (ravel s (origin op [])) with 0 by lia. reflexivity.
Qed.

Lemma run_dimshuffle_asarray {A : Type} (k : dimshuffle_fn) (v : value A) :
  run_dimshuffle k v = run_dimshuffle k (VArray (np_asarray v)).
Proof.
  destruct k; reflexivity.
Qed.

(** ** The inverse operator *)

Lemma NoDup_app_parts {B : Type} (l1 l2 : list B) :
  NoDup (l1 ++ l2) ->
  NoDup l1 /\ NoDup l2 /\ (forall a, In a l1 -> ~ In a l2).
Proof.
  induction l1 as [|x l1 IH]; simpl; intros Hnd.
  - split; [constructor|]. split; [exact Hnd|]. intros a [].
  - inversion Hnd as [|? ? Hx Hrest]; subst.
    destruct (IH Hrest) as [H1 [H2 Hdis]].
    split; [|split; [exact H2|]].
    + constructor; [|exact H1]. intros Hin. apply Hx. apply in_or_app.
      left. exact Hin.
    + intros a [<-|Ha] Hin2.
      * apply Hx. apply in_or_app. right. exact Hin2.
      * apply (Hdis a Ha Hin2).
Qed.

Lemma memb_ext (a : nat) (l l' : list nat) :
  (In a l <-> In a l') -> memb a l = memb a l'.
Proof.
  intros Hiff. destruct (memb a l) eqn:E, (memb a l') eqn:E'; try reflexivity.
  - apply memb_In in E. apply Hiff in E. apply memb_In in E. congruence.
  - apply memb_In in E'. apply Hiff in E'. apply memb_In in E'. congruence.
Qed.

Lemma memb_sorted (a : nat) (D : list nat) : memb a (sorted D) = memb a D.
Proof.
  apply memb_ext. split; intros Ha.
  - apply (Permutation_in _ (sorted_perm D)). exact Ha.
  - apply (Permutation_in _ (Permutation_sym (sorted_perm D))). exact Ha.
Qed.

Lemma contract_ext (D D' l : list nat) :
  (forall a, memb a D = memb a D') ->
  forall i, contract i D l = contract i D' l.
Proof.
  intros Hext. induction l as [|d l IH]; intros i; simpl; [reflexivity|].
  rewrite (Hext i), (IH (S i)). reflexivity.
Qed.

(** The entry of a contracted list at [r] is the entry of the list at the
    r-th position that is kept. *)
Lemma contract_nth (D l : list nat) (r : nat) :
  r < length (contract 0 D (seq 0 (length l))) ->
  nth r (contract 0 D l) 0
  = nth (nth r (contract 0 D (seq 0 (length l))) 0) l 0.
Proof.
  intros Hr. rewrite (contract_map D l 0).
  rewrite (nth_map_in (fun a => nth (a - 0) l 0) _ r Hr).
  rewrite Nat.sub_0_r. reflexivity.
Qed.

Lemma sorted_ascending (l : list nat) :
  StronglySorted lt l -> ascending l = true.
Proof.
  induction 1 as [|x l Hl IH Hx]; [reflexivity|].
  simpl. destruct l as [|y l]; [reflexivity|].
  inversion Hx as [|? ? Hxy _]; subst.
  apply andb_true_intro. split; [apply Nat.ltb_lt; exact Hxy | exact IH].
Qed.

Section Inverse.
Variable op : DimShuffle.
Variable s : list nat.
Hypothesis Hwf : wf_dimshuffle op (length s) = true.
Hypothesis Hdrop : forallb (fun a => nth a s 0 =? 1) (dropped op) = true.

Let m := length (shuffle op) + length (augment op).
Let kept := contract 0 (dropped op) (seq 0 (length (transposition op))).
Let positions := contract 0 (augment op) (seq 0 m).
Let place := fun a => match index_of a (shuffle op) with
                      | Some r => nth r positions 0
                      | None => 0
                      end.
Let sy := dimshuffle_shape op s.

Lemma inverse_parts :
  transposition op = shuffle op ++ dropped op
  /\ length (transposition op) = (length s)
  /\ NoDup (shuffle op) /\ NoDup (dropped op)
  /\ (forall a, In a (shuffle op) -> ~ In a (dropped op))
  /\ (forall a, a < (length s) <-> In a (shuffle op) \/ In a (dropped op))
  /\ length (shuffle op) + length (dropped op) = (length s)
  /\ length positions = length (shuffle op)
  /\ length sy = m.
Proof.
  destruct (wf_dimshuffle_spec op _ Hwf) as [Ht [Hp [Hnd [Hlt Hfit]]]].
  destruct (is_permutation_spec _ _ Hp) as [Hl [Hndt Hin]].
  rewrite Ht in Hndt. destruct (NoDup_app_parts _ _ Hndt) as [H1 [H2 Hdis]].
  split; [exact Ht|]. split; [exact Hl|]. split; [exact H1|].
  split; [exact H2|]. split; [exact Hdis|]. split.
  { intros a. rewrite <- Hin, Ht. apply in_app_iff. }
  split; [rewrite <- Hl, Ht; symmetry; apply length_app|].
  split; [exact Hfit|].
  unfold sy, dimshuffle_shape. apply expand_length.
  rewrite length_map. exact Hfit.
Qed.

Lemma kept_spec :
  (forall a, In a kept <-> In a (shuffle op))
  /\ length kept = length (shuffle op).
Proof.
  destruct inverse_parts as [Ht [Hl [H1 [H2 [Hdis [Hall [Hsum _]]]]]]].
  split.
  - intros a. unfold kept. rewrite contract_seq_In, Hl. split.
    + intros [Hlt Hm]. destruct (proj1 (Hall a) ltac:(lia)) as [Hs|Hd];
        [exact Hs|]. apply memb_In in Hd. congruence.
    + intros Hs. split.
      * assert (a < (length s)) by (apply Hall; left; exact Hs). lia.
      * destruct (memb a (dropped op)) eqn:E; [|reflexivity].
        apply memb_In in E. exfalso. apply (Hdis a Hs E).
  - pose proof (contract_count (dropped op) (length s) H2) as Hc.
    unfold kept. rewrite Hl. 
    assert (Hlt : forall a, In a (dropped op) -> a < (length s)).
    { intros a Ha. apply Hall. right. exact Ha. }
    specialize (Hc Hlt). lia.
Qed.

Lemma positions_spec (b : nat) :
  In b positions <-> (b < m /\ memb b (augment op) = false).
Proof.
  unfold positions. rewrite contract_seq_In. split; intros [H1 H2];
    (split; [lia | exact H2]).
Qed.

Lemma place_of_shuffle (r : nat) :
  r < length (shuffle op) ->
  place (nth r (shuffle op) 0) = nth r positions 0.
Proof.
  intros Hr. destruct inverse_parts as [_ [_ [H1 _]]].
  unfold place. rewrite (index_of_nth _ r H1 Hr). reflexivity.
Qed.

Lemma inverse_shuffle : shuffle (inverse_dimshuffle op) = map place kept.
Proof. reflexivity. Qed.

Lemma inverse_transposition :
  transposition (inverse_dimshuffle op) = map place kept ++ augment op.
Proof. reflexivity. Qed.

Lemma inverse_augment : augment (inverse_dimshuffle op) = sorted (dropped op).
Proof. reflexivity. Qed.

Lemma inverse_shuffle_length :
  length (shuffle (inverse_dimshuffle op)) = length (shuffle op).
Proof.
  rewrite inverse_shuffle, length_map. apply (proj2 kept_spec).
Qed.

Lemma inverse_dropped : dropped (inverse_dimshuffle op) = augment op.
Proof.
  unfold dropped. rewrite inverse_transposition, inverse_shuffle.
  rewrite skipn_app, skipn_all, Nat.sub_diag. reflexivity.
Qed.

(** Every output position of [op] is named once by the inverse's
    transposition. *)
Lemma inverse_wf : wf_dimshuffle (inverse_dimshuffle op) (length sy) = true.
Proof.
  destruct inverse_parts as [Ht [Hl [H1 [H2 [Hdis [Hall [Hsum [Hpos Hsy]]]]]]]].
  destruct kept_spec as [Hkin Hklen].
  destruct (wf_dimshuffle_spec op _ Hwf) as [_ [_ [Hnd [Hlt _]]]].
  unfold wf_dimshuffle.
  pose proof inverse_shuffle_length as Hshl.
  rewrite inverse_transposition, inverse_augment.
  rewrite inverse_shuffle in *.
  apply andb_true_intro. split; [apply andb_true_intro; split;
                                 [apply andb_true_intro; split|]|].
  - unfold list_eqb. rewrite firstn_app, firstn_all, Nat.sub_diag.
    cbn [firstn]. rewrite app_nil_r.
    destruct (list_eq_dec Nat.eq_dec (map place kept) (map place kept));
      [reflexivity | contradiction].
  - unfold is_permutation. apply andb_true_intro. split.
    + apply Nat.eqb_eq. rewrite length_app, Hshl, Hsy. reflexivity.
    + apply forallb_forall. intros b Hb. apply in_seq in Hb.
      apply memb_In. apply in_or_app.
      destruct (memb b (augment op)) eqn:Eb.
      * right. apply memb_In. exact Eb.
      * left. assert (Hbp : In b positions).
        { apply positions_spec. split; [rewrite Hsy in Hb; lia | exact Eb]. }
        destruct (In_nth _ _ 0 Hbp) as [r [Hr Hnr]].
        rewrite Hpos in Hr. apply in_map_iff.
        exists (nth r (shuffle op) 0). split.
        -- rewrite (place_of_shuffle r Hr). exact Hnr.
        -- apply Hkin. apply nth_In. exact Hr.
  - apply sorted_ascending. apply sorted_lt. exact H2.
  - apply forallb_forall. intros a Ha.
    apply (Permutation_in _ (sorted_perm (dropped op))) in Ha.
    apply Nat.ltb_lt. rewrite Hshl.
    rewrite (Permutation_length (sorted_perm (dropped op))).
    assert (a < (length s)) by (apply Hall; right; exact Ha). lia.
Qed.

Lemma inverse_drops_ones :
  forallb (fun b => nth b sy 0 =? 1) (dropped (inverse_dimshuffle op)) = true.
Proof.
  rewrite inverse_dropped. apply forallb_forall. intros b Hb.
  destruct (wf_dimshuffle_spec op _ Hwf) as [_ [_ [_ [Hlt Hfit]]]].
  apply Nat.eqb_eq. unfold sy, dimshuffle_shape.
  apply expand_at_augment.
  - rewrite length_map. exact Hfit.
  - apply Hlt. exact Hb.
  - apply memb_In. exact Hb.
Qed.

(** The length of [op]'s output at the position given to an input axis
    is that axis's length. *)
Lemma output_length_at_place (a : nat) :
  In a (shuffle op) -> nth (place a) sy 0 = nth a s 0.
Proof.
  intros Ha. destruct inverse_parts as [_ [_ [H1 [_ [_ [_ [_ [Hpos Hsy]]]]]]]].
  destruct (wf_dimshuffle_spec op _ Hwf) as [_ [_ [_ [_ Hfit]]]].
  destruct (index_of_In a _ Ha) as [r [Er [Hr Hn]]].
  unfold place. rewrite Er.
  assert (Hc : contract 0 (augment op) sy
               = map (fun a => nth a s 0) (shuffle op)).
  { unfold sy, dimshuffle_shape. apply contract_expand.
    rewrite length_map. exact Hfit. }
  pose proof (contract_nth (augment op) sy r) as Hnth.
  rewrite Hsy in Hnth. fold positions in Hnth.
  rewrite <- Hnth by (rewrite Hpos; exact Hr).
  rewrite Hc, (nth_map_in (fun a => nth a s 0) _ r Hr), Hn. reflexivity.
Qed.

Lemma inverse_shape : dimshuffle_shape (inverse_dimshuffle op) sy = s.
Proof.
  destruct inverse_parts as [Ht [Hl [H1 [H2 [Hdis [Hall [Hsum [Hpos Hsy]]]]]]]].
  destruct kept_spec as [Hkin Hklen].
  pose proof inverse_shuffle_length as Hshl.
  unfold dimshuffle_shape.
  rewrite Hshl, inverse_augment, inverse_shuffle.
  rewrite (Permutation_length (sorted_perm (dropped op))), Hsum.
  rewrite map_map.
  rewrite (map_ext_in (fun a => nth (place a) sy 0) (fun a => nth a s 0))
    by (intros a Ha; apply output_length_at_place; apply Hkin; exact Ha).
  assert (Hc : map (fun a => nth a s 0) kept = contract 0 (sorted (dropped op)) s).
  { rewrite (contract_map (sorted (dropped op)) s 0).
    rewrite (contract_ext (sorted (dropped op)) (dropped op)
               (seq 0 (length s)) (fun a => memb_sorted a (dropped op)) 0).
    unfold kept. rewrite Hl. apply map_ext. intros a.
    rewrite Nat.sub_0_r. reflexivity. }
  rewrite Hc. apply expand_contract.
  intros k Hk Hm. simpl in Hm. rewrite memb_sorted in Hm.
  apply memb_In in Hm. apply (dropped_ones op s Hdrop). exact Hm.
Qed.

(** Carrying an index of the input to the output and back gives the
    index. *)
Lemma origin_inverse (idx : list nat) :
  in_boundsb idx s = true ->
  origin op (origin (inverse_dimshuffle op) idx) = idx.
Proof.
  intros Hidx.
  destruct inverse_parts as [Ht [Hl [H1 [H2 [Hdis [Hall [Hsum [Hpos Hsy]]]]]]]].
  destruct kept_spec as [Hkin Hklen].
  pose proof inverse_shuffle_length as Hshl.
  pose proof inverse_wf as Hwf'.
  destruct (wf_dimshuffle_spec _ _ Hwf') as [Ht' [Hp' _]].
  destruct (is_permutation_spec _ _ Hp') as [Hl' [Hnd' _]].
  pose proof (in_boundsb_length _ _ Hidx) as Hlen.
  pose proof (in_boundsb_nth _ _ Hidx) as Hnth.
  set (j := origin (inverse_dimshuffle op) idx).
  assert (Hj : length j = m).
  { unfold j, origin, transpose_source.
    rewrite length_map, length_seq, Hl', Hsy. reflexivity. }
  assert (Hcj : length (contract 0 (augment op) j) = length (shuffle op)).
  { rewrite contract_length, Hj. exact Hpos. }
  assert (Hci : length (contract 0 (sorted (dropped op)) idx)
                = length (shuffle op)).
  { rewrite contract_length, Hlen.
    rewrite (contract_ext (sorted (dropped op)) (dropped op) (seq 0 (length s))
               (fun a => memb_sorted a (dropped op)) 0).
    rewrite <- Hl. exact Hklen. }
  apply (nth_ext _ _ 0 0).
  { unfold origin, transpose_source. rewrite length_map, length_seq.
    rewrite Hl, Hlen. reflexivity. }
  intros a Ha.
  assert (Ha' : a < (length s)).
  { unfold origin, transpose_source in Ha.
    rewrite length_map, length_seq, Hl in Ha. exact Ha. }
  assert (Hat : In a (transposition op)).
  { rewrite Ht. apply in_or_app. apply Hall. exact Ha'. }
  destruct (index_of_In a _ Hat) as [k [Ek [Hk Hnk]]].
  unfold origin at 1.
  rewrite (transpose_source_nth _ _ a k Ek) by (rewrite Hl; exact Ha').
  destruct (Nat.lt_ge_cases k (length (shuffle op))) as [Hks|Hkd].
  - rewrite app_nth1 by (rewrite Hcj; exact Hks).
    rewrite contract_nth by (rewrite Hj; fold positions; rewrite Hpos; exact Hks).
    rewrite Hj. fold positions.
    assert (Hak : a = nth k (shuffle op) 0).
    { rewrite <- Hnk, Ht, app_nth1 by exact Hks. reflexivity. }
    assert (Hin : In a kept) by (apply Hkin; rewrite Hak; apply nth_In; exact Hks).
    destruct (In_nth _ _ 0 Hin) as [r [Hr Hnr]].
    assert (Hplace : nth r (transposition (inverse_dimshuffle op)) 0
                     = nth k positions 0).
    { rewrite inverse_transposition.
      rewrite app_nth1 by (rewrite length_map; exact Hr).
      rewrite (nth_map_in place kept r Hr), Hnr, Hak.
      apply place_of_shuffle. exact Hks. }
    assert (Hidx' : index_of (nth k positions 0)
                             (transposition (inverse_dimshuffle op)) = Some r).
    { rewrite <- Hplace. apply index_of_nth; [exact Hnd'|].
      rewrite Hl', Hsy. unfold m. rewrite Hklen in Hr. lia. }
    unfold j, origin.
    rewrite (transpose_source_nth _ _ _ r Hidx')
      by (rewrite Hl', Hsy; apply positions_spec; apply nth_In;
          rewrite Hpos; exact Hks).
    rewrite inverse_augment.
    rewrite app_nth1 by (rewrite Hci; rewrite Hklen in Hr; exact Hr).
    rewrite contract_nth.
    + rewrite (contract_ext (sorted (dropped op)) (dropped op)
                 (seq 0 (length idx)) (fun a => memb_sorted a (dropped op)) 0).
      rewrite Hlen. rewrite <- Hl. fold kept. rewrite Hnr. reflexivity.
    + rewrite <- contract_length, Hci. rewrite Hklen in Hr. exact Hr.
  - assert (Hz : nth k (contract 0 (augment op) j
                          ++ repeat 0 (length (dropped op))) 0 = 0).
    { rewrite app_nth2 by (rewrite Hcj; exact Hkd).
      destruct (Nat.lt_ge_cases (k - length (contract 0 (augment op) j))
                                (length (dropped op))) as [Hlt|Hge].
      - apply nth_repeat_lt. exact Hlt.
      - apply nth_overflow. rewrite repeat_length. exact Hge. }
    rewrite Hz.
    assert (Had : In a (dropped op)).
    { rewrite <- Hnk, Ht, app_nth2 by exact Hkd. apply nth_In.
      rewrite Ht, length_app in Hk. lia. }
    pose proof (dropped_ones op s Hdrop a Had) as Hone.
    specialize (Hnth a Ha'). lia.
Qed.
End Inverse.

(** ** The [DimShuffle] round trip (C7) *)

Lemma unknown_shape_agrees (node : Apply) (s : list nat) :
  (forall out0, nth_error (outputs node) 0 = Some out0 ->
                all_known (t_shape out0) = None) ->
  static_shape_agrees node s.
Proof.
  intros Hnone out0 st Hout Hknown. rewrite (Hnone out0 Hout) in Hknown.
  discriminate Hknown.
Qed.

(** C7. Take a well-formed [DimShuffle] operator (its transposition names
    every input axis once and starts with the kept axes, its inserted
    positions are ascending) and a well-formed array of the operator's
    input rank whose dropped axes have length 1, with nodes whose static
    output shapes, where known, are the true ones. The kernel of the
    operator followed by the kernel of the inverse operator returns the
    array itself, shape and elements. In particular an array of shape
    (2,1,3), taken to shape (3,2) by dropping axis 1 and transposing, and
    back by transposing and reinserting axis 1, is reproduced exactly. *)
Theorem dimshuffle_round_trip {A : Type} (op : DimShuffle)
    (node1 node2 : Apply) (k1 k2 : dimshuffle_fn) (x : ndarray A)
    (Hx : well_formed x)
    (Hwf : wf_dimshuffle op (ndim_of x) = true)
    (Hdrop : forallb (fun a => nth a (shape x) 0 =? 1) (dropped op) = true)
    (Hk1 : numba_funcify_DimShuffle op node1 = Ok k1)
    (Hk2 : numba_funcify_DimShuffle (inverse_dimshuffle op) node2 = Ok k2)
    (Hs1 : static_shape_agrees node1 (dimshuffle_shape op (shape x)))
    (Hs2 : static_shape_agrees node2 (shape x)) :
  (exists y z,
      run_dimshuffle k1 (VArray x) = Ok y
      /\ shape (np_asarray y) = dimshuffle_shape op (shape x)
      /\ run_dimshuffle k2 y = Ok z
      /\ np_asarray z = x)
  /\ (forall (a b c d e f : A) (inplace : bool),
         let x213 := mk_ndarray [2; 1; 3] [a; b; c; d; e; f] in
         let forth := mk_DimShuffle [2; 0] [2; 0; 1] [] inplace in
         let back := mk_DimShuffle [1; 0] [1; 0] [1] inplace in
         let node32 := mk_Apply [mk_TensorType float64 3 [Some 2; Some 1; Some 3]]
                                [mk_TensorType float64 2 [Some 3; Some 2]] in
         let node213 := mk_Apply [mk_TensorType float64 2 [Some 3; Some 2]]
                                 [mk_TensorType float64 3 [Some 2; Some 1; Some 3]] in
         inverse_dimshuffle forth = back
         /\ (k <- numba_funcify_DimShuffle forth node32 ;;
             run_dimshuffle k (VArray x213))
            = Ok (VArray (mk_ndarray [3; 2] [a; d; b; e; c; f]))
         /\ (k <- numba_funcify_DimShuffle back node213 ;;
             run_dimshuffle k (VArray (mk_ndarray [3; 2] [a; d; b; e; c; f])))
            = Ok (VArray x213)).
Proof.
  split.
  - unfold ndim_of in Hwf.
    destruct (dimshuffle_spec op node1 k1 x Hx Hwf Hdrop Hk1 Hs1)
      as [yv [Hrun1 [Hwfy [Hshy Hcelly]]]].
    assert (Hwf' : wf_dimshuffle (inverse_dimshuffle op)
                     (ndim_of (np_asarray yv)) = true).
    { unfold ndim_of. rewrite Hshy. apply inverse_wf. exact Hwf. }
    assert (Hdrop' : forallb (fun b => nth b (shape (np_asarray yv)) 0 =? 1)
                             (dropped (inverse_dimshuffle op)) = true).
    { rewrite Hshy. apply inverse_drops_ones. exact Hwf. }
    assert (Hback : dimshuffle_shape (inverse_dimshuffle op)
                      (shape (np_asarray yv)) = shape x).
    { rewrite Hshy. apply inverse_shape; assumption. }
    assert (Hs2' : static_shape_agrees node2
                     (dimshuffle_shape (inverse_dimshuffle op)
                        (shape (np_asarray yv)))).
    { rewrite Hback. exact Hs2. }
    destruct (dimshuffle_spec (inverse_dimshuffle op) node2 k2 (np_asarray yv)
                Hwfy Hwf' Hdrop' Hk2 Hs2')
      as [zv [Hrun2 [Hwfz [Hshz Hcellz]]]].
    exists yv, zv. split; [exact Hrun1|]. split; [exact Hshy|].
    split; [rewrite run_dimshuffle_asarray; exact Hrun2|].
    rewrite Hback in Hshz, Hcellz.
    apply array_extensional; [exact Hwfz | exact Hx | exact Hshz|].
    intros idx Hidx. rewrite Hshz in Hidx.
    rewrite (Hcellz idx Hidx).
    assert (Hin : in_boundsb (origin (inverse_dimshuffle op) idx)
                             (dimshuffle_shape op (shape x)) = true).
    { rewrite <- Hshy.
      apply (origin_in_bounds (inverse_dimshuffle op) (shape (np_asarray yv)) idx
               Hwf' Hdrop').
      rewrite Hback. exact Hidx. }
    rewrite (Hcelly _ Hin).
    rewrite (origin_inverse op (shape x) Hwf Hdrop idx Hidx). reflexivity.
  - intros a b c d e f inplace. cbv zeta.
    split; [reflexivity|]. split; reflexivity.
Qed.

Lemma dimshuffle_round_trip_witness :
  let x := mk_ndarray [2; 1; 3] [10; 11; 12; 13; 14; 15] in
  let op := mk_DimShuffle [2; 0] [2; 0; 1] [] false in
  let node1 := mk_Apply [mk_TensorType int64 3 [None; Some 1; None]]
                        [mk_TensorType int64 2 [None; None]] in
  let node2 := mk_Apply [mk_TensorType int64 2 [None; None]]
                        [mk_TensorType int64 3 [None; Some 1; None]] in
  well_formed x
  /\ wf_dimshuffle op (ndim_of x) = true
  /\ exists y z,
       (k1 <- numba_funcify_DimShuffle op node1 ;; run_dimshuffle k1 (VArray x))
       = Ok y
       /\ (k2 <- numba_funcify_DimShuffle (inverse_dimshuffle op) node2 ;;
           run_dimshuffle k2 y) = Ok z
       /\ np_asarray z = x.
Proof.
  intros x op node1 node2.
  assert (Hx : well_formed x) by reflexivity.
  assert (Hwf : wf_dimshuffle op (ndim_of x) = true) by reflexivity.
  assert (Hdrop : forallb (fun a => nth a (shape x) 0 =? 1) (dropped op) = true)
    by reflexivity.
  assert (Hs1 : static_shape_agrees node1 (dimshuffle_shape op (shape x))).
  { apply unknown_shape_agrees. intros out0 Hout. simpl in Hout.
    inversion Hout. reflexivity. }
  assert (Hs2 : static_shape_agrees node2 (shape x)).
  { apply unknown_shape_agrees. intros out0 Hout. simpl in Hout.
    inversion Hout. reflexivity. }
  split; [exact Hx|]. split; [exact Hwf|].
  destruct (numba_funcify_DimShuffle op node1) as [k1|e1] eqn:Hk1;
    [|vm_compute in Hk1; discriminate Hk1].
  destruct (numba_funcify_DimShuffle (inverse_dimshuffle op) node2)
    as [k2|e2] eqn:Hk2; [|vm_compute in Hk2; discriminate Hk2].
  destruct (dimshuffle_round_trip op node1 node2 k1 k2 x
              Hx Hwf Hdrop Hk1 Hk2 Hs1 Hs2) as [[y [z [Hy [_ [Hz Hzx]]]]] _].
  exists y, z. split; [exact Hy|]. split; [exact Hz | exact Hzx].
Defined.
(** * Further properties of the generated kernels *)

(** ** Storing into a list and reading it back *)

Lemma list_set_spec {B : Type} (l : list B) (k : nat) (v : B) (l' : list B) :
  list_set l k v = Ok l' ->
  length l' = length l
  /\ nth_error l' k = Some v
  /\ forall j, j <> k -> nth_error l' j = nth_error l j.
Proof.
  revert k l'. induction l as [|x l IH]; intros k l' E; simpl in E;
    [discriminate|].
  destruct k as [|k].
  - inversion E; subst. split; [reflexivity|]. split; [reflexivity|].
    intros [|j] Hj; [congruence | reflexivity].
  - apply bind_ok in E. destruct E as [l'' [E1 E2]]. inversion E2; subst.
    destruct (IH _ _ E1) as [Hl [Hk Ho]].
    split; [simpl; congruence|]. split; [exact Hk|].
    intros [|j] Hj; [reflexivity|]. simpl. apply Ho. congruence.
Qed.

Lemma ravel_injective (s idx idx' : list nat) :
  in_boundsb idx s = true -> in_boundsb idx' s = true ->
  ravel s idx = ravel s idx' -> idx = idx'.
Proof.
  intros Hb Hb' E.
  pose proof (ndindex_ravel s idx Hb) as H1.
  pose proof (ndindex_ravel s idx' Hb') as H2.
  rewrite E in H1. congruence.
Qed.

Lemma ndindex_positions (s : list nat) :
  map (ravel s) (ndindex s) = seq 0 (size_of s).
Proof.
  apply nth_error_extensional. intros k.
  destruct (Nat.lt_ge_cases k (size_of s)) as [Hk|Hk].
  - destruct (ravel_ndindex s k Hk) as [idx [Hb Hr]].
    pose proof (ndindex_ravel s idx Hb) as Hn. rewrite Hr in Hn.
    rewrite nth_error_map, Hn. simpl.
    rewrite nth_error_seq. apply Nat.ltb_lt in Hk. rewrite Hk.
    simpl. congruence.
  - transitivity (@None nat).
    + apply nth_error_None. rewrite length_map, ndindex_length. exact Hk.
    + symmetry. apply nth_error_None. rewrite length_seq. exact Hk.
Qed.

Lemma ndindex_NoDup (s : list nat) : NoDup (ndindex s).
Proof.
  apply (NoDup_map_inv (ravel s)). rewrite ndindex_positions. apply seq_NoDup.
Qed.

Lemma ndindex_complete (s idx : list nat) :
  in_boundsb idx s = true -> In idx (ndindex s).
Proof.
  intros Hb. apply (nth_error_In _ (ravel s idx)). apply ndindex_ravel. exact Hb.
Qed.

Lemma cell_full {B : Type} (s idx : list nat) (v : B) :
  in_boundsb idx s = true -> cell (np_full s v) idx = Some v.
Proof.
  intros Hb. unfold cell, np_full. simpl.
  rewrite nth_error_repeat; [reflexivity|]. apply ravel_bound. exact Hb.
Qed.

Lemma full_well_formed {B : Type} (s : list nat) (v : B) :
  well_formed (np_full s v).
Proof.
  unfold well_formed, np_full. simpl. apply repeat_length.
Qed.

(** ** The index a reducer reads *)

Lemma insert_axis_map (axis ndim i : nat) (idx : list nat) :
  axis < ndim -> length idx = ndim - 1 ->
  map (fun k => if k <? axis then nth k idx 0
                else if k =? axis then i
                else nth (k - 1) idx 0)
      (seq 0 ndim)
  = insert_axis axis i idx.
Proof.
  intros Ha Hlen. unfold insert_axis.
  assert (Hf : length (firstn axis idx) = axis).
  { rewrite length_firstn. lia. }
  apply (nth_ext _ _ 0 0).
  - rewrite length_map, length_seq, length_app, Hf. simpl.
    rewrite length_skipn. lia.
  - intros k Hk. rewrite length_map, length_seq in Hk.
    rewrite (nth_map_seq _ ndim k 0 Hk).
    destruct (k <? axis) eqn:E1.
    + apply Nat.ltb_lt in E1. rewrite app_nth1 by lia.
      rewrite nth_firstn. apply Nat.ltb_lt in E1. rewrite E1. reflexivity.
    + apply Nat.ltb_ge in E1. rewrite app_nth2 by lia. rewrite Hf.
      destruct (k =? axis) eqn:E2.
      * apply Nat.eqb_eq in E2. subst k. rewrite Nat.sub_diag. reflexivity.
      * apply Nat.eqb_neq in E2.
        destruct (k - axis) as [|d] eqn:Ed; [lia|]. simpl.
        rewrite nth_skipn. f_equal. lia.
Qed.

Lemma insert_axis_in_bounds (axis i : nat) (s idx : list nat) :
  axis < length s ->
  in_boundsb idx (remove_axis axis s) = true ->
  i < nth axis s 0 ->
  in_boundsb (insert_axis axis i idx) s = true.
Proof.
  intros Ha Hb Hi.
  pose proof (in_boundsb_length _ _ Hb) as Hlen.
  rewrite remove_axis_length in Hlen.
  rewrite <- (insert_axis_map axis (length s) i idx Ha Hlen).
  apply arr_index_in_bounds; assumption.
Qed.

(** ** The loops of a generated reducer *)

Section ReducerComputes.
Context {A : Type} `{Scalar A}.

Lemma update_cell_spec (upd : stmt) (x res : ndarray A)
    (res_idx arr_idx : list nat) (i : nat) :
  well_formed x -> well_formed res ->
  in_boundsb res_idx (shape res) = true ->
  in_boundsb arr_idx (shape x) = true ->
  exists acc operand res',
    cell res res_idx = Some acc
    /\ getitem x arr_idx = Ok operand
    /\ update_cell upd x res res_idx arr_idx i = Ok res'
    /\ shape res' = shape res
    /\ well_formed res'
    /\ cell res' res_idx = Some (exec_stmt acc operand i upd)
    /\ forall j, j <> ravel (shape res) res_idx ->
                 nth_error (data res') j = nth_error (data res) j.
Proof.
  intros Hx Hres Hbr Hbx.
  destruct (getitem_ok res res_idx Hres Hbr) as [acc Eacc].
  destruct (getitem_ok x arr_idx Hx Hbx) as [operand Eop].
  pose proof (ravel_bound _ _ Hbr) as Hlt. rewrite <- Hres in Hlt.
  destruct (list_set_ok (data res) (ravel (shape res) res_idx)
              (exec_stmt acc operand i upd) Hlt) as [d [Ed Hd]].
  destruct (list_set_spec _ _ _ _ Ed) as [_ [Hk Ho]].
  exists acc, operand, (mk_ndarray (shape res) d).
  split; [apply getitem_cell; exact Eacc|]. split; [exact Eop|].
  split.
  { unfold update_cell. rewrite Eacc, Eop. cbn [bind].
    unfold setitem. rewrite Hbr, Ed. reflexivity. }
  split; [reflexivity|]. split.
  { unfold well_formed. simpl. rewrite Hd. exact Hres. }
  split; [exact Hk | exact Ho].
Qed.

Variable upd : stmt.
Variable x : ndarray A.
Variable axis : nat.
Hypothesis Hx : well_formed x.
Hypothesis Haxis : axis < length (shape x).

(** The body of the inner loop of the generated reducer. *)
Let inner (idx_arr : list nat) (res : ndarray A) (i : nat) :=
  res_idx <- eval_indices (map IArr (seq 0 (length (shape x) - 1))) idx_arr i ;;
  arr_idx <- eval_indices (map (arr_index_term axis)
                                (seq 0 (length (shape x)))) idx_arr i ;;
  update_cell upd x res res_idx arr_idx i.

Lemma reduce_inner_loop (idx : list nat) :
  in_boundsb idx (remove_axis axis (shape x)) = true ->
  forall k i0 res acc,
    i0 + k <= nth axis (shape x) 0 ->
    shape res = remove_axis axis (shape x) -> well_formed res ->
    cell res idx = Some acc ->
    exists xs res',
      mapM (fun i => getitem x (insert_axis axis i idx)) (seq i0 k) = Ok xs
      /\ foldM (inner idx) (seq i0 k) res = Ok res'
      /\ shape res' = remove_axis axis (shape x)
      /\ well_formed res'
      /\ cell res' idx = Some (fold_update upd acc i0 xs)
      /\ forall j, j <> ravel (remove_axis axis (shape x)) idx ->
                   nth_error (data res') j = nth_error (data res) j.
Proof.
  intros Hb.
  pose proof (in_boundsb_length _ _ Hb) as Hlen.
  rewrite remove_axis_length in Hlen.
  induction k as [|k IH]; intros i0 res acc Hk Hs Hres Hacc.
  - exists [], res. simpl. repeat split; try assumption.
  - destruct (update_cell_spec upd x res idx (insert_axis axis i0 idx) i0)
      as [acc' [operand [res1 [Hc [Eop [Eup [Hs1 [Hw1 [Hc1 Ho1]]]]]]]]].
    + exact Hx.
    + exact Hres.
    + rewrite Hs. exact Hb.
    + apply insert_axis_in_bounds; [exact Haxis | exact Hb | lia].
    + assert (acc' = acc) by congruence. subst acc'.
      destruct (IH (S i0) res1 (exec_stmt acc operand i0 upd))
        as [xs [res' [Exs [Eloop [Hs' [Hw' [Hc' Ho']]]]]]].
      * lia.
      * congruence.
      * exact Hw1.
      * exact Hc1.
      * exists (operand :: xs), res'.
        split.
        { cbn [seq mapM]. rewrite Eop. cbn [bind]. rewrite Exs. reflexivity. }
        split.
        { cbn [seq foldM]. unfold inner at 1.
          rewrite <- Hlen at 1. rewrite eval_res_indices. cbn [bind].
          rewrite (eval_arr_indices axis (length (shape x)) idx i0 Haxis Hlen).
          cbn [bind].
          rewrite (insert_axis_map axis (length (shape x)) i0 idx Haxis Hlen).
          rewrite Eup. cbn [bind]. exact Eloop. }
        split; [exact Hs'|]. split; [exact Hw'|]. split; [exact Hc'|].
        intros j Hj. rewrite (Ho' j Hj). apply Ho1. rewrite Hs. exact Hj.
Qed.

Lemma reduce_outer_loop (L : list (list nat)) :
  Forall (fun idx => in_boundsb idx (remove_axis axis (shape x)) = true) L ->
  NoDup L ->
  forall res,
    shape res = remove_axis axis (shape x) -> well_formed res ->
    exists res',
      foldM (fun res idx_arr =>
               foldM (inner idx_arr) (seq 0 (nth axis (shape x) 0)) res)
            L res = Ok res'
      /\ shape res' = remove_axis axis (shape x)
      /\ well_formed res'
      /\ (forall idx, In idx L ->
            exists acc xs,
              cell res idx = Some acc
              /\ axis_slice x axis idx = Ok xs
              /\ cell res' idx = Some (fold_update upd acc 0 xs))
      /\ (forall idx, in_boundsb idx (remove_axis axis (shape x)) = true ->
                      ~ In idx L -> cell res' idx = cell res idx).
Proof.
  induction L as [|idx0 L IH]; intros HL Hnd res Hs Hres.
  - exists res. simpl. split; [reflexivity|]. split; [exact Hs|].
    split; [exact Hres|]. split; [intros idx []|]. intros; reflexivity.
  - inversion HL as [|? ? Hb0 HL']; subst.
    inversion Hnd as [|? ? Hnot Hnd']; subst.
    assert (Hc0 : exists acc, cell res idx0 = Some acc).
    { destruct (getitem_ok res idx0 Hres) as [acc Eacc].
      - rewrite Hs. exact Hb0.
      - exists acc. apply getitem_cell. exact Eacc. }
    destruct Hc0 as [acc0 Hacc0].
    destruct (reduce_inner_loop idx0 Hb0 (nth axis (shape x) 0) 0 res acc0)
      as [xs [res1 [Exs [Eloop [Hs1 [Hw1 [Hc1 Ho1]]]]]]];
      [lia | exact Hs | exact Hres | exact Hacc0 |].
    destruct (IH HL' Hnd' res1 Hs1 Hw1) as [res' [Eres [Hs' [Hw' [Hin Hout]]]]].
    assert (Hother : forall idx,
               in_boundsb idx (remove_axis axis (shape x)) = true ->
               idx <> idx0 -> cell res1 idx = cell res idx).
    { intros idx Hb Hne. unfold cell. rewrite Hs1, Hs. apply Ho1.
      intros E. apply Hne. apply (ravel_injective _ _ _ Hb Hb0 E). }
    exists res'. split.
    { cbn [foldM]. rewrite Eloop. cbn [bind]. exact Eres. }
    split; [exact Hs'|]. split; [exact Hw'|]. split.
    + intros idx [<-|Hidx].
      * exists acc0, xs. split; [exact Hacc0|]. split; [exact Exs|].
        rewrite (Hout idx0 Hb0 Hnot). exact Hc1.
      * destruct (Hin idx Hidx) as [acc [ys [Hacc [Eys Hc]]]].
        exists acc, ys. split; [|split; assumption].
        rewrite <- Hother; [exact Hacc | |].
        -- rewrite Forall_forall in HL'. apply HL'. exact Hidx.
        -- intros ->. contradiction.
    + intros idx Hb Hnin.
      rewrite (Hout idx Hb); [|intros Hi; apply Hnin; right; exact Hi].
      apply Hother; [exact Hb|]. intros ->. apply Hnin. left. reflexivity.
Qed.

(** What the reducer for several dimensions leaves in each cell of its
    result: the update statement run, from the identity, on the elements of
    the input along the reduced axis. *)
Lemma run_reduceND_cells (ident : id_literal) (dt : np_dtype)
    (keepdims : bool) :
  exists res,
    run_reducer
      (ReduceND axis (length (shape x)) ident dt
         (map IArr (seq 0 (length (shape x) - 1)))
         (map (arr_index_term axis) (seq 0 (length (shape x)))) upd keepdims)
      (VArray x)
    = Ok (VArray (if keepdims then np_expand_dims res axis else res))
    /\ shape res = remove_axis axis (shape x)
    /\ well_formed res
    /\ forall idx,
         in_boundsb idx (remove_axis axis (shape x)) = true ->
         exists xs,
           axis_slice x axis idx = Ok xs
           /\ cell res idx = Some (fold_update upd (s_of_literal ident) 0 xs).
Proof.
  unfold run_reducer.
  rewrite (res_shape_ok axis (shape x) Haxis). cbn [bind].
  rewrite (nth_error_nth' (shape x) 0 Haxis). cbn [of_option bind].
  destruct (reduce_outer_loop (ndindex (remove_axis axis (shape x))))
    with (res := np_full (remove_axis axis (shape x)) (s_of_literal ident))
    as [res [Eres [Hs [Hw [Hin _]]]]].
  - apply Forall_forall. intros idx Hi. apply ndindex_in_bounds. exact Hi.
  - apply ndindex_NoDup.
  - reflexivity.
  - apply full_well_formed.
  - exists res. split.
    { unfold inner in Eres. rewrite Eres. reflexivity. }
    split; [exact Hs|]. split; [exact Hw|].
    intros idx Hb.
    destruct (Hin idx (ndindex_complete _ _ Hb)) as [acc [xs [Hacc [Exs Hc]]]].
    rewrite (cell_full _ _ (s_of_literal ident) Hb) in Hacc.
    inversion Hacc; subst acc.
    exists xs. split; assumption.
Qed.
End ReducerComputes.
(** ** The one-dimensional reducer *)

Lemma skipn_nth_error {B : Type} (l : list B) (i : nat) (v : B) :
  nth_error l i = Some v -> skipn i l = v :: skipn (S i) l.
Proof.
  revert i. induction l as [|y l IH]; intros [|i] E; simpl in E;
    try discriminate.
  - inversion E. reflexivity.
  - simpl. apply IH. exact E.
Qed.

Section VectorReducer.
Context {A : Type} `{Scalar A}.
Variable upd : stmt.
Variable x : ndarray A.
Variable n : nat.
Hypothesis Hs : shape x = [n].
Hypothesis Hd : length (data x) = n.

Lemma getitem_vector (i : nat) (v : A) :
  nth_error (data x) i = Some v -> getitem x [i] = Ok v.
Proof.
  intros E. unfold getitem. rewrite Hs. simpl.
  assert (Hi : i < n).
  { rewrite <- Hd. apply nth_error_Some. congruence. }
  apply Nat.ltb_lt in Hi. rewrite Hi. simpl.
  rewrite Nat.mul_1_r, Nat.add_0_r, E. reflexivity.
Qed.

Lemma vector_slice (k : nat) :
  forall i0, i0 + k <= n ->
    mapM (fun i => getitem x [i]) (seq i0 k)
    = Ok (firstn k (skipn i0 (data x))).
Proof.
  induction k as [|k IH]; intros i0 Hk; [reflexivity|].
  destruct (nth_error (data x) i0) as [v|] eqn:E.
  - cbn [seq mapM]. rewrite (getitem_vector i0 v E). cbn [bind].
    rewrite (IH (S i0)) by lia. cbn [bind].
    rewrite (skipn_nth_error _ _ _ E). reflexivity.
  - apply nth_error_None in E. lia.
Qed.

Lemma reduce1D_loop (k : nat) :
  forall i0 acc, i0 + k <= n ->
    foldM (fun res i => update_cell upd x res [0] [i] i) (seq i0 k)
          (mk_ndarray [1] [acc])
    = Ok (mk_ndarray [1]
            [fold_update upd acc i0 (firstn k (skipn i0 (data x)))]).
Proof.
  induction k as [|k IH]; intros i0 acc Hk; [reflexivity|].
  destruct (nth_error (data x) i0) as [v|] eqn:E.
  - cbn [seq foldM]. unfold update_cell at 1.
    rewrite (getitem_vector i0 v E).
    change (getitem (mk_ndarray [1] [acc]) [0]) with (Ok acc).
    cbn [bind].
    change (setitem (mk_ndarray [1] [acc]) [0] (exec_stmt acc v i0 upd))
      with (Ok (mk_ndarray [1] [exec_stmt acc v i0 upd])).
    cbn [bind]. rewrite (IH (S i0)) by lia.
    rewrite (skipn_nth_error _ _ _ E). reflexivity.
  - apply nth_error_None in E. lia.
Qed.

Lemma run_reduce1D_fold (ident : id_literal) (dt : np_dtype) (keepdims : bool) :
  run_reducer (Reduce1D 0 ident dt upd keepdims) (VArray x)
  = Ok (if keepdims
        then VArray (mk_ndarray [1]
                       [fold_update upd (s_of_literal ident) 0 (data x)])
        else VScalar (fold_update upd (s_of_literal ident) 0 (data x))).
Proof.
  unfold run_reducer. rewrite Hs. cbn [nth_error of_option bind].
  change (np_full [1] (s_of_literal ident))
    with (mk_ndarray [1] [s_of_literal ident]).
  rewrite (reduce1D_loop n 0 (s_of_literal ident)) by lia.
  cbn [bind skipn]. rewrite <- Hd, firstn_all.
  destruct keepdims; reflexivity.
Qed.
End VectorReducer.

(** ** Every rank at once *)

Lemma vector_shape {B : Type} (x : ndarray B) :
  well_formed x -> ndim_of x = 1 ->
  exists n, shape x = [n] /\ length (data x) = n.
Proof.
  unfold well_formed, ndim_of. intros Hw Hr.
  destruct (shape x) as [|n [|m s]]; try discriminate Hr.
  exists n. split; [reflexivity|]. rewrite Hw. simpl. lia.
Qed.

Lemma create_axis_reducer_update (sop : ScalarOp) (identity : xnum) (ax : Z)
    (ndim : nat) (dtype : np_dtype) (keepdims : bool) (r : reducer_src) :
  create_axis_reducer sop identity ax ndim dtype keepdims = Ok r ->
  exists a upd idx_text arr_text,
    normalize_axis_index ax ndim = Ok a
    /\ scalar_in_place_fn sop idx_text "res" arr_text = Ok upd
    /\ r = if 1 <? ndim
           then ReduceND a ndim (identity_literal identity) dtype
                  (map IArr (seq 0 (ndim - 1)))
                  (map (arr_index_term a) (seq 0 ndim)) upd keepdims
           else Reduce1D a (identity_literal identity) dtype upd keepdims.
Proof.
  unfold create_axis_reducer. intros E.
  apply bind_ok in E. destruct E as [a [Ha E]].
  pose proof (normalize_axis_index_bound _ _ _ Ha) as Hlt.
  exists a. destruct (1 <? ndim).
  - rewrite (index_lists_spec a ndim Hlt) in E.
    apply bind_ok in E. destruct E as [upd [Hupd E]].
    exists upd. eexists. eexists. split; [exact Ha|].
    split; [exact Hupd|]. inversion E. reflexivity.
  - apply bind_ok in E. destruct E as [upd [Hupd E]].
    exists upd. eexists. eexists. split; [exact Ha|].
    split; [exact Hupd|]. inversion E. reflexivity.
Qed.

(** A reducer built without [keepdims], run on a well-formed array of the
    rank it was built for: each cell of the result holds the update
    statement run, from the identity, on the input's elements along the
    reduced axis. A scalar result is read as an array without
    dimensions. *)
Lemma built_reducer_cells {A : Type} `{Scalar A} (sop : ScalarOp)
    (identity : xnum) (ax : Z) (ndim : nat) (dtype : np_dtype)
    (r : reducer_src) (x : ndarray A) :
  create_axis_reducer sop identity ax ndim dtype false = Ok r ->
  well_formed x -> ndim_of x = ndim ->
  exists a upd idx_text arr_text y,
    normalize_axis_index ax ndim = Ok a
    /\ scalar_in_place_fn sop idx_text "res" arr_text = Ok upd
    /\ run_reducer r (VArray x) = Ok y
    /\ shape (np_asarray y) = remove_axis a (shape x)
    /\ well_formed (np_asarray y)
    /\ forall idx,
         in_boundsb idx (remove_axis a (shape x)) = true ->
         exists xs,
           axis_slice x a idx = Ok xs
           /\ cell (np_asarray y) idx
              = Some (fold_update upd (s_of_literal (identity_literal identity))
                        0 xs).
Proof.
  intros Hr Hw Hrank. unfold ndim_of in Hrank.
  destruct (create_axis_reducer_update _ _ _ _ _ _ _ Hr)
    as [a [upd [it [at_ [Ha [Hupd ->]]]]]].
  pose proof (normalize_axis_index_bound _ _ _ Ha) as Hlt.
  exists a, upd, it, at_.
  destruct (1 <? ndim) eqn:E.
  - subst ndim.
    destruct (run_reduceND_cells upd x a Hw Hlt (identity_literal identity)
                dtype false) as [res [Erun [Hs [Hres Hcells]]]].
    exists (VArray res). split; [exact Ha|]. split; [exact Hupd|].
    split; [exact Erun|]. split; [exact Hs|]. split; [exact Hres|].
    exact Hcells.
  - apply Nat.ltb_ge in E. assert (Hone : length (shape x) = 1) by lia.
    assert (a = 0) by lia. subst a.
    destruct (vector_shape x Hw Hone) as [n [Hs Hd]].
    exists (VScalar (fold_update upd (s_of_literal (identity_literal identity))
                       0 (data x))).
    split; [exact Ha|]. split; [exact Hupd|]. split.
    { rewrite (run_reduce1D_fold upd x n Hs Hd). reflexivity. }
    split; [rewrite Hs; reflexivity|]. split; [reflexivity|].
    intros idx Hb. rewrite Hs in Hb.
    destruct idx; [|discriminate Hb].
    exists (data x). split; [|reflexivity].
    unfold axis_slice. rewrite Hs. cbn [nth insert_axis firstn skipn app].
    rewrite (vector_slice x n Hs Hd n 0) by lia.
    cbn [skipn]. rewrite <- Hd, firstn_all. reflexivity.
Qed.
(** ** What the single-axis reducer computes *)

Lemma cells_all_equal {B : Type} (a : ndarray B) (v : B) :
  well_formed a ->
  (forall idx, in_boundsb idx (shape a) = true -> cell a idx = Some v) ->
  data a = repeat v (size_of (shape a)).
Proof.
  intros Hw Hc. apply nth_error_extensional. intros k.
  destruct (Nat.lt_ge_cases k (size_of (shape a))) as [Hk|Hk].
  - destruct (ravel_ndindex (shape a) k Hk) as [idx [Hb Hr]].
    specialize (Hc idx Hb). unfold cell in Hc. rewrite Hr in Hc.
    rewrite Hc, nth_error_repeat by exact Hk. reflexivity.
  - transitivity (@None B).
    + apply nth_error_None. rewrite Hw. exact Hk.
    + symmetry. apply nth_error_None. rewrite repeat_length. exact Hk.
Qed.

(** X1. A reducer built by [create_axis_reducer] without [keepdims], run on
    a well-formed array of the rank it was built for, returns a value whose
    shape is the input's without the reduced axis; each of its cells holds
    the operator's update statement run from the identity over the input's
    elements along that axis, in order; and when that axis has length 0
    every cell holds the identity. *)
Theorem axis_reducer_computes {A : Type} `{Scalar A} (sop : ScalarOp)
    (identity : xnum) (ax : Z) (ndim : nat) (dtype : np_dtype)
    (r : reducer_src) (x : ndarray A)
    (Hbuild : create_axis_reducer sop identity ax ndim dtype false = Ok r)
    (Hx : well_formed x)
    (Hrank : ndim_of x = ndim) :
  exists a upd idx_text arr_text y,
    normalize_axis_index ax ndim = Ok a
    /\ scalar_in_place_fn sop idx_text "res" arr_text = Ok upd
    /\ run_reducer r (VArray x) = Ok y
    /\ shape (np_asarray y) = remove_axis a (shape x)
    /\ (forall idx,
          in_boundsb idx (remove_axis a (shape x)) = true ->
          exists xs,
            axis_slice x a idx = Ok xs
            /\ length xs = nth a (shape x) 0
            /\ cell (np_asarray y) idx
               = Some (fold_update upd
                         (s_of_literal (identity_literal identity)) 0 xs))
    /\ (nth a (shape x) 0 = 0 ->
        data (np_asarray y)
        = repeat (s_of_literal (identity_literal identity))
                 (size_of (remove_axis a (shape x)))).
Proof.
  destruct (built_reducer_cells sop identity ax ndim dtype r x Hbuild Hx Hrank)
    as [a [upd [it [at_ [y [Ha [Hupd [Erun [Hs [Hw Hcells]]]]]]]]]].
  exists a, upd, it, at_, y.
  split; [exact Ha|]. split; [exact Hupd|]. split; [exact Erun|].
  split; [exact Hs|]. split.
  - intros idx Hb. destruct (Hcells idx Hb) as [xs [Exs Hc]].
    exists xs. split; [exact Exs|]. split; [|exact Hc].
    unfold axis_slice in Exs. apply mapM_length in Exs.
    rewrite length_seq in Exs. exact Exs.
  - intros Hz. rewrite <- Hs. apply cells_all_equal; [exact Hw|].
    intros idx Hb. rewrite Hs in Hb.
    destruct (Hcells idx Hb) as [xs [Exs Hc]].
    unfold axis_slice in Exs. rewrite Hz in Exs. simpl in Exs.
    inversion Exs; subst xs. exact Hc.
Qed.

Lemma axis_reducer_computes_witness :
  let x := mk_ndarray [2; 2] [Num 1; Num 2; Num 3; Num 4] in
  well_formed x
  /\ exists r,
       create_axis_reducer Mul (Num 1) (-2) 2 float64 false = Ok r
       /\ exists y,
            run_reducer r (VArray x) = Ok y
            /\ shape (np_asarray y) = [2].
Proof.
  intros x. split; [reflexivity|].
  eexists. split; [reflexivity|].
  match goal with
  | |- exists y, run_reducer ?r _ = _ /\ _ =>
      destruct (axis_reducer_computes Mul (Num 1) (-2)%Z 2 float64 r x
                  eq_refl eq_refl eq_refl)
        as [a [upd [it [at_ [y [Ha [_ [Erun [Hs _]]]]]]]]]
  end.
  exists y. split; [exact Erun|].
  inversion Ha; subst a. exact Hs.
Defined.

(** ** Keeping the reduced dimension *)

Lemma remove_axis_split (a : nat) (s : list nat) :
  a < length s -> remove_axis a s = firstn a s ++ skipn (S a) s.
Proof.
  intros Ha. unfold remove_axis.
  assert (Hf : length (firstn a s) = a) by (rewrite length_firstn; lia).
  apply (nth_ext _ _ 0 0).
  - rewrite length_map, length_seq, length_app, Hf, length_skipn. lia.
  - intros k Hk. rewrite length_map, length_seq in Hk.
    rewrite (nth_map_seq _ (length s - 1) k 0 Hk).
    destruct (k <? a) eqn:E.
    + apply Nat.ltb_lt in E. rewrite app_nth1 by lia.
      rewrite nth_firstn. apply Nat.ltb_lt in E. rewrite E. reflexivity.
    + apply Nat.ltb_ge in E. rewrite app_nth2 by lia. rewrite Hf.
      rewrite nth_skipn. f_equal. lia.
Qed.

Lemma expand_removed_axis (a : nat) (s : list nat) :
  a < length s ->
  firstn a (remove_axis a s) ++ 1 :: skipn a (remove_axis a s)
  = firstn a s ++ 1 :: skipn (S a) s.
Proof.
  intros Ha. rewrite (remove_axis_split a s Ha).
  assert (Hf : length (firstn a s) = a) by (rewrite length_firstn; lia).
  rewrite firstn_app, Hf, Nat.sub_diag, firstn_O, app_nil_r.
  rewrite skipn_app, Hf, Nat.sub_diag, skipn_O.
  rewrite <- Hf at 1. rewrite firstn_all.
  rewrite <- Hf at 2. rewrite skipn_all. reflexivity.
Qed.

Lemma run_reduceND_keepdims {A : Type} `{Scalar A} (a nd : nat)
    (ident : id_literal) (dt : np_dtype) (ri ai : list index_term)
    (upd : stmt) (x res : ndarray A) :
  run_reducer (ReduceND a nd ident dt ri ai upd false) (VArray x)
  = Ok (VArray res) ->
  run_reducer (ReduceND a nd ident dt ri ai upd true) (VArray x)
  = Ok (VArray (np_expand_dims res a)).
Proof.
  unfold run_reducer.
  destruct (res_shape_tuple_ctor _ _ _) as [rs|e]; cbn [bind];
    [|discriminate].
  destruct (of_option _ _) as [n|e]; cbn [bind]; [|discriminate].
  destruct (foldM _ _ _) as [z|e]; cbn [bind]; [|discriminate].
  intros E. inversion E; subst. reflexivity.
Qed.

(** X2. A reducer built with [keepdims] returns an array with the storage
    of the result of the reducer built without it, shaped as the input with
    length 1 at the reduced axis; so its rank is the input's. *)
Theorem keepdims_reducer {A : Type} `{Scalar A} (sop : ScalarOp)
    (identity : xnum) (ax : Z) (ndim : nat) (dtype : np_dtype)
    (r1 : reducer_src) (x : ndarray A)
    (Hbuild : create_axis_reducer sop identity ax ndim dtype true = Ok r1)
    (Hx : well_formed x)
    (Hrank : ndim_of x = ndim) :
  exists a r0 y0 y1,
    normalize_axis_index ax ndim = Ok a
    /\ create_axis_reducer sop identity ax ndim dtype false = Ok r0
    /\ run_reducer r0 (VArray x) = Ok y0
    /\ run_reducer r1 (VArray x) = Ok (VArray y1)
    /\ data y1 = value_data y0
    /\ shape y1 = firstn a (shape x) ++ 1 :: skipn (S a) (shape x)
    /\ ndim_of y1 = ndim.
Proof.
  destruct (create_axis_reducer_update _ _ _ _ _ _ _ Hbuild)
    as [a [upd [it [at_ [Ha [Hupd Hr1]]]]]].
  pose proof (normalize_axis_index_bound _ _ _ Ha) as Hlt.
  unfold ndim_of in Hrank.
  assert (Hr0 : exists r0,
             create_axis_reducer sop identity ax ndim dtype false = Ok r0
             /\ r0 = if 1 <? ndim
                    then ReduceND a ndim (identity_literal identity) dtype
                           (map IArr (seq 0 (ndim - 1)))
                           (map (arr_index_term a) (seq 0 ndim)) upd false
                    else Reduce1D a (identity_literal identity) dtype upd false).
  { clear Hupd. revert Hbuild. rewrite Hr1. unfold create_axis_reducer.
    rewrite Ha.
    cbn [bind]. destruct (1 <? ndim).
    - destruct (index_lists a ndim) as [[ri ai] c].
      destruct (scalar_in_place_fn sop _ _ _) as [u|e]; cbn [bind];
        [|discriminate].
      intros E. inversion E; subst. eexists. split; reflexivity.
    - destruct (scalar_in_place_fn sop _ _ _) as [u|e]; cbn [bind];
        [|discriminate].
      intros E. inversion E; subst. eexists. split; reflexivity. }
  destruct Hr0 as [r0 [Hb0 Hr0]].
  exists a, r0. subst r0 r1.
  assert (Hlen : length (firstn a (shape x) ++ 1 :: skipn (S a) (shape x))
                 = ndim).
  { rewrite length_app, length_firstn. cbn [length].
    rewrite length_skipn. lia. }
  destruct (1 <? ndim) eqn:E.
  - subst ndim.
    destruct (run_reduceND_cells upd x a Hx Hlt (identity_literal identity)
                dtype false) as [res [Erun [Hs [Hres Hcells]]]].
    pose proof (run_reduceND_keepdims _ _ _ _ _ _ _ _ _ Erun) as Erun'.
    exists (VArray res), (np_expand_dims res a).
    split; [exact Ha|]. split; [exact Hb0|]. split; [exact Erun|].
    split; [exact Erun'|]. split; [reflexivity|].
    split.
    + unfold np_expand_dims. cbn [shape]. rewrite Hs.
      apply expand_removed_axis. exact Hlt.
    + unfold ndim_of, np_expand_dims. cbn [shape]. rewrite Hs.
      rewrite (expand_removed_axis a (shape x) Hlt). exact Hlen.
  - apply Nat.ltb_ge in E. assert (Hone : length (shape x) = 1) by lia.
    assert (a = 0) by lia. subst a.
    destruct (vector_shape x Hx Hone) as [n [Hs Hd]].
    exists (VScalar (fold_update upd (s_of_literal (identity_literal identity))
                       0 (data x))),
           (mk_ndarray [1]
              [fold_update upd (s_of_literal (identity_literal identity))
                 0 (data x)]).
    split; [exact Ha|]. split; [exact Hb0|].
    split; [rewrite (run_reduce1D_fold upd x n Hs Hd); reflexivity|].
    split; [rewrite (run_reduce1D_fold upd x n Hs Hd); reflexivity|].
    split; [reflexivity|]. split; [rewrite Hs; reflexivity|].
    unfold ndim_of. simpl. lia.
Qed.

Lemma keepdims_reducer_witness :
  let x := mk_ndarray [2; 3] [Num 1; Num 2; Num 3; Num 4; Num 5; Num 6] in
  well_formed x
  /\ exists r1,
       create_axis_reducer Add (Num 0) 1 2 float64 true = Ok r1
       /\ exists y1,
            run_reducer r1 (VArray x) = Ok (VArray y1)
            /\ shape y1 = [2; 1].
Proof.
  intros x. split; [reflexivity|].
  eexists. split; [reflexivity|].
  match goal with
  | |- exists y, run_reducer ?r _ = _ /\ _ =>
      destruct (keepdims_reducer Add (Num 0) 1%Z 2 float64 r x
                  eq_refl eq_refl eq_refl)
        as [a [r0 [y0 [y1 [Ha [_ [_ [Erun [_ [Hs _]]]]]]]]]]
  end.
  exists y1. split; [exact Erun|].
  inversion Ha; subst a. exact Hs.
Defined.
(** ** Sums *)

Lemma getitem_In {B : Type} (a : ndarray B) (idx : list nat) (v : B) :
  getitem a idx = Ok v -> In v (data a).
Proof.
  intros E. apply getitem_cell in E. unfold cell in E.
  apply (nth_error_In _ _ E).
Qed.

Lemma mapM_In {B C : Type} (f : B -> result C) (l : list B) (r : list C) :
  mapM f l = Ok r ->
  forall c, In c r -> exists b, In b l /\ f b = Ok c.
Proof.
  revert r. induction l as [|b l IH]; intros r E c Hc; simpl in E.
  - inversion E; subst. destruct Hc.
  - apply bind_ok in E. destruct E as [c0 [E0 E]].
    apply bind_ok in E. destruct E as [cs [Ecs E]].
    inversion E; subst. destruct Hc as [<-|Hc].
    + exists b. split; [left; reflexivity | exact E0].
    + destruct (IH cs Ecs c Hc) as [b' [Hb' Eb']].
      exists b'. split; [right; exact Hb' | exact Eb'].
Qed.

Lemma axis_slice_incl {B : Type} (x : ndarray B) (a : nat) (idx : list nat)
    (xs : list B) :
  axis_slice x a idx = Ok xs -> incl xs (data x).
Proof.
  intros E v Hv. destruct (mapM_In _ _ _ E v Hv) as [i [_ Ei]].
  apply (getitem_In _ _ _ Ei).
Qed.

Lemma incl_map_Num (xs : list xnum) (qd : list Q) :
  incl xs (map Num qd) -> exists qs, xs = map Num qs.
Proof.
  induction xs as [|v xs IH]; intros Hi.
  - exists []. reflexivity.
  - destruct IH as [qs ->].
    { intros w Hw. apply Hi. right. exact Hw. }
    assert (Hv : In v (map Num qd)) by (apply Hi; left; reflexivity).
    apply in_map_iff in Hv. destruct Hv as [q [<- _]].
    exists (q :: qs). reflexivity.
Qed.

Lemma fold_left_Qplus (qs : list Q) :
  forall a, (fold_left Qplus qs a == a + Qsum qs)%Q.
Proof.
  induction qs as [|q qs IH]; intros a; simpl.
  - ring.
  - rewrite IH. ring.
Qed.

Lemma fold_update_add (upd : stmt) (idx_text arr_text : string) :
  scalar_in_place_fn Add idx_text "res" arr_text = Ok upd ->
  forall qs a i,
    fold_update upd (Num a) i (map Num qs) = Num (fold_left Qplus qs a).
Proof.
  intros E. inversion E; subst upd. clear E.
  induction qs as [|q qs IH]; intros a i; [reflexivity|].
  cbn [map fold_update fold_left]. rewrite <- (IH (a + q)%Q (S i)).
  reflexivity.
Qed.

(** X3. The reducer built for [Add] from a finite identity with a
    floating-point accumulator dtype, run on a well-formed array of finite
    numbers, leaves in each cell of its result the identity plus the sum of
    the input's elements along the reduced axis (in exact arithmetic: the
    rounding of the accumulator is left out; an integer accumulator, which
    wraps, is not covered). *)
Theorem add_reducer_sums (identity : Q) (ax : Z) (ndim : nat)
    (dtype : np_dtype) (r : reducer_src) (x : ndarray xnum) (qd : list Q)
    (Hfloat : dtype_kind dtype = "f"%char)
    (Hbuild : create_axis_reducer Add (Num identity) ax ndim dtype false = Ok r)
    (Hx : well_formed x)
    (Hrank : ndim_of x = ndim)
    (Hfin : data x = map Num qd) :
  exists a y,
    normalize_axis_index ax ndim = Ok a
    /\ run_reducer r (VArray x) = Ok y
    /\ shape (np_asarray y) = remove_axis a (shape x)
    /\ forall idx,
         in_boundsb idx (remove_axis a (shape x)) = true ->
         exists qs m,
           axis_slice x a idx = Ok (map Num qs)
           /\ cell (np_asarray y) idx = Some (Num m)
           /\ (m == identity + Qsum qs)%Q.
Proof.
  destruct (built_reducer_cells Add (Num identity) ax ndim dtype r x
              Hbuild Hx Hrank)
    as [a [upd [it [at_ [y [Ha [Hupd [Erun [Hs [_ Hcells]]]]]]]]]].
  exists a, y. split; [exact Ha|]. split; [exact Erun|]. split; [exact Hs|].
  intros idx Hb. destruct (Hcells idx Hb) as [xs [Exs Hc]].
  pose proof (axis_slice_incl _ _ _ _ Exs) as Hincl. rewrite Hfin in Hincl.
  destruct (incl_map_Num xs qd Hincl) as [qs ->].
  exists qs, (fold_left Qplus qs identity).
  split; [exact Exs|]. split.
  - rewrite Hc. f_equal.
    apply (fold_update_add upd it at_ Hupd qs identity 0).
  - apply fold_left_Qplus.
Qed.

Lemma add_reducer_sums_witness :
  let x := mk_ndarray [2; 2] [Num 1; Num 2; Num 3; Num 4] in
  dtype_kind float64 = "f"%char
  /\ well_formed x
  /\ data x = map Num [1; 2; 3; 4]%Q
  /\ exists r,
       create_axis_reducer Add (Num 0) 0 2 float64 false = Ok r
       /\ exists y,
            run_reducer r (VArray x) = Ok y
            /\ shape (np_asarray y) = [2].
Proof.
  intros x. split; [reflexivity|]. split; [reflexivity|].
  split; [reflexivity|].
  eexists. split; [reflexivity|].
  match goal with
  | |- exists y, run_reducer ?r _ = _ /\ _ =>
      destruct (add_reducer_sums 0 0%Z 2 float64 r x [1; 2; 3; 4]%Q
                  eq_refl eq_refl eq_refl eq_refl eq_refl)
        as [a [y [Ha [Erun [Hs _]]]]]
  end.
  exists y. split; [exact Erun|].
  inversion Ha; subst a. exact Hs.
Defined.

(** ** Maxima and minima *)

Lemma xltb_nan_r (a : xnum) : xltb a NaN = false.
Proof. destruct a; reflexivity. Qed.

Lemma xltb_irrefl (a : xnum) : xltb a a = false.
Proof.
  destruct a as [q| | |]; simpl; try reflexivity.
  apply negb_false_iff. apply Qle_bool_iff. apply Qle_refl.
Qed.

Lemma xltb_asym (a b : xnum) : xltb a b = true -> xltb b a = false.
Proof.
  destruct a as [p| | |], b as [q| | |]; simpl; try reflexivity;
    try discriminate.
  intros E. apply negb_true_iff in E. apply negb_false_iff.
  apply Qle_bool_iff.
  destruct (Qlt_le_dec p q) as [Hlt|Hle].
  - apply Qlt_le_weak. exact Hlt.
  - apply Qle_bool_iff in Hle. congruence.
Qed.

(** [<=] read as "not greater" is transitive through a number that is not
    NaN. *)
Lemma xltb_ge_trans (a b c : xnum) :
  b <> NaN -> xltb b a = false -> xltb c b = false -> xltb c a = false.
Proof.
  destruct a as [p| | |], b as [q| | |], c as [t| | |]; simpl;
    try reflexivity; try discriminate; try congruence.
  intros _ E1 E2.
  apply negb_false_iff in E1. apply negb_false_iff in E2.
  apply negb_false_iff.
  apply Qle_bool_iff in E1. apply Qle_bool_iff in E2. apply Qle_bool_iff.
  apply (Qle_trans _ _ _ E1 E2).
Qed.

Lemma fold_update_max (upd : stmt) (idx_text arr_text : string) :
  scalar_in_place_fn ScalarMaximum idx_text "res" arr_text = Ok upd ->
  forall xs acc i,
    acc <> NaN ->
    let m := fold_update upd acc i xs in
    m <> NaN
    /\ (m = acc \/ In m xs)
    /\ xltb m acc = false
    /\ forall v, In v xs -> xltb m v = false.
Proof.
  intros E. inversion E; subst upd. clear E.
  induction xs as [|v xs IH]; intros acc i Hacc; cbn [fold_update].
  - cbv zeta. split; [exact Hacc|]. split; [left; reflexivity|].
    split; [apply xltb_irrefl|]. intros v [].
  - change (exec_stmt acc v i
              (SIf CLt (ECell "res" idx_text) (EText arr_text)
                 (SAssign "res" idx_text (EText arr_text))))
      with (if xltb acc v then v else acc).
    assert (Hstep : (if xltb acc v then v else acc) <> NaN
                    /\ xltb (if xltb acc v then v else acc) acc = false
                    /\ xltb (if xltb acc v then v else acc) v = false).
    { destruct (xltb acc v) eqn:Elt.
      - split.
        + intros ->. rewrite xltb_nan_r in Elt. discriminate.
        + split; [apply xltb_asym; exact Elt | apply xltb_irrefl].
      - split; [exact Hacc|]. split; [apply xltb_irrefl | exact Elt]. }
    destruct Hstep as [Hn [Hge Hv]].
    destruct (IH (if xltb acc v then v else acc) (S i) Hn)
      as [Hm [Hin [Hle Hall]]].
    cbv zeta. split; [exact Hm|]. split.
    + destruct Hin as [Heq|Hin]; [|right; right; exact Hin].
      rewrite Heq. destruct (xltb acc v); [right; left|left]; reflexivity.
    + split.
      * apply (xltb_ge_trans _ _ _ Hn Hge Hle).
      * intros w [<-|Hw]; [|apply Hall; exact Hw].
        apply (xltb_ge_trans _ _ _ Hn Hv Hle).
Qed.



(** ** The multi-axis reducer: no axes, order of the axes, axis errors *)

Lemma lookup_head {V : Type} (k : string) (v : V) (env : list (string * V)) :
  lookup k ((k, v) :: env) = Some v.
Proof.
  simpl. rewrite String.eqb_refl. reflexivity.
Qed.

Lemma no_axes_builds (sop : ScalarOp) (identity : xnum) (ndim : nat)
    (dtype : np_dtype) (input_name : string) :
  create_multiaxis_reducer sop identity [] ndim dtype input_name
  = Ok (MultiAxis (mk_careduce_src input_name [] input_name [])).
Proof.
  reflexivity.
Qed.

Lemma no_axes_runs {A : Type} `{Scalar A} (input_name : string) (x : value A) :
  run_careduce (MultiAxis (mk_careduce_src input_name [] input_name [])) x
  = Ok x.
Proof.
  unfold run_careduce. cbn [cs_lines foldM bind cs_input_name cs_return].
  rewrite lookup_head. reflexivity.
Qed.

(** X5. Reducing over no axes gives a kernel that returns its input: for a
    node whose scalar operator is one of the registered ones (their names
    make the generated function's name), [numba_funcify_CAReduce] builds,
    when the axis list is empty, or the axis is [None] on an input without
    dimensions, and the identity converts to the accumulator dtype, a
    function with no reduction stage, which returns every input as it
    is. *)
Theorem careduce_no_axes (op : CAReduce) (node : Apply) (input_name : string)
    (in0 out0 : TensorType) (d : np_dtype) (identity : xnum)
    (Hreg : is_registered (scalar_op op) = true)
    (Hin : nth_error (inputs node) 0 = Some in0)
    (Hout : nth_error (outputs node) 0 = Some out0)
    (Hacc : node_acc_dtype op node = Some d)
    (Hid : np_array_scalar (saturate_identity d (scalar_op_identity op)) d
           = Ok identity)
    (Hax : axis op = Some [] \/ (axis op = None /\ t_ndim in0 = 0)) :
  numba_funcify_CAReduce op node input_name
  = Ok (MultiAxis (mk_careduce_src input_name [] input_name []))
  /\ careduce_stages (MultiAxis (mk_careduce_src input_name [] input_name []))
     = []
  /\ forall (A : Type) (S : Scalar A) (x : value A),
       run_careduce (MultiAxis (mk_careduce_src input_name [] input_name [])) x
       = Ok x.
Proof.
  split; [|split].
  - unfold numba_funcify_CAReduce.
    assert (Haxes : match axis op with
                    | None =>
                        in0 <- of_option IndexError (nth_error (inputs node) 0) ;;
                        Ok (map Z.of_nat (seq 0 (t_ndim in0)))
                    | Some axes => Ok axes
                    end = Ok []).
    { destruct Hax as [->|[-> Hz]]; [reflexivity|].
      rewrite Hin. cbn [of_option bind]. rewrite Hz. reflexivity. }
    rewrite Haxes. cbn [bind].
    assert (Hd : match acc_dtype op with
                 | Some d => Ok d
                 | None =>
                     out0 <- of_option IndexError (nth_error (outputs node) 0) ;;
                     Ok (t_dtype out0)
                 end = Ok d).
    { unfold node_acc_dtype in Hacc. destruct (acc_dtype op) as [d'|].
      - inversion Hacc. reflexivity.
      - rewrite Hout in *. simpl in Hacc. inversion Hacc. reflexivity. }
    rewrite Hd. cbn [bind]. rewrite Hid. cbn [bind].
    rewrite Hin, Hout. cbn [of_option bind]. apply no_axes_builds.
  - reflexivity.
  - intros A S x. apply no_axes_runs.
Qed.

Lemma careduce_no_axes_witness :
  let op := mk_CAReduce (Some []) Add (Num 0) None in
  let node := mk_Apply [mk_TensorType float64 2 [None; None]]
                       [mk_TensorType float64 2 [None; None]] in
  let x := VArray (mk_ndarray [1; 2] [Num 1; Num 2]) in
  is_registered (scalar_op op) = true
  /\ exists k,
       numba_funcify_CAReduce op node "x" = Ok k
       /\ run_careduce k x = Ok x.
Proof.
  intros op node x. split; [reflexivity|].
  destruct (careduce_no_axes op node "x" (mk_TensorType float64 2 [None; None])
              (mk_TensorType float64 2 [None; None]) float64 (Num 0)
              eq_refl eq_refl eq_refl eq_refl eq_refl (or_introl eq_refl))
    as [Hb [_ Hrun]].
  eexists. split; [exact Hb|]. apply Hrun.
Defined.

(** *** The order in which the axes are given *)

Lemma strongly_sorted_unique (l1 : list nat) :
  forall l2,
    StronglySorted lt l1 -> StronglySorted lt l2 ->
    (forall a, In a l1 <-> In a l2) -> l1 = l2.
Proof.
  induction l1 as [|h1 t1 IH]; intros [|h2 t2] H1 H2 Hin.
  - reflexivity.
  - exfalso. apply (proj2 (Hin h2)). left. reflexivity.
  - exfalso. apply (proj1 (Hin h1)). left. reflexivity.
  - inversion H1 as [|? ? Ht1 Hh1]; subst.
    inversion H2 as [|? ? Ht2 Hh2]; subst.
    rewrite Forall_forall in Hh1, Hh2.
    assert (h1 = h2).
    { destruct (proj1 (Hin h1) (or_introl eq_refl)) as [E|E1];
        [congruence|].
      destruct (proj2 (Hin h2) (or_introl eq_refl)) as [E|E2];
        [congruence|].
      specialize (Hh1 _ E2). specialize (Hh2 _ E1). lia. }
    subst h2. f_equal. apply IH; [exact Ht1 | exact Ht2|].
    intros a. split; intros Ha.
    + destruct (proj1 (Hin a) (or_intror Ha)) as [E|E]; [|exact E].
      subst a. specialize (Hh1 _ Ha). lia.
    + destruct (proj2 (Hin a) (or_intror Ha)) as [E|E]; [|exact E].
      subst a. specialize (Hh2 _ Ha). lia.
Qed.

Lemma sorted_permutation (l l' : list nat) :
  NoDup l -> Permutation l l' -> sorted l = sorted l'.
Proof.
  intros Hnd Hp.
  assert (Hnd' : NoDup l') by (apply (Permutation_NoDup Hp); exact Hnd).
  apply strongly_sorted_unique.
  - apply sorted_lt. exact Hnd.
  - apply sorted_lt. exact Hnd'.
  - intros a. split; intros Ha.
    + apply (Permutation_in _ (Permutation_sym (sorted_perm l'))).
      apply (Permutation_in _ Hp).
      apply (Permutation_in _ (sorted_perm l)). exact Ha.
    + apply (Permutation_in _ (Permutation_sym (sorted_perm l))).
      apply (Permutation_in _ (Permutation_sym Hp)).
      apply (Permutation_in _ (sorted_perm l')). exact Ha.
Qed.

Lemma create_multiaxis_reducer_several (sop : ScalarOp) (identity : xnum)
    (axes : list Z) (ndim : nat) (dtype : np_dtype) (input_name : string) :
  length axes <> 1 ->
  create_multiaxis_reducer sop identity axes ndim dtype input_name
  = (axes <- normalize_axis_tuple axes ndim ;;
     st <- foldM (multiaxis_step sop identity dtype)
                 (enumerate (rev (sorted axes)))
                 (mk_loop_state [] ndim input_name []) ;;
     Ok (MultiAxis (mk_careduce_src input_name (ls_lines st)
                      (ls_var_name st) (ls_global_env st)))).
Proof.
  intros Hlen. destruct axes as [|a [|b t]]; try reflexivity.
  simpl in Hlen. congruence.
Qed.

(** X6. For two or more axes the kernel depends only on the set of
    normalised axes: two axis lists that normalise to the same axes in any
    order (negative or non-negative, in any order) give the same result of
    [create_multiaxis_reducer], kernel or error. *)
Theorem multiaxis_axes_order_irrelevant (sop : ScalarOp) (identity : xnum)
    (axes axes' : list Z) (ndim : nat) (dtype : np_dtype)
    (input_name : string) (l l' : list nat)
    (Hlen : 2 <= length axes)
    (Hn : normalize_axis_tuple axes ndim = Ok l)
    (Hn' : normalize_axis_tuple axes' ndim = Ok l')
    (Hp : Permutation l l') :
  create_multiaxis_reducer sop identity axes ndim dtype input_name
  = create_multiaxis_reducer sop identity axes' ndim dtype input_name.
Proof.
  destruct (normalize_axis_tuple_inv _ _ _ Hn) as [_ [Hnd [_ Hl]]].
  destruct (normalize_axis_tuple_inv _ _ _ Hn') as [_ [_ [_ Hl']]].
  pose proof (Permutation_length Hp) as Hpl.
  rewrite !create_multiaxis_reducer_several by lia.
  rewrite Hn, Hn'. cbn [bind].
  rewrite (sorted_permutation l l' Hnd Hp). reflexivity.
Qed.

Lemma multiaxis_axes_order_irrelevant_witness :
  2 <= length [0; 2]%Z
  /\ normalize_axis_tuple [0; 2]%Z 3 = Ok [0; 2]
  /\ normalize_axis_tuple [-1; -3]%Z 3 = Ok [2; 0]
  /\ create_multiaxis_reducer Add (Num 0) [0; 2]%Z 3 float64 "x"
     = create_multiaxis_reducer Add (Num 0) [-1; -3]%Z 3 float64 "x".
Proof.
  split; [simpl; lia|]. split; [reflexivity|]. split; [reflexivity|].
  apply (multiaxis_axes_order_irrelevant Add (Num 0) [0; 2]%Z [-1; -3]%Z 3
           float64 "x" [0; 2] [2; 0]).
  - simpl. lia.
  - reflexivity.
  - reflexivity.
  - apply perm_swap.
Defined.

(** *** Axis errors *)

Lemma normalize_axis_index_out_of_range (ax : Z) (ndim : nat) :
  (ax < - Z.of_nat ndim \/ Z.of_nat ndim <= ax)%Z ->
  normalize_axis_index ax ndim = Err AxisError.
Proof.
  intros Hr. unfold normalize_axis_index.
  destruct ((- Z.of_nat ndim <=? ax)%Z && (ax <? Z.of_nat ndim)%Z) eqn:E;
    [|reflexivity].
  apply andb_prop in E. destruct E as [E1 E2].
  apply Z.leb_le in E1. apply Z.ltb_lt in E2. lia.
Qed.

Lemma normalize_axis_index_error (ax : Z) (ndim : nat) (e : error) :
  normalize_axis_index ax ndim = Err e -> e = AxisError.
Proof.
  unfold normalize_axis_index.
  destruct ((- Z.of_nat ndim <=? ax)%Z && (ax <? Z.of_nat ndim)%Z);
    intros E; inversion E. reflexivity.
Qed.

Lemma mapM_normalize_out_of_range (axes : list Z) (ndim : nat) :
  Exists (fun ax => (ax < - Z.of_nat ndim \/ Z.of_nat ndim <= ax)%Z) axes ->
  mapM (fun ax => normalize_axis_index ax ndim) axes = Err AxisError.
Proof.
  induction axes as [|ax axes IH]; intros Hex.
  - inversion Hex.
  - cbn [mapM].
    destruct (normalize_axis_index ax ndim) as [a|e] eqn:E; cbn [bind].
    + inversion Hex as [? ? Hh|? ? Ht]; subst.
      * rewrite (normalize_axis_index_out_of_range ax ndim Hh) in E.
        discriminate.
      * rewrite (IH Ht). reflexivity.
    + rewrite (normalize_axis_index_error _ _ _ E). reflexivity.
Qed.

(** X7. The axes are checked before the operator is looked at: whatever the
    scalar operator (registered or not), [create_multiaxis_reducer] raises
    [AxisError] when some axis lies outside [[-ndim, ndim)], and
    [ValueError] when all axes are in range and two of them normalise to
    the same axis. *)
Theorem multiaxis_axis_errors (sop : ScalarOp) (identity : xnum)
    (axes : list Z) (ndim : nat) (dtype : np_dtype) (input_name : string) :
  (Exists (fun ax => (ax < - Z.of_nat ndim \/ Z.of_nat ndim <= ax)%Z) axes ->
   create_multiaxis_reducer sop identity axes ndim dtype input_name
   = Err AxisError)
  /\ (forall l,
         mapM (fun ax => normalize_axis_index ax ndim) axes = Ok l ->
         ~ NoDup l ->
         create_multiaxis_reducer sop identity axes ndim dtype input_name
         = Err ValueError)
  /\ create_multiaxis_reducer (OtherOp "Composite") identity [0; 5]%Z 2 dtype
       input_name = Err AxisError
  /\ create_multiaxis_reducer (OtherOp "Composite") identity [0; -2]%Z 2 dtype
       input_name = Err ValueError.
Proof.
  split; [|split; [|split; reflexivity]].
  - intros Hex.
    destruct (Nat.eq_dec (length axes) 1) as [Hone|Hne].
    + destruct axes as [|ax [|b t]]; try discriminate Hone.
      unfold create_multiaxis_reducer, create_axis_reducer.
      inversion Hex as [? ? Hh|? ? Ht]; subst; [|inversion Ht].
      rewrite (normalize_axis_index_out_of_range ax ndim Hh). reflexivity.
    + rewrite create_multiaxis_reducer_several by exact Hne.
      unfold normalize_axis_tuple.
      rewrite (mapM_normalize_out_of_range axes ndim Hex). reflexivity.
  - intros l Hl Hdup.
    destruct (Nat.eq_dec (length axes) 1) as [Hone|Hne].
    + exfalso. apply Hdup. apply mapM_length in Hl. rewrite Hone in Hl.
      destruct l as [|a [|b t]]; try discriminate Hl.
      constructor; [intros []|constructor].
    + rewrite create_multiaxis_reducer_several by exact Hne.
      unfold normalize_axis_tuple. rewrite Hl. cbn [bind].
      destruct (has_dup l) eqn:E; [reflexivity|].
      exfalso. apply Hdup. apply has_dup_NoDup. exact E.
Qed.
(** ** Max and argmax when there is nothing to reduce *)

Lemma is_permutation_seq (n : nat) : is_permutation (seq 0 n) n = true.
Proof.
  unfold is_permutation. rewrite length_seq, Nat.eqb_refl. simpl.
  apply forallb_forall. intros k Hk. apply memb_In. exact Hk.
Qed.

Lemma np_transpose_identity {B : Type} (x : ndarray B) :
  well_formed x -> np_transpose x (seq 0 (ndim_of x)) = Ok x.
Proof.
  intros Hw.
  destruct (np_transpose_spec x (seq 0 (ndim_of x)) Hw
              (is_permutation_seq (ndim_of x)))
    as [xT [E [HwT [Hs Hc]]]].
  rewrite E. f_equal.
  assert (Hshape : shape xT = shape x).
  { rewrite Hs. apply map_nth_seq. }
  apply array_extensional; [exact HwT | exact Hw | exact Hshape|].
  intros j Hb. rewrite (Hc j Hb). f_equal.
  rewrite Hshape in Hb. apply in_boundsb_length in Hb.
  unfold ndim_of. rewrite <- Hb. apply transpose_source_identity.
Qed.

Lemma list_set_same {B : Type} (l : list B) (k : nat) (v : B) :
  nth_error l k = Some v -> list_set l k v = Ok l.
Proof.
  revert k. induction l as [|y l IH]; intros [|k] E; simpl in E;
    try discriminate.
  - inversion E. reflexivity.
  - simpl. rewrite (IH k E). reflexivity.
Qed.

Lemma setitem_full_same {B : Type} (s idx : list nat) (v : B) :
  in_boundsb idx s = true -> setitem (np_full s v) idx v = Ok (np_full s v).
Proof.
  intros Hb. unfold setitem. cbn [shape np_full data]. rewrite Hb.
  rewrite list_set_same; [reflexivity|].
  apply nth_error_repeat. apply ravel_bound. exact Hb.
Qed.

Lemma mapM_normalize_range (n : nat) :
  mapM (fun ax => normalize_axis_index ax n) (map Z.of_nat (seq 0 n))
  = Ok (seq 0 n).
Proof.
  rewrite mapM_map. rewrite <- (map_id (seq 0 n)) at 2.
  apply mapM_total. intros a Ha. apply in_seq in Ha.
  apply normalize_axis_index_nat. lia.
Qed.

Lemma axis_apply_last (n : nat) :
  create_axis_apply_fn (Z.of_nat (n + 1) - 1) (n + 1)
  = Ok (mk_axis_apply_fn (seq 0 (n + 1))).
Proof.
  unfold create_axis_apply_fn.
  replace (Z.of_nat (n + 1) - 1)%Z with (Z.of_nat n) by lia.
  rewrite normalize_axis_index_nat by lia. cbn [bind]. do 2 f_equal.
  rewrite seq_app. cbn [seq Nat.add]. rewrite filter_app.
  cbn [filter]. rewrite Nat.eqb_refl. cbn [negb]. rewrite app_nil_r.
  f_equal. apply forallb_filter_id. apply forallb_forall.
  intros i Hi. apply in_seq in Hi. apply negb_true_iff. apply Nat.eqb_neq. lia.
Qed.

Lemma argmax_single {A : Type} `{Scalar A} (v : A) : np_argmax [v] = Ok 0.
Proof.
  unfold np_argmax. destruct (s_isnan v) eqn:E; [reflexivity|].
  cbn [argmax_loop]. rewrite E. destruct (s_cmp CGt v v); reflexivity.
Qed.

Lemma last_snoc {B : Type} (l : list B) (v d : B) : last (l ++ [v]) d = v.
Proof.
  apply last_last.
Qed.

(** Applying [np.argmax] along a last axis of length 1 gives zeros. *)
Lemma run_axis_apply_unit {A : Type} `{Scalar A} (s : list nat) (d : list A) :
  length d = size_of s ->
  run_axis_apply (mk_axis_apply_fn (seq 0 (length s + 1)))
                 (mk_ndarray (s ++ [1]) d)
  = Ok (np_full s 0).
Proof.
  intros Hd.
  assert (Hw : well_formed (mk_ndarray (s ++ [1]) d)).
  { unfold well_formed. cbn [shape data]. rewrite size_of_app. simpl. lia. }
  unfold run_axis_apply. cbn [reaxis_first].
  replace (length s + 1) with (ndim_of (mk_ndarray (s ++ [1]) d)).
  2:{ unfold ndim_of. cbn [shape]. rewrite length_app. reflexivity. }
  rewrite (np_transpose_identity _ Hw). cbn [bind shape].
  rewrite removelast_last.
  destruct (foldM_invariant
              (fun res m =>
                 row <- getrow (mk_ndarray (s ++ [1]) d) m ;;
                 v <- np_argmax row ;;
                 setitem res m v)
              (fun res : ndarray nat => res = np_full s 0)
              (fun m => in_boundsb m s = true))
    with (l := ndindex s) (s := np_full s 0) as [res [E ->]].
  - intros res m -> Hb.
    unfold getrow. cbn [shape]. rewrite last_snoc. cbn [seq mapM].
    destruct (getitem_ok (mk_ndarray (s ++ [1]) d) (m ++ [0]) Hw) as [v Ev].
    { cbn [shape]. apply in_boundsb_app; [exact Hb | reflexivity]. }
    rewrite Ev. cbn [bind]. rewrite argmax_single. cbn [bind].
    exists (np_full s 0). split; [|reflexivity].
    apply setitem_full_same. exact Hb.
  - reflexivity.
  - apply Forall_forall. intros m Hm. apply ndindex_in_bounds. exact Hm.
  - exact E.
Qed.

(** X8. When there is nothing to reduce the max-and-argmax kernel returns
    its input as the maximum and zeros as the argmax: for an input without
    dimensions it returns the input and the scalar 0, whatever the axes and
    whatever it is run on; for an input with dimensions and an empty axis
    list it returns, on a well-formed array of the node's rank, the array
    itself and an array of zeros of the same shape. *)
Theorem maxandargmax_nothing_to_reduce {A : Type} `{Scalar A}
    (op : MaxAndArgmax) (node : Apply) (x_at out0 : TensorType)
    (Hin : nth_error (inputs node) 0 = Some x_at)
    (Hout : nth_error (outputs node) 0 = Some out0) :
  (t_ndim x_at = 0 ->
   numba_funcify_MaxAndArgmax op node = Ok MaxAndArgmaxScalar
   /\ forall v : value A,
        run_maxandargmax MaxAndArgmaxScalar v = Ok (v, VScalar 0))
  /\ (t_ndim x_at <> 0 -> ma_axis op = [] ->
      exists k,
        numba_funcify_MaxAndArgmax op node = Ok k
        /\ forall x : ndarray A,
             well_formed x -> ndim_of x = t_ndim x_at ->
             run_maxandargmax k (VArray x)
             = Ok (VArray x, VArray (np_full (shape x) 0))).
Proof.
  split.
  - intros Hz. unfold numba_funcify_MaxAndArgmax. rewrite Hin.
    cbn [of_option bind]. rewrite Hz. split; reflexivity.
  - intros Hnz Hax. unfold numba_funcify_MaxAndArgmax. rewrite Hin.
    cbn [of_option bind].
    destruct (t_ndim x_at =? 0) eqn:E; [apply Nat.eqb_eq in E; contradiction|].
    rewrite Hax, no_axes_builds. cbn [bind]. rewrite Hout.
    cbn [of_option bind length]. rewrite Nat.sub_0_r, axis_apply_last.
    cbn [bind]. eexists. split; [reflexivity|].
    intros x Hw Hrank. unfold run_maxandargmax.
    rewrite no_axes_runs. cbn [bind].
    rewrite app_nil_r.
    assert (Hkeep : filter (fun i => negb (existsb (Z.eqb (Z.of_nat i)) []))
                           (seq 0 (t_ndim x_at)) = seq 0 (t_ndim x_at)).
    { apply forallb_filter_id. apply forallb_forall. reflexivity. }
    rewrite Hkeep, length_seq, <- Hrank, mapM_normalize_range. cbn [bind].
    rewrite (np_transpose_identity x Hw). cbn [bind].
    unfold ndim_of. rewrite firstn_all, skipn_all. cbn [fold_left].
    unfold np_reshape. rewrite size_of_app. cbn [size_of fold_right].
    rewrite Hw, Nat.mul_1_r, Nat.eqb_refl. cbn [bind].
    rewrite (run_axis_apply_unit (shape x) (data x) Hw). reflexivity.
Qed.

Lemma maxandargmax_nothing_to_reduce_witness :
  let node := mk_Apply [mk_TensorType float64 1 [None]]
                       [mk_TensorType float64 1 [None]] in
  let x := mk_ndarray [2] [Num 7; Num 3] in
  exists k,
    numba_funcify_MaxAndArgmax (mk_MaxAndArgmax []) node = Ok k
    /\ run_maxandargmax k (VArray x)
       = Ok (VArray x, VArray (mk_ndarray [2] [0; 0])).
Proof.
  intros node x.
  destruct (maxandargmax_nothing_to_reduce (A := xnum) (mk_MaxAndArgmax [])
              node (mk_TensorType float64 1 [None])
              (mk_TensorType float64 1 [None]) eq_refl eq_refl)
    as [_ Hk].
  destruct (Hk ltac:(discriminate) eq_refl) as [k [Hb Hrun]].
  exists k. split; [exact Hb|].
  apply (Hrun x eq_refl eq_refl).
Defined.
(** ** Max and argmax of a vector *)










(** ** Max and argmax with a negative axis *)

Lemma Forall2_In_l {B C : Type} (R : B -> C -> Prop) (l : list B) (r : list C) :
  Forall2 R l r -> forall b, In b l -> exists c, In c r /\ R b c.
Proof.
  induction 1 as [|b0 c0 l r Hbc _ IH]; intros b Hb; [destruct Hb|].
  destruct Hb as [<-|Hb].
  - exists c0. split; [left; reflexivity | exact Hbc].
  - destruct (IH b Hb) as [c [Hc Hr]]. exists c. split; [right|]; assumption.
Qed.

(** Two different entries with the same image leave a repeated entry. *)
Lemma Forall2_repeated {B C : Type} (R : B -> C -> Prop) (l : list B)
    (r : list C) (b1 b2 : B) (c : C) :
  (forall b c1 c2, R b c1 -> R b c2 -> c1 = c2) ->
  Forall2 R l r -> In b1 l -> In b2 l -> b1 <> b2 ->
  R b1 c -> R b2 c -> ~ NoDup r.
Proof.
  intros Hfun HF H1 H2 Hne R1 R2 Hnd.
  destruct (in_split _ _ H1) as [l1 [l2 ->]].
  apply Forall2_app_inv_l in HF. destruct HF as [r1 [r2' [HF1 [HF2 ->]]]].
  inversion HF2 as [|? c1 ? r2 Rb1 HF2']; subst.
  assert (c1 = c) by (apply (Hfun _ _ _ Rb1 R1)). subst c1.
  apply NoDup_remove_2 in Hnd. apply Hnd.
  apply in_app_or in H2. apply in_or_app.
  destruct H2 as [H2|[H2|H2]]; [|congruence|].
  - left. destruct (Forall2_In_l _ _ _ HF1 b2 H2) as [c2 [Hc2 Rc2]].
    rewrite (Hfun _ _ _ R2 Rc2). exact Hc2.
  - right. destruct (Forall2_In_l _ _ _ HF2' b2 H2) as [c2 [Hc2 Rc2]].
    rewrite (Hfun _ _ _ R2 Rc2). exact Hc2.
Qed.

Lemma reaxis_order_repeats (axes : list Z) (n : nat) (order : list nat) :
  Exists (fun ax => (ax < 0)%Z) axes ->
  mapM (fun ax => normalize_axis_index ax n)
       (map Z.of_nat
          (filter (fun i => negb (existsb (Z.eqb (Z.of_nat i)) axes))
                  (seq 0 n)) ++ axes)
  = Ok order ->
  ~ NoDup order.
Proof.
  intros Hneg E Hnd.
  set (keep := filter (fun i => negb (existsb (Z.eqb (Z.of_nat i)) axes))
                      (seq 0 n)) in *.
  apply mapM_Forall2 in E. apply Forall2_app_inv_l in E.
  destruct E as [ok [oa [HFk [HFa ->]]]].
  apply Exists_exists in Hneg. destruct Hneg as [ax [Hax Hlt]].
  destruct (Forall2_In_l _ _ _ HFa ax Hax) as [a' [Ha' Hn]].
  pose proof (normalize_axis_index_bound _ _ _ Hn) as Hb.
  destruct (NoDup_app_parts _ _ Hnd) as [_ [Hnda Hdisj]].
  destruct (in_dec Nat.eq_dec a' keep) as [Hk|Hk].
  - assert (Hin : In (Z.of_nat a') (map Z.of_nat keep)).
    { apply in_map. exact Hk. }
    destruct (Forall2_In_l _ _ _ HFk _ Hin) as [c [Hc Hnc]].
    apply normalize_axis_index_of_nat in Hnc. subst c.
    apply (Hdisj a' Hc Ha').
  - assert (Hex : existsb (Z.eqb (Z.of_nat a')) axes = true).
    { destruct (existsb (Z.eqb (Z.of_nat a')) axes) eqn:Ee; [reflexivity|].
      exfalso. apply Hk. unfold keep. apply filter_In. split.
      - apply in_seq. lia.
      - rewrite Ee. reflexivity. }
    apply existsb_exists in Hex. destruct Hex as [b [Hb' Eb]].
    apply Z.eqb_eq in Eb. subst b.
    apply (Forall2_repeated
             (fun b c => normalize_axis_index b n = Ok c) axes oa
             ax (Z.of_nat a') a'); try assumption.
    + intros b c1 c2 E1 E2. congruence.
    + lia.
    + apply normalize_axis_index_nat. exact Hb.
Qed.

(** X10. The kernel expects non-negative axes: the axes kept are those [i]
    with [i not in axes], so a negative axis leaves its dimension among the
    kept ones and [keep_axes + axes] is no permutation of the dimensions.
    A kernel built for an input with dimensions from an axis list holding a
    negative axis returns nothing on any array of the node's rank: the run
    ends in an error. *)
Theorem maxandargmax_negative_axis {A : Type} `{Scalar A}
    (op : MaxAndArgmax) (node : Apply) (x_at : TensorType)
    (k : maxandargmax_fn) (x : ndarray A)
    (Hin : nth_error (inputs node) 0 = Some x_at)
    (Hnd : t_ndim x_at <> 0)
    (Hneg : Exists (fun ax => (ax < 0)%Z) (ma_axis op))
    (Hbuild : numba_funcify_MaxAndArgmax op node = Ok k)
    (Hrank : ndim_of x = t_ndim x_at) :
  is_ok (run_maxandargmax k (VArray x)) = false.
Proof.
  unfold numba_funcify_MaxAndArgmax in Hbuild. rewrite Hin in Hbuild.
  cbn [of_option bind] in Hbuild.
  destruct (t_ndim x_at =? 0) eqn:E; [apply Nat.eqb_eq in E; contradiction|].
  apply bind_ok in Hbuild. destruct Hbuild as [rm [_ Hbuild]].
  apply bind_ok in Hbuild. destruct Hbuild as [out0 [_ Hbuild]].
  apply bind_ok in Hbuild. destruct Hbuild as [aa [_ Hbuild]].
  inversion Hbuild; subst k. clear Hbuild.
  unfold run_maxandargmax.
  destruct (run_careduce rm (VArray x)) as [max_res|e]; [|reflexivity].
  cbn [bind]. rewrite Hrank.
  destruct (mapM _ _) as [order|e] eqn:Eo; [|reflexivity].
  cbn [bind]. unfold np_transpose.
  destruct (is_permutation order (ndim_of x)) eqn:Ep; [|reflexivity].
  exfalso. apply is_permutation_spec in Ep. destruct Ep as [_ [Hnodup _]].
  apply (reaxis_order_repeats _ _ _ Hneg Eo Hnodup).
Qed.

Lemma maxandargmax_negative_axis_witness :
  let node := mk_Apply [mk_TensorType float64 1 [None]]
                       [mk_TensorType float64 0 []; mk_TensorType int64 0 []] in
  let x := mk_ndarray [2] [Num 1; Num 2] in
  exists k,
    numba_funcify_MaxAndArgmax (mk_MaxAndArgmax [(-1)%Z]) node = Ok k
    /\ is_ok (run_maxandargmax k (VArray x)) = false.
Proof.
  intros node x. eexists. split; [reflexivity|].
  match goal with
  | |- is_ok (run_maxandargmax ?k _) = false =>
      apply (maxandargmax_negative_axis (mk_MaxAndArgmax [(-1)%Z]) node
               (mk_TensorType float64 1 [None]) k x eq_refl)
  end.
  - discriminate.
  - apply Exists_cons_hd. reflexivity.
  - reflexivity.
  - reflexivity.
Defined.
(** ** The [DimShuffle] kernel: what it computes and when it fails *)

(** X11. The kernel built for a well-formed [DimShuffle] operator, run on
    a well-formed input of the operator's rank whose dropped axes have
    length 1 (the node's static output shape, when known, being the true
    one), returns a well-formed result of the operator's output shape:
    the lengths of the kept axes in the order of [shuffle], with 1 at the
    positions of [augment]; and the element at an index of the result is
    the input's element at the index with the inserted axes left out, the
    dropped axes at 0, and the axes put back in input order. A scalar
    input is read as an array without dimensions. *)
Theorem dimshuffle_computes {A : Type} (op : DimShuffle) (node : Apply)
    (k : dimshuffle_fn) (v : value A)
    (Hv : well_formed (np_asarray v))
    (Hwf : wf_dimshuffle op (ndim_of (np_asarray v)) = true)
    (Hdrop : forallb (fun a => nth a (shape (np_asarray v)) 0 =? 1)
                     (dropped op) = true)
    (Hk : numba_funcify_DimShuffle op node = Ok k)
    (Hstatic : static_shape_agrees node
                 (dimshuffle_shape op (shape (np_asarray v)))) :
  exists y,
    run_dimshuffle k v = Ok y
    /\ well_formed (np_asarray y)
    /\ shape (np_asarray y) = dimshuffle_shape op (shape (np_asarray v))
    /\ length (shape (np_asarray y))
       = length (shuffle op) + length (augment op)
    /\ forall j,
         in_boundsb j (shape (np_asarray y)) = true ->
         in_boundsb (origin op j) (shape (np_asarray v)) = true
         /\ cell (np_asarray y) j = cell (np_asarray v) (origin op j).
Proof.
  destruct (dimshuffle_spec op node k (np_asarray v) Hv Hwf Hdrop Hk Hstatic)
    as [y [Erun [Hw [Hs Hc]]]].
  exists y. rewrite run_dimshuffle_asarray.
  split; [exact Erun|]. split; [exact Hw|]. split; [exact Hs|]. split.
  - rewrite Hs. unfold dimshuffle_shape. apply expand_length.
    destruct (wf_dimshuffle_spec op _ Hwf) as [_ [_ [_ [_ Hfit]]]].
    rewrite length_map. exact Hfit.
  - intros j Hj. rewrite Hs in Hj. split.
    + apply (origin_in_bounds op _ j Hwf Hdrop Hj).
    + apply Hc. exact Hj.
Qed.

Lemma dimshuffle_computes_witness :
  let op := mk_DimShuffle [1; 0] [1; 0] [0] false in
  let node := mk_Apply [mk_TensorType float64 2 [None; None]]
                       [mk_TensorType float64 3 [Some 1; None; None]] in
  let x := mk_ndarray [2; 3] [10; 11; 12; 13; 14; 15] in
  exists k y,
    numba_funcify_DimShuffle op node = Ok k
    /\ run_dimshuffle k (VArray x) = Ok y
    /\ shape (np_asarray y) = [1; 3; 2].
Proof.
  intros op node x. eexists.
  match goal with
  | |- exists y, ?b = Ok ?k /\ _ =>
      assert (Hb : b = Ok k) by reflexivity
  end.
  assert (Hstatic : static_shape_agrees node
                      (dimshuffle_shape op (shape (np_asarray (VArray x))))).
  { apply unknown_shape_agrees. intros out0 Hout. inversion Hout; subst.
    reflexivity. }
  match type of Hb with
  | _ = Ok ?k =>
      destruct (dimshuffle_computes op node k (VArray x) eq_refl eq_refl
                  eq_refl Hb Hstatic)
        as [y [Erun [_ [Hs _]]]]
  end.
  exists y. split; [exact Hb|]. split; [exact Erun | exact Hs].
Defined.

(** *** Dropping an axis that is not of length 1 *)

Lemma size_of_permutation (s s' : list nat) :
  Permutation s s' -> size_of s = size_of s'.
Proof.
  induction 1; simpl; fold size_of; lia.
Qed.

Lemma transposed_size (t s : list nat) :
  is_permutation t (length s) = true ->
  size_of (map (fun a => nth a s 0) t) = size_of s.
Proof.
  intros Hp. destruct (is_permutation_spec _ _ Hp) as [Hl [Hnd Hin]].
  apply size_of_permutation.
  apply Permutation_trans with (map (fun a => nth a s 0) (seq 0 (length s))).
  - apply Permutation_map. apply NoDup_Permutation.
    + exact Hnd.
    + apply seq_NoDup.
    + intros a. rewrite Hin, in_seq. lia.
  - rewrite map_nth_seq. apply Permutation_refl.
Qed.

Lemma size_one_all_ones (l : list nat) :
  size_of l = 1 -> forall d, In d l -> d = 1.
Proof.
  induction l as [|x l IH]; intros Hs d Hd; [destruct Hd|].
  simpl in Hs. fold (size_of l) in Hs.
  apply Nat.eq_mul_1 in Hs. destruct Hs as [Hx Hl].
  destruct Hd as [<-|Hd]; [exact Hx | apply IH; assumption].
Qed.

Lemma item_error {B : Type} (a : ndarray B) :
  length (data a) <> 1 -> item a = Err ValueError.
Proof.
  unfold item. destruct (data a) as [|v [|w d]]; simpl; intros Hl;
    [reflexivity | congruence | reflexivity].
Qed.

(** X12. Dropping an axis whose length is not 1 raises [ValueError]: for a
    well-formed operator whose node gives no static output shape, run on a
    well-formed non-empty array of the operator's rank, the kernel fails
    in the reshape (or in [item] when no axis is left) as soon as one of
    the dropped axes has a length other than 1. *)
Theorem dimshuffle_drop_needs_unit_axis {A : Type} (op : DimShuffle)
    (node : Apply) (k : dimshuffle_fn) (x : ndarray A)
    (Hx : well_formed x)
    (Hne : data x <> [])
    (Hwf : wf_dimshuffle op (ndim_of x) = true)
    (Hk : numba_funcify_DimShuffle op node = Ok k)
    (Hunknown : forall out0, nth_error (outputs node) 0 = Some out0 ->
                             all_known (t_shape out0) = None)
    (Hbad : Exists (fun a => nth a (shape x) 0 <> 1) (dropped op)) :
  run_dimshuffle k (VArray x) = Err ValueError.
Proof.
  unfold ndim_of in Hwf.
  destruct (wf_dimshuffle_spec op _ Hwf) as [Ht [Hp [Hnd [Hlt Hfit]]]].
  set (s := shape x) in *.
  set (ss := map (fun a => nth a s 0) (shuffle op)).
  set (dd := map (fun a => nth a s 0) (dropped op)).
  assert (Hss : length ss = length (shuffle op)) by apply length_map.
  assert (HsT : map (fun a => nth a s 0) (transposition op) = ss ++ dd).
  { rewrite Ht. apply map_app. }
  assert (Hsize : size_of s = size_of ss * size_of dd).
  { rewrite <- (transposed_size (transposition op) s Hp), HsT.
    apply size_of_app. }
  assert (Hnz : size_of s <> 0).
  { unfold well_formed in Hx. fold s in Hx. rewrite <- Hx.
    destruct (data x); [congruence | simpl; lia]. }
  assert (Hdd : size_of dd <> 1).
  { intros Hone. apply Exists_exists in Hbad. destruct Hbad as [a [Ha Hn]].
    apply Hn. apply (size_one_all_ones dd Hone). unfold dd.
    apply (in_map (fun a => nth a s 0)). exact Ha. }
  assert (Hmis : size_of ss <> size_of s) by nia.
  assert (Hfit' : length (contract 0 (augment op)
                            (seq 0 (length (shuffle op) + length (augment op))))
                  = length ss) by (rewrite Hss; exact Hfit).
  unfold numba_funcify_DimShuffle in Hk.
  apply bind_ok in Hk. destruct Hk as [fs [Hfs Hk]].
  assert (Hshape : exists ns, run_find_shape fs ss = Ok ns
                              /\ size_of ns = size_of ss).
  { destruct (0 <? length (shuffle op)) eqn:Esh.
    - apply bind_ok in Hfs. destruct Hfs as [out0 [Hout Hfs]].
      destruct (nth_error (outputs node) 0) as [o|] eqn:Eo;
        [|discriminate Hout].
      inversion Hout; subst o. rewrite (Hunknown out0 eq_refl) in Hfs.
      inversion Hfs; subst fs.
      exists (expand (length (shuffle op) + length (augment op)) 0
                     (augment op) ss).
      split; [apply run_find_shape_walk; exact Hfit'|].
      apply size_expand. exact Hfit'.
    - inversion Hfs; subst fs. eexists. split; [reflexivity|].
      apply Nat.ltb_ge in Esh.
      assert (ss = []) as -> by (destruct ss; [reflexivity | simpl in Hss; lia]).
      apply size_of_ones. }
  destruct Hshape as [ns [Hns Hnsize]].
  destruct (0 <? length (shuffle op) + length (augment op)) eqn:Em;
    inversion Hk; subst k; clear Hk.
  - destruct (run_transpose_spec x (transposition op) Hx Hp)
      as [xT [HrunT [HwfT [HshapeT _]]]].
    fold s in HshapeT. rewrite HsT in HshapeT.
    unfold run_dimshuffle. cbn [np_asarray]. rewrite HrunT. cbn [bind].
    rewrite HshapeT, <- Hss, firstn_app, firstn_all, Nat.sub_diag.
    cbn [firstn]. rewrite app_nil_r, Hns. cbn [bind].
    unfold np_reshape. rewrite Hnsize, HwfT, HshapeT, size_of_app, <- Hsize.
    apply Nat.eqb_neq in Hmis. rewrite Hmis. reflexivity.
  - apply Nat.ltb_ge in Em.
    assert (ss = []) as Hnil
      by (destruct ss; [reflexivity | simpl in Hss; lia]).
    unfold run_dimshuffle. cbn [np_asarray].
    rewrite item_error; [reflexivity|].
    rewrite Hx. fold s. rewrite Hnil in Hmis. simpl in Hmis. congruence.
Qed.

Lemma dimshuffle_drop_needs_unit_axis_witness :
  let op := mk_DimShuffle [0] [0; 1] [] false in
  let node := mk_Apply [mk_TensorType float64 2 [None; None]]
                       [mk_TensorType float64 1 [None]] in
  let x := mk_ndarray [2; 2] [10; 11; 12; 13] in
  exists k,
    numba_funcify_DimShuffle op node = Ok k
    /\ run_dimshuffle k (VArray x) = Err ValueError.
Proof.
  intros op node x. eexists. split; [reflexivity|].
  match goal with
  | |- run_dimshuffle ?k _ = _ =>
      apply (dimshuffle_drop_needs_unit_axis op node k x eq_refl)
  end.
  - discriminate.
  - reflexivity.
  - reflexivity.
  - intros out0 Hout. inversion Hout; subst. reflexivity.
  - apply Exists_cons_hd. discriminate.
Defined.

(** *** A statically known output shape *)

(** X13. When the node's output shape is statically known and the operator
    keeps at least one axis, the kernel reshapes to that static shape
    without consulting the lengths of its input: on a well-formed array
    that the transposition fits, the result has the static shape whenever
    the static shape holds as many elements as the array, and the kernel
    raises [ValueError] otherwise. *)
Theorem dimshuffle_static_shape {A : Type} (op : DimShuffle) (node : Apply)
    (out0 : TensorType) (st : list nat) (k : dimshuffle_fn) (x : ndarray A)
    (Hsh : shuffle op <> [])
    (Hout : nth_error (outputs node) 0 = Some out0)
    (Hst : all_known (t_shape out0) = Some st)
    (Hx : well_formed x)
    (Hp : is_permutation (transposition op) (ndim_of x) = true)
    (Hk : numba_funcify_DimShuffle op node = Ok k) :
  (size_of st = length (data x) ->
   exists y, run_dimshuffle k (VArray x) = Ok (VArray y)
             /\ shape y = st
             /\ well_formed y
             /\ length (data y) = length (data x))
  /\ (size_of st <> length (data x) ->
      run_dimshuffle k (VArray x) = Err ValueError).
Proof.
  assert (Hpos : (0 <? length (shuffle op)) = true).
  { apply Nat.ltb_lt. destruct (shuffle op); [congruence | simpl; lia]. }
  assert (Hpos' : (0 <? length (shuffle op) + length (augment op)) = true).
  { apply Nat.ltb_lt. apply Nat.ltb_lt in Hpos. lia. }
  unfold numba_funcify_DimShuffle in Hk.
  rewrite Hpos, Hout in Hk. cbn [of_option bind] in Hk.
  rewrite Hst in Hk. cbn [bind] in Hk. rewrite Hpos' in Hk.
  inversion Hk; subst k. clear Hk.
  destruct (run_transpose_spec x (transposition op) Hx Hp)
    as [xT [HrunT [HwfT [HshapeT _]]]].
  assert (HlenT : length (data xT) = length (data x)).
  { rewrite HwfT, HshapeT, Hx. apply transposed_size. exact Hp. }
  unfold run_dimshuffle. cbn [np_asarray]. rewrite HrunT.
  cbn [bind run_find_shape]. unfold np_reshape. rewrite HlenT.
  split; intros Hsize.
  - apply Nat.eqb_eq in Hsize. rewrite Hsize. cbn [bind].
    eexists. split; [reflexivity|]. split; [reflexivity|].
    apply Nat.eqb_eq in Hsize.
    split; [unfold well_formed; simpl; congruence | exact HlenT].
  - apply Nat.eqb_neq in Hsize. rewrite Hsize. reflexivity.
Qed.

Lemma dimshuffle_static_shape_witness :
  let op := mk_DimShuffle [1; 0] [1; 0] [] false in
  let node := mk_Apply [mk_TensorType float64 2 [Some 2; Some 3]]
                       [mk_TensorType float64 2 [Some 2; Some 3]] in
  let x := mk_ndarray [2; 3] [10; 11; 12; 13; 14; 15] in
  exists k,
    numba_funcify_DimShuffle op node = Ok k
    /\ run_dimshuffle k (VArray x)
       = Ok (VArray (mk_ndarray [2; 3] [10; 13; 11; 14; 12; 15])).
Proof.
  intros op node x. eexists. split; [reflexivity|].
  match goal with
  | |- run_dimshuffle ?k _ = _ =>
      destruct (dimshuffle_static_shape op node
                  (mk_TensorType float64 2 [Some 2; Some 3]) [2; 3] k x
                  ltac:(discriminate) eq_refl eq_refl eq_refl eq_refl eq_refl)
        as [Hok _]
  end.
  destruct (Hok eq_refl) as [y [Erun _]].
  rewrite Erun. revert Erun. intros Erun. inversion Erun. reflexivity.
Defined.

(** *** No transposition *)

Lemma enumerate_seq_identity (n : nat) :
  forall a,
    forallb (fun '(i, j) => i =? j) (combine (seq a n) (seq a n)) = true.
Proof.
  induction n as [|n IH]; intros a; [reflexivity|].
  simpl. rewrite Nat.eqb_refl. apply IH.
Qed.

(** X14. When the transposition is the identity the kernel only reshapes:
    whatever it is run on, a result it returns has the row-major storage
    of its input; and for a well-formed operator on a well-formed input
    whose dropped axes have length 1 it does return, with the operator's
    output shape. *)
Theorem dimshuffle_without_transpose_keeps_storage {A : Type}
    (op : DimShuffle) (node : Apply) (k : dimshuffle_fn)
    (Hid : transposition op = seq 0 (length (transposition op)))
    (Hk : numba_funcify_DimShuffle op node = Ok k) :
  (forall (v y : value A),
      run_dimshuffle k v = Ok y -> value_data y = data (np_asarray v))
  /\ (forall x : ndarray A,
         well_formed x ->
         wf_dimshuffle op (ndim_of x) = true ->
         forallb (fun a => nth a (shape x) 0 =? 1) (dropped op) = true ->
         static_shape_agrees node (dimshuffle_shape op (shape x)) ->
         exists y,
           run_dimshuffle k (VArray x) = Ok y
           /\ value_data y = data x
           /\ shape (np_asarray y) = dimshuffle_shape op (shape x)).
Proof.
  assert (Hno : forallb (fun '(i, j) => i =? j) (enumerate (transposition op))
                = true).
  { rewrite Hid. unfold enumerate. rewrite length_seq.
    apply enumerate_seq_identity. }
  assert (Hkeep : forall (v y : value A),
             run_dimshuffle k v = Ok y -> value_data y = data (np_asarray v)).
  { intros v y Erun. unfold numba_funcify_DimShuffle in Hk.
    rewrite Hno in Hk.
    apply bind_ok in Hk. destruct Hk as [fs [_ Hk]].
    destruct (0 <? length (shuffle op) + length (augment op));
      inversion Hk; subst k; clear Hk.
    - unfold run_dimshuffle in Erun. cbn [run_transpose bind] in Erun.
      apply bind_ok in Erun. destruct Erun as [ns [_ Erun]].
      apply bind_ok in Erun. destruct Erun as [res [Eres Erun]].
      inversion Erun; subst y. unfold np_reshape in Eres.
      destruct (size_of ns =? length (data (np_asarray v)));
        inversion Eres. reflexivity.
    - unfold run_dimshuffle in Erun.
      apply bind_ok in Erun. destruct Erun as [a [Ea Erun]].
      inversion Erun; subst y. unfold item in Ea.
      destruct (data (np_asarray v)) as [|w [|w' d]]; inversion Ea.
      reflexivity. }
  split; [exact Hkeep|].
  intros x Hx Hwf Hdrop Hstatic.
  destruct (dimshuffle_spec op node k x Hx Hwf Hdrop Hk Hstatic)
    as [y [Erun [_ [Hs _]]]].
  exists y. split; [exact Erun|]. split; [|exact Hs].
  apply (Hkeep (VArray x) y Erun).
Qed.

Lemma dimshuffle_without_transpose_keeps_storage_witness :
  let op := mk_DimShuffle [0; 1] [0; 1] [0; 2] false in
  let node := mk_Apply [mk_TensorType float64 2 [None; None]]
                       [mk_TensorType float64 4 [Some 1; None; Some 1; None]] in
  let x := mk_ndarray [2; 2] [10; 11; 12; 13] in
  exists k,
    numba_funcify_DimShuffle op node = Ok k
    /\ run_dimshuffle k (VArray x)
       = Ok (VArray (mk_ndarray [1; 2; 1; 2] [10; 11; 12; 13])).
Proof.
  intros op node x. eexists. split; [reflexivity|].
  match goal with
  | |- run_dimshuffle ?k _ = _ =>
      destruct (dimshuffle_without_transpose_keeps_storage (A := nat) op node k
                  eq_refl eq_refl) as [Hkeep _]
  end.
  match goal with
  | |- ?r = Ok ?y =>
      assert (Hrun : r = Ok y) by reflexivity;
      pose proof (Hkeep _ _ Hrun) as Hdata
  end.
  reflexivity.
Defined.
(** ** The in-place elementwise wrapper on an array target *)

Lemma broadcast_rev_idem (r : list nat) : broadcast_rev r r = Ok r.
Proof.
  induction r as [|a r IH]; [reflexivity|].
  simpl. unfold broadcast_dim. rewrite Nat.eqb_refl. cbn [bind].
  rewrite IH. reflexivity.
Qed.

Lemma broadcast_shapes2_idem (s : list nat) : broadcast_shapes2 s s = Ok s.
Proof.
  unfold broadcast_shapes2. rewrite broadcast_rev_idem. cbn [bind].
  rewrite rev_involutive. reflexivity.
Qed.

Lemma broadcast_shapes_snoc (l : list (list nat)) (s : list nat) :
  broadcast_shapes l = Ok s -> broadcast_shapes (l ++ [s]) = Ok s.
Proof.
  intros E. unfold broadcast_shapes in *. rewrite foldM_app, E.
  cbn [bind foldM]. rewrite broadcast_shapes2_idem. reflexivity.
Qed.

(** X15. For an [Elemwise] node whose in-place pattern sends output 0 to an
    input with dimensions, the builder returns the wrapper that passes that
    input again as the output operand; run on arguments whose broadcast
    shape is the target's shape, the wrapper returns the array the
    out-of-place function returns on the same arguments, with the target's
    shape. *)
Theorem inplace_array_target {A : Type} (op : Elemwise A) (node : Apply)
    (input_idx : nat) (inp : TensorType) (args : list (value A))
    (t : ndarray A)
    (Hout : length (outputs node) <= 1)
    (Hpat : lookup_nat 0 (inplace_pattern op) = Some input_idx)
    (Hinp : nth_error (inputs node) input_idx = Some inp)
    (Hndim : 0 < t_ndim inp)
    (Hlen : length args = length (sf_params (scalar_op_fn op)))
    (Htarget : nth_error args input_idx = Some (VArray t))
    (Hrank : shape t <> [])
    (Hshape : broadcast_shapes (map (@shape A) (map np_asarray args))
              = Ok (shape t)) :
  let f := scalar_op_fn op in
  numba_funcify_Elemwise op node = Ok (InplaceArray f input_idx)
  /\ run_elemwise (InplaceArray f input_idx) args = call_elemwise f args
  /\ run_elemwise (InplaceArray f input_idx) args
     = (d <- run_ufunc f (map np_asarray args) (shape t) ;;
        Ok (VArray (mk_ndarray (shape t) d))).
Proof.
  intros f.
  assert (Hidx : input_idx < length args).
  { apply nth_error_Some. congruence. }
  assert (Hrun : run_elemwise (InplaceArray f input_idx) args
                 = (d <- run_ufunc f (map np_asarray args) (shape t) ;;
                    Ok (VArray (mk_ndarray (shape t) d)))).
  { unfold run_elemwise. fold f in Hlen. rewrite Hlen, Nat.eqb_refl, Htarget.
    cbn [of_option bind]. unfold call_elemwise.
    rewrite length_app. cbn [length]. rewrite Hlen.
    destruct (length (sf_params f) + 1 =? length (sf_params f)) eqn:E;
      [apply Nat.eqb_eq in E; lia|].
    rewrite Nat.eqb_refl.
    rewrite <- Hlen, firstn_app, firstn_all, Nat.sub_diag. cbn [firstn].
    rewrite app_nil_r, nth_error_app2 by lia.
    rewrite Nat.sub_diag. cbn [nth_error].
    rewrite (broadcast_shapes_snoc _ _ Hshape). cbn [bind].
    destruct (list_eq_dec Nat.eq_dec (shape t) (shape t)) as [_|Hne];
      [reflexivity | congruence]. }
  split.
  - unfold numba_funcify_Elemwise, create_vectorize_func.
    destruct (1 <? length (outputs node)) eqn:E;
      [apply Nat.ltb_lt in E; lia|].
    cbn [bind]. destruct (inplace_pattern op) as [|p pat] eqn:Ep;
      [discriminate Hpat|].
    rewrite Hpat. cbn [of_option bind].
    destruct (nth_error (sf_params (scalar_op_fn op)) input_idx) eqn:En.
    + cbn [of_option bind]. rewrite Hinp. cbn [of_option bind].
      apply Nat.ltb_lt in Hndim. rewrite Hndim. reflexivity.
    + apply nth_error_None in En. lia.
  - split; [|exact Hrun].
    rewrite Hrun. unfold call_elemwise. fold f in Hlen.
    rewrite Hlen, Nat.eqb_refl, Hshape. cbn [bind].
    destruct (run_ufunc f (map np_asarray args) (shape t)) as [d|e];
      [|reflexivity].
    cbn [bind]. destruct (shape t); [congruence | reflexivity].
Qed.

Lemma inplace_array_target_witness :
  let op := mk_Elemwise
              (mk_scalar_fn ["x"; "y"]%string
                 (fun l => xadd (nth 0 l NaN) (nth 1 l NaN)))
              [(0, 0)] in
  let node := mk_Apply [mk_TensorType float64 1 [None];
                        mk_TensorType float64 0 []]
                       [mk_TensorType float64 1 [None]] in
  let args := [VArray (mk_ndarray [2] [Num 1; Num 2]); VScalar (Num 10)] in
  numba_funcify_Elemwise op node = Ok (InplaceArray (scalar_op_fn op) 0)
  /\ run_elemwise (InplaceArray (scalar_op_fn op) 0) args
     = Ok (VArray (mk_ndarray [2] [Num (1 + 10); Num (2 + 10)])).
Proof.
  intros op node args.
  destruct (inplace_array_target op node 0 (mk_TensorType float64 1 [None])
              args (mk_ndarray [2] [Num 1; Num 2]))
    as [Hb [_ Hrun]];
    try reflexivity; try (simpl; lia); try discriminate.
  split; [exact Hb|]. rewrite Hrun. reflexivity.
Defined.

(** ** The in-place pattern *)

(** X16. Only the entry of output 0 of the in-place pattern is used. For a
    node with at most one output: an empty pattern gives the vectorized
    function itself; a non-empty pattern without an entry for output 0
    makes the builder raise [KeyError]; an entry naming a position beyond
    the scalar function's parameters or the node's inputs makes it raise
    [IndexError]; and two non-empty patterns with the same entry for
    output 0 give the same kernel. *)
Theorem elemwise_inplace_pattern {A : Type} (f : scalar_fn A) (node : Apply)
    (pattern : list (nat * nat))
    (Hout : length (outputs node) <= 1) :
  (pattern = [] ->
   numba_funcify_Elemwise (mk_Elemwise f pattern) node = Ok (Vectorized f))
  /\ (pattern <> [] -> lookup_nat 0 pattern = None ->
      numba_funcify_Elemwise (mk_Elemwise f pattern) node = Err KeyError)
  /\ (forall input_idx,
         lookup_nat 0 pattern = Some input_idx ->
         length (sf_params f) <= input_idx
         \/ length (inputs node) <= input_idx ->
         numba_funcify_Elemwise (mk_Elemwise f pattern) node = Err IndexError)
  /\ (forall pattern',
         pattern <> [] -> pattern' <> [] ->
         lookup_nat 0 pattern = lookup_nat 0 pattern' ->
         numba_funcify_Elemwise (mk_Elemwise f pattern) node
         = numba_funcify_Elemwise (mk_Elemwise f pattern') node).
Proof.
  assert (Hv : create_vectorize_func f node = Ok f).
  { unfold create_vectorize_func.
    destruct (1 <? length (outputs node)) eqn:E; [|reflexivity].
    apply Nat.ltb_lt in E. lia. }
  unfold numba_funcify_Elemwise. cbn [scalar_op_fn inplace_pattern].
  rewrite Hv. cbn [bind].
  split; [intros ->; reflexivity|]. split; [|split].
  - intros Hne Hnone. destruct pattern as [|p pat]; [congruence|].
    rewrite Hnone. reflexivity.
  - intros input_idx Hsome Hrange.
    destruct pattern as [|p pat]; [discriminate Hsome|].
    rewrite Hsome. cbn [of_option bind].
    destruct (nth_error (sf_params f) input_idx) as [name|] eqn:En;
      [|reflexivity].
    cbn [of_option bind].
    destruct (nth_error (inputs node) input_idx) as [inp|] eqn:Ei;
      [|reflexivity].
    exfalso.
    assert (input_idx < length (sf_params f))
      by (apply nth_error_Some; congruence).
    assert (input_idx < length (inputs node))
      by (apply nth_error_Some; congruence).
    lia.
  - intros pattern' Hne Hne' Heq.
    destruct pattern as [|p pat]; [congruence|].
    destruct pattern' as [|p' pat']; [congruence|].
    rewrite Heq. reflexivity.
Qed.

Lemma elemwise_inplace_pattern_witness :
  let f := mk_scalar_fn ["x"; "y"]%string
             (fun l => xadd (nth 0 l NaN) (nth 1 l NaN)) in
  let node := mk_Apply [mk_TensorType float64 1 [None];
                        mk_TensorType float64 1 [None]]
                       [mk_TensorType float64 1 [None]] in
  numba_funcify_Elemwise (mk_Elemwise f [(1, 0)]) node = Err KeyError.
Proof.
  intros f node.
  destruct (elemwise_inplace_pattern f node [(1, 0)]) as [_ [Hkey _]].
  - simpl. lia.
  - apply Hkey; [discriminate | reflexivity].
Defined.
(** ** Every element of the input lies on exactly one reduced line *)

Lemma in_boundsb_firstn (a : nat) :
  forall j s, in_boundsb j s = true ->
              in_boundsb (firstn a j) (firstn a s) = true.
Proof.
  induction a as [|a IH]; intros [|i j] [|d s] Hb; simpl in *;
    try reflexivity; try discriminate.
  apply andb_prop in Hb. destruct Hb as [Hi Hb].
  rewrite Hi. simpl. apply IH. exact Hb.
Qed.

Lemma in_boundsb_skipn (a : nat) :
  forall j s, in_boundsb j s = true ->
              in_boundsb (skipn a j) (skipn a s) = true.
Proof.
  induction a as [|a IH]; intros [|i j] [|d s] Hb; simpl in *;
    try reflexivity; try discriminate; try exact Hb.
  apply andb_prop in Hb. destruct Hb as [_ Hb]. apply IH. exact Hb.
Qed.

Lemma insert_removed {B : Type} (a : nat) (l : list B) (v : B) :
  nth_error l a = Some v ->
  firstn a (firstn a l ++ skipn (S a) l)
  ++ v :: skipn a (firstn a l ++ skipn (S a) l) = l.
Proof.
  intros E.
  assert (Ha : a < length l) by (apply nth_error_Some; congruence).
  assert (Hf : length (firstn a l) = a) by (rewrite length_firstn; lia).
  rewrite firstn_app, Hf, Nat.sub_diag, firstn_O, app_nil_r.
  rewrite skipn_app, Hf, Nat.sub_diag, skipn_O.
  rewrite <- Hf at 1. rewrite firstn_all.
  rewrite <- Hf at 2. rewrite skipn_all. cbn [app].
  apply firstn_skipn_middle. exact E.
Qed.

(** An index of the input is the index of a cell of the result with the
    position along the reduced axis put back in. *)
Lemma decompose_index (a : nat) (s j : list nat) :
  a < length s -> in_boundsb j s = true ->
  in_boundsb (firstn a j ++ skipn (S a) j) (remove_axis a s) = true
  /\ nth a j 0 < nth a s 0
  /\ insert_axis a (nth a j 0) (firstn a j ++ skipn (S a) j) = j.
Proof.
  intros Ha Hb.
  pose proof (in_boundsb_length _ _ Hb) as Hlen.
  split; [|split].
  - rewrite (remove_axis_split a s Ha).
    apply in_boundsb_app;
      [apply in_boundsb_firstn | apply in_boundsb_skipn]; exact Hb.
  - apply (in_boundsb_nth _ _ Hb). exact Ha.
  - unfold insert_axis. apply insert_removed.
    apply nth_error_nth'. lia.
Qed.

Lemma size_of_remove_axis (a : nat) (s : list nat) :
  a < length s -> size_of s = size_of (remove_axis a s) * nth a s 0.
Proof.
  intros Ha. rewrite (remove_axis_split a s Ha), size_of_app.
  rewrite <- (firstn_skipn_middle a s (nth_error_nth' s 0 Ha)) at 1.
  rewrite size_of_app. simpl. fold (size_of (skipn (S a) s)). lia.
Qed.

Lemma length_flat_map_const {B C : Type} (F : B -> list C) (n : nat)
    (l : list B) :
  (forall b, length (F b) = n) -> length (flat_map F l) = length l * n.
Proof.
  intros HF. induction l as [|b l IH]; [reflexivity|].
  simpl. rewrite length_app, HF, IH. reflexivity.
Qed.

(** The indices the loops of the reducer read are the indices of the
    input, each once. *)
Lemma reduced_lines_cover (a : nat) (s : list nat) :
  a < length s ->
  Permutation (ndindex s)
    (flat_map (fun idx => map (fun i => insert_axis a i idx)
                              (seq 0 (nth a s 0)))
              (ndindex (remove_axis a s))).
Proof.
  intros Ha. apply NoDup_Permutation_bis.
  - apply ndindex_NoDup.
  - rewrite (length_flat_map_const _ (nth a s 0)).
    + rewrite !ndindex_length, (size_of_remove_axis a s Ha). lia.
    + intros idx. rewrite length_map, length_seq. reflexivity.
  - intros j Hj. apply ndindex_in_bounds in Hj.
    destruct (decompose_index a s j Ha Hj) as [Hb [Hi Hins]].
    apply in_flat_map. exists (firstn a j ++ skipn (S a) j).
    split; [apply ndindex_complete; exact Hb|].
    apply in_map_iff. exists (nth a j 0).
    split; [exact Hins|]. apply in_seq. lia.
Qed.

(** Every element of the input is on the line of some cell of the
    result. *)
Lemma element_on_a_line {B : Type} (x : ndarray B) (a : nat) (v : B) :
  well_formed x -> a < length (shape x) -> In v (data x) ->
  exists idx,
    in_boundsb idx (remove_axis a (shape x)) = true
    /\ forall xs, axis_slice x a idx = Ok xs -> In v xs.
Proof.
  intros Hw Ha Hv. apply In_nth_error in Hv. destruct Hv as [k Hk].
  assert (Hlt : k < size_of (shape x)).
  { rewrite <- Hw. apply nth_error_Some. congruence. }
  destruct (ravel_ndindex (shape x) k Hlt) as [j [Hb Hr]].
  destruct (decompose_index a (shape x) j Ha Hb) as [Hbi [Hi Hins]].
  exists (firstn a j ++ skipn (S a) j). split; [exact Hbi|].
  intros xs Exs. unfold axis_slice in Exs.
  destruct (mapM_nth_error _ _ _ Exs (nth a j 0) (nth a j 0))
    as [c [Ec Hc]].
  { rewrite nth_error_seq. apply Nat.ltb_lt in Hi. rewrite Hi. reflexivity. }
  rewrite Hins in Ec. apply getitem_cell in Ec. unfold cell in Ec.
  rewrite Hr, Hk in Ec. inversion Ec; subst c.
  apply (nth_error_In _ _ Hc).
Qed.

(** ** Sums of rationals *)

Lemma Qsum_cons (q : Q) (l : list Q) : Qsum (q :: l) = (q + Qsum l)%Q.
Proof.
  reflexivity.
Qed.

Lemma Qsum_app_gen (l1 l2 : list Q) : (Qsum (l1 ++ l2) == Qsum l1 + Qsum l2)%Q.
Proof.
  induction l1 as [|q l1 IH]; simpl.
  - ring.
  - rewrite IH. ring.
Qed.

Lemma Qsum_permutation (l l' : list Q) :
  Permutation l l' -> (Qsum l == Qsum l')%Q.
Proof.
  induction 1 as [|q l l' _ IH|p q l|l1 l2 l3 _ IH1 _ IH2]; simpl.
  - reflexivity.
  - rewrite IH. reflexivity.
  - ring.
  - rewrite IH1. exact IH2.
Qed.

Lemma Qsum_map_ext {B : Type} (f h : B -> Q) (l : list B) :
  (forall b, In b l -> (f b == h b)%Q) ->
  (Qsum (map f l) == Qsum (map h l))%Q.
Proof.
  induction l as [|b l IH]; intros Hfh; simpl; [reflexivity|].
  rewrite (Hfh b (or_introl eq_refl)), IH; [reflexivity|].
  intros c Hc. apply Hfh. right. exact Hc.
Qed.

Lemma Qsum_flat_map {B C : Type} (g : C -> Q) (F : B -> list C) (l : list B) :
  (Qsum (map g (flat_map F l)) == Qsum (map (fun b => Qsum (map g (F b))) l))%Q.
Proof.
  induction l as [|b l IH]; simpl; [reflexivity|].
  rewrite map_app, Qsum_app_gen, IH. reflexivity.
Qed.

Lemma Qsum_plus_const {B : Type} (c : Q) (f : B -> Q) (l : list B) :
  (Qsum (map (fun b => c + f b) l)
   == c * inject_Z (Z.of_nat (length l)) + Qsum (map f l))%Q.
Proof.
  induction l as [|b l IH].
  - simpl. ring.
  - cbn [map length]. rewrite !Qsum_cons, IH.
    rewrite Nat2Z.inj_succ. unfold Z.succ. rewrite inject_Z_plus. ring.
Qed.

(** ** The sum of a reduction's result *)

Lemma map_Num_injective (l l' : list Q) : map Num l = map Num l' -> l = l'.
Proof.
  revert l'. induction l as [|q l IH]; intros [|q' l'] E; simpl in E;
    try discriminate; [reflexivity|].
  inversion E. f_equal. apply IH. assumption.
Qed.

Lemma finite_getitem (x : ndarray xnum) (qd : list Q) (j : list nat) :
  well_formed x -> data x = map Num qd ->
  in_boundsb j (shape x) = true ->
  getitem x j = Ok (Num (nth (ravel (shape x) j) qd 0%Q)).
Proof.
  intros Hw Hd Hb. unfold getitem. rewrite Hb, Hd.
  pose proof (ravel_bound _ _ Hb) as Hlt. rewrite <- Hw, Hd, length_map in Hlt.
  rewrite nth_error_map, (nth_error_nth' qd 0%Q Hlt). reflexivity.
Qed.

Lemma finite_data_by_index (s : list nat) (qd : list Q) :
  length qd = size_of s ->
  map (fun j => nth (ravel s j) qd 0%Q) (ndindex s) = qd.
Proof.
  intros Hl.
  rewrite <- (map_map (ravel s) (fun k => nth k qd 0%Q)).
  rewrite ndindex_positions, <- Hl. apply map_nth_seq.
Qed.

Lemma data_by_cells {B : Type} (a : ndarray B) (f : list nat -> B) :
  well_formed a ->
  (forall idx, in_boundsb idx (shape a) = true -> cell a idx = Some (f idx)) ->
  data a = map f (ndindex (shape a)).
Proof.
  intros Hw Hc. apply nth_error_extensional. intros k.
  destruct (Nat.lt_ge_cases k (size_of (shape a))) as [Hk|Hk].
  - destruct (ravel_ndindex (shape a) k Hk) as [idx [Hb Hr]].
    pose proof (ndindex_ravel _ _ Hb) as Hn. rewrite Hr in Hn.
    rewrite nth_error_map, Hn. simpl.
    specialize (Hc idx Hb). unfold cell in Hc. rewrite Hr in Hc. exact Hc.
  - transitivity (@None B).
    + apply nth_error_None. rewrite Hw. exact Hk.
    + symmetry. apply nth_error_None.
      rewrite length_map, ndindex_length. exact Hk.
Qed.

Lemma np_asarray_data {B : Type} (y : value B) :
  data (np_asarray y) = value_data y.
Proof.
  destruct y; reflexivity.
Qed.

(** One stage of an [Add] reduction: the cells of the result sum to the
    elements of the input plus the identity once for every cell. *)
Lemma add_stage_total (identity : Q) (ax : Z) (ndim : nat) (dtype : np_dtype)
    (r : reducer_src) (x : ndarray xnum) (qd : list Q) :
  create_axis_reducer Add (Num identity) ax ndim dtype false = Ok r ->
  well_formed x -> ndim_of x = ndim -> data x = map Num qd ->
  exists y qd',
    run_reducer r (VArray x) = Ok y
    /\ value_data y = map Num qd'
    /\ (Qsum qd' == identity * inject_Z (Z.of_nat (length qd')) + Qsum qd)%Q.
Proof.
  intros Hbuild Hw Hrank Hfin.
  destruct (built_reducer_cells Add (Num identity) ax ndim dtype r x
              Hbuild Hw Hrank)
    as [a [upd [it [at_ [y [Ha [Hupd [Erun [Hs [Hwy Hcells]]]]]]]]]].
  pose proof (normalize_axis_index_bound _ _ _ Ha) as Hlt.
  unfold ndim_of in Hrank. rewrite <- Hrank in Hlt.
  set (s := shape x) in *. set (rs := remove_axis a s) in *.
  set (g := fun j : list nat => nth (ravel s j) qd 0%Q).
  set (line := fun idx : list nat =>
                 map (fun i => insert_axis a i idx) (seq 0 (nth a s 0))).
  assert (Hline : forall idx, in_boundsb idx rs = true ->
             axis_slice x a idx = Ok (map Num (map g (line idx)))).
  { intros idx Hb. unfold axis_slice, line. fold s.
    rewrite !map_map. apply mapM_total. intros i Hi. apply in_seq in Hi.
    apply (finite_getitem x qd _ Hw Hfin).
    apply insert_axis_in_bounds; [exact Hlt | exact Hb | unfold s in *; lia]. }
  assert (Hcell : forall idx, in_boundsb idx (shape (np_asarray y)) = true ->
             cell (np_asarray y) idx
             = Some (Num (fold_left Qplus (map g (line idx)) identity))).
  { intros idx Hb. rewrite Hs in Hb.
    destruct (Hcells idx Hb) as [xs [Exs Hc]].
    rewrite (Hline idx Hb) in Exs. inversion Exs; subst xs.
    rewrite Hc. f_equal.
    apply (fold_update_add upd it at_ Hupd (map g (line idx)) identity 0). }
  pose proof (data_by_cells (np_asarray y) _ Hwy Hcell) as Hdata.
  rewrite np_asarray_data, Hs in Hdata. fold rs in Hdata.
  exists y, (map (fun idx => fold_left Qplus (map g (line idx)) identity)
                 (ndindex rs)).
  split; [exact Erun|]. split; [rewrite Hdata, map_map; reflexivity|].
  rewrite length_map.
  rewrite (Qsum_map_ext _ (fun idx => identity + Qsum (map g (line idx)))%Q)
    by (intros idx _; apply fold_left_Qplus).
  rewrite Qsum_plus_const. apply Qplus_comp; [reflexivity|].
  rewrite <- (Qsum_flat_map g line (ndindex rs)).
  transitivity (Qsum (map g (ndindex s))).
  - apply Qsum_permutation. apply Permutation_map. apply Permutation_sym.
    apply (reduced_lines_cover a s Hlt).
  - unfold g. rewrite (finite_data_by_index s qd); [reflexivity|].
    unfold well_formed in Hw. rewrite Hfin, length_map in Hw. exact Hw.
Qed.
(** ** What holds from stage to stage *)

Lemma built_vector_reducer_scalar {A : Type} `{Scalar A} (sop : ScalarOp)
    (identity : xnum) (ax : Z) (dtype : np_dtype) (r : reducer_src)
    (x : ndarray A) :
  create_axis_reducer sop identity ax 1 dtype false = Ok r ->
  well_formed x -> ndim_of x = 1 ->
  exists v, run_reducer r (VArray x) = Ok (VScalar v).
Proof.
  intros Hr Hw Hrank.
  destruct (create_axis_reducer_inv _ _ _ _ _ _ _ Hr) as [a [upd [Ha ->]]].
  apply normalize_axis_index_bound in Ha.
  assert (a = 0) by lia. subst a. cbn [Nat.ltb Nat.leb].
  apply run_reduce1D_ok; assumption.
Qed.

(** A relation between the elements of the input and of the result that
    every stage establishes holds between the input and the result of the
    stages run one after the other. *)
Lemma run_stages_chain {A : Type} `{Scalar A} (sop : ScalarOp)
    (identity : xnum) (dtype : np_dtype)
    (P : list A -> Prop) (R : list A -> list A -> Prop) :
  (forall l, R l l) ->
  (forall l1 l2 l3, R l1 l2 -> R l2 l3 -> R l1 l3) ->
  (forall ndim a r (x : ndarray A) y,
      create_axis_reducer sop identity (Z.of_nat a) ndim dtype false = Ok r ->
      well_formed x -> ndim_of x = ndim ->
      run_reducer r (VArray x) = Ok y ->
      P (value_data y) /\ R (data x) (value_data y)) ->
  forall (d : list nat) (ndim : nat) (rs : list reducer_src) (x : ndarray A),
    stages_for sop identity dtype ndim d rs ->
    well_formed x -> ndim_of x = ndim ->
    exists y,
      run_stages rs (VArray x) = Ok y
      /\ value_wf y
      /\ value_rank y = ndim - length d
      /\ R (data x) (value_data y)
      /\ (d <> [] -> P (value_data y))
      /\ (d <> [] -> length d = ndim -> exists v, y = VScalar v).
Proof.
  intros Hrefl Htrans Hstage.
  induction d as [|a d IH]; intros ndim [|r rs] x Hs Hwf Hrank; simpl in Hs;
    try contradiction.
  - exists (VArray x). split; [reflexivity|]. split; [exact Hwf|].
    split; [simpl; lia|]. split; [apply Hrefl|].
    split; intros Hne; congruence.
  - destruct Hs as [Er Hs].
    destruct (built_reducer_runs sop identity (Z.of_nat a) ndim dtype r x
                Er Hwf Hrank) as [y1 [Erun [Hwf1 [Hrank1 Harr]]]].
    destruct (Hstage ndim a r x y1 Er Hwf Hrank Erun) as [HP1 HR1].
    unfold run_stages. cbn [foldM]. rewrite Erun. cbn [bind].
    destruct d as [|a' d'].
    + destruct rs as [|r' rs']; [|contradiction].
      exists y1. split; [reflexivity|]. split; [exact Hwf1|].
      split; [simpl; exact Hrank1|]. split; [exact HR1|].
      split; [intros _; exact HP1|].
      intros _ Hlen. simpl in Hlen. rewrite <- Hlen in Er, Hrank.
      destruct (built_vector_reducer_scalar _ _ _ _ _ x Er Hwf Hrank)
        as [v Ev].
      exists v. congruence.
    + destruct rs as [|r' rs']; [contradiction|].
      pose proof Hs as Hs'. simpl in Hs'. destruct Hs' as [Er' _].
      destruct (create_axis_reducer_inv _ _ _ _ _ _ _ Er') as [a2 [upd [Ha2 _]]].
      apply normalize_axis_index_bound in Ha2.
      destruct Harr as [x1 ->]; [lia|].
      destruct (IH (ndim - 1) (r' :: rs') x1 Hs Hwf1 Hrank1)
        as [y [Ey [Hwfy [Hranky [HRy [HPy Hscal]]]]]].
      exists y. split; [exact Ey|]. split; [exact Hwfy|].
      split; [rewrite Hranky; simpl length; lia|].
      split; [apply (Htrans _ _ _ HR1 HRy)|].
      split; [intros _; apply HPy; discriminate|].
      intros _ Hlen. apply Hscal; [discriminate|]. simpl in Hlen |- *. lia.
Qed.

(** ** The sum of all elements is conserved *)

Lemma zero_identity_converts (d : np_dtype) :
  np_array_scalar (saturate_identity d (Num 0)) d = Ok (Num 0).
Proof.
  destruct d; reflexivity.
Qed.

Lemma add_stages_total (dtype : np_dtype) (d : list nat) (ndim : nat)
    (rs : list reducer_src) (x : ndarray xnum) (qd : list Q) :
  stages_for Add (Num 0) dtype ndim d rs ->
  well_formed x -> ndim_of x = ndim -> data x = map Num qd ->
  exists y qd',
    run_stages rs (VArray x) = Ok y
    /\ value_rank y = ndim - length d
    /\ value_data y = map Num qd'
    /\ (Qsum qd' == Qsum qd)%Q
    /\ (d <> [] -> length d = ndim -> exists v, y = VScalar v).
Proof.
  intros Hs Hw Hrank Hfin.
  destruct (run_stages_chain Add (Num 0) dtype (fun _ => True)
              (fun l l' => forall q, l = map Num q ->
                 exists q', l' = map Num q' /\ (Qsum q' == Qsum q)%Q))
    with (d := d) (ndim := ndim) (rs := rs) (x := x)
    as [y [Erun [_ [Hr [HR [_ Hscal]]]]]]; try assumption.
  - intros l q ->. exists q. split; reflexivity.
  - intros l1 l2 l3 H12 H23 q1 E1.
    destruct (H12 q1 E1) as [q2 [E2 Hq2]].
    destruct (H23 q2 E2) as [q3 [E3 Hq3]].
    exists q3. split; [exact E3|]. rewrite Hq3. exact Hq2.
  - intros nd a r x0 y0 Er Hw0 Hr0 Erun0. split; [exact I|].
    intros q Eq.
    destruct (add_stage_total 0 (Z.of_nat a) nd dtype r x0 q Er Hw0 Hr0 Eq)
      as [y' [q' [Erun' [Ed' Hsum]]]].
    rewrite Erun0 in Erun'. inversion Erun'; subst y'.
    exists q'. split; [exact Ed'|]. rewrite Hsum. ring.
  - destruct (HR qd Hfin) as [qd' [Ed' Hsum]].
    exists y, qd'. split; [exact Erun|]. split; [exact Hr|].
    split; [exact Ed'|]. split; [exact Hsum | exact Hscal].
Qed.

(** X17. A sum kernel conserves the total: for a [CAReduce] node whose
    scalar operator is [Add] with identity 0 and whose output dtype, the
    dtype of every stage's accumulator, is a floating-point one, whatever
    axes it reduces, the kernel that is built returns, on a well-formed
    array of finite numbers of the node's rank, a value whose cells sum to
    the sum of all the input's elements (in exact arithmetic: the rounding
    of the accumulators is left out; integer accumulators, which wrap, are
    not covered); with axis [None] on an input with dimensions that value
    is a scalar, the sum of all elements. *)
Theorem careduce_sum_conserved (op : CAReduce) (node : Apply)
    (input_name : string) (in0 out_t : TensorType) (k : careduce_fn)
    (x : ndarray xnum) (qd : list Q)
    (Hout : nth_error (outputs node) 0 = Some out_t)
    (Hfloat : dtype_kind (t_dtype out_t) = "f"%char)
    (Hop : scalar_op op = Add)
    (Hid : scalar_op_identity op = Num 0)
    (Hin : nth_error (inputs node) 0 = Some in0)
    (Hbuild : numba_funcify_CAReduce op node input_name = Ok k)
    (Hx : well_formed x)
    (Hrank : ndim_of x = t_ndim in0)
    (Hfin : data x = map Num qd) :
  exists y qd',
    run_careduce k (VArray x) = Ok y
    /\ value_data y = map Num qd'
    /\ (Qsum qd' == Qsum qd)%Q
    /\ (axis op = None -> t_ndim in0 <> 0 ->
        exists m, y = VScalar (Num m) /\ (m == Qsum qd)%Q).
Proof.
  unfold numba_funcify_CAReduce in Hbuild.
  apply bind_ok in Hbuild. destruct Hbuild as [axes [Haxes Hbuild]].
  apply bind_ok in Hbuild. destruct Hbuild as [d [_ Hbuild]].
  rewrite Hid, zero_identity_converts, Hin in Hbuild.
  cbn [of_option bind] in Hbuild.
  apply bind_ok in Hbuild. destruct Hbuild as [out0 [_ Hbuild]].
  rewrite Hop in Hbuild.
  set (n := t_ndim in0) in *.
  assert (Hnone : axis op = None -> axes = map Z.of_nat (seq 0 n)).
  { intros Hax. rewrite Hax, Hin in Haxes. cbn [of_option bind] in Haxes.
    inversion Haxes. reflexivity. }
  assert (Hfinal : forall y qd',
             value_data y = map Num qd' -> (Qsum qd' == Qsum qd)%Q ->
             (exists v, y = VScalar v) ->
             exists m, y = VScalar (Num m) /\ (m == Qsum qd)%Q).
  { intros y qd' Ed Hsum [v ->]. simpl in Ed.
    destruct qd' as [|m [|m' t]]; try discriminate Ed.
    inversion Ed; subst v. exists m. split; [reflexivity|].
    rewrite <- Hsum. simpl. ring. }
  destruct (Nat.eq_dec (length axes) 1) as [Hone|Hne].
  - destruct axes as [|ax [|b t]]; try discriminate Hone.
    cbn [create_multiaxis_reducer] in Hbuild.
    apply bind_ok in Hbuild. destruct Hbuild as [r [Er Hbuild]].
    inversion Hbuild; subst k. clear Hbuild.
    destruct (add_stage_total 0 ax n (t_dtype out0) r x qd Er Hx Hrank Hfin)
      as [y [qd' [Erun [Ed Hsum]]]].
    assert (Hsum' : (Qsum qd' == Qsum qd)%Q) by (rewrite Hsum; ring).
    exists y, qd'. split; [exact Erun|]. split; [exact Ed|].
    split; [exact Hsum'|].
    intros Hax Hnz. apply (Hfinal y qd' Ed Hsum').
    specialize (Hnone Hax).
    assert (Hn1 : n = 1).
    { apply (f_equal (@length Z)) in Hnone.
      rewrite length_map, length_seq in Hnone. simpl in Hnone. lia. }
    rewrite Hn1 in Er, Hrank.
    destruct (built_vector_reducer_scalar _ _ _ _ _ x Er Hx Hrank) as [v Ev].
    exists v. rewrite Erun in Ev. inversion Ev. reflexivity.
  - pose proof Hbuild as Hbuild'.
    rewrite create_multiaxis_reducer_several in Hbuild' by exact Hne.
    apply bind_ok in Hbuild'. destruct Hbuild' as [naxes [Hnorm _]].
    destruct (multiaxis_built _ _ _ _ _ _ _ k Hne Hnorm Hbuild)
      as [rs [_ [_ [Hst [_ [Hrun _]]]]]].
    destruct (add_stages_total (t_dtype out0) (rev (sorted naxes)) n rs x qd
                Hst Hx Hrank Hfin)
      as [y [qd' [Erun [_ [Ed [Hsum Hscal]]]]]].
    exists y, qd'. rewrite Hrun. split; [exact Erun|]. split; [exact Ed|].
    split; [exact Hsum|].
    intros Hax Hnz. apply (Hfinal y qd' Ed Hsum).
    specialize (Hnone Hax). subst axes.
    rewrite normalize_axis_tuple_range in Hnorm. inversion Hnorm; subst naxes.
    apply Hscal.
    + rewrite sorted_seq. destruct n; [congruence|].
      rewrite seq_S, rev_app_distr. discriminate.
    + rewrite length_rev, sorted_seq, length_seq. reflexivity.
Qed.

Lemma careduce_sum_conserved_witness :
  let op := mk_CAReduce (Some [0%Z; 2%Z]) Add (Num 0) None in
  let node := mk_Apply [mk_TensorType float64 3 [None; None; None]]
                       [mk_TensorType float64 1 [None]] in
  let x := mk_ndarray [2; 2; 2]
             [Num 1; Num 2; Num 3; Num 4; Num 5; Num 6; Num 7; Num 8] in
  exists k y,
    numba_funcify_CAReduce op node "x" = Ok k
    /\ run_careduce k (VArray x) = Ok y
    /\ value_rank y = 1.
Proof.
  intros op node x. eexists.
  match goal with
  | |- exists y, ?b = Ok ?k /\ _ =>
      assert (Hb : b = Ok k) by reflexivity
  end.
  match type of Hb with
  | _ = Ok ?k =>
      destruct (careduce_sum_conserved op node "x"
                  (mk_TensorType float64 3 [None; None; None])
                  (mk_TensorType float64 1 [None]) k x
                  [1; 2; 3; 4; 5; 6; 7; 8]%Q
                  eq_refl eq_refl eq_refl eq_refl eq_refl Hb
                  eq_refl eq_refl eq_refl)
        as [y [qd' [Erun _]]]
  end.
  exists y. split; [exact Hb|]. split; [exact Erun|].
  revert Erun. intros Erun.
  assert (Hy : exists a, y = VArray (mk_ndarray [2] a)).
  { vm_compute in Erun. inversion Erun. eexists. reflexivity. }
  destruct Hy as [a ->]. reflexivity.
Defined.
(** ** The maximum over every axis *)

Lemma cell_of_element {B : Type} (a : ndarray B) (c : B) :
  well_formed a -> In c (data a) ->
  exists idx, in_boundsb idx (shape a) = true /\ cell a idx = Some c.
Proof.
  intros Hw Hc. apply In_nth_error in Hc. destruct Hc as [k Hk].
  assert (Hlt : k < size_of (shape a)).
  { rewrite <- Hw. apply nth_error_Some. congruence. }
  destruct (ravel_ndindex (shape a) k Hlt) as [idx [Hb Hr]].
  exists idx. split; [exact Hb|]. unfold cell. rewrite Hr. exact Hk.
Qed.

Lemma cell_In {B : Type} (a : ndarray B) (idx : list nat) (c : B) :
  cell a idx = Some c -> In c (data a).
Proof.
  unfold cell. apply nth_error_In.
Qed.

(** One stage of a maximum: no cell of the result is NaN, each is [-inf]
    or an element of the input, and every element of the input that is not
    NaN is below some cell. *)
Lemma max_stage (ax : Z) (ndim : nat) (dtype : np_dtype) (r : reducer_src)
    (x : ndarray xnum) (y : value xnum) :
  create_axis_reducer ScalarMaximum NInf ax ndim dtype false = Ok r ->
  well_formed x -> ndim_of x = ndim ->
  run_reducer r (VArray x) = Ok y ->
  (forall c, In c (value_data y) -> c <> NaN)
  /\ (forall c, In c (value_data y) -> c = NInf \/ In c (data x))
  /\ (forall v, In v (data x) -> v <> NaN ->
        exists c, In c (value_data y) /\ c <> NaN /\ xltb c v = false).
Proof.
  intros Hbuild Hw Hrank Erun.
  destruct (built_reducer_cells ScalarMaximum NInf ax ndim dtype r x
              Hbuild Hw Hrank)
    as [a [upd [it [at_ [y' [Ha [Hupd [Erun' [Hs [Hwy Hcells]]]]]]]]]].
  rewrite Erun in Erun'. inversion Erun'; subst y'. clear Erun'.
  pose proof (normalize_axis_index_bound _ _ _ Ha) as Hlt.
  unfold ndim_of in Hrank. rewrite <- Hrank in Hlt.
  rewrite <- np_asarray_data.
  assert (Hfold : forall idx,
             in_boundsb idx (remove_axis a (shape x)) = true ->
             exists xs m,
               axis_slice x a idx = Ok xs
               /\ cell (np_asarray y) idx = Some m
               /\ m <> NaN /\ (m = NInf \/ In m xs)
               /\ forall v, In v xs -> xltb m v = false).
  { intros idx Hb. destruct (Hcells idx Hb) as [xs [Exs Hc]].
    destruct (fold_update_max upd it at_ Hupd xs NInf 0)
      as [Hm [Hin [_ Hall]]]; [discriminate|].
    exists xs. eexists. split; [exact Exs|]. split; [exact Hc|].
    split; [exact Hm|]. split; [exact Hin | exact Hall]. }
  split; [|split].
  - intros c Hc. destruct (cell_of_element _ c Hwy Hc) as [idx [Hb Hci]].
    rewrite Hs in Hb.
    destruct (Hfold idx Hb) as [xs [m [_ [Hcm [Hm _]]]]]. congruence.
  - intros c Hc. destruct (cell_of_element _ c Hwy Hc) as [idx [Hb Hci]].
    rewrite Hs in Hb.
    destruct (Hfold idx Hb) as [xs [m [Exs [Hcm [_ [Hin _]]]]]].
    assert (c = m) by congruence. subst m.
    destruct Hin as [E|Hin]; [left; exact E|].
    right. apply (axis_slice_incl _ _ _ _ Exs). exact Hin.
  - intros v Hv Hvn.
    destruct (element_on_a_line x a v Hw Hlt Hv) as [idx [Hb Hon]].
    destruct (Hfold idx Hb) as [xs [m [Exs [Hcm [Hm [_ Hall]]]]]].
    exists m. split; [apply (cell_In _ _ _ Hcm)|].
    split; [exact Hm|]. apply Hall. apply Hon. exact Exs.
Qed.

Lemma max_stages (dtype : np_dtype) (d : list nat) (ndim : nat)
    (rs : list reducer_src) (x : ndarray xnum) :
  stages_for ScalarMaximum NInf dtype ndim d rs ->
  well_formed x -> ndim_of x = ndim -> d <> [] -> length d = ndim ->
  exists m,
    run_stages rs (VArray x) = Ok (VScalar m)
    /\ m <> NaN
    /\ (m = NInf \/ In m (data x))
    /\ forall v, In v (data x) -> xltb m v = false.
Proof.
  intros Hs Hw Hrank Hne Hlen.
  destruct (run_stages_chain ScalarMaximum NInf dtype
              (fun l => forall c, In c l -> c <> NaN)
              (fun l l' =>
                 (forall c, In c l' -> c = NInf \/ In c l)
                 /\ (forall v, In v l -> v <> NaN ->
                       exists c, In c l' /\ c <> NaN /\ xltb c v = false)))
    with (d := d) (ndim := ndim) (rs := rs) (x := x)
    as [y [Erun [_ [_ [[HR1 HR2] [HP Hscal]]]]]]; try assumption.
  - intros l. split; [intros c Hc; right; exact Hc|].
    intros v Hv Hn. exists v. split; [exact Hv|].
    split; [exact Hn | apply xltb_irrefl].
  - intros l1 l2 l3 [H12a H12b] [H23a H23b]. split.
    + intros c Hc. destruct (H23a c Hc) as [E|Hc2]; [left; exact E|].
      apply H12a. exact Hc2.
    + intros v Hv Hn.
      destruct (H12b v Hv Hn) as [c [Hc [Hcn Hcv]]].
      destruct (H23b c Hc Hcn) as [c' [Hc' [Hcn' Hcc]]].
      exists c'. split; [exact Hc'|]. split; [exact Hcn'|].
      apply (xltb_ge_trans v c c' Hcn Hcv Hcc).
  - intros nd a r x0 y0 Er Hw0 Hr0 Erun0.
    destruct (max_stage (Z.of_nat a) nd dtype r x0 y0 Er Hw0 Hr0 Erun0)
      as [H1 [H2 H3]].
    split; [exact H1|]. split; [exact H2 | exact H3].
  - destruct (Hscal Hne Hlen) as [m ->].
    exists m. split; [exact Erun|].
    split; [apply (HP Hne); left; reflexivity|].
    split; [apply HR1; left; reflexivity|].
    intros v Hv. destruct v as [q| | |]; try apply xltb_nan_r.
    all: match goal with
         | Hv : In ?v _ |- _ =>
             destruct (HR2 v Hv ltac:(discriminate)) as [c [[<-|[]] [_ Hcv]]];
             exact Hcv
         end.
Qed.

Lemma float_identity_converts (d : np_dtype) (identity : xnum) :
  dtype_kind d = "f"%char ->
  np_array_scalar (saturate_identity d identity) d = Ok identity.
Proof.
  destruct d; try discriminate; intros _; reflexivity.
Qed.

Lemma careduce_acc_dtype (op : CAReduce) (node : Apply) (d d' : np_dtype) :
  node_acc_dtype op node = Some d ->
  match acc_dtype op with
  | Some d => Ok d
  | None =>
      out0 <- of_option IndexError (nth_error (outputs node) 0) ;;
      Ok (t_dtype out0)
  end = Ok d' ->
  d' = d.
Proof.
  unfold node_acc_dtype. destruct (acc_dtype op) as [d0|].
  - intros E1 E2. inversion E1. inversion E2. congruence.
  - destruct (nth_error (outputs node) 0) as [o|]; simpl;
      intros E1 E2; [|discriminate E1].
    inversion E1. inversion E2. congruence.
Qed.

(** X18. A maximum over every axis: for a [CAReduce] node whose scalar
    operator is [ScalarMaximum] with identity [-inf], with axis [None], a
    floating-point accumulator dtype and an input with dimensions, the
    kernel returns on every well-formed array of the node's rank a scalar
    that is not NaN, that is [-inf] or one of the array's elements, and
    that no element of the array exceeds; NaN elements are passed over. *)
Theorem careduce_max_all_axes (op : CAReduce) (node : Apply)
    (input_name : string) (in0 : TensorType) (d : np_dtype)
    (k : careduce_fn) (x : ndarray xnum)
    (Hop : scalar_op op = ScalarMaximum)
    (Hid : scalar_op_identity op = NInf)
    (Hax : axis op = None)
    (Hin : nth_error (inputs node) 0 = Some in0)
    (Hnz : t_ndim in0 <> 0)
    (Hacc : node_acc_dtype op node = Some d)
    (Hkind : dtype_kind d = "f"%char)
    (Hbuild : numba_funcify_CAReduce op node input_name = Ok k)
    (Hx : well_formed x)
    (Hrank : ndim_of x = t_ndim in0) :
  exists m,
    run_careduce k (VArray x) = Ok (VScalar m)
    /\ m <> NaN
    /\ (m = NInf \/ In m (data x))
    /\ forall v, In v (data x) -> xltb m v = false.
Proof.
  unfold numba_funcify_CAReduce in Hbuild.
  rewrite Hax, Hin in Hbuild. cbn [of_option bind] in Hbuild.
  apply bind_ok in Hbuild. destruct Hbuild as [d' [Hd' Hbuild]].
  pose proof (careduce_acc_dtype op node d d' Hacc Hd') as ->.
  rewrite Hid, (float_identity_converts d NInf Hkind) in Hbuild.
  cbn [bind] in Hbuild.
  apply bind_ok in Hbuild. destruct Hbuild as [out0 [_ Hbuild]].
  rewrite Hop in Hbuild.
  set (n := t_ndim in0) in *.
  destruct (Nat.eq_dec n 1) as [Hone|Hne].
  - rewrite Hone in *. cbn [seq map create_multiaxis_reducer] in Hbuild.
    apply bind_ok in Hbuild. destruct Hbuild as [r [Er Hbuild]].
    inversion Hbuild; subst k. clear Hbuild.
    destruct (built_vector_reducer_scalar _ _ _ _ _ x Er Hx Hrank) as [m Em].
    destruct (max_stage _ _ _ r x (VScalar m) Er Hx Hrank Em)
      as [H1 [H2 H3]].
    exists m. split; [exact Em|].
    split; [apply H1; left; reflexivity|].
    split; [apply H2; left; reflexivity|].
    intros v Hv. destruct v as [q| | |]; try apply xltb_nan_r.
    all: match goal with
         | Hv : In ?v _ |- _ =>
             destruct (H3 v Hv ltac:(discriminate)) as [c [[<-|[]] [_ Hcv]]];
             exact Hcv
         end.
  - assert (Hlen : length (map Z.of_nat (seq 0 n)) <> 1).
    { rewrite length_map, length_seq. exact Hne. }
    destruct (multiaxis_built _ _ _ _ _ _ _ k Hlen
                (normalize_axis_tuple_range n) Hbuild)
      as [rs [_ [_ [Hst [_ [Hrun _]]]]]].
    rewrite sorted_seq in Hst. rewrite Hrun.
    apply (max_stages (t_dtype out0) (rev (seq 0 n)) n rs x Hst Hx Hrank).
    + destruct n; [congruence|]. rewrite seq_S, rev_app_distr. discriminate.
    + rewrite length_rev, length_seq. reflexivity.
Qed.

Lemma careduce_max_all_axes_witness :
  let op := mk_CAReduce None ScalarMaximum NInf None in
  let node := mk_Apply [mk_TensorType float64 2 [None; None]]
                       [mk_TensorType float64 0 []] in
  let x := mk_ndarray [2; 2] [Num 1; NaN; Num 4; Num 3] in
  exists k,
    numba_funcify_CAReduce op node "x" = Ok k
    /\ run_careduce k (VArray x) = Ok (VScalar (Num 4)).
Proof.
  intros op node x. eexists.
  match goal with
  | |- ?b = Ok ?k /\ _ => assert (Hb : b = Ok k) by reflexivity
  end.
  split; [exact Hb|].
  match type of Hb with
  | _ = Ok ?k =>
      destruct (careduce_max_all_axes op node "x"
                  (mk_TensorType float64 2 [None; None]) float64 k x
                  eq_refl eq_refl eq_refl eq_refl ltac:(discriminate)
                  eq_refl eq_refl Hb eq_refl eq_refl)
        as [m [Erun _]]
  end.
  rewrite Erun. vm_compute in Erun. exact (eq_sym Erun).
Defined.
(** ** Means along an axis *)

Lemma fold_update_mean (upd : stmt) (idx_text arr_text : string) :
  scalar_in_place_fn Mean idx_text "res" arr_text = Ok upd ->
  forall qs a i s0,
    (a * inject_Z (Z.of_nat i) == s0)%Q ->
    exists m,
      fold_update upd (Num a) i (map Num qs) = Num m
      /\ (m * inject_Z (Z.of_nat (i + length qs)) == s0 + Qsum qs)%Q.
Proof.
  intros Hupd.
  induction qs as [|q qs IH]; intros a i s0 Hinv.
  - exists a. split; [reflexivity|].
    simpl. rewrite Nat.add_0_r, Hinv. ring.
  - cbn [map fold_update].
    rewrite (mean_step a q i upd idx_text "res" arr_text Hupd).
    destruct (IH (a + (q + - a) / inject_Z (Z.of_nat i + 1))%Q (S i)
                 (s0 + q)%Q) as [m [Hm Hsum]].
    + rewrite Nat2Z.inj_succ. unfold Z.succ. rewrite <- Hinv.
      assert (Hd : (inject_Z (Z.of_nat i)
                    == inject_Z (Z.of_nat i + 1) - 1)%Q).
      { rewrite inject_Z_plus. change (inject_Z 1) with 1%Q. ring. }
      rewrite Hd.
      generalize (inject_Z (Z.of_nat i + 1)) (count_nonzero i).
      intros dn Hdn. field.
      intros E. apply Qeq_bool_iff in E. congruence.
    + exists m. split; [exact Hm|].
      cbn [length]. rewrite Nat.add_succ_r, Qsum_cons, Hsum. ring.
Qed.

(** X19. The reducer built for [Mean] from any finite identity, run on a
    well-formed array of finite numbers, leaves in each cell of its result
    a number that, multiplied by the length of the reduced axis, is the sum
    of the input's elements along that axis: their arithmetic mean when the
    axis is not empty, whatever the identity (exact arithmetic). *)
Theorem mean_reducer_cells (identity : Q) (ax : Z) (ndim : nat)
    (dtype : np_dtype) (r : reducer_src) (x : ndarray xnum) (qd : list Q)
    (Hbuild : create_axis_reducer Mean (Num identity) ax ndim dtype false = Ok r)
    (Hx : well_formed x)
    (Hrank : ndim_of x = ndim)
    (Hfin : data x = map Num qd) :
  exists a y,
    normalize_axis_index ax ndim = Ok a
    /\ run_reducer r (VArray x) = Ok y
    /\ shape (np_asarray y) = remove_axis a (shape x)
    /\ forall idx,
         in_boundsb idx (remove_axis a (shape x)) = true ->
         exists qs m,
           axis_slice x a idx = Ok (map Num qs)
           /\ length qs = nth a (shape x) 0
           /\ cell (np_asarray y) idx = Some (Num m)
           /\ (m * inject_Z (Z.of_nat (length qs)) == Qsum qs)%Q
           /\ (qs <> [] ->
               (m == Qsum qs / inject_Z (Z.of_nat (length qs)))%Q).
Proof.
  destruct (built_reducer_cells Mean (Num identity) ax ndim dtype r x
              Hbuild Hx Hrank)
    as [a [upd [it [at_ [y [Ha [Hupd [Erun [Hs [_ Hcells]]]]]]]]]].
  exists a, y. split; [exact Ha|]. split; [exact Erun|]. split; [exact Hs|].
  intros idx Hb. destruct (Hcells idx Hb) as [xs [Exs Hc]].
  pose proof (axis_slice_incl _ _ _ _ Exs) as Hincl. rewrite Hfin in Hincl.
  destruct (incl_map_Num xs qd Hincl) as [qs ->].
  destruct (fold_update_mean upd it at_ Hupd qs identity 0 0%Q)
    as [m [Hm Hsum]]; [simpl; ring|].
  exists qs, m. split; [exact Exs|]. split.
  { unfold axis_slice in Exs. apply mapM_length in Exs.
    rewrite length_map, length_seq in Exs. exact Exs. }
  split; [rewrite Hc; f_equal; exact Hm|].
  assert (Hmean : (m * inject_Z (Z.of_nat (length qs)) == Qsum qs)%Q).
  { rewrite Hsum. ring. }
  split; [exact Hmean|].
  intros Hne. rewrite <- Hmean. field.
  intros E. unfold Qeq in E. simpl in E.
  destruct qs; [congruence | simpl in E; lia].
Qed.

Lemma mean_reducer_cells_witness :
  let x := mk_ndarray [2; 2] [Num 1; Num 2; Num 3; Num 4] in
  well_formed x
  /\ data x = map Num [1; 2; 3; 4]%Q
  /\ exists r,
       create_axis_reducer Mean (Num 7) 1 2 float64 false = Ok r
       /\ exists y,
            run_reducer r (VArray x) = Ok y
            /\ shape (np_asarray y) = [2].
Proof.
  intros x. split; [reflexivity|]. split; [reflexivity|].
  eexists. split; [reflexivity|].
  match goal with
  | |- exists y, run_reducer ?r _ = _ /\ _ =>
      destruct (mean_reducer_cells 7 1%Z 2 float64 r x [1; 2; 3; 4]%Q
                  eq_refl eq_refl eq_refl eq_refl)
        as [a [y [Ha [Erun [Hs _]]]]]
  end.
  exists y. split; [exact Erun|].
  inversion Ha; subst a. exact Hs.
Defined.

(** ** Products that skip zeros *)

Lemma fold_update_mul_without_zeros (upd : stmt) (idx_text arr_text : string) :
  scalar_in_place_fn MulWithoutZeros idx_text "res" arr_text = Ok upd ->
  forall qs a i,
    ~ (a == 0)%Q ->
    exists m,
      fold_update upd (Num a) i (map Num qs) = Num m
      /\ ~ (m == 0)%Q
      /\ (m == a * Qprod_nonzero qs)%Q.
Proof.
  intros Hupd. inversion Hupd; subst upd. clear Hupd.
  induction qs as [|q qs IH]; intros a i Ha.
  - exists a. split; [reflexivity|]. split; [exact Ha|]. simpl.
    unfold Qprod_nonzero. simpl. ring.
  - cbn [map fold_update].
    assert (Hstep : exec_stmt (Num a) (Num q) i
                      (SAssign "res" idx_text
                         (EIfElse (EText arr_text) CEq (ECell "res" idx_text)
                            (ENum 0)
                            (EParen
                               (EIfElse (ECell "res" idx_text) CEq
                                  (EText arr_text) (ENum 0)
                                  (EBin BMul (ECell "res" idx_text)
                                     (EText arr_text))))))
                    = Num (if Qeq_bool q 0 then a else a * q)).
    { cbn -[Qeq_bool Qmult].
      change (inject_Z 0) with 0%Q.
      assert (Ea : Qeq_bool a 0 = false).
      { destruct (Qeq_bool a 0) eqn:E; [|reflexivity].
        apply Qeq_bool_iff in E. contradiction. }
      rewrite Ea. destruct (Qeq_bool q 0); reflexivity. }
    rewrite Hstep.
    assert (Hnz : ~ ((if Qeq_bool q 0 then a else a * q) == 0)%Q).
    { destruct (Qeq_bool q 0) eqn:Eq; [exact Ha|].
      intros E. apply Qmult_integral in E. destruct E as [E|E];
        [contradiction|].
      apply Qeq_bool_iff in E. congruence. }
    destruct (IH _ (S i) Hnz) as [m [Hm [Hmz Hprod]]].
    exists m. split; [exact Hm|]. split; [exact Hmz|].
    rewrite Hprod. unfold Qprod_nonzero at 2. cbn [fold_right].
    fold (Qprod_nonzero qs).
    destruct (Qeq_bool q 0); ring.
Qed.

(** X20. The reducer built for [MulWithoutZeros] from a finite identity
    other than zero with a floating-point accumulator dtype, run on a
    well-formed array of finite numbers, leaves in each cell of its result
    the identity times the product of the elements along the reduced axis
    that are not zero: zeros are skipped, and no cell is zero (in exact
    arithmetic: the rounding of the accumulator is left out; an integer
    accumulator, which wraps, is not covered). *)
Theorem mul_without_zeros_reducer (identity : Q) (ax : Z) (ndim : nat)
    (dtype : np_dtype) (r : reducer_src) (x : ndarray xnum) (qd : list Q)
    (Hfloat : dtype_kind dtype = "f"%char)
    (Hid : ~ (identity == 0)%Q)
    (Hbuild : create_axis_reducer MulWithoutZeros (Num identity) ax ndim dtype
                false = Ok r)
    (Hx : well_formed x)
    (Hrank : ndim_of x = ndim)
    (Hfin : data x = map Num qd) :
  exists a y,
    normalize_axis_index ax ndim = Ok a
    /\ run_reducer r (VArray x) = Ok y
    /\ shape (np_asarray y) = remove_axis a (shape x)
    /\ forall idx,
         in_boundsb idx (remove_axis a (shape x)) = true ->
         exists qs m,
           axis_slice x a idx = Ok (map Num qs)
           /\ cell (np_asarray y) idx = Some (Num m)
           /\ ~ (m == 0)%Q
           /\ (m == identity * Qprod_nonzero qs)%Q.
Proof.
  destruct (built_reducer_cells MulWithoutZeros (Num identity) ax ndim dtype
              r x Hbuild Hx Hrank)
    as [a [upd [it [at_ [y [Ha [Hupd [Erun [Hs [_ Hcells]]]]]]]]]].
  exists a, y. split; [exact Ha|]. split; [exact Erun|]. split; [exact Hs|].
  intros idx Hb. destruct (Hcells idx Hb) as [xs [Exs Hc]].
  pose proof (axis_slice_incl _ _ _ _ Exs) as Hincl. rewrite Hfin in Hincl.
  destruct (incl_map_Num xs qd Hincl) as [qs ->].
  destruct (fold_update_mul_without_zeros upd it at_ Hupd qs identity 0 Hid)
    as [m [Hm [Hmz Hprod]]].
  exists qs, m. split; [exact Exs|].
  split; [rewrite Hc; f_equal; exact Hm|]. split; [exact Hmz | exact Hprod].
Qed.

Lemma mul_without_zeros_reducer_witness :
  let x := mk_ndarray [3] [Num 2; Num 0; Num 5] in
  dtype_kind float64 = "f"%char
  /\ ~ (1 == 0)%Q
  /\ well_formed x
  /\ exists r,
       create_axis_reducer MulWithoutZeros (Num 1) 0 1 float64 false = Ok r
       /\ exists y,
            run_reducer r (VArray x) = Ok y
            /\ shape (np_asarray y) = [].
Proof.
  intros x. split; [reflexivity|].
  split; [discriminate|]. split; [reflexivity|].
  eexists. split; [reflexivity|].
  match goal with
  | |- exists y, run_reducer ?r _ = _ /\ _ =>
      destruct (mul_without_zeros_reducer 1 0%Z 1 float64 r x [2; 0; 5]%Q
                  eq_refl ltac:(discriminate) eq_refl eq_refl eq_refl eq_refl)
        as [a [y [Ha [Erun [Hs _]]]]]
  end.
  exists y. split; [exact Erun|].
  inversion Ha; subst a. exact Hs.
Defined.
(** ** Applying [np.argmax] along an axis *)

Lemma seq_without (a n : nat) :
  a < n ->
  filter (fun i => negb (i =? a)) (seq 0 n)
  = map (fun k => if k <? a then k else k + 1) (seq 0 (n - 1)).
Proof.
  intros Ha.
  replace n with (a + S (n - S a)) at 1 by lia.
  replace (n - 1) with (a + (n - S a)) by lia.
  rewrite !seq_app, filter_app, map_app. cbn [seq Nat.add filter].
  rewrite Nat.eqb_refl. cbn [negb]. f_equal.
  - rewrite forallb_filter_id.
    + rewrite <- (map_id (seq 0 a)) at 1. apply map_ext_in.
      intros k Hk. apply in_seq in Hk.
      replace (k <? a) with true by (symmetry; apply Nat.ltb_lt; lia).
      reflexivity.
    + apply forallb_forall. intros k Hk. apply in_seq in Hk.
      apply negb_true_iff. apply Nat.eqb_neq. lia.
  - rewrite forallb_filter_id.
    + rewrite <- seq_shift. apply map_ext_in.
      intros k Hk. apply in_seq in Hk.
      replace (k <? a) with false by (symmetry; apply Nat.ltb_ge; lia).
      lia.
    + apply forallb_forall. intros k Hk. apply in_seq in Hk.
      apply negb_true_iff. apply Nat.eqb_neq. lia.
Qed.

Lemma reaxis_nth (a n k : nat) :
  a < n -> k < n ->
  nth k (filter (fun i => negb (i =? a)) (seq 0 n) ++ [a]) 0
  = if k =? n - 1 then a else if k <? a then k else k + 1.
Proof.
  intros Ha Hk. rewrite (seq_without a n Ha).
  destruct (k =? n - 1) eqn:E.
  - apply Nat.eqb_eq in E. rewrite app_nth2;
      rewrite length_map, length_seq; [|lia].
    replace (k - (n - 1)) with 0 by lia. reflexivity.
  - apply Nat.eqb_neq in E.
    rewrite app_nth1 by (rewrite length_map, length_seq; lia).
    apply nth_map_seq. lia.
Qed.

Lemma reaxis_length (a n : nat) :
  a < n -> length (filter (fun i => negb (i =? a)) (seq 0 n) ++ [a]) = n.
Proof.
  intros Ha. rewrite (seq_without a n Ha), length_app, length_map, length_seq.
  simpl. lia.
Qed.

Lemma reaxis_permutation (a n : nat) :
  a < n ->
  is_permutation (filter (fun i => negb (i =? a)) (seq 0 n) ++ [a]) n = true.
Proof.
  intros Ha. unfold is_permutation.
  rewrite (reaxis_length a n Ha), Nat.eqb_refl. simpl.
  apply forallb_forall. intros k Hk. apply in_seq in Hk. apply memb_In.
  apply in_or_app.
  destruct (Nat.eq_dec k a) as [->|Hne]; [right; left; reflexivity|].
  left. apply filter_In. split; [apply in_seq; lia|].
  apply negb_true_iff. apply Nat.eqb_neq. exact Hne.
Qed.

Lemma reaxis_shape (a : nat) (s : list nat) :
  a < length s ->
  map (fun ax => nth ax s 0)
      (filter (fun i => negb (i =? a)) (seq 0 (length s)) ++ [a])
  = remove_axis a s ++ [nth a s 0].
Proof.
  intros Ha. rewrite map_app, (seq_without a (length s) Ha), map_map.
  reflexivity.
Qed.

Lemma reaxis_index_of (a n ax : nat) :
  a < n -> ax < n ->
  index_of ax (filter (fun i => negb (i =? a)) (seq 0 n) ++ [a])
  = Some (if ax <? a then ax else if ax =? a then n - 1 else ax - 1).
Proof.
  intros Ha Hax.
  set (t := filter (fun i => negb (i =? a)) (seq 0 n) ++ [a]).
  destruct (is_permutation_spec t n (reaxis_permutation a n Ha))
    as [Hl [Hnd _]].
  assert (Hat : forall k, k < n -> nth k t 0 = ax -> index_of ax t = Some k).
  { intros k Hk <-. apply index_of_nth; [exact Hnd | lia]. }
  assert (Hnth : forall k, k < n ->
             nth k t 0 = if k =? n - 1 then a else if k <? a then k else k + 1).
  { intros k Hk. apply reaxis_nth; assumption. }
  destruct (Nat.ltb_spec ax a) as [E1|E1].
  - apply Hat; [lia|]. rewrite Hnth by lia.
    destruct (Nat.eqb_spec ax (n - 1)); [lia|].
    destruct (Nat.ltb_spec ax a); lia.
  - destruct (Nat.eqb_spec ax a) as [E2|E2].
    + apply Hat; [lia|]. rewrite Hnth by lia.
      rewrite Nat.eqb_refl. congruence.
    + apply Hat; [lia|]. rewrite Hnth by lia.
      destruct (Nat.eqb_spec (ax - 1) (n - 1)); [lia|].
      destruct (Nat.ltb_spec (ax - 1) a); lia.
Qed.

(** In the array with [axis] moved last, the entry at [m ++ [i]] is the
    input's entry at [m] with [i] put in at [axis]. *)
Lemma reaxis_source (a n i : nat) (m : list nat) :
  a < n -> length m = n - 1 ->
  transpose_source (filter (fun i => negb (i =? a)) (seq 0 n) ++ [a])
                   (m ++ [i])
  = insert_axis a i m.
Proof.
  intros Ha Hm. unfold transpose_source.
  rewrite (reaxis_length a n Ha), <- (insert_axis_map a n i m Ha Hm).
  apply map_ext_in. intros ax Hax. apply in_seq in Hax.
  rewrite (reaxis_index_of a n ax Ha) by lia.
  destruct (ax <? a) eqn:E1.
  - apply Nat.ltb_lt in E1. apply app_nth1. lia.
  - apply Nat.ltb_ge in E1. destruct (ax =? a) eqn:E2.
    + rewrite app_nth2 by lia. rewrite Hm, Nat.sub_diag. reflexivity.
    + apply Nat.eqb_neq in E2. apply app_nth1. lia.
Qed.

Lemma cell_getitem {B : Type} (a : ndarray B) (idx : list nat) (v : B) :
  in_boundsb idx (shape a) = true -> cell a idx = Some v ->
  getitem a idx = Ok v.
Proof.
  intros Hb Hc. unfold getitem. rewrite Hb. unfold cell in Hc. rewrite Hc.
  reflexivity.
Qed.

Lemma mapM_ext_in {B C : Type} (f g : B -> result C) (l : list B) :
  (forall b, In b l -> f b = g b) -> mapM f l = mapM g l.
Proof.
  induction l as [|b l IH]; intros Hfg; [reflexivity|].
  simpl. rewrite (Hfg b (or_introl eq_refl)), IH; [reflexivity|].
  intros c Hc. apply Hfg. right. exact Hc.
Qed.

(** The rows of the array with [axis] moved last are the lines of the
    input along [axis]. *)
Lemma rows_of_reaxis {B : Type} (x xT : ndarray B) (a : nat) (m : list nat) :
  well_formed x -> a < length (shape x) ->
  np_transpose x (filter (fun i => negb (i =? a)) (seq 0 (length (shape x)))
                  ++ [a]) = Ok xT ->
  in_boundsb m (remove_axis a (shape x)) = true ->
  shape xT = remove_axis a (shape x) ++ [nth a (shape x) 0]
  /\ well_formed xT
  /\ getrow xT m = axis_slice x a m.
Proof.
  intros Hw Ha ET Hb.
  destruct (np_transpose_spec x _ Hw (reaxis_permutation a _ Ha))
    as [xT' [ET' [HwT [HsT HcT]]]].
  rewrite ET in ET'. inversion ET'; subst xT'. clear ET'.
  rewrite (reaxis_shape a (shape x) Ha) in HsT.
  split; [exact HsT|]. split; [exact HwT|].
  unfold getrow, axis_slice. rewrite HsT, last_snoc.
  apply mapM_ext_in. intros i Hi. apply in_seq in Hi.
  pose proof (in_boundsb_length _ _ Hb) as Hlen.
  rewrite remove_axis_length in Hlen.
  assert (Hbi : in_boundsb (insert_axis a i m) (shape x) = true).
  { apply insert_axis_in_bounds; [exact Ha | exact Hb | lia]. }
  assert (HbT : in_boundsb (m ++ [i]) (shape xT) = true).
  { rewrite HsT. apply in_boundsb_app; [exact Hb|].
    simpl. replace (i <? nth a (shape x) 0) with true; [reflexivity|].
    symmetry. apply Nat.ltb_lt. lia. }
  destruct (getitem_ok x _ Hw Hbi) as [v Ev].
  rewrite Ev. apply cell_getitem; [exact HbT|].
  rewrite (HcT _ HbT), (reaxis_source a _ i m Ha Hlen).
  apply getitem_cell. exact Ev.
Qed.

Lemma setitem_spec {B : Type} (a : ndarray B) (idx : list nat) (v : B) :
  well_formed a -> in_boundsb idx (shape a) = true ->
  exists a',
    setitem a idx v = Ok a'
    /\ shape a' = shape a
    /\ well_formed a'
    /\ cell a' idx = Some v
    /\ forall idx', in_boundsb idx' (shape a) = true -> idx' <> idx ->
                    cell a' idx' = cell a idx'.
Proof.
  intros Hw Hb.
  pose proof (ravel_bound _ _ Hb) as Hlt. rewrite <- Hw in Hlt.
  destruct (list_set_ok (data a) _ v Hlt) as [d [Ed Hd]].
  destruct (list_set_spec _ _ _ _ Ed) as [_ [Hk Ho]].
  exists (mk_ndarray (shape a) d). split.
  { unfold setitem. rewrite Hb, Ed. reflexivity. }
  split; [reflexivity|]. split.
  { unfold well_formed. simpl. rewrite Hd. exact Hw. }
  split; [exact Hk|].
  intros idx' Hb' Hne. unfold cell. simpl. apply Ho.
  intros E. apply Hne. apply (ravel_injective _ _ _ Hb' Hb E).
Qed.

Section AxisApplyLoop.
Context {A : Type} `{Scalar A}.
Variable xT : ndarray A.
Variable rs : list nat.
Variable g : list nat -> nat.

Lemma axis_apply_loop (L : list (list nat)) :
  Forall (fun m => in_boundsb m rs = true) L ->
  NoDup L ->
  (forall m, In m L ->
             exists row, getrow xT m = Ok row /\ np_argmax row = Ok (g m)) ->
  forall res : ndarray nat,
    shape res = rs -> well_formed res ->
    exists res',
      foldM (fun res m =>
               row <- getrow xT m ;;
               v <- np_argmax row ;;
               setitem res m v) L res = Ok res'
      /\ shape res' = rs
      /\ well_formed res'
      /\ (forall m, In m L -> cell res' m = Some (g m))
      /\ (forall m, in_boundsb m rs = true -> ~ In m L ->
                    cell res' m = cell res m).
Proof.
  induction L as [|m0 L IH]; intros HL Hnd Hrows res Hs Hw.
  - exists res. split; [reflexivity|]. split; [exact Hs|].
    split; [exact Hw|]. split; [intros m []|]. intros; reflexivity.
  - pose proof (Forall_inv HL) as Hb0. pose proof (Forall_inv_tail HL) as HL'.
    apply NoDup_cons_iff in Hnd. destruct Hnd as [Hnot Hnd'].
    destruct (Hrows m0 (or_introl eq_refl)) as [row [Erow Earg]].
    destruct (setitem_spec res m0 (g m0) Hw) as [res1 [Eset [Hs1 [Hw1 [Hc1 Ho1]]]]].
    { rewrite Hs. exact Hb0. }
    destruct (IH HL' Hnd' (fun m Hm => Hrows m (or_intror Hm)) res1)
      as [res' [Eres [Hs' [Hw' [Hin Hout]]]]].
    { congruence. }
    { exact Hw1. }
    exists res'. split.
    { cbn [foldM]. rewrite Erow. cbn [bind]. rewrite Earg. cbn [bind].
      rewrite Eset. cbn [bind]. exact Eres. }
    split; [exact Hs'|]. split; [exact Hw'|]. split.
    + intros m [<-|Hm]; [|apply Hin; exact Hm].
      rewrite (Hout m0 Hb0 Hnot). exact Hc1.
    + intros m Hb Hnin.
      rewrite (Hout m Hb); [|intros Hi; apply Hnin; right; exact Hi].
      apply Ho1; [rewrite Hs; exact Hb|].
      intros ->. apply Hnin. left. reflexivity.
Qed.
End AxisApplyLoop.

Lemma argmax_loop_bound {A : Type} `{Scalar A} (rest : list A) :
  forall mv mi idx,
    mi < idx + length rest \/ rest = [] ->
    argmax_loop rest mv mi idx < idx + length rest
    \/ argmax_loop rest mv mi idx = mi.
Proof.
  induction rest as [|v rest IH]; intros mv mi idx Hmi.
  - right. reflexivity.
  - cbn [argmax_loop length]. destruct (s_isnan v); [left; lia|].
    destruct (s_cmp CGt v mv).
    + destruct (IH v idx (S idx)) as [Hlt|Heq].
      * destruct rest; [right; reflexivity | left; simpl; lia].
      * left. lia.
      * left. lia.
    + destruct (IH mv mi (S idx)) as [Hlt|Heq].
      * destruct Hmi as [Hmi|Hmi]; [|discriminate Hmi].
        destruct rest; [right; reflexivity | left; simpl in *; lia].
      * left. lia.
      * right. exact Heq.
Qed.

Lemma np_argmax_ok {A : Type} `{Scalar A} (row : list A) :
  row <> [] -> exists v, np_argmax row = Ok v /\ v < length row.
Proof.
  intros Hne. destruct row as [|v0 rest]; [congruence|].
  unfold np_argmax. destruct (s_isnan v0).
  - exists 0. split; [reflexivity | simpl; lia].
  - eexists. split; [reflexivity|].
    destruct (argmax_loop_bound (v0 :: rest) v0 0 0) as [Hlt|Heq].
    + left. simpl. lia.
    + exact Hlt.
    + rewrite Heq. simpl. lia.
Qed.

(** The kernel for an axis in range, run on a well-formed array. *)
Lemma run_axis_apply_spec {A : Type} `{Scalar A} (ax : Z) (ndim a : nat)
    (x : ndarray A) :
  well_formed x -> ndim_of x = ndim ->
  normalize_axis_index ax ndim = Ok a ->
  exists k,
    create_axis_apply_fn ax ndim = Ok k
    /\ (1 <= nth a (shape x) 0 ->
        exists res,
          run_axis_apply k x = Ok res
          /\ shape res = remove_axis a (shape x)
          /\ forall m,
               in_boundsb m (remove_axis a (shape x)) = true ->
               exists row v,
                 axis_slice x a m = Ok row
                 /\ np_argmax row = Ok v
                 /\ cell res m = Some v
                 /\ v < nth a (shape x) 0)
    /\ (nth a (shape x) 0 = 0 ->
        size_of (remove_axis a (shape x)) <> 0 ->
        run_axis_apply k x = Err ValueError).
Proof.
  intros Hx Hrank Ha. unfold create_axis_apply_fn. rewrite Ha. cbn [bind].
  eexists. split; [reflexivity|].
  pose proof (normalize_axis_index_bound _ _ _ Ha) as Hlt.
  unfold ndim_of in Hrank. subst ndim.
  set (t := filter (fun i => negb (i =? a)) (seq 0 (length (shape x)))
            ++ [a]).
  destruct (np_transpose_spec x t Hx (reaxis_permutation a _ Hlt))
    as [xT [ET [HwT [HsT _]]]].
  unfold t in HsT. rewrite (reaxis_shape a (shape x) Hlt) in HsT.
  set (rs := remove_axis a (shape x)) in *.
  assert (Hrows : forall m, in_boundsb m rs = true ->
             getrow xT m = axis_slice x a m).
  { intros m Hb. apply (rows_of_reaxis x xT a m Hx Hlt ET Hb). }
  unfold run_axis_apply. cbn [reaxis_first]. fold t. rewrite ET.
  cbn [bind]. rewrite HsT, removelast_last. cbn [np_full shape].
  split.
  - intros Hn.
    assert (Hslice : forall m, in_boundsb m rs = true ->
               exists row v, axis_slice x a m = Ok row
                             /\ np_argmax row = Ok v
                             /\ v < nth a (shape x) 0).
    { intros m Hb.
      destruct (mapM_ok (fun i => getitem x (insert_axis a i m))
                  (seq 0 (nth a (shape x) 0))) as [row Erow].
      { intros i Hi. apply in_seq in Hi. apply getitem_ok; [exact Hx|].
        apply insert_axis_in_bounds; [exact Hlt | exact Hb | lia]. }
      pose proof (mapM_length _ _ _ Erow) as Hl. rewrite length_seq in Hl.
      destruct (np_argmax_ok row) as [v [Ev Hv]].
      { destruct row; [simpl in Hl; lia | discriminate]. }
      exists row, v. split; [exact Erow|]. split; [exact Ev | lia]. }
    set (g := fun m => match (row <- axis_slice x a m ;; np_argmax row) with
                       | Ok v => v
                       | Err _ => 0
                       end).
    destruct (axis_apply_loop xT rs g (ndindex rs))
      with (res := mk_ndarray rs (repeat 0 (size_of rs)))
      as [res [Eres [Hs [_ [Hin _]]]]].
    + apply Forall_forall. intros m Hm. apply ndindex_in_bounds. exact Hm.
    + apply ndindex_NoDup.
    + intros m Hm. apply ndindex_in_bounds in Hm.
      destruct (Hslice m Hm) as [row [v [Erow [Ev _]]]].
      exists row. split; [rewrite (Hrows m Hm); exact Erow|].
      unfold g. rewrite Erow. cbn [bind]. rewrite Ev. reflexivity.
    + reflexivity.
    + apply (full_well_formed rs 0).
    + exists res. split; [exact Eres|]. split; [exact Hs|].
      intros m Hb. destruct (Hslice m Hb) as [row [v [Erow [Ev Hv]]]].
      exists row, v. split; [exact Erow|]. split; [exact Ev|].
      split; [|exact Hv].
      rewrite (Hin m (ndindex_complete _ _ Hb)). unfold g.
      rewrite Erow. cbn [bind]. rewrite Ev. reflexivity.
  - intros Hz Hsize.
    destruct (ndindex rs) as [|m0 L] eqn:EL.
    { exfalso. apply Hsize. rewrite <- ndindex_length, EL. reflexivity. }
    assert (Hb0 : in_boundsb m0 rs = true).
    { apply ndindex_in_bounds. rewrite EL. left. reflexivity. }
    cbn [foldM]. rewrite (Hrows m0 Hb0). unfold axis_slice.
    rewrite Hz. reflexivity.
Qed.

(** X21. The kernel [create_axis_apply_fn] builds for [np.argmax]: an axis
    outside [[-ndim, ndim)] raises [AxisError]; otherwise, run on a
    well-formed array of that rank, it returns an array shaped as the input
    without the axis whose cell at an index is [np.argmax] of the input's
    line through that index along the axis, a position on that line; and
    when the axis has length 0 while the other axes are not empty it
    raises [ValueError]. *)
Theorem argmax_along_axis {A : Type} `{Scalar A} (ax : Z) (ndim : nat)
    (x : ndarray A)
    (Hx : well_formed x)
    (Hrank : ndim_of x = ndim) :
  ((ax < - Z.of_nat ndim \/ Z.of_nat ndim <= ax)%Z ->
   create_axis_apply_fn ax ndim = Err AxisError)
  /\ forall a,
       normalize_axis_index ax ndim = Ok a ->
       exists k,
         create_axis_apply_fn ax ndim = Ok k
         /\ (1 <= nth a (shape x) 0 ->
             exists res,
               run_axis_apply k x = Ok res
               /\ shape res = remove_axis a (shape x)
               /\ forall m,
                    in_boundsb m (remove_axis a (shape x)) = true ->
                    exists row v,
                      axis_slice x a m = Ok row
                      /\ np_argmax row = Ok v
                      /\ cell res m = Some v
                      /\ v < nth a (shape x) 0)
         /\ (nth a (shape x) 0 = 0 ->
             size_of (remove_axis a (shape x)) <> 0 ->
             run_axis_apply k x = Err ValueError).
Proof.
  split.
  - intros Hout. unfold create_axis_apply_fn.
    rewrite (normalize_axis_index_out_of_range ax ndim Hout). reflexivity.
  - intros a Ha. apply (run_axis_apply_spec ax ndim a x Hx Hrank Ha).
Qed.

Lemma argmax_along_axis_witness :
  let x := mk_ndarray [2; 3] [Num 3; Num 1; Num 2; Num 0; Num 5; Num 4] in
  well_formed x
  /\ exists k,
       create_axis_apply_fn 0 2 = Ok k
       /\ run_axis_apply k x = Ok (mk_ndarray [3] [0; 1; 1]).
Proof.
  intros x. split; [reflexivity|].
  destruct (argmax_along_axis 0%Z 2 x eq_refl eq_refl) as [_ Hk].
  destruct (Hk 0 eq_refl) as [k [Hb _]].
  exists k. split; [exact Hb|].
  revert Hb. intros Hb. inversion Hb; subst k. reflexivity.
Defined.
(** ** Max and argmax along one axis *)








(** ** Arithmetic between an array and a reduction that kept its axis *)

Lemma aligned_index_self :
  forall j s, in_boundsb j s = true ->
              map (fun '(d, i) => if d =? 1 then 0 else i) (combine s j) = j.
Proof.
  induction j as [|i j IH]; intros [|d s] Hb; simpl in *;
    try discriminate; try reflexivity.
  apply andb_prop in Hb as [Hi Hb]. apply Nat.ltb_lt in Hi.
  rewrite (IH s Hb).
  destruct (d =? 1) eqn:E; [apply Nat.eqb_eq in E; f_equal; lia|reflexivity].
Qed.

Lemma broadcast_index_aligned (s j : list nat) :
  length j = length s ->
  broadcast_index s j
  = map (fun '(d, i) => if d =? 1 then 0 else i) (combine s j).
Proof.
  intros E. unfold broadcast_index. rewrite E, Nat.sub_diag. reflexivity.
Qed.

Lemma broadcast_index_self (s j : list nat) :
  in_boundsb j s = true -> broadcast_index s j = j.
Proof.
  intros Hb.
  rewrite broadcast_index_aligned by (apply in_boundsb_length; exact Hb).
  apply aligned_index_self. exact Hb.
Qed.

Lemma keepdims_index_aligned (a : nat) :
  forall s j,
    a < length s -> in_boundsb j s = true ->
    let s1 := firstn a s ++ 1 :: skipn (S a) s in
    let b := map (fun '(d, i) => if d =? 1 then 0 else i) (combine s1 j) in
    in_boundsb b s1 = true
    /\ ravel s1 b = ravel (drop_axis a s) (drop_axis a j)
    /\ size_of s1 = size_of (drop_axis a s).
Proof.
  induction a as [|a IH]; intros [|d s] [|i j] Hlt Hb; simpl in Hlt, Hb;
    try lia; try discriminate.
  - apply andb_prop in Hb as [Hi Hb].
    unfold drop_axis. cbn [firstn skipn app combine map Nat.eqb].
    rewrite (aligned_index_self j s Hb).
    cbn [in_boundsb ravel]. rewrite Hb.
    split; [reflexivity|]. split; [lia|].
    unfold size_of. cbn [fold_right]. lia.
  - apply andb_prop in Hb as [Hi Hb]. apply Nat.ltb_lt in Hi.
    destruct (IH s j ltac:(lia) Hb) as [Hin [Hrav Hsz]].
    unfold drop_axis in *.
    rewrite !firstn_cons, !skipn_cons.
    cbn [app combine map in_boundsb ravel].
    cbv zeta in Hin, Hrav, Hsz. rewrite Hin, Hrav, Hsz.
    assert (Hc : (if d =? 1 then 0 else i) = i).
    { destruct (d =? 1) eqn:E; [apply Nat.eqb_eq in E; lia|reflexivity]. }
    rewrite Hc. split; [|split; [reflexivity|]].
    { apply andb_true_intro. split; [apply Nat.ltb_lt; lia|reflexivity]. }
    unfold size_of in *. cbn [fold_right]. rewrite Hsz. reflexivity.
Qed.

Lemma keepdims_index (a : nat) (s j : list nat) :
  a < length s -> in_boundsb j s = true ->
  let s1 := firstn a s ++ 1 :: skipn (S a) s in
  in_boundsb (broadcast_index s1 j) s1 = true
  /\ ravel s1 (broadcast_index s1 j) = ravel (drop_axis a s) (drop_axis a j)
  /\ size_of s1 = size_of (drop_axis a s).
Proof.
  intros Hlt Hb s1.
  assert (Hlen : length j = length s1).
  { rewrite (in_boundsb_length _ _ Hb). unfold s1.
    rewrite length_app. cbn [length]. rewrite length_firstn, length_skipn. lia. }
  rewrite (broadcast_index_aligned s1 j Hlen).
  exact (keepdims_index_aligned a s j Hlt Hb).
Qed.

Lemma broadcast_rev_unit_r (p q : list nat) (d : nat) :
  broadcast_rev (p ++ d :: q) (p ++ 1 :: q) = Ok (p ++ d :: q).
Proof.
  induction p as [|c p IH]; cbn [app broadcast_rev].
  - assert (Hd : broadcast_dim d 1 = Ok d).
    { unfold broadcast_dim. destruct (d =? 1); reflexivity. }
    rewrite Hd. cbn [bind]. rewrite broadcast_rev_idem. reflexivity.
  - unfold broadcast_dim at 1. rewrite Nat.eqb_refl. cbn [bind].
    rewrite IH. reflexivity.
Qed.

Lemma broadcast_rev_unit_l (p q : list nat) (d : nat) :
  broadcast_rev (p ++ 1 :: q) (p ++ d :: q) = Ok (p ++ d :: q).
Proof.
  induction p as [|c p IH]; cbn [app broadcast_rev].
  - assert (Hd : broadcast_dim 1 d = Ok d).
    { unfold broadcast_dim. destruct (1 =? d) eqn:E; [|reflexivity].
      apply Nat.eqb_eq in E. subst d. reflexivity. }
    rewrite Hd. cbn [bind]. rewrite broadcast_rev_idem. reflexivity.
  - unfold broadcast_dim at 1. rewrite Nat.eqb_refl. cbn [bind].
    rewrite IH. reflexivity.
Qed.

Lemma split_at_axis (a : nat) (s : list nat) :
  a < length s -> s = firstn a s ++ nth a s 0 :: skipn (S a) s.
Proof.
  intros Hlt. symmetry.
  exact (firstn_skipn_middle a s (nth_error_nth' s 0 Hlt)).
Qed.

Lemma broadcast_keepdims_r (a : nat) (s : list nat) :
  a < length s ->
  broadcast_shapes2 s (firstn a s ++ 1 :: skipn (S a) s) = Ok s.
Proof.
  intros Hlt. unfold broadcast_shapes2.
  rewrite (split_at_axis a s Hlt) at 1.
  rewrite !rev_app_distr. cbn [rev]. rewrite <- !app_assoc. cbn [app].
  rewrite broadcast_rev_unit_r. cbn [bind].
  rewrite rev_app_distr. cbn [rev]. rewrite !rev_involutive.
  rewrite <- app_assoc. cbn [app].
  rewrite <- (split_at_axis a s Hlt). reflexivity.
Qed.

Lemma broadcast_keepdims_l (a : nat) (s : list nat) :
  a < length s ->
  broadcast_shapes2 (firstn a s ++ 1 :: skipn (S a) s) s = Ok s.
Proof.
  intros Hlt. unfold broadcast_shapes2.
  rewrite (split_at_axis a s Hlt) at 3.
  rewrite !rev_app_distr. cbn [rev]. rewrite <- !app_assoc. cbn [app].
  rewrite broadcast_rev_unit_l. cbn [bind].
  rewrite rev_app_distr. cbn [rev]. rewrite !rev_involutive.
  rewrite <- app_assoc. cbn [app].
  rewrite <- (split_at_axis a s Hlt). reflexivity.
Qed.

(** An operator between two arrays whose shapes broadcast to [s]: the
    result has shape [s] and holds at each index the operator applied to
    the operands' elements read there. *)
Lemma np_binary_cells {A : Type} `{Scalar A} (o : binop) (a b : ndarray A)
    (s : list nat) :
  broadcast_shapes2 (shape a) (shape b) = Ok s ->
  (forall j, in_boundsb j s = true ->
             exists u, getitem a (broadcast_index (shape a) j) = Ok u) ->
  (forall j, in_boundsb j s = true ->
             exists v, getitem b (broadcast_index (shape b) j) = Ok v) ->
  exists r,
    np_binary o a b = Ok r
    /\ shape r = s
    /\ well_formed r
    /\ forall j, in_boundsb j s = true ->
         exists u v,
           getitem a (broadcast_index (shape a) j) = Ok u
           /\ getitem b (broadcast_index (shape b) j) = Ok v
           /\ getitem r j = Ok (s_binop o u v).
Proof.
  intros Hs Ha Hb. unfold np_binary. rewrite Hs. cbn [bind].
  destruct (mapM_ok
              (fun idx =>
                 u <- getitem a (broadcast_index (shape a) idx) ;;
                 v <- getitem b (broadcast_index (shape b) idx) ;;
                 Ok (s_binop o u v)) (ndindex s)) as [d Hd].
  { intros j Hj. apply ndindex_in_bounds in Hj.
    destruct (Ha j Hj) as [u Hu]. destruct (Hb j Hj) as [v Hv].
    exists (s_binop o u v). rewrite Hu, Hv. reflexivity. }
  rewrite Hd. cbn [bind]. eexists. split; [reflexivity|].
  split; [reflexivity|]. split.
  { unfold well_formed. cbn [data shape].
    rewrite (mapM_length _ _ _ Hd). apply ndindex_length. }
  intros j Hj. destruct (Ha j Hj) as [u Hu]. destruct (Hb j Hj) as [v Hv].
  exists u, v. split; [exact Hu|]. split; [exact Hv|].
  destruct (mapM_nth_error _ _ _ Hd (ravel s j) j (ndindex_ravel s j Hj))
    as [c [Hc Hn]].
  rewrite Hu, Hv in Hc. cbn [bind] in Hc. inversion Hc; subst c.
  unfold getitem. cbn [shape data]. rewrite Hj, Hn. reflexivity.
Qed.

Lemma np_unary_getitem {A : Type} (f : A -> A) (a : ndarray A)
    (j : list nat) (v : A) :
  getitem a j = Ok v -> getitem (np_unary f a) j = Ok (f v).
Proof.
  unfold getitem, np_unary. cbn [shape data].
  destruct (in_boundsb j (shape a)); [|discriminate].
  rewrite nth_error_map. destruct (nth_error _ _); cbn; [|discriminate].
  intros E. inversion E. reflexivity.
Qed.

Lemma np_unary_well_formed {A : Type} (f : A -> A) (a : ndarray A) :
  well_formed a -> well_formed (np_unary f a).
Proof.
  unfold well_formed, np_unary. cbn [shape data]. rewrite length_map.
  exact (fun E => E).
Qed.

Lemma size_of_kept_axis (a : nat) (s : list nat) :
  size_of (firstn a s ++ 1 :: skipn (S a) s) = size_of (drop_axis a s).
Proof.
  unfold drop_axis. rewrite !size_of_app.
  change (size_of (1 :: skipn (S a) s)) with (1 * size_of (skipn (S a) s)).
  lia.
Qed.

Lemma drop_axis_removes (a : nat) (s : list nat) :
  a < length s -> drop_axis a s = remove_axis a s.
Proof.
  intros Hlt. symmetry. apply remove_axis_split. exact Hlt.
Qed.

Lemma drop_inserted (a i : nat) :
  forall idx, a <= length idx -> drop_axis a (insert_axis a i idx) = idx.
Proof.
  unfold drop_axis, insert_axis.
  induction a as [|a IH]; intros idx Hle; [reflexivity|].
  destruct idx as [|d idx]; [simpl in Hle; lia|].
  rewrite !firstn_cons, !skipn_cons. cbn [app].
  rewrite firstn_cons, skipn_cons. cbn [app].
  f_equal. apply IH. simpl in Hle. lia.
Qed.

(** A reducer built with [keepdims], read at the indices of its input:
    what it holds for an index is the update statement folded over the
    input's line through that index. *)
Lemma kept_axis_cells {A : Type} `{Scalar A} (sop : ScalarOp)
    (identity : xnum) (ax : Z) (ndim : nat) (dtype : np_dtype)
    (r : reducer_src) (x : ndarray A) :
  create_axis_reducer sop identity ax ndim dtype true = Ok r ->
  well_formed x -> ndim_of x = ndim ->
  exists a upd idx_text arr_text yk,
    normalize_axis_index ax ndim = Ok a
    /\ scalar_in_place_fn sop idx_text "res" arr_text = Ok upd
    /\ run_reducer r (VArray x) = Ok (VArray yk)
    /\ shape yk = firstn a (shape x) ++ 1 :: skipn (S a) (shape x)
    /\ well_formed yk
    /\ forall j,
         in_boundsb j (shape x) = true ->
         exists xs,
           axis_slice x a (drop_axis a j) = Ok xs
           /\ getitem yk (broadcast_index (shape yk) j)
              = Ok (fold_update upd (s_of_literal (identity_literal identity))
                      0 xs).
Proof.
  intros Hr Hw Hrank. unfold ndim_of in Hrank.
  destruct (create_axis_reducer_update _ _ _ _ _ _ _ Hr)
    as [a [upd [it [at_ [Ha [Hupd ->]]]]]].
  pose proof (normalize_axis_index_bound _ _ _ Ha) as Hlt.
  exists a, upd, it, at_.
  destruct (1 <? ndim) eqn:E.
  - subst ndim.
    destruct (run_reduceND_cells upd x a Hw Hlt (identity_literal identity)
                dtype true) as [res [Erun [Hs [Hres Hcells]]]].
    exists (np_expand_dims res a).
    assert (Hshape : shape (np_expand_dims res a)
                     = firstn a (shape x) ++ 1 :: skipn (S a) (shape x)).
    { unfold np_expand_dims. cbn [shape]. rewrite Hs.
      apply expand_removed_axis. exact Hlt. }
    split; [exact Ha|]. split; [exact Hupd|]. split; [exact Erun|].
    split; [exact Hshape|]. split.
    { unfold well_formed. rewrite Hshape, size_of_kept_axis.
      rewrite (drop_axis_removes a (shape x) Hlt), <- Hs. exact Hres. }
    intros j Hj.
    destruct (decompose_index a (shape x) j Hlt Hj) as [Hd _].
    destruct (Hcells _ Hd) as [xs [Hxs Hc]].
    exists xs. split; [exact Hxs|].
    rewrite Hshape.
    destruct (keepdims_index a (shape x) j Hlt Hj) as [Hin [Hrav _]].
    apply cell_getitem; [rewrite Hshape; exact Hin|].
    unfold cell. rewrite Hshape, Hrav.
    unfold cell in Hc. rewrite Hs, <- (drop_axis_removes a _ Hlt) in Hc.
    exact Hc.
  - apply Nat.ltb_ge in E. assert (Hone : length (shape x) = 1) by lia.
    assert (a = 0) by lia. subst a.
    destruct (vector_shape x Hw Hone) as [n [Hs Hd]].
    exists (mk_ndarray [1]
              [fold_update upd (s_of_literal (identity_literal identity))
                 0 (data x)]).
    split; [exact Ha|]. split; [exact Hupd|]. split.
    { rewrite (run_reduce1D_fold upd x n Hs Hd). reflexivity. }
    split; [rewrite Hs; reflexivity|]. split; [reflexivity|].
    intros j Hj. rewrite Hs in Hj.
    destruct j as [|i [|i' j]]; cbn in Hj; try discriminate Hj;
      [|rewrite andb_false_r in Hj; discriminate Hj].
    exists (data x). split; [|reflexivity].
    unfold axis_slice, drop_axis. rewrite Hs.
    cbn [nth insert_axis firstn skipn app].
    rewrite (vector_slice x n Hs Hd n 0) by lia.
    cbn [skipn]. rewrite <- Hd, firstn_all. reflexivity.
Qed.

(** An operator between an array and a reduction of the same rank that
    kept the reduced axis with length 1. *)
Lemma np_binary_kept_r {A : Type} `{Scalar A} (o : binop) (a : nat)
    (x yk : ndarray A) :
  well_formed x -> well_formed yk -> a < length (shape x) ->
  shape yk = firstn a (shape x) ++ 1 :: skipn (S a) (shape x) ->
  exists r,
    np_binary o x yk = Ok r
    /\ shape r = shape x
    /\ well_formed r
    /\ forall j u v,
         in_boundsb j (shape x) = true ->
         getitem x j = Ok u ->
         getitem yk (broadcast_index (shape yk) j) = Ok v ->
         getitem r j = Ok (s_binop o u v).
Proof.
  intros Hwx Hwy Hlt Hs.
  destruct (np_binary_cells o x yk (shape x)) as [r [Er [Hsr [Hwr Hc]]]].
  - rewrite Hs. apply broadcast_keepdims_r. exact Hlt.
  - intros j Hj. rewrite (broadcast_index_self _ _ Hj).
    apply getitem_ok; assumption.
  - intros j Hj. apply getitem_ok; [exact Hwy|].
    rewrite Hs. apply (keepdims_index a (shape x) j Hlt Hj).
  - exists r. split; [exact Er|]. split; [exact Hsr|]. split; [exact Hwr|].
    intros j u v Hj Hu Hv.
    destruct (Hc j Hj) as [u' [v' [Hu' [Hv' Hr]]]].
    rewrite (broadcast_index_self _ _ Hj), Hu in Hu'.
    rewrite Hv in Hv'. inversion Hu'; inversion Hv'; subst. exact Hr.
Qed.

Lemma np_binary_kept_l {A : Type} `{Scalar A} (o : binop) (a : nat)
    (yk x : ndarray A) :
  well_formed x -> well_formed yk -> a < length (shape x) ->
  shape yk = firstn a (shape x) ++ 1 :: skipn (S a) (shape x) ->
  exists r,
    np_binary o yk x = Ok r
    /\ shape r = shape x
    /\ well_formed r
    /\ forall j u v,
         in_boundsb j (shape x) = true ->
         getitem yk (broadcast_index (shape yk) j) = Ok u ->
         getitem x j = Ok v ->
         getitem r j = Ok (s_binop o u v).
Proof.
  intros Hwx Hwy Hlt Hs.
  destruct (np_binary_cells o yk x (shape x)) as [r [Er [Hsr [Hwr Hc]]]].
  - rewrite Hs. apply broadcast_keepdims_l. exact Hlt.
  - intros j Hj. apply getitem_ok; [exact Hwy|].
    rewrite Hs. apply (keepdims_index a (shape x) j Hlt Hj).
  - intros j Hj. rewrite (broadcast_index_self _ _ Hj).
    apply getitem_ok; assumption.
  - exists r. split; [exact Er|]. split; [exact Hsr|]. split; [exact Hwr|].
    intros j u v Hj Hu Hv.
    destruct (Hc j Hj) as [u' [v' [Hu' [Hv' Hr]]]].
    rewrite (broadcast_index_self _ _ Hj), Hv in Hv'.
    rewrite Hu in Hu'. inversion Hu'; inversion Hv'; subst. exact Hr.
Qed.

(** An operator between two arrays of the same shape. *)
Lemma np_binary_same {A : Type} `{Scalar A} (o : binop) (x y : ndarray A) :
  well_formed x -> well_formed y -> shape y = shape x ->
  exists r,
    np_binary o x y = Ok r
    /\ shape r = shape x
    /\ well_formed r
    /\ forall j u v,
         in_boundsb j (shape x) = true ->
         getitem x j = Ok u -> getitem y j = Ok v ->
         getitem r j = Ok (s_binop o u v).
Proof.
  intros Hwx Hwy Hs.
  destruct (np_binary_cells o x y (shape x)) as [r [Er [Hsr [Hwr Hc]]]].
  - rewrite Hs. apply broadcast_shapes2_idem.
  - intros j Hj. rewrite (broadcast_index_self _ _ Hj).
    apply getitem_ok; assumption.
  - intros j Hj. rewrite Hs, (broadcast_index_self _ _ Hj).
    apply getitem_ok; [exact Hwy|rewrite Hs; exact Hj].
  - exists r. split; [exact Er|]. split; [exact Hsr|]. split; [exact Hwr|].
    intros j u v Hj Hu Hv.
    destruct (Hc j Hj) as [u' [v' [Hu' [Hv' Hr]]]].
    rewrite (broadcast_index_self _ _ Hj), Hu in Hu'.
    rewrite Hs, (broadcast_index_self _ _ Hj), Hv in Hv'.
    inversion Hu'; inversion Hv'; subst. exact Hr.
Qed.

(** *** Lines of an array along an axis *)

Lemma mapM_lift {B C D : Type} (f : B -> result C) (h : B -> result D)
    (g : C -> D) :
  forall (l : list B) (r : list C),
    mapM f l = Ok r ->
    (forall b c, In b l -> f b = Ok c -> h b = Ok (g c)) ->
    mapM h l = Ok (map g r).
Proof.
  induction l as [|b l IH]; intros r Hm Hp; cbn [mapM] in *.
  - inversion Hm. reflexivity.
  - destruct (f b) as [c|e] eqn:Eb; cbn [bind] in Hm; [|discriminate].
    destruct (mapM f l) as [cs|e] eqn:El; cbn [bind] in Hm; [|discriminate].
    inversion Hm; subst r.
    rewrite (Hp b c (or_introl eq_refl) Eb). cbn [bind].
    rewrite (IH cs eq_refl (fun b' c' Hb' => Hp b' c' (or_intror Hb'))).
    reflexivity.
Qed.

Lemma mapM_lift2 {B C D E : Type} (f1 : B -> result C) (f2 : B -> result D)
    (h : B -> result E) (g : C -> D -> E) :
  forall (l : list B) (r1 : list C) (r2 : list D),
    mapM f1 l = Ok r1 -> mapM f2 l = Ok r2 ->
    (forall b c d, In b l -> f1 b = Ok c -> f2 b = Ok d -> h b = Ok (g c d)) ->
    mapM h l = Ok (map (fun p => g (fst p) (snd p)) (combine r1 r2)).
Proof.
  induction l as [|b l IH]; intros r1 r2 H1 H2 Hp; cbn [mapM] in *.
  - inversion H1. reflexivity.
  - destruct (f1 b) as [c|e] eqn:E1; cbn [bind] in H1; [|discriminate].
    destruct (mapM f1 l) as [cs|e] eqn:L1; cbn [bind] in H1; [|discriminate].
    destruct (f2 b) as [d|e] eqn:E2; cbn [bind] in H2; [|discriminate].
    destruct (mapM f2 l) as [ds|e] eqn:L2; cbn [bind] in H2; [|discriminate].
    inversion H1; inversion H2; subst r1 r2.
    rewrite (Hp b c d (or_introl eq_refl) E1 E2). cbn [bind].
    rewrite (IH cs ds eq_refl eq_refl
               (fun b' c' d' Hb' => Hp b' c' d' (or_intror Hb'))).
    reflexivity.
Qed.

Lemma axis_slice_ok {B : Type} (x : ndarray B) (a : nat) (idx : list nat) :
  well_formed x -> a < length (shape x) ->
  in_boundsb idx (remove_axis a (shape x)) = true ->
  exists xs, axis_slice x a idx = Ok xs.
Proof.
  intros Hw Hlt Hb. unfold axis_slice. apply mapM_ok.
  intros i Hi. apply in_seq in Hi. apply getitem_ok; [exact Hw|].
  apply insert_axis_in_bounds; [exact Hlt|exact Hb|lia].
Qed.

Lemma line_index (a i : nat) (s idx : list nat) :
  a < length s -> in_boundsb idx (remove_axis a s) = true ->
  i < nth a s 0 ->
  in_boundsb (insert_axis a i idx) s = true
  /\ drop_axis a (insert_axis a i idx) = idx.
Proof.
  intros Hlt Hb Hi. split.
  - apply insert_axis_in_bounds; assumption.
  - apply drop_inserted.
    rewrite (in_boundsb_length _ _ Hb), remove_axis_length. lia.
Qed.

(** The line of [y] is the line of [x] mapped by [g], when that holds
    element by element. *)
Lemma axis_slice_lift {B C : Type} (x : ndarray B) (y : ndarray C)
    (g : B -> C) (a : nat) (idx : list nat) (xs : list B) :
  shape y = shape x ->
  axis_slice x a idx = Ok xs ->
  (forall i v, i < nth a (shape x) 0 ->
               getitem x (insert_axis a i idx) = Ok v ->
               getitem y (insert_axis a i idx) = Ok (g v)) ->
  axis_slice y a idx = Ok (map g xs).
Proof.
  intros Hs Hx Hp. unfold axis_slice in *. rewrite Hs.
  apply (mapM_lift _ _ g _ _ Hx).
  intros i v Hi. apply in_seq in Hi. apply Hp. lia.
Qed.

Lemma axis_slice_lift2 {B C D : Type} (x1 : ndarray B) (x2 : ndarray C)
    (y : ndarray D) (g : B -> C -> D) (a : nat) (idx : list nat)
    (xs1 : list B) (xs2 : list C) :
  shape x2 = shape x1 -> shape y = shape x1 ->
  axis_slice x1 a idx = Ok xs1 ->
  axis_slice x2 a idx = Ok xs2 ->
  (forall i u v, i < nth a (shape x1) 0 ->
                 getitem x1 (insert_axis a i idx) = Ok u ->
                 getitem x2 (insert_axis a i idx) = Ok v ->
                 getitem y (insert_axis a i idx) = Ok (g u v)) ->
  axis_slice y a idx
  = Ok (map (fun p => g (fst p) (snd p)) (combine xs1 xs2)).
Proof.
  intros Hs2 Hs H1 H2 Hp. unfold axis_slice in *. rewrite Hs.
  rewrite Hs2 in H2.
  apply (mapM_lift2 _ _ _ g _ _ _ H1 H2).
  intros i u v Hi. apply in_seq in Hi. apply Hp. lia.
Qed.

(** ** The softmax kernels along an axis *)

Lemma fold_update_line_max {A : Type} `{Scalar A} (upd : stmt)
    (idx_text arr_text : string) (xs : list A) :
  scalar_in_place_fn ScalarMaximum idx_text "res" arr_text = Ok upd ->
  fold_update upd (s_of_literal (identity_literal NInf)) 0 xs = line_max xs.
Proof.
  intros E. inversion E; subst upd. clear E. unfold line_max.
  cbn [identity_literal]. generalize (s_of_literal LNegNpInf) 0.
  induction xs as [|v xs IH]; intros acc i; [reflexivity|].
  cbn [fold_update fold_left]. rewrite IH. reflexivity.
Qed.

Lemma fold_update_line_sum {A : Type} `{Scalar A} (upd : stmt)
    (idx_text arr_text : string) (xs : list A) :
  scalar_in_place_fn Add idx_text "res" arr_text = Ok upd ->
  fold_update upd (s_of_literal (identity_literal (Num 0))) 0 xs
  = line_sum xs.
Proof.
  intros E. inversion E; subst upd. clear E. unfold line_sum.
  cbn [identity_literal]. generalize (s_of_literal (LText (Num 0))) 0.
  induction xs as [|v xs IH]; intros acc i; [reflexivity|].
  cbn [fold_update fold_left]. rewrite IH. reflexivity.
Qed.

(** The reducers of the softmax kernels, read at the indices of their
    input. *)
Lemma kept_max {A : Type} `{Scalar A} (a ndim : nat) (dt : np_dtype)
    (r : reducer_src) (x : ndarray A) :
  create_axis_reducer ScalarMaximum NInf (Z.of_nat a) ndim dt true = Ok r ->
  well_formed x -> ndim_of x = ndim ->
  exists zk,
    a < ndim
    /\ run_reduce (Reducer r) x = Ok zk
    /\ shape zk = firstn a (shape x) ++ 1 :: skipn (S a) (shape x)
    /\ well_formed zk
    /\ forall j xs,
         in_boundsb j (shape x) = true ->
         axis_slice x a (drop_axis a j) = Ok xs ->
         getitem zk (broadcast_index (shape zk) j) = Ok (line_max xs).
Proof.
  intros Hr Hw Hrank.
  destruct (kept_axis_cells _ _ _ _ _ _ x Hr Hw Hrank)
    as [a1 [upd [it [at_ [zk [Ha [Hupd [Ez [Hs [Hwz Hz]]]]]]]]]].
  pose proof (normalize_axis_index_of_nat _ _ _ Ha). subst a1.
  exists zk. split; [exact (normalize_axis_index_bound _ _ _ Ha)|].
  split; [cbn [run_reduce]; rewrite Ez; reflexivity|].
  split; [exact Hs|]. split; [exact Hwz|].
  intros j xs Hj Hxs. destruct (Hz j Hj) as [xs' [Hxs' Hg]].
  rewrite Hxs in Hxs'. inversion Hxs'; subst xs'.
  rewrite Hg, (fold_update_line_max upd it at_ xs Hupd). reflexivity.
Qed.

Lemma kept_sum {A : Type} `{Scalar A} (a ndim : nat) (dt : np_dtype)
    (r : reducer_src) (x : ndarray A) :
  create_axis_reducer Add (Num 0) (Z.of_nat a) ndim dt true = Ok r ->
  well_formed x -> ndim_of x = ndim ->
  exists wk,
    a < ndim
    /\ run_reduce (Reducer r) x = Ok wk
    /\ shape wk = firstn a (shape x) ++ 1 :: skipn (S a) (shape x)
    /\ well_formed wk
    /\ forall j xs,
         in_boundsb j (shape x) = true ->
         axis_slice x a (drop_axis a j) = Ok xs ->
         getitem wk (broadcast_index (shape wk) j) = Ok (line_sum xs).
Proof.
  intros Hr Hw Hrank.
  destruct (kept_axis_cells _ _ _ _ _ _ x Hr Hw Hrank)
    as [a1 [upd [it [at_ [wk [Ha [Hupd [Ez [Hs [Hwz Hz]]]]]]]]]].
  pose proof (normalize_axis_index_of_nat _ _ _ Ha). subst a1.
  exists wk. split; [exact (normalize_axis_index_bound _ _ _ Ha)|].
  split; [cbn [run_reduce]; rewrite Ez; reflexivity|].
  split; [exact Hs|]. split; [exact Hwz|].
  intros j xs Hj Hxs. destruct (Hz j Hj) as [xs' [Hxs' Hg]].
  rewrite Hxs in Hxs'. inversion Hxs'; subst xs'.
  rewrite Hg, (fold_update_line_sum upd it at_ xs Hupd). reflexivity.
Qed.

Lemma axis_reducer_builds (sop : ScalarOp) (identity : xnum) (a ndim : nat)
    (dt : np_dtype) :
  is_registered sop = true -> a < ndim ->
  exists r, create_axis_reducer sop identity (Z.of_nat a) ndim dt true = Ok r.
Proof.
  intros Hreg Hlt.
  destruct (create_axis_reducer_ok sop identity (Z.of_nat a) ndim a dt true
              Hreg (normalize_axis_index_nat a ndim Hlt)) as [upd Hupd].
  eexists. exact Hupd.
Qed.

Lemma run_softmax_lines {A : Type} `{Scalar A} (np_exp : A -> A)
    (a ndim : nat) (dt : np_dtype) (rmax rsum : reducer_src) (x : ndarray A) :
  create_axis_reducer ScalarMaximum NInf (Z.of_nat a) ndim dt true = Ok rmax ->
  create_axis_reducer Add (Num 0) (Z.of_nat a) ndim dt true = Ok rsum ->
  well_formed x -> ndim_of x = ndim ->
  exists y,
    run_softmax np_exp (mk_softmax_fn (Reducer rmax) (Reducer rsum)) x = Ok y
    /\ shape y = shape x
    /\ well_formed y
    /\ forall idx,
         in_boundsb idx (remove_axis a (shape x)) = true ->
         exists xs,
           axis_slice x a idx = Ok xs
           /\ axis_slice y a idx = Ok (softmax_line np_exp xs).
Proof.
  intros Hmax Hsum Hw Hrank.
  destruct (kept_max a ndim dt rmax x Hmax Hw Hrank)
    as [zk [Hlt [Ez [Hsz [Hwz Hz]]]]].
  assert (Hlt' : a < length (shape x)) by (unfold ndim_of in Hrank; lia).
  destruct (np_binary_kept_r BSub a x zk Hw Hwz Hlt' Hsz)
    as [d [Ed [Hsd [Hwd Hd]]]].
  set (e_x := np_unary np_exp d).
  assert (Hwe : well_formed e_x) by (apply np_unary_well_formed; exact Hwd).
  assert (Hse : shape e_x = shape x) by exact Hsd.
  assert (Hre : ndim_of e_x = ndim) by (unfold ndim_of; rewrite Hse; exact Hrank).
  destruct (kept_sum a ndim dt rsum e_x Hsum Hwe Hre)
    as [wk [_ [Ew [Hsw [Hww Hwk]]]]].
  assert (Hlte : a < length (shape e_x)) by (rewrite Hse; exact Hlt').
  destruct (np_binary_kept_r BTrueDiv a e_x wk Hwe Hww Hlte Hsw)
    as [y [Ey [Hsy [Hwy Hy]]]].
  exists y. split.
  { unfold run_softmax. cbn [sm_reduce_max sm_reduce_sum].
    rewrite Ez. cbn [bind]. rewrite Ed. cbn [bind]. fold e_x.
    rewrite Ew. cbn [bind]. rewrite Ey. reflexivity. }
  split; [rewrite Hsy; exact Hse|]. split; [exact Hwy|].
  intros idx Hidx.
  destruct (axis_slice_ok x a idx Hw Hlt' Hidx) as [xs Hxs].
  exists xs. split; [exact Hxs|].
  assert (He : axis_slice e_x a idx
               = Ok (map (fun v => np_exp (s_binop BSub v (line_max xs))) xs)).
  { apply (axis_slice_lift x e_x _ a idx xs Hse Hxs).
    intros i v Hi Hv.
    destruct (line_index a i (shape x) idx Hlt' Hidx Hi) as [Hj Hdrop].
    apply np_unary_getitem. apply (Hd _ v _ Hj Hv).
    apply Hz; [exact Hj|]. rewrite Hdrop. exact Hxs. }
  unfold softmax_line.
  apply (axis_slice_lift e_x y _ a idx _ Hsy He).
  intros i v Hi Hv. rewrite Hse in Hi.
  destruct (line_index a i (shape x) idx Hlt' Hidx Hi) as [Hj Hdrop].
  rewrite <- Hse in Hj.
  apply (Hy _ v _ Hj Hv).
  apply Hwk; [exact Hj|]. rewrite Hdrop. exact He.
Qed.

Lemma run_log_softmax_lines {A : Type} `{Scalar A} (np_exp np_log : A -> A)
    (a ndim : nat) (dt : np_dtype) (rmax rsum : reducer_src) (x : ndarray A) :
  create_axis_reducer ScalarMaximum NInf (Z.of_nat a) ndim dt true = Ok rmax ->
  create_axis_reducer Add (Num 0) (Z.of_nat a) ndim dt true = Ok rsum ->
  well_formed x -> ndim_of x = ndim ->
  exists y,
    run_log_softmax np_exp np_log
      (mk_log_softmax_fn (Reducer rmax) (Reducer rsum)) x = Ok y
    /\ shape y = shape x
    /\ well_formed y
    /\ forall idx,
         in_boundsb idx (remove_axis a (shape x)) = true ->
         exists xs,
           axis_slice x a idx = Ok xs
           /\ axis_slice y a idx = Ok (log_softmax_line np_exp np_log xs).
Proof.
  intros Hmax Hsum Hw Hrank.
  destruct (kept_max a ndim dt rmax x Hmax Hw Hrank)
    as [zk [Hlt [Ez [Hsz [Hwz Hz]]]]].
  assert (Hlt' : a < length (shape x)) by (unfold ndim_of in Hrank; lia).
  destruct (np_binary_kept_r BSub a x zk Hw Hwz Hlt' Hsz)
    as [xdev [Ed [Hsd [Hwd Hd]]]].
  set (e_x := np_unary np_exp xdev).
  assert (Hwe : well_formed e_x) by (apply np_unary_well_formed; exact Hwd).
  assert (Hse : shape e_x = shape x) by exact Hsd.
  assert (Hre : ndim_of e_x = ndim) by (unfold ndim_of; rewrite Hse; exact Hrank).
  destruct (kept_sum a ndim dt rsum e_x Hsum Hwe Hre)
    as [wk [_ [Ew [Hsw [Hww Hwk]]]]].
  set (lw := np_unary np_log wk).
  assert (Hwl : well_formed lw) by (apply np_unary_well_formed; exact Hww).
  assert (Hltd : a < length (shape xdev)) by (rewrite Hsd; exact Hlt').
  assert (Hsl : shape lw
                = firstn a (shape xdev) ++ 1 :: skipn (S a) (shape xdev)).
  { change (shape lw) with (shape wk). rewrite Hsw, Hse, Hsd. reflexivity. }
  destruct (np_binary_kept_r BSub a xdev lw Hwd Hwl Hltd Hsl)
    as [y [Ey [Hsy [Hwy Hy]]]].
  exists y. split.
  { unfold run_log_softmax. cbn [lsm_reduce_max lsm_reduce_sum].
    rewrite Ez. cbn [bind]. rewrite Ed. cbn [bind]. fold e_x.
    rewrite Ew. cbn [bind]. fold lw. rewrite Ey. reflexivity. }
  split; [rewrite Hsy; exact Hsd|]. split; [exact Hwy|].
  intros idx Hidx.
  destruct (axis_slice_ok x a idx Hw Hlt' Hidx) as [xs Hxs].
  exists xs. split; [exact Hxs|].
  assert (Hx : axis_slice xdev a idx
               = Ok (map (fun v => s_binop BSub v (line_max xs)) xs)).
  { apply (axis_slice_lift x xdev _ a idx xs Hsd Hxs).
    intros i v Hi Hv.
    destruct (line_index a i (shape x) idx Hlt' Hidx Hi) as [Hj Hdrop].
    apply (Hd _ v _ Hj Hv).
    apply Hz; [exact Hj|]. rewrite Hdrop. exact Hxs. }
  assert (He : axis_slice e_x a idx
               = Ok (map np_exp
                       (map (fun v => s_binop BSub v (line_max xs)) xs))).
  { apply (axis_slice_lift xdev e_x _ a idx _ eq_refl Hx).
    intros i v Hi Hv. apply np_unary_getitem. exact Hv. }
  unfold log_softmax_line.
  apply (axis_slice_lift xdev y _ a idx _ Hsy Hx).
  intros i v Hi Hv. rewrite Hsd in Hi.
  destruct (line_index a i (shape x) idx Hlt' Hidx Hi) as [Hj Hdrop].
  assert (Hjd : in_boundsb (insert_axis a i idx) (shape xdev) = true)
    by (rewrite Hsd; exact Hj).
  apply (Hy _ v _ Hjd Hv).
  change (shape lw) with (shape wk).
  apply np_unary_getitem.
  apply Hwk; [rewrite Hse; exact Hj|]. rewrite Hdrop. exact He.
Qed.

Lemma run_softmax_grad_lines {A : Type} `{Scalar A}
    (a ndim : nat) (dt : np_dtype) (rsum : reducer_src) (dy sm : ndarray A) :
  create_axis_reducer Add (Num 0) (Z.of_nat a) ndim dt true = Ok rsum ->
  well_formed dy -> well_formed sm -> shape dy = shape sm ->
  ndim_of sm = ndim ->
  exists dx,
    run_softmax_grad (mk_softmax_grad_fn (Reducer rsum)) dy sm = Ok dx
    /\ shape dx = shape sm
    /\ well_formed dx
    /\ forall idx,
         in_boundsb idx (remove_axis a (shape sm)) = true ->
         exists dys sms,
           axis_slice dy a idx = Ok dys
           /\ axis_slice sm a idx = Ok sms
           /\ axis_slice dx a idx = Ok (softmax_grad_line dys sms).
Proof.
  intros Hsum Hwdy Hwsm Hshape Hrank.
  destruct (np_binary_same BMul dy sm Hwdy Hwsm (eq_sym Hshape))
    as [p [Ep [Hsp [Hwp Hp]]]].
  assert (Hrp : ndim_of p = ndim)
    by (unfold ndim_of in *; rewrite Hsp, Hshape; exact Hrank).
  destruct (kept_sum a ndim dt rsum p Hsum Hwp Hrp)
    as [sk [Hlt [Es [Hss [Hws Hsk]]]]].
  assert (Hlt' : a < length (shape sm)) by (unfold ndim_of in Hrank; lia).
  assert (Hss' : shape sk = firstn a (shape sm) ++ 1 :: skipn (S a) (shape sm)).
  { rewrite Hss, Hsp, Hshape. reflexivity. }
  destruct (np_binary_kept_l BMul a sk sm Hwsm Hws Hlt' Hss')
    as [t [Et [Hst [Hwt Ht]]]].
  assert (Hstp : shape t = shape p) by (rewrite Hst, Hsp, Hshape; reflexivity).
  destruct (np_binary_same BSub p t Hwp Hwt Hstp)
    as [dx [Edx [Hsdx [Hwdx Hdx]]]].
  exists dx. split.
  { unfold run_softmax_grad. cbn [smg_reduce_sum].
    rewrite Ep. cbn [bind]. rewrite Es. cbn [bind]. rewrite Et. cbn [bind].
    rewrite Edx. reflexivity. }
  split; [rewrite Hsdx, Hsp, Hshape; reflexivity|]. split; [exact Hwdx|].
  intros idx Hidx.
  assert (Hltdy : a < length (shape dy)) by (rewrite Hshape; exact Hlt').
  assert (Hidy : in_boundsb idx (remove_axis a (shape dy)) = true)
    by (rewrite Hshape; exact Hidx).
  destruct (axis_slice_ok dy a idx Hwdy Hltdy Hidy) as [dys Hdys].
  destruct (axis_slice_ok sm a idx Hwsm Hlt' Hidx) as [sms Hsms].
  exists dys, sms. split; [exact Hdys|]. split; [exact Hsms|].
  assert (Hpl : axis_slice p a idx
                = Ok (map (fun q => s_binop BMul (fst q) (snd q))
                        (combine dys sms))).
  { apply (axis_slice_lift2 dy sm p (s_binop BMul) a idx dys sms
             (eq_sym Hshape) Hsp Hdys Hsms).
    intros i u v Hi Hu Hv.
    destruct (line_index a i (shape dy) idx Hltdy Hidy Hi) as [Hj _].
    exact (Hp _ u v Hj Hu Hv). }
  unfold softmax_grad_line.
  set (pl := map (fun q => s_binop BMul (fst q) (snd q)) (combine dys sms)) in *.
  apply (axis_slice_lift2 p sm dx
           (fun u v => s_binop BSub u (s_binop BMul (line_sum pl) v))
           a idx pl sms).
  - rewrite Hsp, Hshape. reflexivity.
  - exact Hsdx.
  - exact Hpl.
  - exact Hsms.
  - intros i u v Hi Hu Hv. rewrite Hsp, Hshape in Hi.
    destruct (line_index a i (shape sm) idx Hlt' Hidx Hi) as [Hj Hdrop].
    assert (Hjp : in_boundsb (insert_axis a i idx) (shape p) = true)
      by (rewrite Hsp, Hshape; exact Hj).
    apply (Hdx _ u _ Hjp Hu).
    apply (Ht _ _ v Hj); [|exact Hv].
    apply Hsk; [exact Hjp|]. rewrite Hdrop. exact Hpl.
Qed.

Lemma softmax_builds (op : Softmax) (node : Apply) (x_at : TensorType)
    (ax : Z) (a : nat) :
  nth_error (inputs node) 0 = Some x_at ->
  sm_axis op = Some ax ->
  normalize_axis_index ax (t_ndim x_at) = Ok a ->
  exists rmax rsum,
    numba_funcify_Softmax op node
    = Ok (mk_softmax_fn (Reducer rmax) (Reducer rsum))
    /\ create_axis_reducer ScalarMaximum NInf (Z.of_nat a) (t_ndim x_at)
         (t_dtype x_at) true = Ok rmax
    /\ create_axis_reducer Add (Num 0) (Z.of_nat a) (t_ndim x_at)
         (t_dtype x_at) true = Ok rsum.
Proof.
  intros Hin Hax Hn.
  pose proof (normalize_axis_index_bound _ _ _ Hn) as Hlt.
  destruct (axis_reducer_builds ScalarMaximum NInf a (t_ndim x_at)
              (t_dtype x_at) eq_refl Hlt) as [rmax Hmax].
  destruct (axis_reducer_builds Add (Num 0) a (t_ndim x_at)
              (t_dtype x_at) eq_refl Hlt) as [rsum Hsum].
  exists rmax, rsum. split; [|split; assumption].
  unfold numba_funcify_Softmax. rewrite Hin. cbn [of_option bind].
  rewrite Hax, Hn. cbn [bind]. rewrite Hmax. cbn [bind]. rewrite Hsum.
  reflexivity.
Qed.

Lemma log_softmax_builds (op : LogSoftmax) (node : Apply) (x_at : TensorType)
    (ax : Z) (a : nat) :
  nth_error (inputs node) 0 = Some x_at ->
  lsm_axis op = Some ax ->
  normalize_axis_index ax (t_ndim x_at) = Ok a ->
  exists rmax rsum,
    numba_funcify_LogSoftmax op node
    = Ok (mk_log_softmax_fn (Reducer rmax) (Reducer rsum))
    /\ create_axis_reducer ScalarMaximum NInf (Z.of_nat a) (t_ndim x_at)
         (t_dtype x_at) true = Ok rmax
    /\ create_axis_reducer Add (Num 0) (Z.of_nat a) (t_ndim x_at)
         (t_dtype x_at) true = Ok rsum.
Proof.
  intros Hin Hax Hn.
  pose proof (normalize_axis_index_bound _ _ _ Hn) as Hlt.
  destruct (axis_reducer_builds ScalarMaximum NInf a (t_ndim x_at)
              (t_dtype x_at) eq_refl Hlt) as [rmax Hmax].
  destruct (axis_reducer_builds Add (Num 0) a (t_ndim x_at)
              (t_dtype x_at) eq_refl Hlt) as [rsum Hsum].
  exists rmax, rsum. split; [|split; assumption].
  unfold numba_funcify_LogSoftmax. rewrite Hin. cbn [of_option bind].
  rewrite Hax, Hn. cbn [bind]. rewrite Hmax. cbn [bind]. rewrite Hsum.
  reflexivity.
Qed.

Lemma softmax_grad_builds (op : SoftmaxGrad) (node : Apply)
    (sm_at : TensorType) (ax : Z) (a : nat) :
  nth_error (inputs node) 1 = Some sm_at ->
  smg_axis op = Some ax ->
  normalize_axis_index ax (t_ndim sm_at) = Ok a ->
  exists rsum,
    numba_funcify_SoftmaxGrad op node = Ok (mk_softmax_grad_fn (Reducer rsum))
    /\ create_axis_reducer Add (Num 0) (Z.of_nat a) (t_ndim sm_at)
         (t_dtype sm_at) true = Ok rsum.
Proof.
  intros Hin Hax Hn.
  pose proof (normalize_axis_index_bound _ _ _ Hn) as Hlt.
  destruct (axis_reducer_builds Add (Num 0) a (t_ndim sm_at)
              (t_dtype sm_at) eq_refl Hlt) as [rsum Hsum].
  exists rsum. split; [|assumption].
  unfold numba_funcify_SoftmaxGrad. rewrite Hin. cbn [of_option bind].
  rewrite Hax, Hn. cbn [bind]. rewrite Hsum. reflexivity.
Qed.

(** X23. The softmax kernel built for an axis works line by line: on a
    well-formed array of the node's rank it returns an array of the same
    shape, and each of its lines along the axis is [softmax_line] of the
    input's line at the same place: the line's maximum (from [-inf]) is
    subtracted, [np.exp] applied, and the result divided by its sum (from
    zero).  Lines do not influence each other. *)
Theorem softmax_along_axis {A : Type} `{Scalar A} (np_exp : A -> A)
    (op : Softmax) (node : Apply) (x_at : TensorType) (ax : Z) (a : nat)
    (x : ndarray A)
    (Hin : nth_error (inputs node) 0 = Some x_at)
    (Hax : sm_axis op = Some ax)
    (Hnorm : normalize_axis_index ax (t_ndim x_at) = Ok a)
    (Hx : well_formed x)
    (Hrank : ndim_of x = t_ndim x_at) :
  exists k y,
    numba_funcify_Softmax op node = Ok k
    /\ run_softmax np_exp k x = Ok y
    /\ shape y = shape x
    /\ well_formed y
    /\ forall idx,
         in_boundsb idx (remove_axis a (shape x)) = true ->
         exists xs,
           axis_slice x a idx = Ok xs
           /\ axis_slice y a idx = Ok (softmax_line np_exp xs).
Proof.
  destruct (softmax_builds op node x_at ax a Hin Hax Hnorm)
    as [rmax [rsum [Hk [Hmax Hsum]]]].
  destruct (run_softmax_lines np_exp a _ _ rmax rsum x Hmax Hsum Hx Hrank)
    as [y Hy].
  exists (mk_softmax_fn (Reducer rmax) (Reducer rsum)), y.
  split; [exact Hk|exact Hy].
Qed.

Lemma softmax_along_axis_witness :
  let node := mk_Apply [mk_TensorType float64 2 [None; None]]
                       [mk_TensorType float64 2 [None; None]] in
  let x := mk_ndarray [2; 2] [Num 1; Num 2; Num 3; Num 4] in
  well_formed x
  /\ exists k y,
       numba_funcify_Softmax (mk_Softmax (Some (-1)%Z)) node = Ok k
       /\ run_softmax (fun v => xmul v v) k x = Ok y
       /\ shape y = [2; 2].
Proof.
  intros node x. split; [reflexivity|].
  destruct (softmax_along_axis (fun v => xmul v v) (mk_Softmax (Some (-1)%Z))
              node (mk_TensorType float64 2 [None; None]) (-1)%Z 1 x
              eq_refl eq_refl eq_refl eq_refl eq_refl)
    as [k [y [Hk [Hr [Hs _]]]]].
  exists k, y. split; [exact Hk|]. split; [exact Hr|exact Hs].
Defined.

(** X24. The log-softmax kernel built for an axis works line by line: the
    result has the input's shape and each of its lines along the axis is
    [log_softmax_line] of the input's line: the line minus its maximum,
    minus [np.log] of the sum of [np.exp] of that difference. *)
Theorem log_softmax_along_axis {A : Type} `{Scalar A} (np_exp np_log : A -> A)
    (op : LogSoftmax) (node : Apply) (x_at : TensorType) (ax : Z) (a : nat)
    (x : ndarray A)
    (Hin : nth_error (inputs node) 0 = Some x_at)
    (Hax : lsm_axis op = Some ax)
    (Hnorm : normalize_axis_index ax (t_ndim x_at) = Ok a)
    (Hx : well_formed x)
    (Hrank : ndim_of x = t_ndim x_at) :
  exists k y,
    numba_funcify_LogSoftmax op node = Ok k
    /\ run_log_softmax np_exp np_log k x = Ok y
    /\ shape y = shape x
    /\ well_formed y
    /\ forall idx,
         in_boundsb idx (remove_axis a (shape x)) = true ->
         exists xs,
           axis_slice x a idx = Ok xs
           /\ axis_slice y a idx = Ok (log_softmax_line np_exp np_log xs).
Proof.
  destruct (log_softmax_builds op node x_at ax a Hin Hax Hnorm)
    as [rmax [rsum [Hk [Hmax Hsum]]]].
  destruct (run_log_softmax_lines np_exp np_log a _ _ rmax rsum x Hmax Hsum
              Hx Hrank) as [y Hy].
  exists (mk_log_softmax_fn (Reducer rmax) (Reducer rsum)), y.
  split; [exact Hk|exact Hy].
Qed.

Lemma log_softmax_along_axis_witness :
  let node := mk_Apply [mk_TensorType float64 2 [None; None]]
                       [mk_TensorType float64 2 [None; None]] in
  let x := mk_ndarray [2; 2] [Num 1; Num 2; Num 3; Num 4] in
  well_formed x
  /\ exists k y,
       numba_funcify_LogSoftmax (mk_LogSoftmax (Some 0%Z)) node = Ok k
       /\ run_log_softmax (fun v => xmul v v) (fun v => xadd v v) k x = Ok y
       /\ shape y = [2; 2].
Proof.
  intros node x. split; [reflexivity|].
  destruct (log_softmax_along_axis (fun v => xmul v v) (fun v => xadd v v)
              (mk_LogSoftmax (Some 0%Z)) node
              (mk_TensorType float64 2 [None; None]) 0%Z 0 x
              eq_refl eq_refl eq_refl eq_refl eq_refl)
    as [k [y [Hk [Hr [Hs _]]]]].
  exists k, y. split; [exact Hk|]. split; [exact Hr|exact Hs].
Defined.

(** X25. The softmax-gradient kernel built for an axis (the rank and dtype
    are read from the node's second input) works line by line on two
    well-formed arrays of the same shape: the result has that shape and
    each of its lines along the axis is [softmax_grad_line] of the two
    inputs' lines: [dy * sm] minus the sum of [dy * sm] over the line
    times [sm]. *)
Theorem softmax_grad_along_axis {A : Type} `{Scalar A}
    (op : SoftmaxGrad) (node : Apply) (sm_at : TensorType) (ax : Z) (a : nat)
    (dy sm : ndarray A)
    (Hin : nth_error (inputs node) 1 = Some sm_at)
    (Hax : smg_axis op = Some ax)
    (Hnorm : normalize_axis_index ax (t_ndim sm_at) = Ok a)
    (Hdy : well_formed dy)
    (Hsm : well_formed sm)
    (Hshape : shape dy = shape sm)
    (Hrank : ndim_of sm = t_ndim sm_at) :
  exists k dx,
    numba_funcify_SoftmaxGrad op node = Ok k
    /\ run_softmax_grad k dy sm = Ok dx
    /\ shape dx = shape sm
    /\ well_formed dx
    /\ forall idx,
         in_boundsb idx (remove_axis a (shape sm)) = true ->
         exists dys sms,
           axis_slice dy a idx = Ok dys
           /\ axis_slice sm a idx = Ok sms
           /\ axis_slice dx a idx = Ok (softmax_grad_line dys sms).
Proof.
  destruct (softmax_grad_builds op node sm_at ax a Hin Hax Hnorm)
    as [rsum [Hk Hsum]].
  destruct (run_softmax_grad_lines a _ _ rsum dy sm Hsum Hdy Hsm Hshape Hrank)
    as [dx Hdx].
  exists (mk_softmax_grad_fn (Reducer rsum)), dx.
  split; [exact Hk|exact Hdx].
Qed.

Lemma softmax_grad_along_axis_witness :
  let t := mk_TensorType float64 2 [None; None] in
  let node := mk_Apply [t; t] [t] in
  let dy := mk_ndarray [2; 2] [Num 1; Num 2; Num 3; Num 4] in
  let sm := mk_ndarray [2; 2] [Num 1; Num 0; Num 0; Num 1] in
  well_formed dy /\ well_formed sm
  /\ exists k dx,
       numba_funcify_SoftmaxGrad (mk_SoftmaxGrad (Some 1%Z)) node = Ok k
       /\ run_softmax_grad k dy sm = Ok dx
       /\ shape dx = [2; 2].
Proof.
  intros t node dy sm. split; [reflexivity|]. split; [reflexivity|].
  destruct (softmax_grad_along_axis (mk_SoftmaxGrad (Some 1%Z)) node t 1%Z 1
              dy sm eq_refl eq_refl eq_refl eq_refl eq_refl eq_refl eq_refl)
    as [k [dx [Hk [Hr [Hs _]]]]].
  exists k, dx. split; [exact Hk|]. split; [exact Hr|exact Hs].
Defined.

(** ** The softmax kernels on finite numbers *)

Lemma line_max_from (ql : list Q) :
  forall m0,
  exists m,
    fold_left (fun acc v => if xltb acc v then v else acc) (map Num ql) (Num m0)
    = Num m
    /\ (m = m0 \/ In m ql)
    /\ (m0 <= m)%Q
    /\ forall q, In q ql -> (q <= m)%Q.
Proof.
  induction ql as [|q ql IH]; intros m0.
  - exists m0. split; [reflexivity|]. split; [left; reflexivity|].
    split; [apply Qle_refl|]. intros q [].
  - cbn [map fold_left xltb]. destruct (Qle_bool q m0) eqn:E; cbn [negb].
    + apply Qle_bool_iff in E.
      destruct (IH m0) as [m [Hm [Hin [Hle Hall]]]].
      exists m. split; [exact Hm|].
      split; [destruct Hin as [Hin|Hin]; [left|right; right]; exact Hin|].
      split; [exact Hle|].
      intros t [<-|Ht]; [exact (Qle_trans _ _ _ E Hle)|exact (Hall t Ht)].
    + assert (Hlt : (m0 < q)%Q).
      { apply Qnot_le_lt. intros Hc. apply Qle_bool_iff in Hc. congruence. }
      destruct (IH q) as [m [Hm [Hin [Hle Hall]]]].
      exists m. split; [exact Hm|].
      split.
      { right. destruct Hin as [Hin|Hin];
          [left; symmetry; exact Hin|right; exact Hin]. }
      split; [exact (Qle_trans _ _ _ (Qlt_le_weak _ _ Hlt) Hle)|].
      intros t [<-|Ht]; [exact Hle|exact (Hall t Ht)].
Qed.

Lemma line_max_finite (q : Q) (ql : list Q) :
  exists m,
    line_max (map Num (q :: ql)) = Num m
    /\ In m (q :: ql)
    /\ forall t, In t (q :: ql) -> (t <= m)%Q.
Proof.
  destruct (line_max_from ql q) as [m [Hm [Hin [Hle Hall]]]].
  exists m. split; [exact Hm|]. split.
  - destruct Hin as [Hin|Hin]; [left; symmetry; exact Hin|right; exact Hin].
  - intros t [<-|Ht]; [exact Hle|exact (Hall t Ht)].
Qed.

Lemma fold_left_xadd (ps : list Q) :
  forall a, fold_left xadd (map Num ps) (Num a) = Num (fold_left Qplus ps a).
Proof.
  induction ps as [|p ps IH]; intros a; [reflexivity|].
  cbn [map fold_left]. exact (IH (a + p)%Q).
Qed.

Lemma line_sum_finite (ps : list Q) :
  exists W, line_sum (map Num ps) = Num W /\ (W == Qsum ps)%Q.
Proof.
  exists (fold_left Qplus ps 0%Q). split.
  - exact (fold_left_xadd ps 0%Q).
  - rewrite fold_left_Qplus. ring.
Qed.

Lemma Qsum_positive (p : Q) (ps : list Q) :
  Forall (fun t => (0 < t)%Q) (p :: ps) -> (0 < Qsum (p :: ps))%Q.
Proof.
  revert p. induction ps as [|p' ps IH]; intros p Hall.
  - rewrite Qsum_cons. cbn [Qsum fold_right].
    apply Forall_inv in Hall. rewrite Qplus_0_r. exact Hall.
  - rewrite Qsum_cons.
    pose proof (Forall_inv Hall) as Hp.
    pose proof (IH p' (Forall_inv_tail Hall)) as Hs.
    rewrite <- (Qplus_0_r 0). apply Qplus_lt_le_compat; [exact Hp|].
    apply Qlt_le_weak. exact Hs.
Qed.

Lemma Qsum_divided (c : Q) (l : list Q) :
  ~ (c == 0)%Q ->
  (Qsum (map (fun p => p / c) l) == Qsum l / c)%Q.
Proof.
  intros Hc. induction l as [|p l IH].
  - cbn [map]. unfold Qsum. cbn [fold_right]. field. exact Hc.
  - cbn [map]. rewrite !Qsum_cons, IH. field. exact Hc.
Qed.

Lemma positive_not_zero (W : Q) : (0 < W)%Q -> Qeq_bool W 0 = false.
Proof.
  intros HW. destruct (Qeq_bool W 0) eqn:E; [|reflexivity].
  apply Qeq_bool_iff in E. rewrite E in HW.
  exfalso. exact (Qlt_irrefl _ HW).
Qed.

(** The softmax of a non-empty line of finite numbers, [np.exp] taking
    the values of [expq], all positive. *)
Lemma softmax_line_finite (np_exp : xnum -> xnum) (expq : Q -> Q)
    (q : Q) (ql : list Q) :
  (forall t, np_exp (Num t) = Num (expq t)) ->
  (forall t, (0 < expq t)%Q) ->
  exists m W,
    In m (q :: ql)
    /\ (forall t, In t (q :: ql) -> (t <= m)%Q)
    /\ (W == Qsum (map (fun t => expq (t - m)) (q :: ql)))%Q
    /\ (0 < W)%Q
    /\ softmax_line np_exp (map Num (q :: ql))
       = map (fun t => Num (expq (t - m) / W)%Q) (q :: ql)
    /\ (Qsum (map (fun t => expq (t - m) / W) (q :: ql)) == 1)%Q.
Proof.
  intros Hexp Hpos.
  destruct (line_max_finite q ql) as [m [Hm [Hin Hall]]].
  set (l := q :: ql) in *.
  set (ps := map (fun t => expq (t - m)%Q) l).
  assert (He : map (fun v => np_exp (s_binop BSub v (Num m))) (map Num l)
               = map Num ps).
  { unfold ps. rewrite !map_map. apply map_ext. intros t.
    exact (Hexp (t - m)%Q). }
  destruct (line_sum_finite ps) as [W [HW HWs]].
  assert (HWpos : (0 < W)%Q).
  { rewrite HWs. unfold ps, l. cbn [map]. apply Qsum_positive.
    change (Forall (fun t => (0 < t)%Q)
              (map (fun t => expq (t - m)%Q) (q :: ql))).
    apply Forall_forall. intros p Hp. apply in_map_iff in Hp.
    destruct Hp as [t [<- _]]. apply Hpos. }
  exists m, W. split; [exact Hin|]. split; [exact Hall|].
  split; [exact HWs|]. split; [exact HWpos|]. split.
  - unfold softmax_line. rewrite Hm, He, HW.
    unfold ps. rewrite !map_map. apply map_ext. intros t.
    cbn [s_binop xnum_Scalar xnum_binop xdiv].
    rewrite (positive_not_zero W HWpos). reflexivity.
  - transitivity (Qsum (map (fun p => p / W) ps))%Q.
    { unfold ps. rewrite map_map. reflexivity. }
    rewrite Qsum_divided, <- HWs.
    + field. intros Hc. rewrite Hc in HWpos. exact (Qlt_irrefl _ HWpos).
    + intros Hc. rewrite Hc in HWpos. exact (Qlt_irrefl _ HWpos).
Qed.

(** The log-softmax of a non-empty line of finite numbers. *)
Lemma log_softmax_line_finite (np_exp np_log : xnum -> xnum) (expq : Q -> Q)
    (q : Q) (ql : list Q) :
  (forall t, np_exp (Num t) = Num (expq t)) ->
  (forall t, (0 < expq t)%Q) ->
  exists m W,
    In m (q :: ql)
    /\ (forall t, In t (q :: ql) -> (t <= m)%Q)
    /\ (W == Qsum (map (fun t => expq (t - m)) (q :: ql)))%Q
    /\ (0 < W)%Q
    /\ log_softmax_line np_exp np_log (map Num (q :: ql))
       = map (fun t => xsub (Num (t - m)%Q) (np_log (Num W))) (q :: ql).
Proof.
  intros Hexp Hpos.
  destruct (line_max_finite q ql) as [m [Hm [Hin Hall]]].
  set (l := q :: ql) in *.
  set (ps := map (fun t => expq (t - m)%Q) l).
  assert (Hx : map (fun v => s_binop BSub v (Num m)) (map Num l)
               = map Num (map (fun t => (t - m)%Q) l)).
  { rewrite !map_map. reflexivity. }
  assert (He : map np_exp (map Num (map (fun t => (t - m)%Q) l)) = map Num ps).
  { unfold ps. rewrite !map_map. apply map_ext. intros t.
    exact (Hexp (t - m)%Q). }
  destruct (line_sum_finite ps) as [W [HW HWs]].
  assert (HWpos : (0 < W)%Q).
  { rewrite HWs. unfold ps, l. cbn [map]. apply Qsum_positive.
    change (Forall (fun t => (0 < t)%Q)
              (map (fun t => expq (t - m)%Q) (q :: ql))).
    apply Forall_forall. intros p Hp. apply in_map_iff in Hp.
    destruct Hp as [t [<- _]]. apply Hpos. }
  exists m, W. split; [exact Hin|]. split; [exact Hall|].
  split; [exact HWs|]. split; [exact HWpos|].
  unfold log_softmax_line. rewrite Hm, Hx, He, HW.
  rewrite !map_map. reflexivity.
Qed.

Lemma combine_map_Num (g : xnum -> xnum -> xnum) (gq : Q -> Q -> Q) :
  (forall u v, g (Num u) (Num v) = Num (gq u v)) ->
  forall l1 l2,
    map (fun p => g (fst p) (snd p)) (combine (map Num l1) (map Num l2))
    = map Num (map (fun p => gq (fst p) (snd p)) (combine l1 l2)).
Proof.
  intros Hg. induction l1 as [|u l1 IH]; intros [|v l2]; try reflexivity.
  cbn [map combine fst snd]. rewrite Hg, IH. reflexivity.
Qed.

Lemma Qsum_line_gradient (c : Q) :
  forall pl sl : list Q,
    length pl = length sl ->
    (Qsum (map (fun p => fst p - c * snd p) (combine pl sl))
     == Qsum pl - c * Qsum sl)%Q.
Proof.
  induction pl as [|p pl IH]; intros [|s sl] Hl; try discriminate Hl.
  - cbn [combine map]. unfold Qsum. cbn [fold_right]. ring.
  - cbn [combine map fst snd]. rewrite !Qsum_cons.
    rewrite (IH sl) by (simpl in Hl; lia). ring.
Qed.

(** The softmax gradient of two lines of finite numbers of the same
    length. *)
Lemma softmax_grad_line_finite (dl sl : list Q) :
  length dl = length sl ->
  exists gl,
    softmax_grad_line (map Num dl) (map Num sl) = map Num gl
    /\ length gl = length sl
    /\ (Qsum gl
        == Qsum (map (fun p => fst p * snd p) (combine dl sl))
           * (1 - Qsum sl))%Q.
Proof.
  intros Hl. unfold softmax_grad_line.
  set (pl := map (fun p => (fst p * snd p)%Q) (combine dl sl)).
  assert (Hp : map (fun p => s_binop BMul (fst p) (snd p))
                 (combine (map Num dl) (map Num sl)) = map Num pl).
  { apply (combine_map_Num xmul Qmult). intros u v. reflexivity. }
  rewrite Hp.
  destruct (line_sum_finite pl) as [S [HS HSs]]. rewrite HS.
  assert (Hlp : length pl = length sl).
  { unfold pl. rewrite length_map, length_combine. lia. }
  exists (map (fun p => (fst p - S * snd p)%Q) (combine pl sl)).
  split.
  - apply (combine_map_Num (fun u v => s_binop BSub u (s_binop BMul (Num S) v))
             (fun u v => (u - S * v)%Q)).
    intros u v. reflexivity.
  - split.
    + rewrite length_map, length_combine. lia.
    + rewrite (Qsum_line_gradient S pl sl Hlp), HSs. ring.
Qed.

Lemma finite_line (x : ndarray xnum) (qd : list Q) (a : nat) (idx : list nat)
    (xs : list xnum) :
  data x = map Num qd -> axis_slice x a idx = Ok xs ->
  exists ql, xs = map Num ql /\ length ql = nth a (shape x) 0.
Proof.
  intros Hfin Hxs.
  destruct (incl_map_Num xs qd) as [ql Hql].
  { rewrite <- Hfin. exact (axis_slice_incl x a idx xs Hxs). }
  exists ql. split; [exact Hql|].
  unfold axis_slice in Hxs. apply mapM_length in Hxs.
  rewrite length_seq in Hxs. rewrite <- Hxs, Hql, length_map. reflexivity.
Qed.

(** X26. Softmax along an axis on finite numbers, in exact arithmetic and
    for an [np.exp] with positive finite values [expq]: on every non-empty
    line the kernel subtracts the line's greatest element [m], so [np.exp]
    only sees arguments that are not positive; the entry for an element
    [t] is [expq (t - m)] divided by the positive sum [W] of these values
    over the line, and the entries of each line sum to one. *)
Theorem softmax_lines_sum_to_one (np_exp : xnum -> xnum) (expq : Q -> Q)
    (op : Softmax) (node : Apply) (x_at : TensorType) (ax : Z) (a : nat)
    (x : ndarray xnum) (qd : list Q)
    (Hin : nth_error (inputs node) 0 = Some x_at)
    (Hax : sm_axis op = Some ax)
    (Hnorm : normalize_axis_index ax (t_ndim x_at) = Ok a)
    (Hx : well_formed x)
    (Hrank : ndim_of x = t_ndim x_at)
    (Hfin : data x = map Num qd)
    (Hexp : forall t, np_exp (Num t) = Num (expq t))
    (Hpos : forall t, (0 < expq t)%Q) :
  exists k y,
    numba_funcify_Softmax op node = Ok k
    /\ run_softmax np_exp k x = Ok y
    /\ shape y = shape x
    /\ forall idx,
         in_boundsb idx (remove_axis a (shape x)) = true ->
         0 < nth a (shape x) 0 ->
         exists ql m W,
           axis_slice x a idx = Ok (map Num ql)
           /\ In m ql
           /\ (forall t, In t ql -> (t <= m)%Q)
           /\ (W == Qsum (map (fun t => expq (t - m)) ql))%Q
           /\ (0 < W)%Q
           /\ axis_slice y a idx
              = Ok (map (fun t => Num (expq (t - m) / W)%Q) ql)
           /\ (Qsum (map (fun t => expq (t - m) / W) ql) == 1)%Q.
Proof.
  destruct (softmax_builds op node x_at ax a Hin Hax Hnorm)
    as [rmax [rsum [Hk [Hmax Hsum]]]].
  destruct (run_softmax_lines np_exp a _ _ rmax rsum x Hmax Hsum Hx Hrank)
    as [y [Hrun [Hs [_ Hlines]]]].
  exists (mk_softmax_fn (Reducer rmax) (Reducer rsum)), y.
  split; [exact Hk|]. split; [exact Hrun|]. split; [exact Hs|].
  intros idx Hidx Hn.
  destruct (Hlines idx Hidx) as [xs [Hxs Hys]].
  destruct (finite_line x qd a idx xs Hfin Hxs) as [ql [-> Hlen]].
  destruct ql as [|q ql]; [simpl in Hlen; lia|].
  destruct (softmax_line_finite np_exp expq q ql Hexp Hpos)
    as [m [W [Hm [Hall [HW [HWpos [Hline Hone]]]]]]].
  exists (q :: ql), m, W.
  split; [exact Hxs|]. split; [exact Hm|]. split; [exact Hall|].
  split; [exact HW|]. split; [exact HWpos|].
  split; [rewrite Hys, Hline; reflexivity|exact Hone].
Qed.

Lemma softmax_lines_sum_to_one_witness :
  let np_exp := fun v => match v with
                         | Num t => Num (1 + t * t)
                         | _ => NaN
                         end in
  let node := mk_Apply [mk_TensorType float64 2 [None; None]]
                       [mk_TensorType float64 2 [None; None]] in
  let x := mk_ndarray [2; 2] [Num 1; Num 2; Num 3; Num 4] in
  well_formed x
  /\ data x = map Num [1; 2; 3; 4]%Q
  /\ (forall t : Q, (0 < 1 + t * t)%Q)
  /\ exists k y,
       numba_funcify_Softmax (mk_Softmax (Some 1%Z)) node = Ok k
       /\ run_softmax np_exp k x = Ok y
       /\ shape y = [2; 2].
Proof.
  intros np_exp node x.
  assert (Hpos : forall t : Q, (0 < 1 + t * t)%Q).
  { intros t. apply (Qlt_le_trans 0 1); [reflexivity|].
    rewrite <- (Qplus_0_r 1) at 1. apply Qplus_le_r.
    destruct t as [n d]. unfold Qle, Qmult. cbn [Qnum Qden]. nia. }
  split; [reflexivity|]. split; [reflexivity|]. split; [exact Hpos|].
  destruct (softmax_lines_sum_to_one np_exp (fun t => 1 + t * t)%Q
              (mk_Softmax (Some 1%Z)) node
              (mk_TensorType float64 2 [None; None]) 1%Z 1 x [1; 2; 3; 4]%Q
              eq_refl eq_refl eq_refl eq_refl eq_refl eq_refl
              (fun t => eq_refl) Hpos)
    as [k [y [Hk [Hr [Hs _]]]]].
  exists k, y. split; [exact Hk|]. split; [exact Hr|exact Hs].
Defined.

(** X27. Log-softmax along an axis on finite numbers, in exact arithmetic
    and for an [np.exp] with positive finite values [expq]: on every
    non-empty line the entry for an element [t] is [t - m] minus
    [np.log] of [W], where [m] is the line's greatest element and [W] the
    sum of [expq (t - m)] over the line; so [np.exp] only sees arguments
    that are not positive and [np.log] a positive one. *)
Theorem log_softmax_stable (np_exp np_log : xnum -> xnum) (expq : Q -> Q)
    (op : LogSoftmax) (node : Apply) (x_at : TensorType) (ax : Z) (a : nat)
    (x : ndarray xnum) (qd : list Q)
    (Hin : nth_error (inputs node) 0 = Some x_at)
    (Hax : lsm_axis op = Some ax)
    (Hnorm : normalize_axis_index ax (t_ndim x_at) = Ok a)
    (Hx : well_formed x)
    (Hrank : ndim_of x = t_ndim x_at)
    (Hfin : data x = map Num qd)
    (Hexp : forall t, np_exp (Num t) = Num (expq t))
    (Hpos : forall t, (0 < expq t)%Q) :
  exists k y,
    numba_funcify_LogSoftmax op node = Ok k
    /\ run_log_softmax np_exp np_log k x = Ok y
    /\ shape y = shape x
    /\ forall idx,
         in_boundsb idx (remove_axis a (shape x)) = true ->
         0 < nth a (shape x) 0 ->
         exists ql m W,
           axis_slice x a idx = Ok (map Num ql)
           /\ In m ql
           /\ (forall t, In t ql -> (t - m <= 0)%Q)
           /\ (W == Qsum (map (fun t => expq (t - m)) ql))%Q
           /\ (0 < W)%Q
           /\ axis_slice y a idx
              = Ok (map (fun t => xsub (Num (t - m)%Q) (np_log (Num W))) ql).
Proof.
  destruct (log_softmax_builds op node x_at ax a Hin Hax Hnorm)
    as [rmax [rsum [Hk [Hmax Hsum]]]].
  destruct (run_log_softmax_lines np_exp np_log a _ _ rmax rsum x Hmax Hsum
              Hx Hrank) as [y [Hrun [Hs [_ Hlines]]]].
  exists (mk_log_softmax_fn (Reducer rmax) (Reducer rsum)), y.
  split; [exact Hk|]. split; [exact Hrun|]. split; [exact Hs|].
  intros idx Hidx Hn.
  destruct (Hlines idx Hidx) as [xs [Hxs Hys]].
  destruct (finite_line x qd a idx xs Hfin Hxs) as [ql [-> Hlen]].
  destruct ql as [|q ql]; [simpl in Hlen; lia|].
  destruct (log_softmax_line_finite np_exp np_log expq q ql Hexp Hpos)
    as [m [W [Hm [Hall [HW [HWpos Hline]]]]]].
  exists (q :: ql), m, W.
  split; [exact Hxs|]. split; [exact Hm|]. split.
  { intros t Ht. pose proof (Hall t Ht) as Hle.
    apply (Qplus_le_l _ _ m). ring_simplify. exact Hle. }
  split; [exact HW|]. split; [exact HWpos|].
  rewrite Hys, Hline. reflexivity.
Qed.

Lemma log_softmax_stable_witness :
  let np_exp := fun v => match v with
                         | Num t => Num (1 + t * t)
                         | _ => NaN
                         end in
  let node := mk_Apply [mk_TensorType float64 2 [None; None]]
                       [mk_TensorType float64 2 [None; None]] in
  let x := mk_ndarray [2; 2] [Num 1; Num 2; Num 3; Num 4] in
  well_formed x
  /\ data x = map Num [1; 2; 3; 4]%Q
  /\ (forall t : Q, (0 < 1 + t * t)%Q)
  /\ exists k y,
       numba_funcify_LogSoftmax (mk_LogSoftmax (Some (-2)%Z)) node = Ok k
       /\ run_log_softmax np_exp (fun v => xsub v (Num 1)) k x = Ok y
       /\ shape y = [2; 2].
Proof.
  intros np_exp node x.
  assert (Hpos : forall t : Q, (0 < 1 + t * t)%Q).
  { intros t. apply (Qlt_le_trans 0 1); [reflexivity|].
    rewrite <- (Qplus_0_r 1) at 1. apply Qplus_le_r.
    destruct t as [n d]. unfold Qle, Qmult. cbn [Qnum Qden]. nia. }
  split; [reflexivity|]. split; [reflexivity|]. split; [exact Hpos|].
  destruct (log_softmax_stable np_exp (fun v => xsub v (Num 1))
              (fun t => 1 + t * t)%Q
              (mk_LogSoftmax (Some (-2)%Z)) node
              (mk_TensorType float64 2 [None; None]) (-2)%Z 0 x [1; 2; 3; 4]%Q
              eq_refl eq_refl eq_refl eq_refl eq_refl eq_refl
              (fun t => eq_refl) Hpos)
    as [k [y [Hk [Hr [Hs _]]]]].
  exists k, y. split; [exact Hk|]. split; [exact Hr|exact Hs].
Defined.

(** X28. The softmax gradient along an axis on finite numbers, in exact
    arithmetic: on every line the entries of the result sum to the sum of
    [dy * sm] over the line times one minus the sum of [sm] over the line;
    so when the line of [sm] sums to one, as a softmax does, the line of
    the gradient sums to zero. *)
Theorem softmax_grad_lines_sum (op : SoftmaxGrad) (node : Apply)
    (sm_at : TensorType) (ax : Z) (a : nat) (dy sm : ndarray xnum)
    (dq sq : list Q)
    (Hin : nth_error (inputs node) 1 = Some sm_at)
    (Hax : smg_axis op = Some ax)
    (Hnorm : normalize_axis_index ax (t_ndim sm_at) = Ok a)
    (Hdy : well_formed dy)
    (Hsm : well_formed sm)
    (Hshape : shape dy = shape sm)
    (Hrank : ndim_of sm = t_ndim sm_at)
    (Hdfin : data dy = map Num dq)
    (Hsfin : data sm = map Num sq) :
  exists k dx,
    numba_funcify_SoftmaxGrad op node = Ok k
    /\ run_softmax_grad k dy sm = Ok dx
    /\ shape dx = shape sm
    /\ forall idx,
         in_boundsb idx (remove_axis a (shape sm)) = true ->
         exists dl sl gl,
           axis_slice dy a idx = Ok (map Num dl)
           /\ axis_slice sm a idx = Ok (map Num sl)
           /\ axis_slice dx a idx = Ok (map Num gl)
           /\ (Qsum gl
               == Qsum (map (fun p => fst p * snd p) (combine dl sl))
                  * (1 - Qsum sl))%Q
           /\ ((Qsum sl == 1)%Q -> (Qsum gl == 0)%Q).
Proof.
  destruct (softmax_grad_builds op node sm_at ax a Hin Hax Hnorm)
    as [rsum [Hk Hsum]].
  destruct (run_softmax_grad_lines a _ _ rsum dy sm Hsum Hdy Hsm Hshape Hrank)
    as [dx [Hrun [Hs [_ Hlines]]]].
  exists (mk_softmax_grad_fn (Reducer rsum)), dx.
  split; [exact Hk|]. split; [exact Hrun|]. split; [exact Hs|].
  intros idx Hidx.
  destruct (Hlines idx Hidx) as [dys [sms [Hdys [Hsms Hdx]]]].
  destruct (finite_line dy dq a idx dys Hdfin Hdys) as [dl [-> Hld]].
  destruct (finite_line sm sq a idx sms Hsfin Hsms) as [sl [-> Hls]].
  destruct (softmax_grad_line_finite dl sl) as [gl [Hg [_ Hsumg]]].
  { rewrite Hld, Hls, Hshape. reflexivity. }
  exists dl, sl, gl.
  split; [exact Hdys|]. split; [exact Hsms|].
  split; [rewrite Hdx, Hg; reflexivity|]. split; [exact Hsumg|].
  intros Hone. rewrite Hsumg, Hone. ring.
Qed.

Lemma softmax_grad_lines_sum_witness :
  let t := mk_TensorType float64 2 [None; None] in
  let node := mk_Apply [t; t] [t] in
  let dy := mk_ndarray [2; 2] [Num 1; Num 2; Num 3; Num 4] in
  let sm := mk_ndarray [2; 2] [Num 1; Num 0; Num 0; Num 1] in
  well_formed dy /\ well_formed sm
  /\ data dy = map Num [1; 2; 3; 4]%Q
  /\ data sm = map Num [1; 0; 0; 1]%Q
  /\ exists k dx,
       numba_funcify_SoftmaxGrad (mk_SoftmaxGrad (Some (-1)%Z)) node = Ok k
       /\ run_softmax_grad k dy sm = Ok dx
       /\ shape dx = [2; 2].
Proof.
  intros t node dy sm. split; [reflexivity|]. split; [reflexivity|].
  split; [reflexivity|]. split; [reflexivity|].
  destruct (softmax_grad_lines_sum (mk_SoftmaxGrad (Some (-1)%Z)) node t
              (-1)%Z 1 dy sm [1; 2; 3; 4]%Q [1; 0; 0; 1]%Q
              eq_refl eq_refl eq_refl eq_refl eq_refl eq_refl eq_refl
              eq_refl eq_refl)
    as [k [dx [Hk [Hr [Hs _]]]]].
  exists k, dx. split; [exact Hk|]. split; [exact Hr|exact Hs].
Defined.

(** ** The softmax kernel over all axes *)

Lemma broadcast_shapes2_scalar_r (s : list nat) : broadcast_shapes2 s [] = Ok s.
Proof.
  unfold broadcast_shapes2. cbn [rev].
  assert (E : broadcast_rev (rev s) [] = Ok (rev s))
    by (destruct (rev s); reflexivity).
  rewrite E. cbn [bind]. rewrite rev_involutive. reflexivity.
Qed.

(** An operator between an array and a scalar. *)
Lemma np_binary_scalar_r {A : Type} `{Scalar A} (o : binop) (a : ndarray A)
    (z : A) :
  well_formed a ->
  np_binary o a (mk_ndarray [] [z])
  = Ok (mk_ndarray (shape a) (map (fun u => s_binop o u z) (data a))).
Proof.
  intros Hw.
  assert (Hz : forall j, getitem (mk_ndarray [] [z]) (broadcast_index [] j)
                         = Ok z) by reflexivity.
  destruct (np_binary_cells o a (mk_ndarray [] [z]) (shape a))
    as [r [Er [Hs [Hwr Hc]]]].
  - apply broadcast_shapes2_scalar_r.
  - intros j Hj. rewrite (broadcast_index_self _ _ Hj).
    apply getitem_ok; assumption.
  - intros j Hj. exists z. apply Hz.
  - rewrite Er. f_equal. destruct r as [rs rd]. cbn [shape data] in *.
    subst rs. f_equal. apply nth_error_extensional. intros k.
    destruct (Nat.lt_ge_cases k (size_of (shape a))) as [Hk|Hk].
    + destruct (ravel_ndindex (shape a) k Hk) as [j [Hj Hrav]].
      destruct (Hc j Hj) as [u [v [Hu [Hv Hr]]]].
      cbn [shape] in Hv. rewrite Hz in Hv. inversion Hv; subst v.
      rewrite (broadcast_index_self _ _ Hj) in Hu.
      apply getitem_cell in Hu. apply getitem_cell in Hr.
      unfold cell in Hu, Hr. cbn [shape data] in Hr.
      rewrite Hrav in Hu, Hr. rewrite Hr, nth_error_map, Hu. reflexivity.
    + unfold well_formed in Hw, Hwr. cbn [shape data] in Hwr.
      assert (E1 : nth_error rd k = None) by (apply nth_error_None; lia).
      assert (E2 : nth_error (map (fun u => s_binop o u z) (data a)) k = None)
        by (apply nth_error_None; rewrite length_map; lia).
      rewrite E1, E2. reflexivity.
Qed.

(** With no axis the kernel handles the whole array as one line, the
    maximum taken by [np.max] and the sum by [np.sum]. *)
Lemma run_softmax_all {A : Type} `{Scalar A} (np_exp : A -> A)
    (x : ndarray A) :
  well_formed x ->
  run_softmax np_exp (mk_softmax_fn NpMax NpSum) x
  = (z <- np_max x ;;
     let e_x := map (fun v => np_exp (s_binop BSub v z)) (data x) in
     let w := fold_left (s_binop BAdd) e_x (s_of_Z 0) in
     Ok (mk_ndarray (shape x) (map (fun e => s_binop BTrueDiv e w) e_x))).
Proof.
  intros Hw. unfold run_softmax. cbn [sm_reduce_max sm_reduce_sum run_reduce].
  destruct (np_max x) as [z|e]; cbn [bind np_asarray]; [|reflexivity].
  rewrite (np_binary_scalar_r BSub x z Hw). cbn [bind].
  unfold np_sum, np_unary. cbn [shape data].
  rewrite np_binary_scalar_r.
  - cbn [bind shape data].
    rewrite (map_map (fun u => s_binop BSub u z) np_exp). reflexivity.
  - unfold well_formed. cbn [shape data]. rewrite !length_map. exact Hw.
Qed.

Lemma max_loop_finite (ql : list Q) :
  forall m0,
    max_loop (map Num ql) (Num m0)
    = fold_left (fun acc v => if xltb acc v then v else acc) (map Num ql)
                (Num m0).
Proof.
  induction ql as [|q ql IH]; intros m0; [reflexivity|].
  cbn [map max_loop fold_left s_isnan s_cmp xnum_Scalar xnum_cmp].
  destruct (xltb (Num m0) (Num q)); apply IH.
Qed.

Lemma np_max_finite (s : list nat) (q : Q) (ql : list Q) :
  np_max (mk_ndarray s (map Num (q :: ql))) = Ok (line_max (map Num (q :: ql))).
Proof.
  unfold np_max. cbn [data map s_isnan xnum_Scalar].
  rewrite max_loop_finite. reflexivity.
Qed.

(** X29. Softmax with no axis: the builder needs only the node's input;
    the kernel raises [ValueError] on an array without elements; on a
    well-formed array of finite numbers with at least one element it
    returns, in exact arithmetic and for an [np.exp] with positive finite
    values [expq], an array of the same shape whose entry for an element
    [t] is [expq (t - m)] over the sum [W] of these values, [m] being the
    greatest element of the whole array; all entries together sum to
    one. *)
Theorem softmax_all_axes (np_exp : xnum -> xnum) (expq : Q -> Q)
    (op : Softmax) (node : Apply) (x_at : TensorType)
    (x : ndarray xnum) (qd : list Q)
    (Hin : nth_error (inputs node) 0 = Some x_at)
    (Hax : sm_axis op = None)
    (Hx : well_formed x)
    (Hfin : data x = map Num qd)
    (Hexp : forall t, np_exp (Num t) = Num (expq t))
    (Hpos : forall t, (0 < expq t)%Q) :
  exists k,
    numba_funcify_Softmax op node = Ok k
    /\ (qd = [] -> run_softmax np_exp k x = Err ValueError)
    /\ (qd <> [] ->
        exists m W,
          In m qd
          /\ (forall t, In t qd -> (t <= m)%Q)
          /\ (W == Qsum (map (fun t => expq (t - m)) qd))%Q
          /\ (0 < W)%Q
          /\ run_softmax np_exp k x
             = Ok (mk_ndarray (shape x)
                     (map (fun t => Num (expq (t - m) / W)%Q) qd))
          /\ (Qsum (map (fun t => expq (t - m) / W) qd) == 1)%Q).
Proof.
  exists (mk_softmax_fn NpMax NpSum). split.
  { unfold numba_funcify_Softmax. rewrite Hin. cbn [of_option bind].
    rewrite Hax. reflexivity. }
  rewrite (run_softmax_all np_exp x Hx). split.
  - intros ->. unfold np_max. rewrite Hfin. reflexivity.
  - intros Hne. destruct qd as [|q ql]; [congruence|].
    destruct (softmax_line_finite np_exp expq q ql Hexp Hpos)
      as [m [W [Hm [Hall [HW [HWpos [Hline Hone]]]]]]].
    exists m, W. split; [exact Hm|]. split; [exact Hall|].
    split; [exact HW|]. split; [exact HWpos|]. split; [|exact Hone].
    destruct x as [s d]. cbn [data shape] in *. subst d.
    rewrite np_max_finite. cbn [bind]. rewrite <- Hline. reflexivity.
Qed.

Lemma softmax_all_axes_witness :
  let np_exp := fun v => match v with
                         | Num t => Num (1 + t * t)
                         | _ => NaN
                         end in
  let node := mk_Apply [mk_TensorType float64 2 [None; None]]
                       [mk_TensorType float64 2 [None; None]] in
  let x := mk_ndarray [2; 2] [Num 1; Num 2; Num 3; Num 4] in
  well_formed x
  /\ data x = map Num [1; 2; 3; 4]%Q
  /\ (forall t : Q, (0 < 1 + t * t)%Q)
  /\ exists k y,
       numba_funcify_Softmax (mk_Softmax None) node = Ok k
       /\ run_softmax np_exp k x = Ok y
       /\ shape y = [2; 2].
Proof.
  intros np_exp node x.
  assert (Hpos : forall t : Q, (0 < 1 + t * t)%Q).
  { intros t. apply (Qlt_le_trans 0 1); [reflexivity|].
    rewrite <- (Qplus_0_r 1) at 1. apply Qplus_le_r.
    destruct t as [n d]. unfold Qle, Qmult. cbn [Qnum Qden]. nia. }
  split; [reflexivity|]. split; [reflexivity|]. split; [exact Hpos|].
  destruct (softmax_all_axes np_exp (fun t => 1 + t * t)%Q
              (mk_Softmax None) node
              (mk_TensorType float64 2 [None; None]) x [1; 2; 3; 4]%Q
              eq_refl eq_refl eq_refl eq_refl (fun t => eq_refl) Hpos)
    as [k [Hk [_ Hrun]]].
  destruct (Hrun ltac:(discriminate)) as [m [W [_ [_ [_ [_ [Hr _]]]]]]].
  exists k. eexists. split; [exact Hk|]. split; [exact Hr|reflexivity].
Defined.

(** ** The softmax gradient over all axes *)

Lemma broadcast_shapes2_scalar_l (s : list nat) : broadcast_shapes2 [] s = Ok s.
Proof.
  unfold broadcast_shapes2. cbn [rev broadcast_rev bind].
  rewrite rev_involutive. reflexivity.
Qed.

Lemma nth_error_combine {B C : Type} (l1 : list B) :
  forall (l2 : list C) (k : nat) (u : B) (v : C),
    nth_error l1 k = Some u -> nth_error l2 k = Some v ->
    nth_error (combine l1 l2) k = Some (u, v).
Proof.
  induction l1 as [|b l1 IH]; intros [|c l2] [|k] u v H1 H2;
    try discriminate.
  - cbn in *. congruence.
  - cbn in *. apply IH; assumption.
Qed.

Lemma combine_map_r {B C D : Type} (f : C -> D) (l1 : list B) :
  forall l2 : list C,
    combine l1 (map f l2) = map (fun p => (fst p, f (snd p))) (combine l1 l2).
Proof.
  induction l1 as [|b l1 IH]; intros [|c l2]; try reflexivity.
  cbn [map combine fst snd]. rewrite IH. reflexivity.
Qed.

Lemma np_binary_scalar_l {A : Type} `{Scalar A} (o : binop) (z : A)
    (a : ndarray A) :
  well_formed a ->
  np_binary o (mk_ndarray [] [z]) a
  = Ok (mk_ndarray (shape a) (map (fun v => s_binop o z v) (data a))).
Proof.
  intros Hw.
  assert (Hz : forall j, getitem (mk_ndarray [] [z]) (broadcast_index [] j)
                         = Ok z) by reflexivity.
  destruct (np_binary_cells o (mk_ndarray [] [z]) a (shape a))
    as [r [Er [Hs [Hwr Hc]]]].
  - apply broadcast_shapes2_scalar_l.
  - intros j Hj. exists z. apply Hz.
  - intros j Hj. rewrite (broadcast_index_self _ _ Hj).
    apply getitem_ok; assumption.
  - rewrite Er. f_equal. destruct r as [rs rd]. cbn [shape data] in *.
    subst rs. f_equal. apply nth_error_extensional. intros k.
    destruct (Nat.lt_ge_cases k (size_of (shape a))) as [Hk|Hk].
    + destruct (ravel_ndindex (shape a) k Hk) as [j [Hj Hrav]].
      destruct (Hc j Hj) as [u [v [Hu [Hv Hr]]]].
      cbn [shape] in Hu. rewrite Hz in Hu. inversion Hu; subst u.
      rewrite (broadcast_index_self _ _ Hj) in Hv.
      apply getitem_cell in Hv. apply getitem_cell in Hr.
      unfold cell in Hv, Hr. cbn [shape data] in Hr.
      rewrite Hrav in Hv, Hr. rewrite Hr, nth_error_map, Hv. reflexivity.
    + unfold well_formed in Hw, Hwr. cbn [shape data] in Hwr.
      assert (E1 : nth_error rd k = None) by (apply nth_error_None; lia).
      assert (E2 : nth_error (map (fun v => s_binop o z v) (data a)) k = None)
        by (apply nth_error_None; rewrite length_map; lia).
      rewrite E1, E2. reflexivity.
Qed.

(** An operator between two arrays of the same shape, on the storage. *)
Lemma np_binary_same_data {A : Type} `{Scalar A} (o : binop)
    (x y : ndarray A) :
  well_formed x -> well_formed y -> shape y = shape x ->
  np_binary o x y
  = Ok (mk_ndarray (shape x)
          (map (fun p => s_binop o (fst p) (snd p))
               (combine (data x) (data y)))).
Proof.
  intros Hwx Hwy Hs.
  destruct (np_binary_same o x y Hwx Hwy Hs) as [r [Er [Hsr [Hwr Hc]]]].
  rewrite Er. f_equal. destruct r as [rs rd]. cbn [shape data] in *.
  subst rs. f_equal. apply nth_error_extensional. intros k.
  destruct (Nat.lt_ge_cases k (size_of (shape x))) as [Hk|Hk].
  - destruct (ravel_ndindex (shape x) k Hk) as [j [Hj Hrav]].
    destruct (getitem_ok x j Hwx Hj) as [u Hu].
    assert (Hjy : in_boundsb j (shape y) = true) by (rewrite Hs; exact Hj).
    destruct (getitem_ok y j Hwy Hjy) as [v Hv].
    pose proof (Hc j u v Hj Hu Hv) as Hr.
    apply getitem_cell in Hu. apply getitem_cell in Hv.
    apply getitem_cell in Hr. unfold cell in Hu, Hv, Hr.
    cbn [shape data] in Hr. rewrite Hs in Hv. rewrite Hrav in Hu, Hv, Hr.
    rewrite Hr, nth_error_map, (nth_error_combine _ _ _ _ _ Hu Hv).
    reflexivity.
  - unfold well_formed in Hwx, Hwy, Hwr. cbn [shape data] in Hwr.
    assert (E1 : nth_error rd k = None) by (apply nth_error_None; lia).
    assert (E2 : nth_error
                   (map (fun p => s_binop o (fst p) (snd p))
                        (combine (data x) (data y))) k = None).
    { apply nth_error_None. rewrite length_map, length_combine.
      rewrite Hs in Hwy. lia. }
    rewrite E1, E2. reflexivity.
Qed.

(** With no axis the gradient kernel handles the two arrays as one line
    each. *)
Lemma run_softmax_grad_all (dy sm : ndarray xnum) :
  well_formed dy -> well_formed sm -> shape dy = shape sm ->
  run_softmax_grad (mk_softmax_grad_fn NpSum) dy sm
  = Ok (mk_ndarray (shape sm) (softmax_grad_line (data dy) (data sm))).
Proof.
  intros Hwdy Hwsm Hs.
  unfold run_softmax_grad. cbn [smg_reduce_sum run_reduce].
  rewrite (np_binary_same_data BMul dy sm Hwdy Hwsm (eq_sym Hs)).
  cbn [bind np_asarray].
  set (p := map (fun q => s_binop BMul (fst q) (snd q))
                (combine (data dy) (data sm))).
  assert (Hlen : length p = size_of (shape sm)).
  { unfold p. rewrite length_map, length_combine.
    unfold well_formed in Hwdy, Hwsm. rewrite Hs in Hwdy. lia. }
  rewrite (np_binary_scalar_l BMul _ sm Hwsm). cbn [bind].
  rewrite np_binary_same_data.
  - cbn [shape data]. rewrite Hs, combine_map_r, map_map. reflexivity.
  - unfold well_formed. cbn [shape data]. rewrite Hs. exact Hlen.
  - unfold well_formed. cbn [shape data]. rewrite length_map. exact Hwsm.
  - cbn [shape]. symmetry. exact Hs.
Qed.

(** X30. The softmax gradient with no axis, on two well-formed arrays of
    finite numbers of the same shape, in exact arithmetic: the builder
    needs only the node's second input, and the kernel returns an array of
    that shape whose entries all together sum to the sum of [dy * sm]
    times one minus the sum of [sm]; so the gradient sums to zero when
    [sm] sums to one. *)
Theorem softmax_grad_all_axes (op : SoftmaxGrad) (node : Apply)
    (sm_at : TensorType) (dy sm : ndarray xnum) (dq sq : list Q)
    (Hin : nth_error (inputs node) 1 = Some sm_at)
    (Hax : smg_axis op = None)
    (Hdy : well_formed dy)
    (Hsm : well_formed sm)
    (Hshape : shape dy = shape sm)
    (Hdfin : data dy = map Num dq)
    (Hsfin : data sm = map Num sq) :
  exists k gl,
    numba_funcify_SoftmaxGrad op node = Ok k
    /\ run_softmax_grad k dy sm = Ok (mk_ndarray (shape sm) (map Num gl))
    /\ length gl = length sq
    /\ (Qsum gl
        == Qsum (map (fun p => fst p * snd p) (combine dq sq))
           * (1 - Qsum sq))%Q
    /\ ((Qsum sq == 1)%Q -> (Qsum gl == 0)%Q).
Proof.
  assert (Hl : length dq = length sq).
  { unfold well_formed in Hdy, Hsm. rewrite Hdfin in Hdy. rewrite Hsfin in Hsm.
    rewrite length_map in Hdy, Hsm. rewrite Hdy, Hsm, Hshape. reflexivity. }
  destruct (softmax_grad_line_finite dq sq Hl) as [gl [Hg [Hlg Hsumg]]].
  exists (mk_softmax_grad_fn NpSum), gl. split.
  { unfold numba_funcify_SoftmaxGrad. rewrite Hin. cbn [of_option bind].
    rewrite Hax. reflexivity. }
  split.
  { rewrite (run_softmax_grad_all dy sm Hdy Hsm Hshape), Hdfin, Hsfin, Hg.
    reflexivity. }
  split; [exact Hlg|]. split; [exact Hsumg|].
  intros Hone. rewrite Hsumg, Hone. ring.
Qed.

Lemma softmax_grad_all_axes_witness :
  let t := mk_TensorType float64 2 [None; None] in
  let node := mk_Apply [t; t] [t] in
  let dy := mk_ndarray [2; 2] [Num 1; Num 2; Num 3; Num 4] in
  let sm := mk_ndarray [2; 2] [Num 1; Num 0; Num 0; Num 0] in
  well_formed dy /\ well_formed sm
  /\ data dy = map Num [1; 2; 3; 4]%Q
  /\ data sm = map Num [1; 0; 0; 0]%Q
  /\ exists k dx,
       numba_funcify_SoftmaxGrad (mk_SoftmaxGrad None) node = Ok k
       /\ run_softmax_grad k dy sm = Ok dx
       /\ shape dx = [2; 2].
Proof.
  intros t node dy sm. split; [reflexivity|]. split; [reflexivity|].
  split; [reflexivity|]. split; [reflexivity|].
  destruct (softmax_grad_all_axes (mk_SoftmaxGrad None) node t
              dy sm [1; 2; 3; 4]%Q [1; 0; 0; 0]%Q
              eq_refl eq_refl eq_refl eq_refl eq_refl eq_refl eq_refl)
    as [k [gl [Hk [Hr _]]]].
  exists k. eexists. split; [exact Hk|]. split; [exact Hr|reflexivity].
Defined.
